(** * Jigsaw-puzzle engine: placement, snapping, connectivity, completion

    A shallow embedding of the piece-geometry and connectivity logic of the
    puzzle components:

    - [ExactSlot]      : [src/components/puzzleGame-berhasil.tsx], the
                         exact-slot variant
    - [Engine]         : what the neighbour-snap variants share: pieces,
                         placed pieces, the traversal of [connectedGroup]
                         links, [checkAndSnapToNeighbors], the pool drop and
                         the return to the pool
    - [TriangleGrid]   : partition and [setupNeighbors] of
                         [app/puzzle-triangle/page.tsx]
    - [RandomGrid]     : partition and [setupNeighbors] of
                         [app/puzzle-random/page.tsx]
    - [DndTriangle]    : the handlers of [app/puzzle-triangle/page.tsx]
    - [MouseTriangle]  : the handlers of the mouse-driven triangle component
    - [RandomPage]     : the handlers of [app/puzzle-random/page.tsx]
    - [Grid]           : the piece-count tables of the two pages
    - [RandomPuzzle]   : the image scale and the value
                         [createTrianglePuzzle] of
                         [app/puzzle-random/page.tsx] resolves to
    - [Jigsaw]         : [generateTabPattern], [generatePuzzlePath] and the
                         canvas of a piece in
                         [src/components/puzzleGame-berhasil.tsx]
    - [Clock]          : the countdown and [formatTime] of the two pages
    - [Shuffle]        : the shuffle of the pool in the initialisation
    - [Display]        : the display scale and the positions at which the
                         pages draw placed pieces and the drag preview
    - [TriangleCanvas] : the canvas, the clip path and the source rectangle
                         of [createTrianglePiece]
    - [Samples]        : concrete puzzles and sessions

    JavaScript strings are [string]; arrays are lists; array reads are
    stdpp's list lookup [!!] (an out-of-range read is [None], JavaScript's
    [undefined]); a [Map] is a [gmap]; a [Set] of strings is a list without
    duplicates in insertion order.  Numbers are taken as exact rationals:
    coordinates are sums, differences, products and quotients of image
    dimensions and grid indices, and the rounding of binary floating point
    is left out. *)

From stdpp Require Import gmap strings pretty list.
From Stdlib Require Import Reals Qreals Lra.
From Stdlib Require Import QArith Qabs Qminmax Qround Qpower Lqa.

Set Default Proof Using "Type".
#[local] Set Warnings "-clear-no-such-hyp".
Open Scope string_scope.
Open Scope Z_scope.
Open Scope nat_scope.
Open Scope list_scope.

(* ===================================================================== *)
(** * Part I: the embedding                                               *)
(* ===================================================================== *)

(** ** Exact-slot variant ([puzzleGame-berhasil.tsx]) *)

Module ExactSlot.

(** [type Piece]; the rasterised image and the tab padding play no part in
    placement and are left out. *)
Record Piece := mkPiece {
  id : string;
  correctIndex : nat;
  row : nat;
  col : nat;
}.

Inductive PuzzleMode := partial | empty.

(** [splitImage]: the two nested loops, row-major;
    [index = row * cols + col], [id = `piece-${index}`]. *)
Definition splitImage (rows cols : nat) : list Piece :=
  flat_map (λ r,
    map (λ c,
      let index := r * cols + c in
      {| id := "piece-" +:+ pretty index; correctIndex := index;
         row := r; col := c |})
      (seq 0 cols))
    (seq 0 rows).

(** [pieces.find(p => p.id === x)] *)
Definition findPiece (pieces : list Piece) (x : string) : option Piece :=
  find (λ p, bool_decide (id p = x)) pieces.

(** React state of [PuzzleJigsaw]. *)
Record State := mkState {
  pieces : list Piece;
  gridItems : list string;
  poolItems : list string;
  activeId : option string;
  isSolved : bool;
}.

(** The two [alert]s of [handleDragEnd]. *)
Inductive Signal :=
| SlotOccupied     (* alert('Slot sudah terisi!') *)
| WrongPosition.   (* alert('Posisi salah!') *)

(** [over.id]: ['slot-' + index], ['pool'], or any other droppable. *)
Inductive Droppable :=
| OverSlot (targetIndex : nat)
| OverPool
| OverOther.

(** [Array(n).fill('')] *)
Definition emptyGrid (n : nat) : list string := replicate n "".

(** [useState] initial values, before the image is loaded. *)
Definition initialState (rows cols : nat) : State :=
  {| pieces := []; gridItems := emptyGrid (rows * cols); poolItems := [];
     activeId := None; isSolved := false |}.

(** The initialisation effect.  [shuffledPieces] is the outcome of the
    random sort of [splitPieces]. *)
Definition initialize (rows cols : nat) (mode : PuzzleMode)
    (shuffledPieces : list Piece) (st : State) : State :=
  let splitPieces := splitImage rows cols in
  let totalSlots := rows * cols in
  let shuffledIds := map id shuffledPieces in
  match mode with
  | partial =>
      (* Math.floor(totalSlots * 0.4) + 2 *)
      let placedCount := (totalSlots * 2) / 5 + 2 in
      let placedPieces := take placedCount shuffledPieces in
      let newGrid :=
        foldl (λ g piece, <[correctIndex piece := id piece]> g)
              (emptyGrid totalSlots) placedPieces in
      let remainingIds :=
        filter (λ i, ¬ Exists (λ p, id p = i) placedPieces) shuffledIds in
      {| pieces := splitPieces; gridItems := newGrid;
         poolItems := remainingIds;
         activeId := activeId st; isSolved := isSolved st |}
  | empty =>
      {| pieces := splitPieces; gridItems := emptyGrid totalSlots;
         poolItems := shuffledIds;
         activeId := activeId st; isSolved := isSolved st |}
  end.

(** The per-slot test of the solved check:
    [pieces.find(p => p.id === id)?.correctIndex === idx]. *)
Definition slotCorrect (pieces : list Piece) (idx : nat) (i : string) : bool :=
  match findPiece pieces i with
  | Some p => bool_decide (correctIndex p = idx)
  | None => false
  end.

(** [gridItems.every((id, idx) => ...)] *)
Definition allSlotsCorrect (pieces : list Piece) (grid : list string) : bool :=
  forallb (λ '(idx, i), slotCorrect pieces idx i) (imap pair grid).

(** The guard of the solved check:
    [poolItems.length === 0 && !gridItems.includes('')]. *)
Definition boardFull (st : State) : bool :=
  bool_decide (length (poolItems st) = 0) && negb (bool_decide ("" ∈ gridItems st)).

(** Does the solved-check effect call [setIsSolved(true)]? *)
Definition solvedCheck (st : State) : bool :=
  boardFull st && allSlotsCorrect (pieces st) (gridItems st).

Definition runSolvedCheck (st : State) : State :=
  if solvedCheck st
  then {| pieces := pieces st; gridItems := gridItems st;
          poolItems := poolItems st; activeId := activeId st;
          isSolved := true |}
  else st.

Definition handleDragStart (active : string) (st : State) : State :=
  {| pieces := pieces st; gridItems := gridItems st;
     poolItems := poolItems st; activeId := Some active;
     isSolved := isSolved st |}.

(** [gridItems.indexOf(x)] *)
Definition indexOf (x : string) (l : list string) : option nat :=
  fst <$> list_find (λ y, y = x) l.

(** [handleDragEnd]: the new state and the alert raised, if any. *)
Definition handleDragEnd (active : string) (over : option Droppable)
    (st : State) : State * option Signal :=
  let st0 := {| pieces := pieces st; gridItems := gridItems st;
                poolItems := poolItems st; activeId := None;
                isSolved := isSolved st |} in
  match over with
  | None => (st0, None)
  | Some target =>
    match findPiece (pieces st) active with
    | None => (st0, None)
    | Some piece =>
      match target with
      | OverSlot targetIndex =>
          if bool_decide (gridItems st !! targetIndex ≠ Some "")
          then (st0, Some SlotOccupied)
          else if bool_decide (correctIndex piece ≠ targetIndex)
          then (st0, Some WrongPosition)
          else
            ({| pieces := pieces st;
                gridItems := <[targetIndex := active]> (gridItems st);
                poolItems := filter (λ i, i ≠ active) (poolItems st);
                activeId := None; isSolved := isSolved st |}, None)
      | OverPool =>
          match indexOf active (gridItems st) with
          | Some fromGridIndex =>
            ({| pieces := pieces st;
                gridItems := <[fromGridIndex := ""]> (gridItems st);
                poolItems := poolItems st ++ [active];
                activeId := None; isSolved := isSolved st |}, None)
          | None => (st0, None)
          end
      | OverOther => (st0, None)
      end
    end
  end.

(** Pointer events reaching the component. *)
Inductive Event :=
| DragStart (active : string)
| DragEnd (active : string) (over : option Droppable).

(** One event, followed by the solved-check effect. *)
Definition step (e : Event) (st : State) : State :=
  runSolvedCheck
    match e with
    | DragStart a => handleDragStart a st
    | DragEnd a o => (handleDragEnd a o st).1
    end.

(** Observable states of a session: the puzzle is initialised from some
    shuffle of the split pieces, then events arrive. *)
Inductive reachable (rows cols : nat) : State → Prop :=
| reach_init mode shuffled :
    shuffled ≡ₚ splitImage rows cols →
    reachable rows cols
      (runSolvedCheck (initialize rows cols mode shuffled (initialState rows cols)))
| reach_step e st :
    reachable rows cols st → reachable rows cols (step e st).

End ExactSlot.

(** ** Shared engine of the neighbour-snap variants

    [distance], [getConnectedGroup] and [checkAndSnapToNeighbors] are the
    same text in [app/puzzle-triangle/page.tsx], [app/puzzle-random/page.tsx]
    and the mouse-driven triangle component.

    Numbers.  JavaScript numbers are idealised as exact rationals [Q]
    (rounding of doubles is not modelled); equality of coordinates is [==].

    Sets and maps.  A [Set<string>] is a duplicate-free list in insertion
    order (the order [forEach] and spread iterate in); [Map<string,
    PlacedPiece>] is [gmap string PlacedPiece.t], its iteration order is never
    observed by the logic modelled here.  The [neighbors] object is an
    association list in property-insertion order (the order of
    [Object.values]). *)

Module Engine.

Record Point := mkPoint { x : Q; y : Q }.

(** Coordinate-wise numeric equality of points. *)
Definition Point_eq (p q : Point) : Prop := (x p == x q ∧ y p == y q)%Q.

Definition Point_add (p d : Point) : Point :=
  {| x := x p + x d; y := y p + y d |}%Q.
Definition Point_sub (p q : Point) : Point :=
  {| x := x p - x q; y := y p - y q |}%Q.

(** An edge key is a string formatted from four numbers; two keys are the
    same string exactly when the numbers agree, so the key is kept as the
    four numbers. *)
Record EdgeKey := mkKey { kx0 : Q; ky0 : Q; kx1 : Q; ky1 : Q }.

Definition EdgeKey_eqb (a b : EdgeKey) : bool :=
  Qeq_bool (kx0 a) (kx0 b) && Qeq_bool (ky0 a) (ky0 b)
  && Qeq_bool (kx1 a) (kx1 b) && Qeq_bool (ky1 a) (ky1 b).

Module Piece.
Record t := mk {
  id : string;
  row : nat;
  col : nat;
  triangleIndex : nat;
  correctPosition : Point;
  polygon : list Point;
  width : Q;
  height : Q;
  neighbors : list (EdgeKey * string);
}.
End Piece.

Module PlacedPiece.
Record t := mk {
  id : string;
  position : Point;
  isLocked : bool;
  connectedGroup : list string;
}.
End PlacedPiece.

(** [set.add(x)] *)
Definition Set_add (s : list string) (i : string) : list string :=
  if bool_decide (i ∈ s) then s else s ++ [i].

(** [new Set(array)] *)
Definition Set_from (l : list string) : list string := foldl Set_add [] l.

(** [new Set([...all].filter(cId => cId !== id))] *)
Definition Set_without (all : list string) (i : string) : list string :=
  filter (λ c, c ≠ i) all.

(** [Object.values(piece.neighbors)] *)
Definition neighborValues (piece : Piece.t) : list string :=
  map snd (Piece.neighbors piece).

(** [pieces.find(p => p.id === i)] *)
Definition findPiece (pieces : list Piece.t) (i : string) : option Piece.t :=
  find (λ p, bool_decide (Piece.id p = i)) pieces.

(** A value [Math.sqrt(r)], kept as its radicand [r].  [Math.sqrt] is
    increasing, so [sqrt r < t] is [0 < t ∧ r < t²] and
    [sqrt r1 < sqrt r2] is [r1 < r2]; these are the only uses the code makes
    of a distance. *)
Record Sqrt := sqrtOf { radicand : Q }.

Definition Qltb (a b : Q) : bool := negb (Qle_bool b a).

(** [d < t] for a number [t] *)
Definition Sqrt_lt_num (d : Sqrt) (t : Q) : bool :=
  Qltb 0 t && Qltb (radicand d) (t * t).

(** [d1 < d2], also the sign test of [d1 - d2] *)
Definition Sqrt_lt (d1 d2 : Sqrt) : bool := Qltb (radicand d1) (radicand d2).

(** [distance]: [Math.sqrt((p1.x - p2.x) ** 2 + (p1.y - p2.y) ** 2)] *)
Definition distance (p1 p2 : Point) : Sqrt :=
  sqrtOf ((x p1 - x p2) * (x p1 - x p2) + (y p1 - y p2) * (y p1 - y p2))%Q.

(** The traversal loop shared by [getConnectedGroup], the solved check of
    the dnd-kit variant and its neighbour expansion (the only one with a
    non-empty [skip]: [connectedGroup.includes(current)]).  [fuel] bounds
    the number of loop iterations; [None] means the bound was hit. *)
Fixpoint traverse (fuel : nat) (placedPieces : gmap string PlacedPiece.t)
    (skip queue visited : list string) : option (list string) :=
  match queue with
  | [] => Some visited
  | current :: queue =>
    match fuel with
    | O => None
    | S fuel =>
      if bool_decide (current ∈ visited) || bool_decide (current ∈ skip)
      then traverse fuel placedPieces skip queue visited
      else
        let visited := visited ++ [current] in
        let pushed :=
          match placedPieces !! current with
          | Some placed =>
              filter (λ i, i ∉ visited) (PlacedPiece.connectedGroup placed)
          | None => []
          end in
        traverse fuel placedPieces skip (queue ++ pushed) visited
    end
  end.

(** Enough iterations for any traversal of the map: the start item, plus
    one per stored link. *)
Definition traverseFuel (placedPieces : gmap string PlacedPiece.t) : nat :=
  S (sum_list (map (λ kp, length (PlacedPiece.connectedGroup kp.2))
                   (map_to_list placedPieces))).

Definition traverseFrom (placedPieces : gmap string PlacedPiece.t)
    (skip : list string) (start : string) : list string :=
  default [] (traverse (traverseFuel placedPieces) placedPieces skip [start] []).

(** [getConnectedGroup(pieceId)]: [Array.from(visited)] *)
Definition getConnectedGroup (placedPieces : gmap string PlacedPiece.t)
    (pieceId : string) : list string :=
  traverseFrom placedPieces [] pieceId.

Record SnapCandidate := mkCandidate {
  neighborId : string;
  snapPos : Point;
  dist : Sqrt;
}.

(** Stable sort by [a.dist - b.dist] ([Array.prototype.sort] is stable). *)
Fixpoint insertByDist (c : SnapCandidate) (l : list SnapCandidate)
    : list SnapCandidate :=
  match l with
  | [] => [c]
  | c' :: l' =>
      if Sqrt_lt (dist c') (dist c) then c' :: insertByDist c l'
      else c :: l
  end.

Definition sortByDist (l : list SnapCandidate) : list SnapCandidate :=
  foldr insertByDist [] l.

(** The expected position of [piece] next to a placed [neighbor]. *)
Definition expectedPosition (piece neighbor : Piece.t)
    (neighborPlaced : PlacedPiece.t) : Point :=
  let offsetX := (x (Piece.correctPosition piece)
                  - x (Piece.correctPosition neighbor))%Q in
  let offsetY := (y (Piece.correctPosition piece)
                  - y (Piece.correctPosition neighbor))%Q in
  {| x := x (PlacedPiece.position neighborPlaced) + offsetX;
     y := y (PlacedPiece.position neighborPlaced) + offsetY |}%Q.

(** The body of the [forEach] over [Object.values(piece.neighbors)] in
    [checkAndSnapToNeighbors]: the candidate pushed for one neighbour id, if
    any. *)
Definition candidateFor (pieces : list Piece.t)
    (placedPieces : gmap string PlacedPiece.t) (snapThreshold : Q)
    (piece : Piece.t) (position : Point) (neighborId : string)
    : option SnapCandidate :=
  if bool_decide (neighborId = "") then None else
  match placedPieces !! neighborId with
  | None => None
  | Some neighborPlaced =>
    match findPiece pieces neighborId with
    | None => None
    | Some neighbor =>
      let expectedPos := expectedPosition piece neighbor neighborPlaced in
      let d := distance position expectedPos in
      if Sqrt_lt_num d snapThreshold
      then Some {| neighborId := neighborId; snapPos := expectedPos; dist := d |}
      else None
    end
  end.

Definition snapCandidates (pieces : list Piece.t)
    (placedPieces : gmap string PlacedPiece.t) (snapThreshold : Q)
    (piece : Piece.t) (position : Point) : list SnapCandidate :=
  omap (candidateFor pieces placedPieces snapThreshold piece position)
       (neighborValues piece).

Record SnapResult := mkSnapResult {
  shouldSnap : bool;
  snapPosition : Point;
  neighbors : list string;
}.

(** The [allNeighbors] set: every candidate id with its connected group. *)
Definition collectNeighbors (placedPieces : gmap string PlacedPiece.t)
    (candidates : list SnapCandidate) : list string :=
  foldl (λ allNeighbors candidate,
           foldl Set_add (Set_add allNeighbors (neighborId candidate))
                 (getConnectedGroup placedPieces (neighborId candidate)))
        [] candidates.

(** [checkAndSnapToNeighbors(pieceId, position)] *)
Definition checkAndSnapToNeighbors (pieces : list Piece.t)
    (placedPieces : gmap string PlacedPiece.t) (snapThreshold : Q)
    (pieceId : string) (position : Point) : SnapResult :=
  match findPiece pieces pieceId with
  | None => {| shouldSnap := false; snapPosition := position; neighbors := [] |}
  | Some piece =>
    match sortByDist (snapCandidates pieces placedPieces snapThreshold piece position) with
    | [] => {| shouldSnap := false; snapPosition := position; neighbors := [] |}
    | best :: rest =>
        {| shouldSnap := true; snapPosition := snapPos best;
           neighbors := collectNeighbors placedPieces (best :: rest) |}
    end
  end.

(** [handleReturnToPool]'s two updates (the same text in all three
    components). *)
Definition returnToPool (placedPieces : gmap string PlacedPiece.t)
    (poolItems : list string) (pieceId : string)
    : gmap string PlacedPiece.t * list string :=
  let connectedGroup := getConnectedGroup placedPieces pieceId in
  (foldl (λ newMap i, delete i newMap) placedPieces connectedGroup,
   poolItems ++ connectedGroup).

(** The [setPlacedPieces] update of a drop from the pool (the same text in
    the dnd-kit [handleDragEnd] and in [onUp] of the random page). *)
Definition placeFromPool (prev : gmap string PlacedPiece.t)
    (pieceId : string) (position : Point) (snap : SnapResult)
    : gmap string PlacedPiece.t :=
  let finalPos := if shouldSnap snap then snapPosition snap else position in
  if shouldSnap snap && bool_decide (0 < length (neighbors snap))
  then
    let allConnected := Set_from (pieceId :: neighbors snap) in
    foldl (λ newMap i,
             if bool_decide (i = pieceId)
             then <[i := {| PlacedPiece.id := i;
                            PlacedPiece.position := finalPos;
                            PlacedPiece.isLocked := true;
                            PlacedPiece.connectedGroup := Set_without allConnected i |}]> newMap
             else match prev !! i with
                  | Some old =>
                      <[i := {| PlacedPiece.id := PlacedPiece.id old;
                                PlacedPiece.position := PlacedPiece.position old;
                                PlacedPiece.isLocked := true;
                                PlacedPiece.connectedGroup := Set_without allConnected i |}]> newMap
                  | None => newMap
                  end)
          prev allConnected
  else
    <[pieceId := {| PlacedPiece.id := pieceId;
                    PlacedPiece.position := finalPos;
                    PlacedPiece.isLocked := false;
                    PlacedPiece.connectedGroup := [] |}]> prev.

End Engine.

(** ** Partition and adjacency of the two-triangle grid
    ([createTrianglePuzzle], [createTrianglePiece], [setupNeighbors] of
    [app/puzzle-triangle/page.tsx]; the mouse-driven triangle component has
    the same text) *)

Module TriangleGrid.
Import Engine.

(** [Math.min(...xs)] and [Math.max(...xs)]; polygons are never empty (on
    an empty array JavaScript gives an infinity, here 0). *)
Definition minOf (l : list Q) : Q :=
  match l with [] => 0%Q | a :: l => foldl Qmin a l end.
Definition maxOf (l : list Q) : Q :=
  match l with [] => 0%Q | a :: l => foldl Qmax a l end.

Record Bounds := mkBounds {
  minX : Q; minY : Q; maxX : Q; maxY : Q; width : Q; height : Q;
}.

Definition getPolygonBounds (polygon : list Point) : Bounds :=
  let xs := map x polygon in
  let ys := map y polygon in
  let minX := minOf xs in
  let minY := minOf ys in
  let maxX := maxOf xs in
  let maxY := maxOf ys in
  {| minX := minX; minY := minY; maxX := maxX; maxY := maxY;
     width := (maxX - minX)%Q; height := (maxY - minY)%Q |}.

(** [`piece-${row}-${col}-${triangleIndex}`] *)
Definition pieceId (row col triangleIndex : nat) : string :=
  "piece-" +:+ pretty row +:+ "-" +:+ pretty col +:+ "-" +:+ pretty triangleIndex.

(** [createTrianglePiece], without the canvas work. *)
Definition createTrianglePiece (triangle : list Point)
    (row col triangleIndex : nat) : Piece.t :=
  let bounds := getPolygonBounds triangle in
  {| Piece.id := pieceId row col triangleIndex;
     Piece.row := row; Piece.col := col;
     Piece.triangleIndex := triangleIndex;
     Piece.correctPosition := {| x := minX bounds; y := minY bounds |};
     Piece.polygon := triangle;
     Piece.width := width bounds; Piece.height := height bounds;
     Piece.neighbors := [] |}.

Definition Qofnat (n : nat) : Q := inject_Z (Z.of_nat n).

(** The two triangles of one cell. *)
Definition cellPieces (cellWidth cellHeight : Q) (row col : nat) : list Piece.t :=
  let topLeft := {| x := Qofnat col * cellWidth; y := Qofnat row * cellHeight |}%Q in
  let topRight := {| x := (Qofnat col + 1) * cellWidth; y := Qofnat row * cellHeight |}%Q in
  let bottomLeft := {| x := Qofnat col * cellWidth; y := (Qofnat row + 1) * cellHeight |}%Q in
  let bottomRight := {| x := (Qofnat col + 1) * cellWidth;
                        y := (Qofnat row + 1) * cellHeight |}%Q in
  let diagonalType := (row + col) mod 2 in
  if bool_decide (diagonalType = 0)
  then
    let tri1 := [topLeft; topRight; bottomRight] in
    let tri2 := [topLeft; bottomRight; bottomLeft] in
    [createTrianglePiece tri1 row col 0; createTrianglePiece tri2 row col 1]
  else
    let tri1 := [topLeft; topRight; bottomLeft] in
    let tri2 := [topRight; bottomRight; bottomLeft] in
    [createTrianglePiece tri1 row col 0; createTrianglePiece tri2 row col 1].

(** The vertex-coincidence tolerance: the literal [0.1] of
    [setupNeighbors]. *)
Definition tolerance : Q := 1 # 10.

(** [Math.abs(p1.x - p2.x) < 0.1 && Math.abs(p1.y - p2.y) < 0.1] *)
Definition coincide (p1 p2 : Point) : bool :=
  Qltb (Qabs (x p1 - x p2)) tolerance && Qltb (Qabs (y p1 - y p2)) tolerance.

(** [piece.polygon.filter(p1 => otherPiece.polygon.some(p2 => ...))] *)
Definition sharedPoints (piece otherPiece : Piece.t) : list Point :=
  List.filter (λ p1, existsb (λ p2, coincide p1 p2) (Piece.polygon otherPiece))
              (Piece.polygon piece).

(** [obj[key] = value]: overwrite in place, or append a new property. *)
Fixpoint Object_set (o : list (EdgeKey * string)) (key : EdgeKey)
    (value : string) : list (EdgeKey * string) :=
  match o with
  | [] => [(key, value)]
  | (k, v) :: o' =>
      if EdgeKey_eqb k key then (k, value) :: o'
      else (k, v) :: Object_set o' key value
  end.

(** The inner [forEach] of [setupNeighbors] for one [otherPiece]: the
    [neighbors] object of [piece] after it. *)
Definition linkTo (piece : Piece.t) (neighbors : list (EdgeKey * string))
    (otherPiece : Piece.t) : list (EdgeKey * string) :=
  if bool_decide (Piece.id piece = Piece.id otherPiece) then neighbors else
  match sharedPoints piece otherPiece with
  | [p0; p1] =>
      (* `${p0.x},${p0.y}-${p1.x},${p1.y}` *)
      Object_set neighbors {| kx0 := x p0; ky0 := y p0; kx1 := x p1; ky1 := y p1 |}
                 (Piece.id otherPiece)
  | _ => neighbors
  end.

Definition withNeighbors (piece : Piece.t) (neighbors : list (EdgeKey * string))
    : Piece.t :=
  {| Piece.id := Piece.id piece; Piece.row := Piece.row piece;
     Piece.col := Piece.col piece;
     Piece.triangleIndex := Piece.triangleIndex piece;
     Piece.correctPosition := Piece.correctPosition piece;
     Piece.polygon := Piece.polygon piece;
     Piece.width := Piece.width piece; Piece.height := Piece.height piece;
     Piece.neighbors := neighbors |}.

(** [setupNeighbors]: every piece's [neighbors] object is filled by its own
    pass over all pieces; only ids and polygons are read, and those never
    change. *)
Definition setupNeighbors (pieces : list Piece.t) : list Piece.t :=
  map (λ piece,
         withNeighbors piece (foldl (linkTo piece) (Piece.neighbors piece) pieces))
      pieces.

(** [createTrianglePuzzle] for an image of [width] by [height]. *)
Definition createTrianglePuzzle (width height : Q) (rows cols : nat)
    : list Piece.t :=
  let cellWidth := (width / Qofnat cols)%Q in
  let cellHeight := (height / Qofnat rows)%Q in
  setupNeighbors
    (flat_map (λ row, flat_map (λ col, cellPieces cellWidth cellHeight row col)
                               (seq 0 cols))
              (seq 0 rows)).

(** The smaller side of the smallest piece of a partition. *)
Definition minPieceDimension (pieces : list Piece.t) : Q :=
  minOf (map (λ p, Qmin (Piece.width p) (Piece.height p)) pieces).

End TriangleGrid.

(** ** Partition and adjacency of the four-triangle grid
    ([app/puzzle-random/page.tsx]) *)

Module RandomGrid.
Import Engine.

(** [generateTrianglePattern]: the fan of four triangles around an interior
    point that depends on [(row * 7 + col * 13) % 6]. *)
Definition generateTrianglePattern (topLeft topRight bottomLeft bottomRight : Point)
    (row col : nat) : list (list Point) :=
  let cellW := (x topRight - x topLeft)%Q in
  let cellH := (y bottomLeft - y topLeft)%Q in
  let patternType := (row * 7 + col * 13) mod 6 in
  let '(cx, cy) :=
    match patternType with
    | 0 => (50 # 100, 50 # 100)
    | 1 => (30 # 100, 35 # 100)
    | 2 => (70 # 100, 30 # 100)
    | 3 => (30 # 100, 70 # 100)
    | 4 => (70 # 100, 65 # 100)
    | 5 => (40 # 100, 60 # 100)
    | _ => (50 # 100, 50 # 100)
    end in
  let interior := {| x := x topLeft + cellW * cx; y := y topLeft + cellH * cy |}%Q in
  [ [topLeft; topRight; interior];
    [topRight; bottomRight; interior];
    [bottomRight; bottomLeft; interior];
    [bottomLeft; topLeft; interior] ].

Definition cellPieces (cellWidth cellHeight : Q) (row col : nat) : list Piece.t :=
  let Qofnat := TriangleGrid.Qofnat in
  let topLeft := {| x := Qofnat col * cellWidth; y := Qofnat row * cellHeight |}%Q in
  let topRight := {| x := (Qofnat col + 1) * cellWidth; y := Qofnat row * cellHeight |}%Q in
  let bottomLeft := {| x := Qofnat col * cellWidth; y := (Qofnat row + 1) * cellHeight |}%Q in
  let bottomRight := {| x := (Qofnat col + 1) * cellWidth;
                        y := (Qofnat row + 1) * cellHeight |}%Q in
  imap (λ index triangle, TriangleGrid.createTrianglePiece triangle row col index)
       (generateTrianglePattern topLeft topRight bottomLeft bottomRight row col).

(** The inner double loop building [sharedPoints], with its own
    duplicate test at [0.01]. *)
Definition near (tol : Q) (p1 p2 : Point) : bool :=
  Qltb (Qabs (x p1 - x p2)) tol && Qltb (Qabs (y p1 - y p2)) tol.

Definition sharedPoints (tolerance : Q) (piece otherPiece : Piece.t) : list Point :=
  foldl (λ shared p1,
           foldl (λ shared p2,
                    if near tolerance p1 p2
                    then if existsb (λ sp, near (1 # 100) sp p1) shared
                         then shared
                         else shared ++ [ {| x := x p1; y := y p1 |} ]
                    else shared)
                 shared (Piece.polygon otherPiece))
        [] (Piece.polygon piece).

(** The comparator of the sort: negative when [a] goes first. *)
Definition comparePoints (a b : Point) : Q :=
  if Qltb (1 # 10) (Qabs (x a - x b)) then (x a - x b)%Q else (y a - y b)%Q.

Fixpoint insertPoint (p : Point) (l : list Point) : list Point :=
  match l with
  | [] => [p]
  | q :: l' =>
      if Qltb (comparePoints q p) 0 then q :: insertPoint p l' else p :: l
  end.

Definition sortPoints (l : list Point) : list Point := foldr insertPoint [] l.

(** [Math.round(v * 10)] *)
Definition round10 (v : Q) : Q := inject_Z (Qfloor (v * 10 + (1 # 2))).

(** The edge key of a pair with at least two shared points, if any. *)
Definition edgeKeyOf (tolerance : Q) (piece otherPiece : Piece.t) : option EdgeKey :=
  match sortPoints (sharedPoints tolerance piece otherPiece) with
  | p0 :: p1 :: _ =>
      Some {| kx0 := round10 (x p0); ky0 := round10 (y p0);
              kx1 := round10 (x p1); ky1 := round10 (y p1) |}
  | _ => None
  end.

(** Assign [neighbors[key] = value] on the piece at position [i]. *)
Definition setNeighbor (pieces : list Piece.t) (i : nat) (key : EdgeKey)
    (value : string) : list Piece.t :=
  match pieces !! i with
  | Some piece =>
      <[i := TriangleGrid.withNeighbors piece
               (TriangleGrid.Object_set (Piece.neighbors piece) key value)]> pieces
  | None => pieces
  end.

(** The body of the two nested [forEach] for the pair at positions
    [(i, j)]. *)
Definition linkPair (tolerance : Q) (pieces : list Piece.t) (ij : nat * nat)
    : list Piece.t :=
  let '(i, j) := ij in
  if bool_decide (j ≤ i) then pieces else
  match pieces !! i, pieces !! j with
  | Some piece, Some otherPiece =>
      match edgeKeyOf tolerance piece otherPiece with
      | Some edgeKey =>
          setNeighbor (setNeighbor pieces i edgeKey (Piece.id otherPiece))
                      j edgeKey (Piece.id piece)
      | None => pieces
      end
  | _, _ => pieces
  end.

(** [setupNeighbors(pieces, tolerance)] *)
Definition setupNeighbors (pieces : list Piece.t) (tolerance : Q) : list Piece.t :=
  let n := length pieces in
  foldl (linkPair tolerance) pieces
        (flat_map (λ i, map (λ j, (i, j)) (seq 0 n)) (seq 0 n)).

(** The tolerance [createTrianglePuzzle] passes: the literal [1.0]. *)
Definition tolerance : Q := 1.

(** [createTrianglePuzzle] for an image of [imgWidth] by [imgHeight]. *)
Definition createTrianglePuzzle (imgWidth imgHeight : Q) (rows cols : nat)
    (maxImageSize : Q) : list Piece.t :=
  let maxDimension := Qmax imgWidth imgHeight in
  let imageScale :=
    if Qltb maxImageSize maxDimension then (maxImageSize / maxDimension)%Q else 1%Q in
  let width := (imgWidth * imageScale)%Q in
  let height := (imgHeight * imageScale)%Q in
  let cellWidth := (width / TriangleGrid.Qofnat cols)%Q in
  let cellHeight := (height / TriangleGrid.Qofnat rows)%Q in
  setupNeighbors
    (flat_map (λ row, flat_map (λ col, cellPieces cellWidth cellHeight row col)
                               (seq 0 cols))
              (seq 0 rows))
    tolerance.

End RandomGrid.

(** ** The dnd-kit triangle page ([app/puzzle-triangle/page.tsx])

    A handler runs against the state of the render it was created in, and
    one event is handled per render, so inside a handler the closed-over
    [placedPieces] and the [prev] of a functional update are the same map. *)

Module DndTriangle.
Import Engine.

Inductive DragSource := pool | placed.

(** React state of [PuzzleTriangle] (audio, timer and window size left
    out). *)
Record State := mkState {
  pieces : list Piece.t;
  placedPieces : gmap string PlacedPiece.t;
  poolItems : list string;
  activeId : option string;
  dragSource : option DragSource;
  dragDelta : option Point;
  isSolved : bool;
}.

(** What [handleDragEnd] reads from the [DragEndEvent] and from the page:
    [active.id], [over?.id], [delta], the pointer position of
    [activatorEvent], the top-left corner of the canvas rectangle, and the
    display scale [sc]. *)
Record DragEndEvent := mkDragEnd {
  active : string;
  over : option string;
  delta : Point;
  activatorEvent : option Point;
  rect : option Point;
  sc : Q;
}.

(** State after loading: [shuffled] is the shuffled id array. *)
Definition initialize (pieces : list Piece.t) (shuffled : list string) : State :=
  {| pieces := pieces; placedPieces := ∅; poolItems := shuffled;
     activeId := None; dragSource := None; dragDelta := None;
     isSolved := false |}.

(** The solved-check effect: does it call [setIsSolved(true)]? *)
Definition solvedCheck (st : State) : bool :=
  match pieces st with
  | [] => false
  | first :: _ =>
      bool_decide (size (placedPieces st) = length (pieces st))
      && bool_decide (length (poolItems st) = 0)
      && bool_decide
           (length (traverseFrom (placedPieces st) [] (Piece.id first))
            = length (pieces st))
  end.

Definition runSolvedCheck (st : State) : State :=
  if solvedCheck st
  then {| pieces := pieces st; placedPieces := placedPieces st;
          poolItems := poolItems st; activeId := activeId st;
          dragSource := dragSource st; dragDelta := dragDelta st;
          isSolved := true |}
  else st.

Definition handleDragStart (i : string) (st : State) : State :=
  if bool_decide (i ∈ poolItems st)
  then {| pieces := pieces st; placedPieces := placedPieces st;
          poolItems := filter (λ pid, pid ≠ i) (poolItems st);
          activeId := Some i; dragSource := Some pool;
          dragDelta := dragDelta st; isSolved := isSolved st |}
  else if bool_decide (is_Some (placedPieces st !! i))
  then {| pieces := pieces st; placedPieces := placedPieces st;
          poolItems := poolItems st;
          activeId := Some i; dragSource := Some placed;
          dragDelta := dragDelta st; isSolved := isSolved st |}
  else {| pieces := pieces st; placedPieces := placedPieces st;
          poolItems := poolItems st;
          activeId := Some i; dragSource := dragSource st;
          dragDelta := dragDelta st; isSolved := isSolved st |}.

Definition handleDragMove (d : Point) (st : State) : State :=
  match dragSource st with
  | Some placed =>
      {| pieces := pieces st; placedPieces := placedPieces st;
         poolItems := poolItems st; activeId := activeId st;
         dragSource := dragSource st; dragDelta := Some d;
         isSolved := isSolved st |}
  | _ => st
  end.

(** "Move all connected pieces by delta". *)
Definition moveGroup (prev : gmap string PlacedPiece.t)
    (connectedGroup : list string) (deltaX deltaY : Q)
    : gmap string PlacedPiece.t :=
  foldl (λ newMap i,
           match prev !! i with
           | Some old =>
               <[i := {| PlacedPiece.id := PlacedPiece.id old;
                         PlacedPiece.position :=
                           {| x := x (PlacedPiece.position old) + deltaX;
                              y := y (PlacedPiece.position old) + deltaY |}%Q;
                         PlacedPiece.isLocked := false;
                         PlacedPiece.connectedGroup :=
                           PlacedPiece.connectedGroup old |}]> newMap
           | None => newMap
           end)
        prev connectedGroup.

Record BestSnap := mkBestSnap {
  snapPos : Point;
  groupPieceId : string;
  groupPiecePos : Point;
  neighborId : string;
  dist : Sqrt;
}.

(** The inner [forEach] of the snap scan, for one neighbour id of one group
    piece; the accumulator is [(bestSnap, allNeighborIds)]. *)
Definition scanNeighbor (pieces : list Piece.t)
    (newMap : gmap string PlacedPiece.t) (snapThreshold : Q)
    (connectedGroup : list string) (groupId : string)
    (groupPiece : Piece.t) (groupPlaced : PlacedPiece.t)
    (acc : option BestSnap * list string) (nId : string)
    : option BestSnap * list string :=
  if bool_decide (nId = "") || bool_decide (nId ∈ connectedGroup) then acc else
  match newMap !! nId with
  | None => acc
  | Some neighborPlaced =>
    match findPiece pieces nId with
    | None => acc
    | Some neighborPiece =>
      let expectedPos := expectedPosition groupPiece neighborPiece neighborPlaced in
      let d := distance (PlacedPiece.position groupPlaced) expectedPos in
      if Sqrt_lt_num d snapThreshold
      then
        let found := {| snapPos := expectedPos; groupPieceId := groupId;
                        groupPiecePos := PlacedPiece.position groupPlaced;
                        neighborId := nId; dist := d |} in
        (match acc.1 with
         | None => Some found
         | Some bestSnap =>
             if Sqrt_lt d (dist bestSnap) then Some found else Some bestSnap
         end,
         Set_add acc.2 nId)
      else acc
    end
  end.

(** The snap scan over every piece of the dragged group. *)
Definition scanGroup (pieces : list Piece.t)
    (newMap : gmap string PlacedPiece.t) (snapThreshold : Q)
    (connectedGroup : list string) : option BestSnap * list string :=
  foldl (λ acc groupId,
           match findPiece pieces groupId, newMap !! groupId with
           | Some groupPiece, Some groupPlaced =>
               foldl (scanNeighbor pieces newMap snapThreshold connectedGroup
                        groupId groupPiece groupPlaced)
                     acc (neighborValues groupPiece)
           | _, _ => acc
           end)
        (None, []) connectedGroup.

(** "Expand allNeighborIds to include their full connected groups". *)
Definition expandNeighbors (newMap : gmap string PlacedPiece.t)
    (connectedGroup allNeighborIds : list string) : list string :=
  foldl (λ expandedNeighbors nId,
           foldl Set_add expandedNeighbors (traverseFrom newMap connectedGroup nId))
        [] allNeighborIds.

(** The final [allConnected.forEach]. *)
Definition mergeGroups (newMap : gmap string PlacedPiece.t)
    (connectedGroup : list string) (snapOffset : Point)
    (allConnected : list string) : gmap string PlacedPiece.t :=
  foldl (λ newMap i,
           match newMap !! i with
           | None => newMap
           | Some old =>
               let isDragged := bool_decide (i ∈ connectedGroup) in
               <[i := {| PlacedPiece.id := i;
                         PlacedPiece.position :=
                           if isDragged
                           then {| x := x (PlacedPiece.position old) + x snapOffset;
                                   y := y (PlacedPiece.position old) + y snapOffset |}%Q
                           else PlacedPiece.position old;
                         PlacedPiece.isLocked := true;
                         PlacedPiece.connectedGroup := Set_without allConnected i |}]> newMap
           end)
        newMap allConnected.

(** The [setPlacedPieces] update of the ['placed'] branch of
    [handleDragEnd]. *)
Definition dropPlaced (pieces : list Piece.t) (snapThreshold : Q)
    (prev : gmap string PlacedPiece.t) (pieceId : string)
    (deltaX deltaY : Q) : gmap string PlacedPiece.t :=
  let connectedGroup := getConnectedGroup prev pieceId in
  let newMap := moveGroup prev connectedGroup deltaX deltaY in
  match scanGroup pieces newMap snapThreshold connectedGroup with
  | (Some bs, allNeighborIds) =>
      if bool_decide (0 < length allNeighborIds)
      then
        let snapOffset := {| x := x (snapPos bs) - x (groupPiecePos bs);
                             y := y (snapPos bs) - y (groupPiecePos bs) |}%Q in
        let expandedNeighbors :=
          expandNeighbors newMap connectedGroup allNeighborIds in
        let allConnected := Set_from (connectedGroup ++ expandedNeighbors) in
        mergeGroups newMap connectedGroup snapOffset allConnected
      else newMap
  | (None, _) => newMap
  end.

(** The drop position computed in the ['pool'] branch. *)
Definition dropPosition (event : DragEndEvent) (piece : Piece.t)
    (activator rectTopLeft : Point) : Point :=
  let endX := (x activator + x (delta event))%Q in
  let endY := (y activator + y (delta event))%Q in
  {| x := (endX - x rectTopLeft) / sc event - Piece.width piece / 2;
     y := (endY - y rectTopLeft) / sc event - Piece.height piece / 2 |}%Q.

Definition handleDragEnd (snapThreshold : Q) (event : DragEndEvent)
    (st : State) : State :=
  let pieceId := active event in
  match findPiece (pieces st) pieceId with
  | None =>
      {| pieces := pieces st; placedPieces := placedPieces st;
         poolItems := poolItems st; activeId := None; dragSource := None;
         dragDelta := dragDelta st; isSolved := isSolved st |}
  | Some piece =>
    match dragSource st with
    | Some pool =>
        let backToPool :=
          {| pieces := pieces st; placedPieces := placedPieces st;
             poolItems := poolItems st ++ [pieceId];
             activeId := None; dragSource := None; dragDelta := None;
             isSolved := isSolved st |} in
        if bool_decide (over event = Some "puzzle-canvas")
        then
          match rect event, activatorEvent event with
          | Some rectTopLeft, Some activator =>
              let position := dropPosition event piece activator rectTopLeft in
              let snap := checkAndSnapToNeighbors (pieces st) (placedPieces st)
                            snapThreshold pieceId position in
              {| pieces := pieces st;
                 placedPieces := placeFromPool (placedPieces st) pieceId position snap;
                 poolItems := poolItems st;
                 activeId := None; dragSource := None; dragDelta := None;
                 isSolved := isSolved st |}
          | _, _ => backToPool
          end
        else backToPool
    | Some placed =>
        let deltaX := (x (delta event) / sc event)%Q in
        let deltaY := (y (delta event) / sc event)%Q in
        {| pieces := pieces st;
           placedPieces := dropPlaced (pieces st) snapThreshold
                             (placedPieces st) pieceId deltaX deltaY;
           poolItems := poolItems st;
           activeId := None; dragSource := None; dragDelta := None;
           isSolved := isSolved st |}
    | None =>
        {| pieces := pieces st; placedPieces := placedPieces st;
           poolItems := poolItems st;
           activeId := None; dragSource := None; dragDelta := None;
           isSolved := isSolved st |}
    end
  end.

Definition handleReturnToPool (pieceId : string) (st : State) : State :=
  let '(newPlaced, newPool) :=
    returnToPool (placedPieces st) (poolItems st) pieceId in
  {| pieces := pieces st; placedPieces := newPlaced; poolItems := newPool;
     activeId := activeId st; dragSource := dragSource st;
     dragDelta := dragDelta st; isSolved := isSolved st |}.

Inductive Event :=
| DragStart (i : string)
| DragMove (d : Point)
| DragEnd (event : DragEndEvent)
| ReturnToPool (pieceId : string).

Definition handle (snapThreshold : Q) (e : Event) (st : State) : State :=
  match e with
  | DragStart i => handleDragStart i st
  | DragMove d => handleDragMove d st
  | DragEnd event => handleDragEnd snapThreshold event st
  | ReturnToPool pieceId => handleReturnToPool pieceId st
  end.

(** One event, followed by the solved-check effect. *)
Definition step (snapThreshold : Q) (e : Event) (st : State) : State :=
  runSolvedCheck (handle snapThreshold e st).

(** A session of the page under dnd-kit.  dnd-kit drags one draggable at a
    time.  A drag starts on a rendered draggable, which is a piece of the
    pool or a placed piece ([useDraggable] in [PoolPieceItem] and
    [PlacedPieceItem]); it reports moves; and it ends either with
    [onDragEnd] for the draggable it started with, or by being cancelled
    (the Escape key, a resize of the window, the tab being hidden).  The
    page passes [onDragStart], [onDragMove] and [onDragEnd] to [DndContext]
    and no [onDragCancel]: a cancelled drag runs no handler and leaves the
    state of the page as it is, [activeId] and [dragSource] included.  The
    double-click that returns a group exists on placed pieces only, and
    needs the pointer to be free.

    [session snapThreshold pieces a lost st]: [st] is an observable state of
    the page, [a] is the draggable dnd-kit is dragging, and [lost] lists the
    pieces whose drag from the pool was cancelled so far (a record of the
    history of the session, not a state of the page). *)
Inductive session (snapThreshold : Q) (pieces : list Piece.t)
    : option string → list string → State → Prop :=
| session_init shuffled :
    shuffled ≡ₚ map Piece.id pieces →
    session snapThreshold pieces None [] (initialize pieces shuffled)
| session_start i lost st :
    session snapThreshold pieces None lost st →
    i ∈ poolItems st ∨ is_Some (placedPieces st !! i) →
    session snapThreshold pieces (Some i) lost (step snapThreshold (DragStart i) st)
| session_move i d lost st :
    session snapThreshold pieces (Some i) lost st →
    session snapThreshold pieces (Some i) lost (step snapThreshold (DragMove d) st)
| session_end i event lost st :
    session snapThreshold pieces (Some i) lost st → active event = i →
    session snapThreshold pieces None lost (step snapThreshold (DragEnd event) st)
| session_cancel i lost st :
    session snapThreshold pieces (Some i) lost st →
    session snapThreshold pieces None
      (match dragSource st with Some pool => i :: lost | _ => lost end) st
| session_return pieceId lost st :
    session snapThreshold pieces None lost st →
    is_Some (placedPieces st !! pieceId) →
    session snapThreshold pieces None lost
      (step snapThreshold (ReturnToPool pieceId) st).

(** Observable states of a session over [pieces]. *)
Definition reachable (snapThreshold : Q) (pieces : list Piece.t) (st : State) : Prop :=
  ∃ a lost, session snapThreshold pieces a lost st.

End DndTriangle.

(** ** The mouse-driven triangle component (the unnamed source file that
    opens with [type Triangle] and [type DragState]) and the random page
    ([app/puzzle-random/page.tsx])

    Both keep a [dragState] with the ids being dragged; the two updates of a
    drag of placed pieces ([moveDragged], [snapDragged]) are the same text in
    both. *)

Module MouseTriangle.
Import Engine.

Record DragState := mkDragState {
  pieceIds : list string;
  offset : Point;
}.

Record State := mkState {
  pieces : list Piece.t;
  placedPieces : gmap string PlacedPiece.t;
  poolItems : list string;
  dragState : option DragState;
  isSolved : bool;
}.

(** What the mouse handlers read: the pointer ([clientX], [clientY]) and
    the top-left corner of the canvas rectangle, if the canvas is mounted. *)
Record MouseEvent := mkMouse {
  client : Point;
  rect : option Point;
}.

Definition initialize (pieces : list Piece.t) (shuffled : list string) : State :=
  {| pieces := pieces; placedPieces := ∅; poolItems := shuffled;
     dragState := None; isSolved := false |}.

(** [Array.from(placedPieces.values()).filter(p => p.isLocked).length] *)
Definition lockedCount (placedPieces : gmap string PlacedPiece.t) : nat :=
  length (List.filter (λ kp, PlacedPiece.isLocked kp.2) (map_to_list placedPieces)).

(** The solved-check effect: does it call [setIsSolved(true)]? *)
Definition solvedCheck (st : State) : bool :=
  if bool_decide (length (pieces st) = 0) then false
  else if bool_decide (0 < length (poolItems st)) then false
  else bool_decide (lockedCount (placedPieces st) = length (pieces st)).

Definition runSolvedCheck (st : State) : State :=
  if solvedCheck st
  then {| pieces := pieces st; placedPieces := placedPieces st;
          poolItems := poolItems st; dragState := dragState st;
          isSolved := true |}
  else st.

Definition handlePoolPieceMouseDown (pieceId : string) (st : State) : State :=
  {| pieces := pieces st; placedPieces := placedPieces st;
     poolItems := poolItems st;
     dragState := Some {| pieceIds := [pieceId]; offset := {| x := 0; y := 0 |} |};
     isSolved := isSolved st |}.

Definition handlePlacedPieceMouseDown (e : MouseEvent) (pieceId : string)
    (st : State) : State :=
  match rect e with
  | None => st
  | Some r =>
    match placedPieces st !! pieceId with
    | None => st
    | Some placed =>
        let mouseX := (x (client e) - x r)%Q in
        let mouseY := (y (client e) - y r)%Q in
        let connectedGroup := getConnectedGroup (placedPieces st) pieceId in
        {| pieces := pieces st; placedPieces := placedPieces st;
           poolItems := poolItems st;
           dragState :=
             Some {| pieceIds := connectedGroup;
                     offset := {| x := mouseX - x (PlacedPiece.position placed);
                                  y := mouseY - y (PlacedPiece.position placed) |}%Q |};
           isSolved := isSolved st |}
    end
  end.

(** The [setPlacedPieces] update of a mouse move: the primary piece goes to
    [(newX, newY)] and loses its links, every other dragged piece that is
    placed is shifted by [(offsetX, offsetY)]. *)
Definition moveDragged (prev : gmap string PlacedPiece.t)
    (pieceIds : list string) (primaryPieceId : string)
    (newX newY offsetX offsetY : Q) : gmap string PlacedPiece.t :=
  foldl (λ newMap i,
           if bool_decide (i = primaryPieceId)
           then <[i := {| PlacedPiece.id := i;
                          PlacedPiece.position := {| x := newX; y := newY |};
                          PlacedPiece.isLocked := false;
                          PlacedPiece.connectedGroup := [] |}]> newMap
           else match prev !! i with
                | Some old =>
                    <[i := {| PlacedPiece.id := PlacedPiece.id old;
                              PlacedPiece.position :=
                                {| x := x (PlacedPiece.position old) + offsetX;
                                   y := y (PlacedPiece.position old) + offsetY |}%Q;
                              PlacedPiece.isLocked := false;
                              PlacedPiece.connectedGroup :=
                                PlacedPiece.connectedGroup old |}]> newMap
                | None => newMap
                end)
        prev pieceIds.

(** The new position of the primary piece and the shift of the others, as
    [handleMouseMove] computes them. *)
Definition dragTarget (placedPieces : gmap string PlacedPiece.t)
    (ds : DragState) (primaryPieceId : string) (mouseX mouseY : Q)
    : Q * Q * Q * Q :=
  let newX := (mouseX - x (offset ds))%Q in
  let newY := (mouseY - y (offset ds))%Q in
  match placedPieces !! primaryPieceId with
  | Some oldPlaced =>
      (newX, newY, newX - x (PlacedPiece.position oldPlaced),
       newY - y (PlacedPiece.position oldPlaced))%Q
  | None => (newX, newY, 0, 0)%Q
  end.

Definition handleMouseMove (e : MouseEvent) (st : State) : State :=
  match dragState st with
  | None => st
  | Some ds =>
    match rect e with
    | None => st
    | Some r =>
        let mouseX := (x (client e) - x r)%Q in
        let mouseY := (y (client e) - y r)%Q in
        let newPlaced :=
          match pieceIds ds with
          | [] => placedPieces st
          | primaryPieceId :: _ =>
              let '(newX, newY, offsetX, offsetY) :=
                dragTarget (placedPieces st) ds primaryPieceId mouseX mouseY in
              moveDragged (placedPieces st) (pieceIds ds) primaryPieceId
                          newX newY offsetX offsetY
          end in
        {| pieces := pieces st; placedPieces := newPlaced;
           poolItems := filter (λ i, i ∉ pieceIds ds) (poolItems st);
           dragState := dragState st; isSolved := isSolved st |}
    end
  end.

(** The [setPlacedPieces] update of a release that snaps: first the
    dragged ids, then the neighbour ids. *)
Definition snapDragged (prev : gmap string PlacedPiece.t)
    (pieceIds neighbors : list string) (offsetX offsetY : Q)
    : gmap string PlacedPiece.t :=
  let allConnected := Set_from (pieceIds ++ neighbors) in
  let afterDragged :=
    foldl (λ newMap i,
             match prev !! i with
             | None => newMap
             | Some old =>
                 <[i := {| PlacedPiece.id := i;
                           PlacedPiece.position :=
                             {| x := x (PlacedPiece.position old) + offsetX;
                                y := y (PlacedPiece.position old) + offsetY |}%Q;
                           PlacedPiece.isLocked := true;
                           PlacedPiece.connectedGroup := Set_without allConnected i |}]>
                   newMap
             end)
          prev pieceIds in
  foldl (λ newMap neighborId,
           match prev !! neighborId with
           | None => newMap
           | Some neighbor =>
               <[neighborId :=
                   {| PlacedPiece.id := PlacedPiece.id neighbor;
                      PlacedPiece.position := PlacedPiece.position neighbor;
                      PlacedPiece.isLocked := PlacedPiece.isLocked neighbor;
                      PlacedPiece.connectedGroup :=
                        Set_without allConnected neighborId |}]> newMap
           end)
        afterDragged neighbors.

(** The release of dragged placed pieces ([handleMouseUp], and the
    ['placed'] branch of [onUp] in the random page). *)
Definition releaseDragged (pieces : list Piece.t) (snapThreshold : Q)
    (placedPieces : gmap string PlacedPiece.t) (ds : DragState)
    : gmap string PlacedPiece.t :=
  match pieceIds ds with
  | [] => placedPieces
  | primaryPieceId :: _ =>
    match placedPieces !! primaryPieceId with
    | None => placedPieces
    | Some placed =>
        let snap := checkAndSnapToNeighbors pieces placedPieces snapThreshold
                      primaryPieceId (PlacedPiece.position placed) in
        if shouldSnap snap && bool_decide (0 < length (neighbors snap))
        then
          let offsetX := (x (snapPosition snap) - x (PlacedPiece.position placed))%Q in
          let offsetY := (y (snapPosition snap) - y (PlacedPiece.position placed))%Q in
          snapDragged placedPieces (pieceIds ds) (neighbors snap) offsetX offsetY
        else placedPieces
    end
  end.

Definition handleMouseUp (snapThreshold : Q) (st : State) : State :=
  match dragState st with
  | None => st
  | Some ds =>
      {| pieces := pieces st;
         placedPieces := releaseDragged (pieces st) snapThreshold (placedPieces st) ds;
         poolItems := poolItems st; dragState := None; isSolved := isSolved st |}
  end.

Definition handleReturnToPool (pieceId : string) (st : State) : State :=
  let '(newPlaced, newPool) :=
    returnToPool (placedPieces st) (poolItems st) pieceId in
  {| pieces := pieces st; placedPieces := newPlaced; poolItems := newPool;
     dragState := dragState st; isSolved := isSolved st |}.

Inductive Event :=
| PoolPieceMouseDown (pieceId : string)
| PlacedPieceMouseDown (e : MouseEvent) (pieceId : string)
| MouseMove (e : MouseEvent)
| MouseUp
| ReturnToPool (pieceId : string).

Definition step (snapThreshold : Q) (ev : Event) (st : State) : State :=
  runSolvedCheck
    match ev with
    | PoolPieceMouseDown pieceId => handlePoolPieceMouseDown pieceId st
    | PlacedPieceMouseDown e pieceId => handlePlacedPieceMouseDown e pieceId st
    | MouseMove e => handleMouseMove e st
    | MouseUp => handleMouseUp snapThreshold st
    | ReturnToPool pieceId => handleReturnToPool pieceId st
    end.

End MouseTriangle.

Module RandomPage.
Import Engine.

Inductive DragSource := pool | placed.

Record State := mkState {
  pieces : list Piece.t;
  placedPieces : gmap string PlacedPiece.t;
  poolItems : list string;
  dragState : option MouseTriangle.DragState;
  dragSourceRef : option DragSource;
  isSolved : bool;
}.

(** What [onUp] reads: the pointer and the canvas rectangle. *)
Record DOMRect := mkRect { left : Q; top : Q; right : Q; bottom : Q }.
Record PointerEvent := mkPointer {
  client : Point;
  rect : option DOMRect;
}.

Definition initialize (pieces : list Piece.t) (shuffled : list string) : State :=
  {| pieces := pieces; placedPieces := ∅; poolItems := shuffled;
     dragState := None; dragSourceRef := None; isSolved := false |}.

(** The solved-check effect (the same test as in the mouse-driven
    component). *)
Definition solvedCheck (st : State) : bool :=
  if bool_decide (length (pieces st) = 0) || bool_decide (0 < length (poolItems st))
  then false
  else bool_decide (MouseTriangle.lockedCount (placedPieces st) = length (pieces st)).

Definition runSolvedCheck (st : State) : State :=
  if solvedCheck st
  then {| pieces := pieces st; placedPieces := placedPieces st;
          poolItems := poolItems st; dragState := dragState st;
          dragSourceRef := dragSourceRef st; isSolved := true |}
  else st.

(** [handlePoolPieceMouseDown]; [sc] is the display scale. *)
Definition handlePoolPieceMouseDown (sc : Q) (pieceId : string) (st : State) : State :=
  let '(offsetX, offsetY) :=
    match findPiece (pieces st) pieceId with
    | Some piece => (Piece.width piece * sc / 2, Piece.height piece * sc / 2)%Q
    | None => (0, 0)%Q
    end in
  {| pieces := pieces st; placedPieces := placedPieces st;
     poolItems := filter (λ i, i ≠ pieceId) (poolItems st);
     dragState := Some {| MouseTriangle.pieceIds := [pieceId];
                          MouseTriangle.offset := {| x := offsetX; y := offsetY |} |};
     dragSourceRef := Some pool;
     isSolved := isSolved st |}.

(** [onUp]. *)
Definition onUp (snapThreshold sc : Q) (e : PointerEvent) (st : State) : State :=
  match dragState st with
  | None => st
  | Some ds =>
    let cleared placedPieces poolItems :=
      {| pieces := pieces st; placedPieces := placedPieces; poolItems := poolItems;
         dragState := None; dragSourceRef := None; isSolved := isSolved st |} in
    match dragSourceRef st with
    | Some pool =>
        let backToPool :=
          cleared (placedPieces st) (poolItems st ++ MouseTriangle.pieceIds ds) in
        match rect e, MouseTriangle.pieceIds ds with
        | Some r, primaryPieceId :: _ =>
            if Qle_bool (left r) (x (client e)) && Qle_bool (x (client e)) (right r)
               && Qle_bool (top r) (y (client e)) && Qle_bool (y (client e)) (bottom r)
            then
              let position :=
                {| x := (x (client e) - left r) / sc - x (MouseTriangle.offset ds);
                   y := (y (client e) - top r) / sc - y (MouseTriangle.offset ds) |}%Q in
              let snap := checkAndSnapToNeighbors (pieces st) (placedPieces st)
                            snapThreshold primaryPieceId position in
              cleared (placeFromPool (placedPieces st) primaryPieceId position snap)
                      (poolItems st)
            else backToPool
        | _, _ => backToPool
        end
    | _ =>
        cleared (MouseTriangle.releaseDragged (pieces st) snapThreshold
                   (placedPieces st) ds)
                (poolItems st)
    end
  end.

End RandomPage.

(** ** Piece-count tables *)

Module Grid.

Record Dimensions := mkDimensions { rows : nat; cols : nat }.

(** [getPieceDimensions] of [app/puzzle-triangle/page.tsx]:
    [mapping[pieceCount] || { rows: 4, cols: 4 }]. *)
Definition mapping : list (Z * Dimensions) :=
  [ (8%Z, mkDimensions 2 2); (12%Z, mkDimensions 2 3); (18%Z, mkDimensions 3 3);
    (24%Z, mkDimensions 3 4); (32%Z, mkDimensions 4 4); (40%Z, mkDimensions 4 5);
    (50%Z, mkDimensions 5 5); (72%Z, mkDimensions 6 6) ].

Definition lookupMapping (pieceCount : Z) : option Dimensions :=
  snd <$> find (λ kv, bool_decide (kv.1 = pieceCount)) mapping.

Definition getPieceDimensions (pieceCount : Z) : Dimensions :=
  default (mkDimensions 4 4) (lookupMapping pieceCount).

(** [getGridForPieceCount] of [app/puzzle-random/page.tsx]. *)
Record GridEntry := mkEntry { epieces : Z; erows : nat; ecols : nat }.

Definition gridMap : list GridEntry :=
  [ mkEntry 4 1 1; mkEntry 8 1 2; mkEntry 12 1 3; mkEntry 16 2 2;
    mkEntry 20 1 5; mkEntry 24 2 3; mkEntry 32 2 4; mkEntry 36 3 3;
    mkEntry 40 2 5; mkEntry 48 3 4; mkEntry 60 3 5; mkEntry 64 4 4;
    mkEntry 72 3 6; mkEntry 80 4 5; mkEntry 96 4 6; mkEntry 100 5 5;
    mkEntry 120 5 6; mkEntry 144 6 6 ]%Z.

(** The fallback loop: the first entry of least [Math.abs(piecesCount -
    g.pieces)]. *)
Definition closestEntry (piecesCount : Z) (first : GridEntry)
    (entries : list GridEntry) : GridEntry :=
  (foldl (λ '(closest, minDiff) g,
            let diff := Z.abs (piecesCount - epieces g) in
            if bool_decide (diff < minDiff)%Z then (g, diff) else (closest, minDiff))
         (first, Z.abs (piecesCount - epieces first)) entries).1.

Definition getGridForPieceCount (piecesCount : Z) : Dimensions :=
  match find (λ g, bool_decide (epieces g = piecesCount)) gridMap with
  | Some exact => mkDimensions (erows exact) (ecols exact)
  | None =>
      match gridMap with
      | [] => mkDimensions 0 0
      | first :: _ =>
          let closest := closestEntry piecesCount first gridMap in
          mkDimensions (erows closest) (ecols closest)
      end
  end.

(** How a call ends.  Neither function has a [throw]: a call always
    returns. *)
Inductive Outcome (A : Type) :=
| Returns (value : A)
| Throws (error : string) (validAlternatives : list Z).
Arguments Returns {A} value.
Arguments Throws {A} error validAlternatives.

Definition run_getPieceDimensions (pieceCount : Z) : Outcome Dimensions :=
  Returns (getPieceDimensions pieceCount).

Definition run_getGridForPieceCount (piecesCount : Z) : Outcome Dimensions :=
  Returns (getGridForPieceCount piecesCount).

End Grid.

(** ** The value [createTrianglePuzzle] of the random page resolves to
    ([app/puzzle-random/page.tsx]) *)

Module RandomPuzzle.
Import Engine.

Record Resolved := mkResolved {
  pieces : list Piece.t;
  imageWidth : Q;
  imageHeight : Q;
  scale : Q;
}.

(** [maxDimension > maxImageSize ? maxImageSize / maxDimension : 1] *)
Definition imageScale (imgWidth imgHeight maxImageSize : Q) : Q :=
  let maxDimension := Qmax imgWidth imgHeight in
  if Qltb maxImageSize maxDimension then (maxImageSize / maxDimension)%Q else 1%Q.

(** The pieces pushed by the two loops, before [setupNeighbors]. *)
Definition allPieces (cellWidth cellHeight : Q) (rows cols : nat) : list Piece.t :=
  flat_map (λ row, flat_map (λ col, RandomGrid.cellPieces cellWidth cellHeight row col)
                            (seq 0 cols))
           (seq 0 rows).

(** [img.onload] for an image that has loaded: the promise is rejected
    with ['No pieces were created'] or resolved.  Every canvas gives a 2D
    context and a data URL, so every triangle becomes a piece. *)
Definition createTrianglePuzzle (imgWidth imgHeight : Q) (rows cols : nat)
    (maxImageSize : Q) : string + Resolved :=
  let imageScale := imageScale imgWidth imgHeight maxImageSize in
  let width := (imgWidth * imageScale)%Q in
  let height := (imgHeight * imageScale)%Q in
  let cellWidth := (width / TriangleGrid.Qofnat cols)%Q in
  let cellHeight := (height / TriangleGrid.Qofnat rows)%Q in
  let pieces := allPieces cellWidth cellHeight rows cols in
  if bool_decide (length pieces = 0) then inl "No pieces were created"
  else inr {| pieces := RandomGrid.setupNeighbors pieces RandomGrid.tolerance;
              imageWidth := width; imageHeight := height; scale := imageScale |}.

End RandomPuzzle.

(** ** Interlocking outlines ([puzzleGame-berhasil.tsx]) *)

Module Jigsaw.
Import Engine.

Record TabPattern := mkTabPattern {
  horizontal : list (list bool);
  vertical : list (list bool);
}.

(** [generateTabPattern]: [horizontal] has [rows + 1] rows of [cols]
    entries, [vertical] has [rows] rows of [cols + 1] entries. *)
Definition generateTabPattern (rows cols : nat) : TabPattern :=
  {| horizontal :=
       map (λ row,
              map (λ col,
                     if bool_decide (row = 0 ∨ row = rows) then false
                     else bool_decide ((row + col) mod 2 = 0))
                  (seq 0 cols))
           (seq 0 (S rows));
     vertical :=
       map (λ row,
              map (λ col,
                     if bool_decide (col = 0 ∨ col = cols) then false
                     else bool_decide ((row + col + 1) mod 2 = 0))
                  (seq 0 (S cols)))
           (seq 0 rows) |}.

(** [m[row][col]] read as a condition: a missing row makes the access
    throw ([None]), a missing entry of a row is [undefined], which is
    falsy. *)
Definition entry (m : list (list bool)) (row col : nat) : option bool :=
  match m !! row with
  | Some r => Some (default false (r !! col))
  | None => None
  end.

(** [guard && m[row][col]] and [guard && !m[row][col]]: the entry is read
    only under the guard. *)
Definition andEntry (guard : bool) (m : list (list bool)) (row col : nat)
    : option bool :=
  if guard then entry m row col else Some false.
Definition andNotEntry (guard : bool) (m : list (list bool)) (row col : nat)
    : option bool :=
  if guard then negb <$> entry m row col else Some false.

(** The commands of an SVG path, with their numbers. *)
Inductive Command :=
| M (p : Point)
| L (p : Point)
| C (c1 c2 p : Point)
| Z.

(** The four blocks of a piece outline, each ending in a corner. *)
Record Outline := mkOutline {
  top : list Command;
  right : list Command;
  bottom : list Command;
  left : list Command;
}.

Definition pt (a b : Q) : Point := {| x := a; y := b |}.

(** The edge blocks of [generatePuzzlePath]. *)
Definition outline (width height : Q) (row col rows cols : nat)
    (tabPattern : TabPattern) : option Outline :=
  let tabSize := (Qmin width height * (18 # 100))%Q in
  let tabDepth := (tabSize * (9 # 10))%Q in
  hasTopSlot ← andEntry (bool_decide (0 < row)) (horizontal tabPattern) row col;
  hasTopTab ← andNotEntry (bool_decide (0 < row)) (horizontal tabPattern) row col;
  (* row < rows - 1 *)
  hasBottomTab ← andEntry (bool_decide (row + 1 < rows)) (horizontal tabPattern)
                          (row + 1) col;
  hasBottomSlot ← andNotEntry (bool_decide (row + 1 < rows)) (horizontal tabPattern)
                              (row + 1) col;
  hasLeftSlot ← andEntry (bool_decide (0 < col)) (vertical tabPattern) row col;
  hasLeftTab ← andNotEntry (bool_decide (0 < col)) (vertical tabPattern) row col;
  (* col < cols - 1 *)
  hasRightTab ← andEntry (bool_decide (col + 1 < cols)) (vertical tabPattern)
                         row (col + 1);
  hasRightSlot ← andNotEntry (bool_decide (col + 1 < cols)) (vertical tabPattern)
                             row (col + 1);
  Some
    {| top :=
         if (hasTopTab : bool) then
           [ L (pt (width * (35 # 100)) 0);
             C (pt (width * (35 # 100)) (- tabDepth * (4 # 10)))
               (pt (width * (4 # 10)) (- tabDepth))
               (pt (width * (5 # 10)) (- tabDepth));
             C (pt (width * (6 # 10)) (- tabDepth))
               (pt (width * (65 # 100)) (- tabDepth * (4 # 10)))
               (pt (width * (65 # 100)) 0);
             L (pt width 0) ]
         else if (hasTopSlot : bool) then
           [ L (pt (width * (35 # 100)) 0);
             C (pt (width * (35 # 100)) (tabDepth * (4 # 10)))
               (pt (width * (4 # 10)) tabDepth)
               (pt (width * (5 # 10)) tabDepth);
             C (pt (width * (6 # 10)) tabDepth)
               (pt (width * (65 # 100)) (tabDepth * (4 # 10)))
               (pt (width * (65 # 100)) 0);
             L (pt width 0) ]
         else [ L (pt width 0) ];
       right :=
         if (hasRightTab : bool) then
           [ L (pt width (height * (35 # 100)));
             C (pt (width + tabDepth * (4 # 10)) (height * (35 # 100)))
               (pt (width + tabDepth) (height * (4 # 10)))
               (pt (width + tabDepth) (height * (5 # 10)));
             C (pt (width + tabDepth) (height * (6 # 10)))
               (pt (width + tabDepth * (4 # 10)) (height * (65 # 100)))
               (pt width (height * (65 # 100)));
             L (pt width height) ]
         else if (hasRightSlot : bool) then
           [ L (pt width (height * (35 # 100)));
             C (pt (width - tabDepth * (4 # 10)) (height * (35 # 100)))
               (pt (width - tabDepth) (height * (4 # 10)))
               (pt (width - tabDepth) (height * (5 # 10)));
             C (pt (width - tabDepth) (height * (6 # 10)))
               (pt (width - tabDepth * (4 # 10)) (height * (65 # 100)))
               (pt width (height * (65 # 100)));
             L (pt width height) ]
         else [ L (pt width height) ];
       bottom :=
         if (hasBottomTab : bool) then
           [ L (pt (width * (65 # 100)) height);
             C (pt (width * (65 # 100)) (height + tabDepth * (4 # 10)))
               (pt (width * (6 # 10)) (height + tabDepth))
               (pt (width * (5 # 10)) (height + tabDepth));
             C (pt (width * (4 # 10)) (height + tabDepth))
               (pt (width * (35 # 100)) (height + tabDepth * (4 # 10)))
               (pt (width * (35 # 100)) height);
             L (pt 0 height) ]
         else if (hasBottomSlot : bool) then
           [ L (pt (width * (65 # 100)) height);
             C (pt (width * (65 # 100)) (height - tabDepth * (4 # 10)))
               (pt (width * (6 # 10)) (height - tabDepth))
               (pt (width * (5 # 10)) (height - tabDepth));
             C (pt (width * (4 # 10)) (height - tabDepth))
               (pt (width * (35 # 100)) (height - tabDepth * (4 # 10)))
               (pt (width * (35 # 100)) height);
             L (pt 0 height) ]
         else [ L (pt 0 height) ];
       left :=
         if (hasLeftTab : bool) then
           [ L (pt 0 (height * (65 # 100)));
             C (pt (- tabDepth * (4 # 10)) (height * (65 # 100)))
               (pt (- tabDepth) (height * (6 # 10)))
               (pt (- tabDepth) (height * (5 # 10)));
             C (pt (- tabDepth) (height * (4 # 10)))
               (pt (- tabDepth * (4 # 10)) (height * (35 # 100)))
               (pt 0 (height * (35 # 100)));
             L (pt 0 0) ]
         else if (hasLeftSlot : bool) then
           [ L (pt 0 (height * (65 # 100)));
             C (pt (tabDepth * (4 # 10)) (height * (65 # 100)))
               (pt tabDepth (height * (6 # 10)))
               (pt tabDepth (height * (5 # 10)));
             C (pt tabDepth (height * (4 # 10)))
               (pt (tabDepth * (4 # 10)) (height * (35 # 100)))
               (pt 0 (height * (35 # 100)));
             L (pt 0 0) ]
         else [ L (pt 0 0) ] |}.

(** [generatePuzzlePath]: [M 0,0], the four blocks, [Z]. *)
Definition generatePuzzlePath (width height : Q) (row col rows cols : nat)
    (tabPattern : TabPattern) : option (list Command) :=
  o ← outline width height row col rows cols tabPattern;
  Some ([M (pt 0 0)] ++ top o ++ right o ++ bottom o ++ left o ++ [Z]).

(** The canvas of one piece in [splitImage], for a canvas that gives a 2D
    context: its size and the translation under which the path is clipped
    and stroked. *)
Record Canvas := mkCanvas {
  canvasWidth : Q;
  canvasHeight : Q;
  translate : Point;
  path : option (list Command);
}.

(** [padding] of [splitImage]: [usePuzzleShapes ? tabSize * 1.1 : 0]. *)
Definition tabPadding (pieceWidth pieceHeight : Q) (usePuzzleShapes : bool) : Q :=
  let tabSize := (Qmin pieceWidth pieceHeight * (18 # 100))%Q in
  if usePuzzleShapes then (tabSize * (11 # 10))%Q else 0%Q.

(** The body of the two loops of [splitImage] up to the drawing. *)
Definition pieceCanvas (imgWidth imgHeight : Q) (rows cols : nat)
    (usePuzzleShapes : bool) (row col : nat) : option Canvas :=
  let pieceWidth := (imgWidth / inject_Z (Z.of_nat cols))%Q in
  let pieceHeight := (imgHeight / inject_Z (Z.of_nat rows))%Q in
  let tabPattern := generateTabPattern rows cols in
  let padding := tabPadding pieceWidth pieceHeight usePuzzleShapes in
  if usePuzzleShapes then
    pathStr ← generatePuzzlePath pieceWidth pieceHeight row col rows cols tabPattern;
    Some {| canvasWidth := pieceWidth + padding * 2;
            canvasHeight := pieceHeight + padding * 2;
            translate := pt padding padding;
            path := Some pathStr |}%Q
  else
    Some {| canvasWidth := pieceWidth; canvasHeight := pieceHeight;
            translate := pt 0 0; path := None |}.

End Jigsaw.

(** ** The countdown of the two pages
    ([app/puzzle-triangle/page.tsx], [app/puzzle-random/page.tsx]) *)

Module Clock.

(** The state the timer effect reads and writes. *)
Record State := mkState {
  timeRemaining : Q;
  isGameOver : bool;
  isPaused : bool;
  loading : bool;
  isSolved : bool;
}.

(** [useState(timeLimit)], [useState(false)], ...; [loading] starts as
    [true] and is cleared when the puzzle is built. *)
Definition initialState (timeLimit : Q) : State :=
  {| timeRemaining := timeLimit; isGameOver := false; isPaused := false;
     loading := true; isSolved := false |}.

(** The callback of [setInterval]:
    [if (prev <= 1) { setIsGameOver(true); return 0; } return prev - 1;] *)
Definition tick (st : State) : State :=
  if Qle_bool (timeRemaining st) 1
  then {| timeRemaining := 0; isGameOver := true; isPaused := isPaused st;
          loading := loading st; isSolved := isSolved st |}
  else {| timeRemaining := timeRemaining st - 1; isGameOver := isGameOver st;
          isPaused := isPaused st; loading := loading st; isSolved := isSolved st |}.

(** The guard of the effect: no interval while
    [loading || isSolved || isGameOver || isPaused]. *)
Definition stopped (st : State) : bool :=
  loading st || isSolved st || isGameOver st || isPaused st.

(** One second of wall-clock time. *)
Definition second (st : State) : State :=
  if stopped st then st else tick st.

(** [seconds.toString().padStart(targetLength, fill)] for a one-character
    [fill]. *)
Definition padStart (targetLength : nat) (fill : Ascii.ascii) (s : string) : string :=
  String.concat "" (replicate (targetLength - String.length s) (String fill "")) +:+ s.

(** [formatTime] on a whole number of seconds: [Math.floor(seconds / 60)],
    [seconds % 60] (the sign of the dividend), and the template string. *)
Definition formatTime (seconds : Z) : string :=
  let mins := (seconds `div` 60)%Z in
  let secs := Z.rem seconds 60 in
  pretty mins +:+ ":" +:+ padStart 2 (Ascii.ascii_of_nat 48) (pretty secs).

End Clock.

(** ** The shuffle of the pool *)

Module Shuffle.

(** [[a[i], a[j]] = [a[j], a[i]]] for two indices of the array.
    [Math.random()] is below 1, which keeps [j] within the array. *)
Definition swap {A} (a : list A) (i j : nat) : list A :=
  match a !! i, a !! j with
  | Some ai, Some aj => <[j := ai]> (<[i := aj]> a)
  | _, _ => a
  end.

(** The loop [for (let i = shuffled.length - 1; i > 0; i--)]; [random k]
    is the value of the call of [Math.random()] number [k], [calls] counts
    the calls made so far. *)
Fixpoint shuffleFrom {A} (random : nat → Q) (calls : nat) (i : nat)
    (shuffled : list A) : list A :=
  match i with
  | 0 => shuffled
  | S i' =>
      (* Math.floor(Math.random() * (i + 1)) *)
      let j := Z.to_nat (Qfloor (random calls * inject_Z (Z.of_nat (i + 1)))) in
      shuffleFrom random (S calls) i' (swap shuffled i j)
  end.

Definition shuffle {A} (random : nat → Q) (ids : list A) : list A :=
  shuffleFrom random 0 (length ids - 1) ids.

End Shuffle.

(** ** What the pages draw *)

Module Display.
Import Engine.



(** [left] and [top] of a placed piece on the canvas, in both pages. *)
Definition leftTop (scale : Q) (placed : PlacedPiece.t) : Point :=
  {| x := x (PlacedPiece.position placed) * scale;
     y := y (PlacedPiece.position placed) * scale |}%Q.

(** [isBeingDragged] of the dnd-kit page:
    [dragSource === 'placed' && activeId !== null &&
     getConnectedGroup(activeId).includes(pieceId)]. *)
Definition isBeingDragged (st : DndTriangle.State) (pieceId : string) : bool :=
  match DndTriangle.dragSource st, DndTriangle.activeId st with
  | Some DndTriangle.placed, Some activeId =>
      bool_decide (pieceId ∈ getConnectedGroup (DndTriangle.placedPieces st) activeId)
  | _, _ => false
  end.

(** Where [PlacedPieceItem] shows a placed piece: [left], [top] and the
    [translate] by [dragDelta] of a piece being dragged. *)
Definition shownAt (scale : Q) (st : DndTriangle.State) (pieceId : string)
    (placed : PlacedPiece.t) : Point :=
  match isBeingDragged st pieceId, DndTriangle.dragDelta st with
  | true, Some dragDelta => Point_add (leftTop scale placed) dragDelta
  | _, _ => leftTop scale placed
  end.

(** [left] and [top] of the floating preview of the random page, in
    viewport coordinates. *)
Definition previewLeftTop (dragPreviewPos : Point) (ds : MouseTriangle.DragState)
    : Point :=
  Point_sub dragPreviewPos (MouseTriangle.offset ds).

End Display.

(** ** The canvas of a triangle piece *)

Module TriangleCanvas.
Import Engine.

(** What [createTrianglePiece] sets up before drawing: the size of the
    canvas, the clip path, and the source rectangle of [drawImage]. *)
Record Canvas := mkCanvas {
  canvasWidth : Q;
  canvasHeight : Q;
  offsetTriangle : list Point;
  srcX : Q;
  srcY : Q;
  srcWidth : Q;
  srcHeight : Q;
}.




End TriangleCanvas.

(** ** Double-precision arithmetic

    A finite double is taken as the rational number it denotes.  An
    operation of JavaScript on doubles gives the double nearest to the exact
    result, a tie going to the double whose last bit is 0; [round] is that
    rounding, for the 53 significant bits and the least exponent -1074 of
    the format.  The sign of zero, infinities and NaN are left out: the
    numbers of the game are coordinates of pixels. *)

Module Double.

(** [2^e] *)
Definition pow2 (e : Z) : Q :=
  if (0 <=? e)%Z then inject_Z (2 ^ e) else 1 # Z.to_pos (2 ^ (- e)).

(** The binade of a number other than 0: [floor (log2 |q|)]. *)
Definition ilog2 (q : Q) : Z :=
  let k := (Z.log2 (Z.abs (Qnum q)) - Z.log2 (Zpos (Qden q)))%Z in
  if Qle_bool (pow2 k) (Qabs q) then k else (k - 1)%Z.

(** The nearest integer, ties to the even one. *)
Definition nearestEven (y : Q) : Z :=
  let f := Qfloor y in
  match Qcompare (y - inject_Z f) (1 # 2) with
  | Lt => f
  | Gt => (f + 1)%Z
  | Eq => if Z.even f then f else (f + 1)%Z
  end.

(** The exponent of the last place: 53 significant bits, and no exponent
    below -1074 (subnormal numbers). *)
Definition exponent (q : Q) : Z := Z.max (ilog2 q - 52) (-1074).

(** The double nearest to [q], ties to even. *)
Definition round (q : Q) : Q :=
  if Qeq_bool q 0 then 0%Q
  else let e := exponent q in
       Qred (inject_Z (nearestEven (q / pow2 e)) * pow2 e).

Definition add (a b : Q) : Q := round (a + b).
Definition sub (a b : Q) : Q := round (a - b).
Definition mul (a b : Q) : Q := round (a * b).
Definition div (a b : Q) : Q := round (a / b).

(** [Math.sqrt]: the double nearest to the square root.  With [s] the
    integer square root of the scaled radicand [r], the nearest integer to
    the root of [r] is [s] or [s + 1] according to the side of
    [(s + 1/2)²] on which [r] lies. *)
Definition sqrt (q : Q) : Q :=
  if Qle_bool q 0 then 0%Q
  else
    let e := Z.max (ilog2 q / 2 - 52) (-1074) in
    let r := (q / pow2 (2 * e))%Q in
    let s := Z.sqrt (Qfloor r) in
    let m := match Qcompare r ((inject_Z s + (1 # 2)) * (inject_Z s + (1 # 2)))%Q with
             | Lt => s
             | Gt => (s + 1)%Z
             | Eq => if Z.even s then s else (s + 1)%Z
             end in
    Qred (inject_Z m * pow2 e).

End Double.

(** ** The same arithmetic in double precision

    The modules above take numbers as exact rationals.  Where a property
    depends on the results of the arithmetic, and not only on which
    operations are applied to what, the functions are embedded a second time
    with every operation rounded as JavaScript rounds it ([Double]): a
    finite double is the rational number it denotes, and an operation gives
    the double nearest to the exact result, ties to even.  Overflow to an
    infinity, division by zero and NaN are not modelled: the numbers of the
    game are coordinates of pixels, divided by numbers of rows and columns
    and by the display scale. *)

Module Engine64.
Import Engine.

(** [distance]: [Math.sqrt((p1.x - p2.x) ** 2 + (p1.y - p2.y) ** 2)]; the
    square [v ** 2] is the rounded product [v * v]. *)
Definition distance (p1 p2 : Point) : Q :=
  let dx := Double.sub (x p1) (x p2) in
  let dy := Double.sub (y p1) (y p2) in
  Double.sqrt (Double.add (Double.mul dx dx) (Double.mul dy dy)).

Record SnapCandidate := mkCandidate {
  neighborId : string;
  snapPos : Point;
  dist : Q;
}.

(** Stable sort by [a.dist - b.dist]: the rounded difference of two doubles
    is negative exactly when the first is the smaller one. *)
Fixpoint insertByDist (c : SnapCandidate) (l : list SnapCandidate)
    : list SnapCandidate :=
  match l with
  | [] => [c]
  | c' :: l' =>
      if Qltb (dist c') (dist c) then c' :: insertByDist c l'
      else c :: l
  end.

Definition sortByDist (l : list SnapCandidate) : list SnapCandidate :=
  foldr insertByDist [] l.

(** The expected position of [piece] next to a placed [neighbor]. *)
Definition expectedPosition (piece neighbor : Piece.t)
    (neighborPlaced : PlacedPiece.t) : Point :=
  let offsetX := Double.sub (x (Piece.correctPosition piece))
                            (x (Piece.correctPosition neighbor)) in
  let offsetY := Double.sub (y (Piece.correctPosition piece))
                            (y (Piece.correctPosition neighbor)) in
  {| x := Double.add (x (PlacedPiece.position neighborPlaced)) offsetX;
     y := Double.add (y (PlacedPiece.position neighborPlaced)) offsetY |}.

(** The body of the [forEach] over [Object.values(piece.neighbors)] in
    [checkAndSnapToNeighbors]. *)
Definition candidateFor (pieces : list Piece.t)
    (placedPieces : gmap string PlacedPiece.t) (snapThreshold : Q)
    (piece : Piece.t) (position : Point) (neighborId : string)
    : option SnapCandidate :=
  if bool_decide (neighborId = "") then None else
  match placedPieces !! neighborId with
  | None => None
  | Some neighborPlaced =>
    match findPiece pieces neighborId with
    | None => None
    | Some neighbor =>
      let expectedPos := expectedPosition piece neighbor neighborPlaced in
      let d := distance position expectedPos in
      if Qltb d snapThreshold
      then Some {| neighborId := neighborId; snapPos := expectedPos; dist := d |}
      else None
    end
  end.

Definition snapCandidates (pieces : list Piece.t)
    (placedPieces : gmap string PlacedPiece.t) (snapThreshold : Q)
    (piece : Piece.t) (position : Point) : list SnapCandidate :=
  omap (candidateFor pieces placedPieces snapThreshold piece position)
       (neighborValues piece).

(** The [allNeighbors] set: every candidate id with its connected group. *)
Definition collectNeighbors (placedPieces : gmap string PlacedPiece.t)
    (candidates : list SnapCandidate) : list string :=
  foldl (λ allNeighbors candidate,
           foldl Set_add (Set_add allNeighbors (neighborId candidate))
                 (getConnectedGroup placedPieces (neighborId candidate)))
        [] candidates.

(** [checkAndSnapToNeighbors(pieceId, position)] *)
Definition checkAndSnapToNeighbors (pieces : list Piece.t)
    (placedPieces : gmap string PlacedPiece.t) (snapThreshold : Q)
    (pieceId : string) (position : Point) : SnapResult :=
  match findPiece pieces pieceId with
  | None => {| shouldSnap := false; snapPosition := position; neighbors := [] |}
  | Some piece =>
    match sortByDist (snapCandidates pieces placedPieces snapThreshold piece position) with
    | [] => {| shouldSnap := false; snapPosition := position; neighbors := [] |}
    | best :: rest =>
        {| shouldSnap := true; snapPosition := snapPos best;
           neighbors := collectNeighbors placedPieces (best :: rest) |}
    end
  end.

End Engine64.

(** The ['placed'] and ['pool'] branches of [handleDragEnd] in
    [app/puzzle-triangle/page.tsx]. *)
Module DndTriangle64.
Import Engine.

(** "Move all connected pieces by delta". *)
Definition moveGroup (prev : gmap string PlacedPiece.t)
    (connectedGroup : list string) (deltaX deltaY : Q)
    : gmap string PlacedPiece.t :=
  foldl (λ newMap i,
           match prev !! i with
           | Some old =>
               <[i := {| PlacedPiece.id := PlacedPiece.id old;
                         PlacedPiece.position :=
                           {| x := Double.add (x (PlacedPiece.position old)) deltaX;
                              y := Double.add (y (PlacedPiece.position old)) deltaY |};
                         PlacedPiece.isLocked := false;
                         PlacedPiece.connectedGroup :=
                           PlacedPiece.connectedGroup old |}]> newMap
           | None => newMap
           end)
        prev connectedGroup.

Record BestSnap := mkBestSnap {
  snapPos : Point;
  groupPieceId : string;
  groupPiecePos : Point;
  neighborId : string;
  dist : Q;
}.

(** The inner [forEach] of the snap scan, for one neighbour id of one group
    piece; the accumulator is [(bestSnap, allNeighborIds)]. *)
Definition scanNeighbor (pieces : list Piece.t)
    (newMap : gmap string PlacedPiece.t) (snapThreshold : Q)
    (connectedGroup : list string) (groupId : string)
    (groupPiece : Piece.t) (groupPlaced : PlacedPiece.t)
    (acc : option BestSnap * list string) (nId : string)
    : option BestSnap * list string :=
  if bool_decide (nId = "") || bool_decide (nId ∈ connectedGroup) then acc else
  match newMap !! nId with
  | None => acc
  | Some neighborPlaced =>
    match findPiece pieces nId with
    | None => acc
    | Some neighborPiece =>
      let expectedPos :=
        Engine64.expectedPosition groupPiece neighborPiece neighborPlaced in
      let d := Engine64.distance (PlacedPiece.position groupPlaced) expectedPos in
      if Qltb d snapThreshold
      then
        let found := {| snapPos := expectedPos; groupPieceId := groupId;
                        groupPiecePos := PlacedPiece.position groupPlaced;
                        neighborId := nId; dist := d |} in
        (match acc.1 with
         | None => Some found
         | Some bestSnap =>
             if Qltb d (dist bestSnap) then Some found else Some bestSnap
         end,
         Set_add acc.2 nId)
      else acc
    end
  end.

(** The snap scan over every piece of the dragged group. *)
Definition scanGroup (pieces : list Piece.t)
    (newMap : gmap string PlacedPiece.t) (snapThreshold : Q)
    (connectedGroup : list string) : option BestSnap * list string :=
  foldl (λ acc groupId,
           match findPiece pieces groupId, newMap !! groupId with
           | Some groupPiece, Some groupPlaced =>
               foldl (scanNeighbor pieces newMap snapThreshold connectedGroup
                        groupId groupPiece groupPlaced)
                     acc (neighborValues groupPiece)
           | _, _ => acc
           end)
        (None, []) connectedGroup.

(** The final [allConnected.forEach]. *)
Definition mergeGroups (newMap : gmap string PlacedPiece.t)
    (connectedGroup : list string) (snapOffset : Point)
    (allConnected : list string) : gmap string PlacedPiece.t :=
  foldl (λ newMap i,
           match newMap !! i with
           | None => newMap
           | Some old =>
               let isDragged := bool_decide (i ∈ connectedGroup) in
               <[i := {| PlacedPiece.id := i;
                         PlacedPiece.position :=
                           if isDragged
                           then {| x := Double.add (x (PlacedPiece.position old))
                                                   (x snapOffset);
                                   y := Double.add (y (PlacedPiece.position old))
                                                   (y snapOffset) |}
                           else PlacedPiece.position old;
                         PlacedPiece.isLocked := true;
                         PlacedPiece.connectedGroup := Set_without allConnected i |}]> newMap
           end)
        newMap allConnected.

(** The [setPlacedPieces] update of the ['placed'] branch of
    [handleDragEnd]. *)
Definition dropPlaced (pieces : list Piece.t) (snapThreshold : Q)
    (prev : gmap string PlacedPiece.t) (pieceId : string)
    (deltaX deltaY : Q) : gmap string PlacedPiece.t :=
  let connectedGroup := getConnectedGroup prev pieceId in
  let newMap := moveGroup prev connectedGroup deltaX deltaY in
  match scanGroup pieces newMap snapThreshold connectedGroup with
  | (Some bs, allNeighborIds) =>
      if bool_decide (0 < length allNeighborIds)
      then
        let snapOffset :=
          {| x := Double.sub (x (snapPos bs)) (x (groupPiecePos bs));
             y := Double.sub (y (snapPos bs)) (y (groupPiecePos bs)) |} in
        let expandedNeighbors :=
          DndTriangle.expandNeighbors newMap connectedGroup allNeighborIds in
        let allConnected := Set_from (connectedGroup ++ expandedNeighbors) in
        mergeGroups newMap connectedGroup snapOffset allConnected
      else newMap
  | (None, _) => newMap
  end.

(** The drop position computed in the ['pool'] branch. *)
Definition dropPosition (event : DndTriangle.DragEndEvent) (piece : Piece.t)
    (activator rectTopLeft : Point) : Point :=
  let endX := Double.add (x activator) (x (DndTriangle.delta event)) in
  let endY := Double.add (y activator) (y (DndTriangle.delta event)) in
  {| x := Double.sub (Double.div (Double.sub endX (x rectTopLeft)) (DndTriangle.sc event))
                     (Double.div (Piece.width piece) 2);
     y := Double.sub (Double.div (Double.sub endY (y rectTopLeft)) (DndTriangle.sc event))
                     (Double.div (Piece.height piece) 2) |}.

(** [handleDragEnd]; [sc] is the display scale the handler computes, see
    [scale] below. *)
Definition handleDragEnd (snapThreshold : Q) (event : DndTriangle.DragEndEvent)
    (st : DndTriangle.State) : DndTriangle.State :=
  let pieceId := DndTriangle.active event in
  match findPiece (DndTriangle.pieces st) pieceId with
  | None =>
      {| DndTriangle.pieces := DndTriangle.pieces st;
         DndTriangle.placedPieces := DndTriangle.placedPieces st;
         DndTriangle.poolItems := DndTriangle.poolItems st;
         DndTriangle.activeId := None; DndTriangle.dragSource := None;
         DndTriangle.dragDelta := DndTriangle.dragDelta st;
         DndTriangle.isSolved := DndTriangle.isSolved st |}
  | Some piece =>
    match DndTriangle.dragSource st with
    | Some DndTriangle.pool =>
        let backToPool :=
          {| DndTriangle.pieces := DndTriangle.pieces st;
             DndTriangle.placedPieces := DndTriangle.placedPieces st;
             DndTriangle.poolItems := DndTriangle.poolItems st ++ [pieceId];
             DndTriangle.activeId := None; DndTriangle.dragSource := None;
             DndTriangle.dragDelta := None;
             DndTriangle.isSolved := DndTriangle.isSolved st |} in
        if bool_decide (DndTriangle.over event = Some "puzzle-canvas")
        then
          match DndTriangle.rect event, DndTriangle.activatorEvent event with
          | Some rectTopLeft, Some activator =>
              let position := dropPosition event piece activator rectTopLeft in
              let snap :=
                Engine64.checkAndSnapToNeighbors (DndTriangle.pieces st)
                  (DndTriangle.placedPieces st) snapThreshold pieceId position in
              {| DndTriangle.pieces := DndTriangle.pieces st;
                 DndTriangle.placedPieces :=
                   placeFromPool (DndTriangle.placedPieces st) pieceId position snap;
                 DndTriangle.poolItems := DndTriangle.poolItems st;
                 DndTriangle.activeId := None; DndTriangle.dragSource := None;
                 DndTriangle.dragDelta := None;
                 DndTriangle.isSolved := DndTriangle.isSolved st |}
          | _, _ => backToPool
          end
        else backToPool
    | Some DndTriangle.placed =>
        let deltaX := Double.div (x (DndTriangle.delta event)) (DndTriangle.sc event) in
        let deltaY := Double.div (y (DndTriangle.delta event)) (DndTriangle.sc event) in
        {| DndTriangle.pieces := DndTriangle.pieces st;
           DndTriangle.placedPieces :=
             dropPlaced (DndTriangle.pieces st) snapThreshold
                        (DndTriangle.placedPieces st) pieceId deltaX deltaY;
           DndTriangle.poolItems := DndTriangle.poolItems st;
           DndTriangle.activeId := None; DndTriangle.dragSource := None;
           DndTriangle.dragDelta := None;
           DndTriangle.isSolved := DndTriangle.isSolved st |}
    | None =>
        {| DndTriangle.pieces := DndTriangle.pieces st;
           DndTriangle.placedPieces := DndTriangle.placedPieces st;
           DndTriangle.poolItems := DndTriangle.poolItems st;
           DndTriangle.activeId := None; DndTriangle.dragSource := None;
           DndTriangle.dragDelta := None;
           DndTriangle.isSolved := DndTriangle.isSolved st |}
    end
  end.

(** One event, followed by the solved-check effect; the handlers other
    than [handleDragEnd] do no arithmetic. *)
Definition step (snapThreshold : Q) (e : DndTriangle.Event)
    (st : DndTriangle.State) : DndTriangle.State :=
  DndTriangle.runSolvedCheck
    match e with
    | DndTriangle.DragEnd event => handleDragEnd snapThreshold event st
    | _ => DndTriangle.handle snapThreshold e st
    end.

(** [sc] of [handleDragEnd], the same expression as [scale] of the
    render. *)
Definition scale (windowW windowH imgWidth imgHeight : Q) : Q :=
  let sidebarW := if Qle_bool 1280 windowW then 360%Q else 280%Q in
  let maxSize :=
    Qmin (Qmin 800 (Double.sub (Double.sub windowW sidebarW) 160))
         (Double.sub windowH 250) in
  Qmin 1 (Double.div maxSize (Qmax imgWidth imgHeight)).

End DndTriangle64.

(** The drag of placed pieces in the mouse-driven triangle component
    ([handlePlacedPieceMouseDown], [handleMouseMove]). *)
Module MouseTriangle64.
Import Engine MouseTriangle.

Definition handlePlacedPieceMouseDown (e : MouseEvent) (pieceId : string)
    (st : State) : State :=
  match rect e with
  | None => st
  | Some r =>
    match placedPieces st !! pieceId with
    | None => st
    | Some placed =>
        let mouseX := Double.sub (x (client e)) (x r) in
        let mouseY := Double.sub (y (client e)) (y r) in
        let connectedGroup := getConnectedGroup (placedPieces st) pieceId in
        {| pieces := pieces st; placedPieces := placedPieces st;
           poolItems := poolItems st;
           dragState :=
             Some {| pieceIds := connectedGroup;
                     offset :=
                       {| x := Double.sub mouseX (x (PlacedPiece.position placed));
                          y := Double.sub mouseY (y (PlacedPiece.position placed)) |} |};
           isSolved := isSolved st |}
    end
  end.

(** The [setPlacedPieces] update of a mouse move. *)
Definition moveDragged (prev : gmap string PlacedPiece.t)
    (pieceIds : list string) (primaryPieceId : string)
    (newX newY offsetX offsetY : Q) : gmap string PlacedPiece.t :=
  foldl (λ newMap i,
           if bool_decide (i = primaryPieceId)
           then <[i := {| PlacedPiece.id := i;
                          PlacedPiece.position := {| x := newX; y := newY |};
                          PlacedPiece.isLocked := false;
                          PlacedPiece.connectedGroup := [] |}]> newMap
           else match prev !! i with
                | Some old =>
                    <[i := {| PlacedPiece.id := PlacedPiece.id old;
                              PlacedPiece.position :=
                                {| x := Double.add (x (PlacedPiece.position old)) offsetX;
                                   y := Double.add (y (PlacedPiece.position old)) offsetY |};
                              PlacedPiece.isLocked := false;
                              PlacedPiece.connectedGroup :=
                                PlacedPiece.connectedGroup old |}]> newMap
                | None => newMap
                end)
        prev pieceIds.

(** The new position of the primary piece and the shift of the others, as
    [handleMouseMove] computes them. *)
Definition dragTarget (placedPieces : gmap string PlacedPiece.t)
    (ds : DragState) (primaryPieceId : string) (mouseX mouseY : Q)
    : Q * Q * Q * Q :=
  let newX := Double.sub mouseX (x (offset ds)) in
  let newY := Double.sub mouseY (y (offset ds)) in
  match placedPieces !! primaryPieceId with
  | Some oldPlaced =>
      (newX, newY, Double.sub newX (x (PlacedPiece.position oldPlaced)),
       Double.sub newY (y (PlacedPiece.position oldPlaced)))
  | None => (newX, newY, 0%Q, 0%Q)
  end.

Definition handleMouseMove (e : MouseEvent) (st : State) : State :=
  match dragState st with
  | None => st
  | Some ds =>
    match rect e with
    | None => st
    | Some r =>
        let mouseX := Double.sub (x (client e)) (x r) in
        let mouseY := Double.sub (y (client e)) (y r) in
        let newPlaced :=
          match pieceIds ds with
          | [] => placedPieces st
          | primaryPieceId :: _ =>
              let '(newX, newY, offsetX, offsetY) :=
                dragTarget (placedPieces st) ds primaryPieceId mouseX mouseY in
              moveDragged (placedPieces st) (pieceIds ds) primaryPieceId
                          newX newY offsetX offsetY
          end in
        {| pieces := pieces st; placedPieces := newPlaced;
           poolItems := filter (λ i, i ∉ pieceIds ds) (poolItems st);
           dragState := dragState st; isSolved := isSolved st |}
    end
  end.

(** The [setPlacedPieces] update of a release that snaps: first the
    dragged ids, then the neighbour ids. *)
Definition snapDragged (prev : gmap string PlacedPiece.t)
    (pieceIds neighbors : list string) (offsetX offsetY : Q)
    : gmap string PlacedPiece.t :=
  let allConnected := Set_from (pieceIds ++ neighbors) in
  let afterDragged :=
    foldl (λ newMap i,
             match prev !! i with
             | None => newMap
             | Some old =>
                 <[i := {| PlacedPiece.id := i;
                           PlacedPiece.position :=
                             {| x := Double.add (x (PlacedPiece.position old)) offsetX;
                                y := Double.add (y (PlacedPiece.position old)) offsetY |};
                           PlacedPiece.isLocked := true;
                           PlacedPiece.connectedGroup := Set_without allConnected i |}]>
                   newMap
             end)
          prev pieceIds in
  foldl (λ newMap neighborId,
           match prev !! neighborId with
           | None => newMap
           | Some neighbor =>
               <[neighborId :=
                   {| PlacedPiece.id := PlacedPiece.id neighbor;
                      PlacedPiece.position := PlacedPiece.position neighbor;
                      PlacedPiece.isLocked := PlacedPiece.isLocked neighbor;
                      PlacedPiece.connectedGroup :=
                        Set_without allConnected neighborId |}]> newMap
           end)
        afterDragged neighbors.

(** The release of dragged placed pieces ([handleMouseUp]). *)
Definition releaseDragged (pieces : list Piece.t) (snapThreshold : Q)
    (placedPieces : gmap string PlacedPiece.t) (ds : DragState)
    : gmap string PlacedPiece.t :=
  match pieceIds ds with
  | [] => placedPieces
  | primaryPieceId :: _ =>
    match placedPieces !! primaryPieceId with
    | None => placedPieces
    | Some placed =>
        let snap :=
          Engine64.checkAndSnapToNeighbors pieces placedPieces snapThreshold
            primaryPieceId (PlacedPiece.position placed) in
        if shouldSnap snap && bool_decide (0 < length (neighbors snap))
        then
          let offsetX :=
            Double.sub (x (snapPosition snap)) (x (PlacedPiece.position placed)) in
          let offsetY :=
            Double.sub (y (snapPosition snap)) (y (PlacedPiece.position placed)) in
          snapDragged placedPieces (pieceIds ds) (neighbors snap) offsetX offsetY
        else placedPieces
    end
  end.

Definition handleMouseUp (snapThreshold : Q) (st : State) : State :=
  match dragState st with
  | None => st
  | Some ds =>
      {| pieces := pieces st;
         placedPieces := releaseDragged (pieces st) snapThreshold (placedPieces st) ds;
         poolItems := poolItems st; dragState := None; isSolved := isSolved st |}
  end.

Definition step (snapThreshold : Q) (ev : Event) (st : State) : State :=
  runSolvedCheck
    match ev with
    | PoolPieceMouseDown pieceId => handlePoolPieceMouseDown pieceId st
    | PlacedPieceMouseDown e pieceId => handlePlacedPieceMouseDown e pieceId st
    | MouseMove e => handleMouseMove e st
    | MouseUp => handleMouseUp snapThreshold st
    | ReturnToPool pieceId => handleReturnToPool pieceId st
    end.

End MouseTriangle64.

(** The partition and [setupNeighbors] of [app/puzzle-triangle/page.tsx] in
    double precision.  [col + 1] is a sum of two numbers like any other; a
    key [`${x},${y}-${x},${y}`] prints doubles, and two doubles print alike
    exactly when they are the same number. *)
Module TriangleGrid64.
Import Engine.

Definition getPolygonBounds (polygon : list Point) : TriangleGrid.Bounds :=
  let xs := map x polygon in
  let ys := map y polygon in
  let minX := TriangleGrid.minOf xs in
  let minY := TriangleGrid.minOf ys in
  let maxX := TriangleGrid.maxOf xs in
  let maxY := TriangleGrid.maxOf ys in
  {| TriangleGrid.minX := minX; TriangleGrid.minY := minY;
     TriangleGrid.maxX := maxX; TriangleGrid.maxY := maxY;
     TriangleGrid.width := Double.sub maxX minX;
     TriangleGrid.height := Double.sub maxY minY |}.

(** [createTrianglePiece], without the canvas work. *)
Definition createTrianglePiece (triangle : list Point)
    (row col triangleIndex : nat) : Piece.t :=
  let bounds := getPolygonBounds triangle in
  {| Piece.id := TriangleGrid.pieceId row col triangleIndex;
     Piece.row := row; Piece.col := col;
     Piece.triangleIndex := triangleIndex;
     Piece.correctPosition :=
       {| x := TriangleGrid.minX bounds; y := TriangleGrid.minY bounds |};
     Piece.polygon := triangle;
     Piece.width := TriangleGrid.width bounds;
     Piece.height := TriangleGrid.height bounds;
     Piece.neighbors := [] |}.

(** The four corners of a cell: [col * cellWidth], [(col + 1) * cellWidth],
    [row * cellHeight], [(row + 1) * cellHeight]. *)
Definition cellCorners (cellWidth cellHeight : Q) (row col : nat)
    : Point * Point * Point * Point :=
  let Qofnat := TriangleGrid.Qofnat in
  let left := Double.mul (Qofnat col) cellWidth in
  let right := Double.mul (Double.add (Qofnat col) 1) cellWidth in
  let top := Double.mul (Qofnat row) cellHeight in
  let bottom := Double.mul (Double.add (Qofnat row) 1) cellHeight in
  ({| x := left; y := top |}, {| x := right; y := top |},
   {| x := left; y := bottom |}, {| x := right; y := bottom |}).

(** The two triangles of one cell. *)
Definition cellPieces (cellWidth cellHeight : Q) (row col : nat) : list Piece.t :=
  let '(topLeft, topRight, bottomLeft, bottomRight) :=
    cellCorners cellWidth cellHeight row col in
  let diagonalType := (row + col) mod 2 in
  if bool_decide (diagonalType = 0)
  then
    let tri1 := [topLeft; topRight; bottomRight] in
    let tri2 := [topLeft; bottomRight; bottomLeft] in
    [createTrianglePiece tri1 row col 0; createTrianglePiece tri2 row col 1]
  else
    let tri1 := [topLeft; topRight; bottomLeft] in
    let tri2 := [topRight; bottomRight; bottomLeft] in
    [createTrianglePiece tri1 row col 0; createTrianglePiece tri2 row col 1].

(** The vertex-coincidence tolerance: the literal [0.1] of
    [setupNeighbors], that is, the double nearest to one tenth. *)
Definition tolerance : Q := Eval vm_compute in Double.round (1 # 10).

(** [Math.abs(p1.x - p2.x) < 0.1 && Math.abs(p1.y - p2.y) < 0.1] *)
Definition coincide (p1 p2 : Point) : bool :=
  Qltb (Qabs (Double.sub (x p1) (x p2))) tolerance
  && Qltb (Qabs (Double.sub (y p1) (y p2))) tolerance.

(** [piece.polygon.filter(p1 => otherPiece.polygon.some(p2 => ...))] *)
Definition sharedPoints (piece otherPiece : Piece.t) : list Point :=
  List.filter (λ p1, existsb (λ p2, coincide p1 p2) (Piece.polygon otherPiece))
              (Piece.polygon piece).

(** The inner [forEach] of [setupNeighbors] for one [otherPiece]. *)
Definition linkTo (piece : Piece.t) (neighbors : list (EdgeKey * string))
    (otherPiece : Piece.t) : list (EdgeKey * string) :=
  if bool_decide (Piece.id piece = Piece.id otherPiece) then neighbors else
  match sharedPoints piece otherPiece with
  | [p0; p1] =>
      TriangleGrid.Object_set neighbors
        {| kx0 := x p0; ky0 := y p0; kx1 := x p1; ky1 := y p1 |}
        (Piece.id otherPiece)
  | _ => neighbors
  end.

(** [setupNeighbors] *)
Definition setupNeighbors (pieces : list Piece.t) : list Piece.t :=
  map (λ piece,
         TriangleGrid.withNeighbors piece
           (foldl (linkTo piece) (Piece.neighbors piece) pieces))
      pieces.

(** The pieces pushed by the two loops, before [setupNeighbors]. *)
Definition cells (cellWidth cellHeight : Q) (rows cols : nat) : list Piece.t :=
  flat_map (λ row, flat_map (λ col, cellPieces cellWidth cellHeight row col)
                            (seq 0 cols))
           (seq 0 rows).

(** [createTrianglePuzzle] for an image of [width] by [height]. *)
Definition createTrianglePuzzle (width height : Q) (rows cols : nat)
    : list Piece.t :=
  let cellWidth := Double.div width (TriangleGrid.Qofnat cols) in
  let cellHeight := Double.div height (TriangleGrid.Qofnat rows) in
  setupNeighbors (cells cellWidth cellHeight rows cols).

End TriangleGrid64.

(** The partition and [setupNeighbors] of [app/puzzle-random/page.tsx] in
    double precision. *)
Module RandomGrid64.
Import Engine.

(** A decimal literal of the source: the double nearest to it. *)
Definition literal (q : Q) : Q := Double.round q.

(** [generateTrianglePattern] *)
Definition generateTrianglePattern (topLeft topRight bottomLeft bottomRight : Point)
    (row col : nat) : list (list Point) :=
  let cellW := Double.sub (x topRight) (x topLeft) in
  let cellH := Double.sub (y bottomLeft) (y topLeft) in
  let patternType := (row * 7 + col * 13) mod 6 in
  let '(cx, cy) :=
    match patternType with
    | 0 => (literal (50 # 100), literal (50 # 100))
    | 1 => (literal (30 # 100), literal (35 # 100))
    | 2 => (literal (70 # 100), literal (30 # 100))
    | 3 => (literal (30 # 100), literal (70 # 100))
    | 4 => (literal (70 # 100), literal (65 # 100))
    | 5 => (literal (40 # 100), literal (60 # 100))
    | _ => (literal (50 # 100), literal (50 # 100))
    end in
  let interior := {| x := Double.add (x topLeft) (Double.mul cellW cx);
                     y := Double.add (y topLeft) (Double.mul cellH cy) |} in
  [ [topLeft; topRight; interior];
    [topRight; bottomRight; interior];
    [bottomRight; bottomLeft; interior];
    [bottomLeft; topLeft; interior] ].

Definition cellPieces (cellWidth cellHeight : Q) (row col : nat) : list Piece.t :=
  let '(topLeft, topRight, bottomLeft, bottomRight) :=
    TriangleGrid64.cellCorners cellWidth cellHeight row col in
  imap (λ index triangle, TriangleGrid64.createTrianglePiece triangle row col index)
       (generateTrianglePattern topLeft topRight bottomLeft bottomRight row col).

(** [Math.abs(p1.x - p2.x) < tol && Math.abs(p1.y - p2.y) < tol] *)
Definition near (tol : Q) (p1 p2 : Point) : bool :=
  Qltb (Qabs (Double.sub (x p1) (x p2))) tol
  && Qltb (Qabs (Double.sub (y p1) (y p2))) tol.

(** The inner double loop building [sharedPoints], with its own duplicate
    test at [0.01]. *)
Definition sharedPoints (tolerance : Q) (piece otherPiece : Piece.t) : list Point :=
  foldl (λ shared p1,
           foldl (λ shared p2,
                    if near tolerance p1 p2
                    then if existsb (λ sp, near (literal (1 # 100)) sp p1) shared
                         then shared
                         else shared ++ [ {| x := x p1; y := y p1 |} ]
                    else shared)
                 shared (Piece.polygon otherPiece))
        [] (Piece.polygon piece).

(** The comparator of the sort: negative when [a] goes first. *)
Definition comparePoints (a b : Point) : Q :=
  if Qltb (literal (1 # 10)) (Qabs (Double.sub (x a) (x b)))
  then Double.sub (x a) (x b) else Double.sub (y a) (y b).

Fixpoint insertPoint (p : Point) (l : list Point) : list Point :=
  match l with
  | [] => [p]
  | q :: l' =>
      if Qltb (comparePoints q p) 0 then q :: insertPoint p l' else p :: l
  end.

Definition sortPoints (l : list Point) : list Point := foldr insertPoint [] l.

(** [Math.round(v * 10)]: the integer nearest to the rounded product, a
    half going up. *)
Definition round10 (v : Q) : Q := inject_Z (Qfloor (Double.mul v 10 + (1 # 2))).

(** The edge key of a pair with at least two shared points, if any. *)
Definition edgeKeyOf (tolerance : Q) (piece otherPiece : Piece.t) : option EdgeKey :=
  match sortPoints (sharedPoints tolerance piece otherPiece) with
  | p0 :: p1 :: _ =>
      Some {| kx0 := round10 (x p0); ky0 := round10 (y p0);
              kx1 := round10 (x p1); ky1 := round10 (y p1) |}
  | _ => None
  end.

(** The body of the two nested [forEach] for the pair at positions
    [(i, j)]. *)
Definition linkPair (tolerance : Q) (pieces : list Piece.t) (ij : nat * nat)
    : list Piece.t :=
  let '(i, j) := ij in
  if bool_decide (j ≤ i) then pieces else
  match pieces !! i, pieces !! j with
  | Some piece, Some otherPiece =>
      match edgeKeyOf tolerance piece otherPiece with
      | Some edgeKey =>
          RandomGrid.setNeighbor
            (RandomGrid.setNeighbor pieces i edgeKey (Piece.id otherPiece))
            j edgeKey (Piece.id piece)
      | None => pieces
      end
  | _, _ => pieces
  end.

(** [setupNeighbors(pieces, tolerance)] *)
Definition setupNeighbors (pieces : list Piece.t) (tolerance : Q) : list Piece.t :=
  let n := length pieces in
  foldl (linkPair tolerance) pieces
        (flat_map (λ i, map (λ j, (i, j)) (seq 0 n)) (seq 0 n)).

(** The tolerance [createTrianglePuzzle] passes: the literal [1.0]. *)
Definition tolerance : Q := 1.

(** The pieces pushed by the loops, before [setupNeighbors]. *)
Definition cells (cellWidth cellHeight : Q) (rows cols : nat) : list Piece.t :=
  flat_map (λ row, flat_map (λ col, cellPieces cellWidth cellHeight row col)
                            (seq 0 cols))
           (seq 0 rows).

(** [imageScale] *)
Definition imageScale (imgWidth imgHeight maxImageSize : Q) : Q :=
  let maxDimension := Qmax imgWidth imgHeight in
  if Qltb maxImageSize maxDimension then Double.div maxImageSize maxDimension else 1%Q.

(** [createTrianglePuzzle] for an image of [imgWidth] by [imgHeight]. *)
Definition createTrianglePuzzle (imgWidth imgHeight : Q) (rows cols : nat)
    (maxImageSize : Q) : list Piece.t :=
  let imageScale := imageScale imgWidth imgHeight maxImageSize in
  let width := Double.mul imgWidth imageScale in
  let height := Double.mul imgHeight imageScale in
  let cellWidth := Double.div width (TriangleGrid.Qofnat cols) in
  let cellHeight := Double.div height (TriangleGrid.Qofnat rows) in
  setupNeighbors (cells cellWidth cellHeight rows cols) tolerance.

End RandomGrid64.

(** ** Sample puzzles and sessions *)

Module Samples.
Import Engine.

(** A 200 x 200 image cut by the two-triangle grid into 2 x 2 cells, the
    grid of the 8-piece puzzle. *)
Definition trianglePieces : list Piece.t :=
  Eval vm_compute in TriangleGrid.createTrianglePuzzle 200 200 2 2.

(** A 200 x 200 image cut by the four-triangle grid into a single cell. *)
Definition randomPieces : list Piece.t :=
  Eval vm_compute in RandomGrid.createTrianglePuzzle 200 200 1 1 800.

Definition triangleIds : list string := map Piece.id trianglePieces.
Definition randomIds : list string := map Piece.id randomPieces.

(** The dnd-kit page right after the first piece was picked up from the
    pool. *)
Definition pickedUp : DndTriangle.State :=
  DndTriangle.step 10 (DndTriangle.DragStart "piece-0-0-0")
    (DndTriangle.initialize trianglePieces triangleIds).

(** A drop of [pieceId] from the pool on the canvas of the dnd-kit page, the
    pointer starting at [activator] and travelling by [delta]; the canvas is
    at the origin and the scale is 1. *)
Definition canvasDrop (pieceId : string) (activator delta : Point)
    : DndTriangle.Event :=
  DndTriangle.DragEnd
    {| DndTriangle.active := pieceId;
       DndTriangle.over := Some "puzzle-canvas";
       DndTriangle.delta := delta;
       DndTriangle.activatorEvent := Some activator;
       DndTriangle.rect := Some {| x := 0; y := 0 |};
       DndTriangle.sc := 1 |}.

Definition run (events : list DndTriangle.Event) (st : DndTriangle.State)
    : DndTriangle.State :=
  foldl (λ st e, DndTriangle.step 10 e st) st events.

(** dnd-kit cancels the drag of [pickedUp] (no handler runs, the state of
    the page stays [pickedUp]); then piece 0-0-1 is picked up from the pool
    and dropped on the canvas at (0, 50). *)
Definition afterCancelledDrag : DndTriangle.State :=
  run [ DndTriangle.DragStart "piece-0-0-1";
        canvasDrop "piece-0-0-1" {| x := 50; y := 100 |} {| x := 0; y := 0 |} ]
      pickedUp.

(** Piece 0-0-0 is dropped at (0, 50); piece 0-0-1, which shares the
    diagonal with it, is dropped 5 units from its expected position and
    snaps. *)
Definition twoJoined : DndTriangle.State :=
  run [ DndTriangle.DragStart "piece-0-0-0";
        canvasDrop "piece-0-0-0" {| x := 50; y := 100 |} {| x := 0; y := 0 |};
        DndTriangle.DragStart "piece-0-0-1";
        canvasDrop "piece-0-0-1" {| x := 50; y := 100 |} {| x := 3; y := 4 |} ]
      (DndTriangle.initialize trianglePieces triangleIds).

(** The joined pair is then dragged 300 units to the right. *)
Definition twoJoinedDragged : DndTriangle.State :=
  run [ DndTriangle.DragStart "piece-0-0-0" ] twoJoined.

Definition dragRight : DndTriangle.DragEndEvent :=
  {| DndTriangle.active := "piece-0-0-0";
     DndTriangle.over := Some "puzzle-canvas";
     DndTriangle.delta := {| x := 300; y := 0 |};
     DndTriangle.activatorEvent := Some {| x := 50; y := 100 |};
     DndTriangle.rect := Some {| x := 0; y := 0 |};
     DndTriangle.sc := 1 |}.

(** The dnd-kit page after the first drop only, and the second piece with
    the point it is dropped at. *)
Definition oneDropped : DndTriangle.State :=
  run [ DndTriangle.DragStart "piece-0-0-0";
        canvasDrop "piece-0-0-0" {| x := 50; y := 100 |} {| x := 0; y := 0 |};
        DndTriangle.DragStart "piece-0-0-1" ]
      (DndTriangle.initialize trianglePieces triangleIds).

Definition secondPiece : Piece.t :=
  Eval vm_compute in
    default (TriangleGrid.createTrianglePiece [] 0 0 0)
            (findPiece trianglePieces "piece-0-0-1").

Definition secondDropPoint : Point := {| x := 3; y := 54 |}.

(** The joined pair of [twoJoined], piece 1-0-0 dropped loose at
    (300, 250), and the pair picked up again by piece 0-0-0. *)
Definition threePlaced : DndTriangle.State :=
  run [ DndTriangle.DragStart "piece-1-0-0";
        canvasDrop "piece-1-0-0" {| x := 50; y := 100 |} {| x := 300; y := 200 |};
        DndTriangle.DragStart "piece-0-0-0" ]
      twoJoined.

(** The mouse-driven component: piece 0-0-0 is dragged from the pool to
    (0, 50) and released; piece 0-0-1 is dragged to (3, 54). *)
Definition mouseAt (px py : Q) : MouseTriangle.MouseEvent :=
  {| MouseTriangle.client := {| x := px; y := py |};
     MouseTriangle.rect := Some {| x := 0; y := 0 |} |}.

Definition mouseRun (events : list MouseTriangle.Event) (st : MouseTriangle.State)
    : MouseTriangle.State :=
  foldl (λ st e, MouseTriangle.step 20 e st) st events.

Definition mouseBeforeRelease : MouseTriangle.State :=
  mouseRun [ MouseTriangle.PoolPieceMouseDown "piece-0-0-0";
             MouseTriangle.MouseMove (mouseAt 0 50);
             MouseTriangle.MouseUp;
             MouseTriangle.PoolPieceMouseDown "piece-0-0-1";
             MouseTriangle.MouseMove (mouseAt 3 54) ]
           (MouseTriangle.initialize trianglePieces triangleIds).

(** ... and released there: it snaps to piece 0-0-0. *)
Definition mouseJoined : MouseTriangle.State :=
  mouseRun [ MouseTriangle.MouseUp ] mouseBeforeRelease.

(** The joined pair is grabbed by piece 0-0-1 with the pointer at
    (10, 60). *)
Definition mouseGrabbed : MouseTriangle.State :=
  mouseRun [ MouseTriangle.PlacedPieceMouseDown (mouseAt 10 60) "piece-0-0-1" ]
           mouseJoined.

(** The mouse-driven component over the two pieces of a single cell of
    100 x 100: piece 0-0-0 is dragged from the pool to (0, 50) and released,
    piece 0-0-1 is dragged to (3, 54) and released, and snaps. *)
Definition pairPieces : list Piece.t :=
  Eval vm_compute in TriangleGrid.createTrianglePuzzle 100 100 1 1.

Definition mousePairJoined : MouseTriangle.State :=
  mouseRun [ MouseTriangle.PoolPieceMouseDown "piece-0-0-0";
             MouseTriangle.MouseMove (mouseAt 0 50);
             MouseTriangle.MouseUp;
             MouseTriangle.PoolPieceMouseDown "piece-0-0-1";
             MouseTriangle.MouseMove (mouseAt 3 54);
             MouseTriangle.MouseUp ]
           (MouseTriangle.initialize pairPieces (map Piece.id pairPieces)).

(** The dnd-kit page over the same two pieces: piece 0-0-0 is dropped at
    (0, 50), piece 0-0-1 five units from its place next to it. *)
Definition dndPairSolved : DndTriangle.State :=
  foldl (λ st e, DndTriangle.step 10 e st)
    (DndTriangle.initialize pairPieces (map Piece.id pairPieces))
    [ DndTriangle.DragStart "piece-0-0-0";
      canvasDrop "piece-0-0-0" {| x := 50; y := 100 |} {| x := 0; y := 0 |};
      DndTriangle.DragStart "piece-0-0-1";
      canvasDrop "piece-0-0-1" {| x := 50; y := 100 |} {| x := 3; y := 4 |} ].

(** The random page, canvas of 200 x 200 at the origin, scale 1: a drop of
    [pieceId] from the pool with the pointer released at [(px, py)]. *)
Definition randomDrop (pieceId : string) (px py : Q) (st : RandomPage.State)
    : RandomPage.State :=
  RandomPage.runSolvedCheck
    (RandomPage.onUp 20 1
       {| RandomPage.client := {| x := px; y := py |};
          RandomPage.rect := Some {| RandomPage.left := 0; RandomPage.top := 0;
                                      RandomPage.right := 200;
                                      RandomPage.bottom := 200 |} |}
       (RandomPage.runSolvedCheck (RandomPage.handlePoolPieceMouseDown 1 pieceId st))).

(** Pieces 0 and 1 are joined at their correct places; pieces 2 and 3 are
    joined to each other 50 units to the right of where they belong. *)
Definition randomTwoClusters : RandomPage.State :=
  randomDrop "piece-0-0-3" 100 100
    (randomDrop "piece-0-0-2" 150 150
       (randomDrop "piece-0-0-1" 150 100
          (randomDrop "piece-0-0-0" 100 50
             (RandomPage.initialize randomPieces randomIds)))).

(** Two triangles that share the diagonal from (0, 0) to (10, 10), the
    second built with its two shared vertices 0.05 off. *)
Definition driftA : Piece.t :=
  TriangleGrid.createTrianglePiece
    [ {| x := 0; y := 0 |}; {| x := 10; y := 0 |}; {| x := 10; y := 10 |} ] 0 0 0.
Definition driftB : Piece.t :=
  TriangleGrid.createTrianglePiece
    [ {| x := 1 # 20; y := 0 |}; {| x := 201 # 20; y := 201 # 20 |};
      {| x := 0; y := 10 |} ] 0 0 1.

(** The partition of [trianglePieces] for an image of 0.1 x 0.1: the same
    2 x 2 grid, 2000 times smaller. *)
Definition tinyPieces : list Piece.t :=
  Eval vm_compute in TriangleGrid.createTrianglePuzzle (1 # 10) (1 # 10) 2 2.

(** Exact-slot variant, 2 x 2: piece 0 sits in slot 0, the rest is in the
    pool. *)
Definition slotBoard : ExactSlot.State :=
  {| ExactSlot.pieces := ExactSlot.splitImage 2 2;
     ExactSlot.gridItems := ["piece-0"; ""; ""; ""];
     ExactSlot.poolItems := ["piece-3"; "piece-1"; "piece-2"];
     ExactSlot.activeId := Some "piece-1";
     ExactSlot.isSolved := false |}.

(** Exact-slot variant, 2 x 2, started in mode [empty]. *)
Definition slotStart : ExactSlot.State :=
  ExactSlot.runSolvedCheck
    (ExactSlot.initialize 2 2 ExactSlot.empty (ExactSlot.splitImage 2 2)
       (ExactSlot.initialState 2 2)).

(** *** Sessions in double precision

    The dnd-kit page with an image of 2600 by 2600 pixels cut into its
    default 12 pieces (2 rows of 3 cells), in a window of 1440 by 800
    pixels, the canvas having its top-left corner at (300, 100). *)
Definition photoPieces : list Piece.t :=
  Eval vm_compute in TriangleGrid64.createTrianglePuzzle 2600 2600 2 3.

Definition photoScale : Q :=
  Eval vm_compute in DndTriangle64.scale 1440 800 2600 2600.

(** A release of [pieceId], the pointer having started at [activator] and
    travelled by [delta]. *)
Definition photoRelease (pieceId : string) (activator delta : Point)
    : DndTriangle.Event :=
  DndTriangle.DragEnd
    {| DndTriangle.active := pieceId;
       DndTriangle.over := Some "puzzle-canvas";
       DndTriangle.delta := delta;
       DndTriangle.activatorEvent := Some activator;
       DndTriangle.rect := Some {| x := 300; y := 100 |};
       DndTriangle.sc := photoScale |}.

Definition photoRun (events : list DndTriangle.Event) (st : DndTriangle.State)
    : DndTriangle.State :=
  foldl (λ st e, DndTriangle64.step 10 e st) st events.

(** Piece 0-0-0 is dropped with the pointer at (390, 236), piece 0-1-0 with
    the pointer at (567, 237), too far from its place next to piece 0-0-0 to
    snap; piece 0-1-0 is then picked up again. *)
Definition cornerLoose : DndTriangle.State :=
  photoRun [ DndTriangle.DragStart "piece-0-0-0";
             photoRelease "piece-0-0-0" {| x := 100; y := 700 |}
                          {| x := 290; y := -464 |};
             DndTriangle.DragStart "piece-0-1-0";
             photoRelease "piece-0-1-0" {| x := 100; y := 700 |}
                          {| x := 467; y := -463 |};
             DndTriangle.DragStart "piece-0-1-0" ]
           (DndTriangle.initialize photoPieces (map Piece.id photoPieces)).

(** ... and released 6 pixels to the right and 1 pixel down: it snaps to
    piece 0-0-0. *)
Definition cornerNudge : DndTriangle.DragEndEvent :=
  {| DndTriangle.active := "piece-0-1-0";
     DndTriangle.over := Some "puzzle-canvas";
     DndTriangle.delta := {| x := 6; y := 1 |};
     DndTriangle.activatorEvent := Some {| x := 567; y := 237 |};
     DndTriangle.rect := Some {| x := 300; y := 100 |};
     DndTriangle.sc := photoScale |}.

Definition cornerJoined : DndTriangle.State :=
  photoRun [ DndTriangle.DragEnd cornerNudge ] cornerLoose.

(** The joined pair is picked up by piece 0-0-0. *)
Definition cornerJoinedDragged : DndTriangle.State :=
  photoRun [ DndTriangle.DragStart "piece-0-0-0" ] cornerJoined.

(** Dragged 37 pixels to the right and released. *)
Definition pairDrag : DndTriangle.DragEndEvent :=
  {| DndTriangle.active := "piece-0-0-0";
     DndTriangle.over := Some "puzzle-canvas";
     DndTriangle.delta := {| x := 37; y := 0 |};
     DndTriangle.activatorEvent := Some {| x := 390; y := 236 |};
     DndTriangle.rect := Some {| x := 300; y := 100 |};
     DndTriangle.sc := photoScale |}.

Definition cornerPairMoved : DndTriangle.State :=
  photoRun [ DndTriangle.DragEnd pairDrag ] cornerJoinedDragged.

(** After the first drop of [cornerLoose]: piece 0-1-0 has been picked up
    from the pool, and is about to be released with the pointer at
    (573, 236). *)
Definition photoOneDropped : DndTriangle.State :=
  photoRun [ DndTriangle.DragStart "piece-0-0-0";
             photoRelease "piece-0-0-0" {| x := 100; y := 700 |}
                          {| x := 290; y := -464 |};
             DndTriangle.DragStart "piece-0-1-0" ]
           (DndTriangle.initialize photoPieces (map Piece.id photoPieces)).

Definition photoSecondPiece : Piece.t :=
  Eval vm_compute in
    default (TriangleGrid64.createTrianglePiece [] 0 0 0)
            (findPiece photoPieces "piece-0-1-0").

Definition photoSecondRelease : DndTriangle.DragEndEvent :=
  {| DndTriangle.active := "piece-0-1-0";
     DndTriangle.over := Some "puzzle-canvas";
     DndTriangle.delta := {| x := 473; y := -464 |};
     DndTriangle.activatorEvent := Some {| x := 100; y := 700 |};
     DndTriangle.rect := Some {| x := 300; y := 100 |};
     DndTriangle.sc := photoScale |}.

Definition photoSecondDropPoint : Point :=
  Eval vm_compute in
    DndTriangle64.dropPosition photoSecondRelease photoSecondPiece
      {| x := 100; y := 700 |} {| x := 300; y := 100 |}.

(** The joined pair of [cornerJoined], piece 0-1-1 dropped loose with the
    pointer at (800, 500), and the pair picked up by piece 0-0-0. *)
Definition photoThree : DndTriangle.State :=
  photoRun [ DndTriangle.DragStart "piece-0-1-1";
             photoRelease "piece-0-1-1" {| x := 100; y := 700 |}
                          {| x := 700; y := -200 |};
             DndTriangle.DragStart "piece-0-0-0" ]
           cornerJoined.

(** The mouse-driven component over the same pieces, the canvas having its
    top-left corner at (300, 100): piece 0-0-0 is dragged from the pool to
    (83, 129) and released; piece 0-1-0 is dragged to (953, 133) and
    released, and snaps; the pair is grabbed by piece 0-0-0 with the pointer
    at (390, 240). *)
Definition photoMouseAt (px py : Q) : MouseTriangle.MouseEvent :=
  {| MouseTriangle.client := {| x := px; y := py |};
     MouseTriangle.rect := Some {| x := 300; y := 100 |} |}.

Definition photoMouseRun (events : list MouseTriangle.Event)
    (st : MouseTriangle.State) : MouseTriangle.State :=
  foldl (λ st e, MouseTriangle64.step 20 e st) st events.

Definition photoMouseGrabbed : MouseTriangle.State :=
  photoMouseRun
    [ MouseTriangle.PoolPieceMouseDown "piece-0-0-0";
      MouseTriangle.MouseMove (photoMouseAt 383 229);
      MouseTriangle.MouseUp;
      MouseTriangle.PoolPieceMouseDown "piece-0-1-0";
      MouseTriangle.MouseMove (photoMouseAt 1253 233);
      MouseTriangle.MouseUp;
      MouseTriangle.PlacedPieceMouseDown (photoMouseAt 390 240) "piece-0-0-0" ]
    (MouseTriangle.initialize photoPieces (map Piece.id photoPieces)).

End Samples.

(* ===================================================================== *)
(** * Part II: vocabulary of the statements                              *)
(* ===================================================================== *)

Section ExactSlotVocabulary.
Import ExactSlot.

(** The grid invariant: a slot that holds a piece holds the piece whose
    [correctIndex] is that slot. *)
Definition gridCorrect (st : State) : Prop :=
  ∀ idx i, gridItems st !! idx = Some i → i ≠ "" →
    ∃ p, findPiece (pieces st) i = Some p ∧ correctIndex p = idx.

End ExactSlotVocabulary.

Section EngineVocabulary.
Import Engine.
Implicit Types (m prev : gmap string PlacedPiece.t) (visited : list string).

(** [linked m a b]: [b] is listed in the [connectedGroup] of placed [a]. *)
Definition linked m (a b : string) : Prop :=
  ∃ p, m !! a = Some p ∧ b ∈ PlacedPiece.connectedGroup p.

(** Links still to be pushed: those of the map entries not yet visited. *)
Definition potential (l : list (string * PlacedPiece.t)) visited : nat :=
  sum_list (map (λ kp, if bool_decide (kp.1 ∈ visited) then 0
                       else length (PlacedPiece.connectedGroup kp.2)) l).

(** The record written for a moved piece. *)
Definition movedBy (deltaX deltaY : Q) (old : PlacedPiece.t) : PlacedPiece.t :=
  {| PlacedPiece.id := PlacedPiece.id old;
     PlacedPiece.position :=
       {| x := x (PlacedPiece.position old) + deltaX;
          y := y (PlacedPiece.position old) + deltaY |}%Q;
     PlacedPiece.isLocked := false;
     PlacedPiece.connectedGroup := PlacedPiece.connectedGroup old |}.

Definition ids (pieces : list Piece.t) : list string := map Piece.id pieces.

(** The head of the sorted array is a candidate of least distance. *)
Definition leastDist (best : SnapCandidate) (l : list SnapCandidate) : Prop :=
  ∀ c, c ∈ l → (radicand (dist best) <= radicand (dist c))%Q.

(** The links form cliques of placed pieces: nobody lists itself, every
    listed piece is placed, and it lists the same group. *)
Definition linksWellFormed m : Prop :=
  ∀ i p, m !! i = Some p →
    (i ∉ PlacedPiece.connectedGroup p) ∧
    (∀ j, j ∈ PlacedPiece.connectedGroup p →
       ∃ q, m !! j = Some q ∧
            (∀ k, k ∈ i :: PlacedPiece.connectedGroup p
                  ↔ k ∈ j :: PlacedPiece.connectedGroup q)).

(** The record written for an already placed member of a merged group. *)
Definition lockedInto (allConnected : list string) (i : string)
    (old : PlacedPiece.t) : PlacedPiece.t :=
  {| PlacedPiece.id := PlacedPiece.id old;
     PlacedPiece.position := PlacedPiece.position old;
     PlacedPiece.isLocked := true;
     PlacedPiece.connectedGroup := Set_without allConnected i |}.

(** The record written by the final loop of a group drop. *)
Definition mergedRecord (connectedGroup : list string) (snapOffset : Point)
    (allConnected : list string) (i : string) (old : PlacedPiece.t)
    : PlacedPiece.t :=
  {| PlacedPiece.id := i;
     PlacedPiece.position :=
       if bool_decide (i ∈ connectedGroup)
       then {| x := x (PlacedPiece.position old) + x snapOffset;
               y := y (PlacedPiece.position old) + y snapOffset |}%Q
       else PlacedPiece.position old;
     PlacedPiece.isLocked := true;
     PlacedPiece.connectedGroup := Set_without allConnected i |}.

(** A scan hit: group piece [g], sitting at [pos], is within the threshold
    of its expected position [e] next to the placed piece [n], which is not
    part of the dragged group. *)
Definition hitAt (pieces : list Piece.t) (newMap : gmap string PlacedPiece.t)
    (snapThreshold : Q) (connectedGroup : list string)
    (g n : string) (pos e : Point) : Prop :=
  (n ∉ connectedGroup) ∧ n ≠ "" ∧
  ∃ groupPiece groupPlaced neighborPiece neighborPlaced,
    findPiece pieces g = Some groupPiece ∧ newMap !! g = Some groupPlaced ∧
    newMap !! n = Some neighborPlaced ∧ findPiece pieces n = Some neighborPiece ∧
    pos = PlacedPiece.position groupPlaced ∧
    e = expectedPosition groupPiece neighborPiece neighborPlaced ∧
    Sqrt_lt_num (distance pos e) snapThreshold = true.

(** The hits of a whole group drop: [n] ranges over the neighbour links of
    the pieces [g] of the dragged group. *)
Definition groupHit (pieces : list Piece.t) (newMap : gmap string PlacedPiece.t)
    (snapThreshold : Q) (connectedGroup : list string)
    (g n : string) (pos e : Point) : Prop :=
  g ∈ connectedGroup ∧
  (∃ groupPiece, findPiece pieces g = Some groupPiece
                 ∧ n ∈ neighborValues groupPiece) ∧
  hitAt pieces newMap snapThreshold connectedGroup g n pos e.

(** What the scan has accumulated over a set of hits [H]. *)
Definition scanSummary (hits : string → string → Point → Point → Prop)
    (acc : option DndTriangle.BestSnap * list string) : Prop :=
  NoDup acc.2 ∧
  (∀ n, n ∈ acc.2 ↔ ∃ g pos e, hits g n pos e) ∧
  match acc.1 with
  | None => ∀ g n pos e, ¬ hits g n pos e
  | Some bs =>
      hits (DndTriangle.groupPieceId bs) (DndTriangle.neighborId bs)
           (DndTriangle.groupPiecePos bs) (DndTriangle.snapPos bs) ∧
      DndTriangle.dist bs
        = distance (DndTriangle.groupPiecePos bs) (DndTriangle.snapPos bs) ∧
      ∀ g n pos e, hits g n pos e →
        (radicand (DndTriangle.dist bs) <= radicand (distance pos e))%Q
  end.


(** [nId] was pushed to [snapCandidates] by [checkAndSnapToNeighbors]. *)
Definition isCandidate (pieces : list Piece.t) (placedPieces : gmap string PlacedPiece.t)
    (snapThreshold : Q) (piece : Piece.t) (position : Point) (nId : string) : Prop :=
  ∃ c, c ∈ snapCandidates pieces placedPieces snapThreshold piece position
       ∧ neighborId c = nId.

(** [nId] names a neighbour of [piece] that is placed, and [e] is the
    expected position of [piece] next to it. *)
Definition placedNeighbor (pieces : list Piece.t)
    (placedPieces : gmap string PlacedPiece.t) (piece : Piece.t)
    (nId : string) (e : Point) : Prop :=
  nId ∈ neighborValues piece ∧ nId ≠ "" ∧
  ∃ neighborPlaced neighbor,
    placedPieces !! nId = Some neighborPlaced ∧ findPiece pieces nId = Some neighbor ∧
    e = expectedPosition piece neighbor neighborPlaced.

(** The record written for a dragged piece other than the primary one. *)
Definition shiftedBy (offsetX offsetY : Q) (old : PlacedPiece.t) : PlacedPiece.t :=
  {| PlacedPiece.id := PlacedPiece.id old;
     PlacedPiece.position :=
       {| x := x (PlacedPiece.position old) + offsetX;
          y := y (PlacedPiece.position old) + offsetY |}%Q;
     PlacedPiece.isLocked := false;
     PlacedPiece.connectedGroup := PlacedPiece.connectedGroup old |}.

(** The difference of the positions of two placed pieces. *)
Definition relativeOffset (p q : PlacedPiece.t) : Point :=
  Point_sub (PlacedPiece.position p) (PlacedPiece.position q).

(** Two placed pieces keep their relative offset from [m] to [m']. *)
Definition sameOffset (m m' : gmap string PlacedPiece.t) (i j : string) : Prop :=
  ∀ pi pj, m !! i = Some pi → m !! j = Some pj →
    ∃ pi' pj', m' !! i = Some pi' ∧ m' !! j = Some pj'
               ∧ Point_eq (relativeOffset pi' pj') (relativeOffset pi pj).

(** The members of a merged set: each has a record that is locked and lists
    all the others, hence each reaches each. *)
Definition mergedInto (result : gmap string PlacedPiece.t) (all : list string) : Prop :=
  (∀ a, a ∈ all →
     ∃ p, result !! a = Some p ∧ PlacedPiece.isLocked p = true
          ∧ PlacedPiece.connectedGroup p = Set_without all a)
  ∧ (∀ a b, a ∈ all → b ∈ all → b ∈ getConnectedGroup result a).

(** The connectivity rule as the specification words it: the pool is empty
    and the links join the placed pieces into one group that holds every
    piece. *)
Definition singleGroup (pieces0 : list Piece.t) (placedPieces : gmap string PlacedPiece.t)
    (poolItems : list string) : Prop :=
  poolItems = []
  ∧ (∀ i, i ∈ ids pieces0 → is_Some (placedPieces !! i))
  ∧ (∀ a b, a ∈ ids pieces0 → b ∈ ids pieces0 → rtc (linked placedPieces) a b).

(** [o[key]] *)
Fixpoint Object_get (o : list (EdgeKey * string)) (key : EdgeKey) : option string :=
  match o with
  | [] => None
  | (k, v) :: o' => if EdgeKey_eqb k key then Some v else Object_get o' key
  end.

(** Piece [a] lists piece [b] under [key]: [a.neighbors[key] === b.id]. *)
Definition listsUnder (pieces : list Piece.t) (a b : string) (key : EdgeKey) : Prop :=
  ∃ A, findPiece pieces a = Some A ∧ Object_get (Piece.neighbors A) key = Some b.

(** The neighbour relation is symmetric under a common edge key. *)
Definition symmetricUnderKey (pieces : list Piece.t) : Prop :=
  ∀ a b key, listsUnder pieces a b key ↔ listsUnder pieces b a key.

(** The ids each piece lists as neighbours. *)
Definition adjacency (pieces : list Piece.t) : list (string * list string) :=
  map (λ p, (Piece.id p, neighborValues p)) pieces.

(** Every entry of every piece is mirrored under the same key. *)
Definition mirrored (pieces : list Piece.t) : bool :=
  forallb (λ A,
    forallb (λ kv,
      match Object_get (Piece.neighbors A) kv.1 with
      | Some b =>
          match findPiece pieces b with
          | Some B =>
              bool_decide (Object_get (Piece.neighbors B) kv.1 = Some (Piece.id A))
          | None => false
          end
      | None => false
      end) (Piece.neighbors A)) pieces.

(** Were the tolerance relative to the piece dimensions, the adjacency of
    a partition would not change with the size of the image. *)
Definition scaleInvariant : Prop :=
  ∀ (k width height : Q) (rows cols : nat), (0 < k)%Q →
    adjacency (TriangleGrid.createTrianglePuzzle (k * width) (k * height) rows cols)
    = adjacency (TriangleGrid.createTrianglePuzzle width height rows cols).

(** The key [linkTo] writes for the shared points [p0], [p1]. *)
Definition keyOf (p0 p1 : Point) : EdgeKey :=
  {| kx0 := x p0; ky0 := y p0; kx1 := x p1; ky1 := y p1 |}.

End EngineVocabulary.

Section SessionVocabulary.
Import Engine DndTriangle.

(** The piece in hand: dnd-kit is dragging it, and the drag started in the
    pool. *)
Definition held (a : option string) (st : State) : list string :=
  match a, dragSource st with
  | Some i, Some pool => [i]
  | _, _ => []
  end.

(** What holds in every observable state of a session over [pieces0], with
    [a] being dragged and the pieces [lost] so far. *)
Record sessionInv (pieces0 : list Piece.t) (a : option string) (lost : list string)
    (st : State) : Prop := {
  inv_pieces : pieces st = pieces0;
  inv_pool_unplaced : ∀ i, i ∈ poolItems st → placedPieces st !! i = None;
  inv_pool_ids : ∀ i, i ∈ poolItems st → i ∈ ids pieces0;
  inv_placed_ids : ∀ i, is_Some (placedPieces st !! i) → i ∈ ids pieces0;
  inv_cover : ∀ i, i ∈ ids pieces0 →
    i ∈ poolItems st ∨ is_Some (placedPieces st !! i) ∨ i ∈ held a st ∨ i ∈ lost;
  inv_out : ∀ i, i ∈ held a st ∨ i ∈ lost →
    (i ∉ poolItems st) ∧ placedPieces st !! i = None ∧ i ∈ ids pieces0;
  inv_lost : NoDup lost ∧ ∀ i, i ∈ held a st → i ∉ lost;
  inv_links : linksWellFormed (placedPieces st);
}.


End SessionVocabulary.

Section GridVocabulary.
Import Engine.



(** The pieces pushed by the two loops of [createTrianglePuzzle] of the
    two-triangle grid, before [setupNeighbors]. *)
Definition cells (cellWidth cellHeight : Q) (rows cols : nat) : list Piece.t :=
  flat_map (λ row, flat_map (λ col, TriangleGrid.cellPieces cellWidth cellHeight row col)
                            (seq 0 cols))
           (seq 0 rows).


End GridVocabulary.

Section BoardVocabulary.
Import ExactSlot.

(** The ids on the board: the entries of [gridItems] other than ['']. *)
Definition onBoard (st : State) : list string :=
  filter (λ i, i ≠ "") (gridItems st).

(** The empty slots. *)
Definition emptySlots (st : State) : list string :=
  filter (λ i, i = "") (gridItems st).

(** Every piece of the split image is on the board or in the pool, once. *)
Definition conserved (rows cols : nat) (st : State) : Prop :=
  pieces st = splitImage rows cols
  ∧ length (gridItems st) = rows * cols
  ∧ onBoard st ++ poolItems st ≡ₚ map id (splitImage rows cols).

End BoardVocabulary.

Section JigsawVocabulary.
Import Engine Jigsaw.

(** The pieces of curve a path draws: straight lines and cubic Bezier
    curves, each with its end points. *)
Inductive Segment :=
| Line (a b : Point)
| Curve (a c1 c2 b : Point).

(** The segments drawn by commands that start with the pen at [current] in
    a subpath begun at [start]. *)
Fixpoint segments (start current : Point) (commands : list Command) : list Segment :=
  match commands with
  | [] => []
  | M p :: rest => segments p p rest
  | L p :: rest => Line current p :: segments start p rest
  | C c1 c2 p :: rest => Curve current c1 c2 p :: segments start p rest
  | Z :: rest => Line current start :: segments start start rest
  end.

(** The same curve drawn from its other end. *)
Definition reverseSegment (s : Segment) : Segment :=
  match s with
  | Line a b => Line b a
  | Curve a c1 c2 b => Curve b c2 c1 a
  end.
Definition reversed (l : list Segment) : list Segment := map reverseSegment (rev l).

Definition shiftSegment (d : Point) (s : Segment) : Segment :=
  match s with
  | Line a b => Line (Point_add a d) (Point_add b d)
  | Curve a c1 c2 b =>
      Curve (Point_add a d) (Point_add c1 d) (Point_add c2 d) (Point_add b d)
  end.

Definition Segment_eq (s t : Segment) : Prop :=
  match s, t with
  | Line a b, Line a' b' => Point_eq a a' ∧ Point_eq b b'
  | Curve a c1 c2 b, Curve a' c1' c2' b' =>
      Point_eq a a' ∧ Point_eq c1 c1' ∧ Point_eq c2 c2' ∧ Point_eq b b'
  | _, _ => False
  end.

(** The points a command names. *)
Definition commandPoints (c : Command) : list Point :=
  match c with
  | M p | L p => [p]
  | C c1 c2 p => [c1; c2; p]
  | Z => []
  end.

End JigsawVocabulary.

Section ClockVocabulary.

(** [n] whole seconds, as a number. *)
Definition elapsed (n : nat) : Q := inject_Z (Z.of_nat n).

(** The decimal digit of a number below ten. *)
Definition digit (z : Z) : Ascii.ascii := pretty_N_char (Z.to_N z).

(** The index drawn by call [k] at loop index [i]. *)
Definition drawn (random : nat → Q) (k i : nat) : nat :=
  Z.to_nat (Qfloor (random k * inject_Z (Z.of_nat (i + 1)))).

(** The draw that gives index [j] at loop index [i]. *)
Definition drawFor (j i : nat) : Q :=
  (inject_Z (Z.of_nat j) / inject_Z (Z.of_nat (i + 1)))%Q.

End ClockVocabulary.

Section CanvasVocabulary.
Import Engine TriangleCanvas.


End CanvasVocabulary.

Section DoubleVocabulary.
Import Engine.

(** A bound on the error of one rounding of the exact result [q]: half a
    unit in the last place, written with the relative half unit [2^-53] and
    the half of the least positive double [2^-1075]. *)
Definition roundoff (q : Q) : Q :=
  (Qabs q * Double.pow2 (-53) + Double.pow2 (-1075))%Q.

(** A bound on [|(p + (e - p)) - e|] when the sum and the difference are
    rounded. *)
Definition snapError (e p : Q) : Q :=
  (3 * (Qabs e + Qabs p) * Double.pow2 (-53) + 3 * Double.pow2 (-1075))%Q.

(** The record written for a moved piece. *)
Definition movedBy64 (deltaX deltaY : Q) (old : PlacedPiece.t) : PlacedPiece.t :=
  {| PlacedPiece.id := PlacedPiece.id old;
     PlacedPiece.position :=
       {| x := Double.add (x (PlacedPiece.position old)) deltaX;
          y := Double.add (y (PlacedPiece.position old)) deltaY |};
     PlacedPiece.isLocked := false;
     PlacedPiece.connectedGroup := PlacedPiece.connectedGroup old |}.

(** The record written by the final loop of a group drop. *)
Definition mergedRecord64 (connectedGroup : list string) (snapOffset : Point)
    (allConnected : list string) (i : string) (old : PlacedPiece.t)
    : PlacedPiece.t :=
  {| PlacedPiece.id := i;
     PlacedPiece.position :=
       if bool_decide (i ∈ connectedGroup)
       then {| x := Double.add (x (PlacedPiece.position old)) (x snapOffset);
               y := Double.add (y (PlacedPiece.position old)) (y snapOffset) |}
       else PlacedPiece.position old;
     PlacedPiece.isLocked := true;
     PlacedPiece.connectedGroup := Set_without allConnected i |}.

(** [distance(p, e) < snapThreshold], as the page computes it. *)
Definition within64 (snapThreshold : Q) (p e : Point) : Prop :=
  Qltb (Engine64.distance p e) snapThreshold = true.

(** [nId] was pushed to [snapCandidates] by [checkAndSnapToNeighbors]. *)
Definition isCandidate64 (pieces : list Piece.t)
    (placedPieces : gmap string PlacedPiece.t) (snapThreshold : Q)
    (piece : Piece.t) (position : Point) (nId : string) : Prop :=
  ∃ c, c ∈ Engine64.snapCandidates pieces placedPieces snapThreshold piece position
       ∧ Engine64.neighborId c = nId.

(** [nId] names a neighbour of [piece] that is placed, and [e] is the
    expected position of [piece] next to it. *)
Definition placedNeighbor64 (pieces : list Piece.t)
    (placedPieces : gmap string PlacedPiece.t) (piece : Piece.t)
    (nId : string) (e : Point) : Prop :=
  nId ∈ neighborValues piece ∧ nId ≠ "" ∧
  ∃ neighborPlaced neighbor,
    placedPieces !! nId = Some neighborPlaced ∧ findPiece pieces nId = Some neighbor ∧
    e = Engine64.expectedPosition piece neighbor neighborPlaced.

(** The head of the sorted array is a candidate of least distance. *)
Definition leastDist64 (best : Engine64.SnapCandidate)
    (l : list Engine64.SnapCandidate) : Prop :=
  ∀ c, c ∈ l → (Engine64.dist best <= Engine64.dist c)%Q.

(** A scan hit: group piece [g], sitting at [pos], is within the threshold
    of its expected position [e] next to the placed piece [n], which is not
    part of the dragged group. *)
Definition hitAt64 (pieces : list Piece.t) (newMap : gmap string PlacedPiece.t)
    (snapThreshold : Q) (connectedGroup : list string)
    (g n : string) (pos e : Point) : Prop :=
  (n ∉ connectedGroup) ∧ n ≠ "" ∧
  ∃ groupPiece groupPlaced neighborPiece neighborPlaced,
    findPiece pieces g = Some groupPiece ∧ newMap !! g = Some groupPlaced ∧
    newMap !! n = Some neighborPlaced ∧ findPiece pieces n = Some neighborPiece ∧
    pos = PlacedPiece.position groupPlaced ∧
    e = Engine64.expectedPosition groupPiece neighborPiece neighborPlaced ∧
    Qltb (Engine64.distance pos e) snapThreshold = true.

(** The hits of a whole group drop: [n] ranges over the neighbour links of
    the pieces [g] of the dragged group. *)
Definition groupHit64 (pieces : list Piece.t) (newMap : gmap string PlacedPiece.t)
    (snapThreshold : Q) (connectedGroup : list string)
    (g n : string) (pos e : Point) : Prop :=
  g ∈ connectedGroup ∧
  (∃ groupPiece, findPiece pieces g = Some groupPiece
                 ∧ n ∈ neighborValues groupPiece) ∧
  hitAt64 pieces newMap snapThreshold connectedGroup g n pos e.

(** What the scan has accumulated over a set of hits. *)
Definition scanSummary64 (hits : string → string → Point → Point → Prop)
    (acc : option DndTriangle64.BestSnap * list string) : Prop :=
  NoDup acc.2 ∧
  (∀ n, n ∈ acc.2 ↔ ∃ g pos e, hits g n pos e) ∧
  match acc.1 with
  | None => ∀ g n pos e, ¬ hits g n pos e
  | Some bs =>
      hits (DndTriangle64.groupPieceId bs) (DndTriangle64.neighborId bs)
           (DndTriangle64.groupPiecePos bs) (DndTriangle64.snapPos bs) ∧
      DndTriangle64.dist bs
        = Engine64.distance (DndTriangle64.groupPiecePos bs) (DndTriangle64.snapPos bs) ∧
      ∀ g n pos e, hits g n pos e →
        (DndTriangle64.dist bs <= Engine64.distance pos e)%Q
  end.

(** The record written for a dragged piece other than the primary one. *)
Definition shiftedBy64 (offsetX offsetY : Q) (old : PlacedPiece.t) : PlacedPiece.t :=
  {| PlacedPiece.id := PlacedPiece.id old;
     PlacedPiece.position :=
       {| x := Double.add (x (PlacedPiece.position old)) offsetX;
          y := Double.add (y (PlacedPiece.position old)) offsetY |};
     PlacedPiece.isLocked := false;
     PlacedPiece.connectedGroup := PlacedPiece.connectedGroup old |}.

End DoubleVocabulary.

Section GridDoubleVocabulary.
Import Engine.

(** Two vertices are the same point. *)
Definition samePoint (u v : Point) : bool :=
  Qeq_bool (x u) (x v) && Qeq_bool (y u) (y v).

(** The vertices of [p] that are vertices of [q]. *)
Definition commonVertices (p q : Piece.t) : list Point :=
  List.filter (λ u, existsb (samePoint u) (Piece.polygon q)) (Piece.polygon p).

(** A valid neighbour relation: the two triangles have an edge, that is,
    two vertices, in common. *)
Definition shareEdge (p q : Piece.t) : Prop := length (commonVertices p q) = 2.

(** The point with its coordinates sent through [X] and [Y]. *)
Definition mapPoint (X Y : Q → Q) (p : Point) : Point :=
  {| x := X (x p); y := Y (y p) |}.

(** [X] keeps the outcome of the two tests [setupNeighbors] makes on
    coordinates, for the coordinates listed in [S]. *)
Definition keepsTests (X : Q → Q) (S : list Q) : Prop :=
  ∀ a b, a ∈ S → b ∈ S →
    Qltb (Qabs (Double.sub (X a) (X b))) TriangleGrid64.tolerance
    = Qltb (Qabs (Double.sub a b)) TriangleGrid64.tolerance
    ∧ Qeq_bool (X a) (X b) = Qeq_bool a b.

(** A point, and all vertices of a piece, on the lines listed in [Sx] and
    [Sy]. *)
Definition onLines (Sx Sy : list Q) (v : Point) : Prop := x v ∈ Sx ∧ y v ∈ Sy.

Definition pieceOnLines (Sx Sy : list Q) (p : Piece.t) : Prop :=
  Forall (onLines Sx Sy) (Piece.polygon p).

(** [p] is [p0] with its vertices sent through [X] and [Y], under the same
    id. *)
Definition drawnFrom (X Y : Q → Q) (p p0 : Piece.t) : Prop :=
  Piece.id p = Piece.id p0
  ∧ Piece.polygon p = map (mapPoint X Y) (Piece.polygon p0).

(** Two [neighbors] objects with the same values in the same order, under
    keys made of corresponding points. *)
Definition sameLinks (X Y : Q → Q) (Sx Sy : list Q)
    (l l0 : list (EdgeKey * string)) : Prop :=
  Forall2 (λ kv kv0,
             kv.2 = kv0.2
             ∧ ∃ a b, onLines Sx Sy a ∧ onLines Sx Sy b
                      ∧ kv0.1 = keyOf a b
                      ∧ kv.1 = keyOf (mapPoint X Y a) (mapPoint X Y b))
          l l0.

(** The whole numbers [0 .. 6]: the grid lines of the unit grid. *)
Definition unitLines : list Q := map TriangleGrid.Qofnat (seq 0 7).

(** Every piece lists every piece it shares an edge with. *)
Definition edgeNeighboursListed (pieces : list Piece.t) : bool :=
  forallb (λ p,
    forallb (λ q,
      bool_decide (Piece.id p = Piece.id q)
      || negb (length (commonVertices p q) =? 2)
      || bool_decide (Piece.id q ∈ neighborValues p)) pieces) pieces.

(** The grids of the dnd-kit page: the table of [getPieceDimensions] and
    its fallback. *)
Definition triangleGrids : list Grid.Dimensions :=
  Grid.mkDimensions 4 4 :: map snd Grid.mapping.

End GridDoubleVocabulary.

(* ===================================================================== *)
(** * Part III: properties                                                *)
(* ===================================================================== *)

(** ** Rounding to the nearest double *)

Section DoubleFacts.
Import Double.

Lemma pow2_spec e : (pow2 e == 2 ^ e)%Q.
Proof.
  unfold pow2. destruct (Z.leb_spec 0 e) as [H|H].
  - by apply (Zpower_Qpower 2).
  - assert (0 < 2 ^ (- e))%Z as Hp by (apply Z.pow_pos_nonneg; lia).
    replace e with (- (- e))%Z at 2 by lia.
    rewrite Qpower_opp. change 2%Q with (inject_Z 2).
    rewrite <- Zpower_Qpower by lia.
    unfold Qeq, Qinv. simpl.
    destruct (2 ^ (- e))%Z as [|p|p] eqn:E; try lia. simpl. lia.
Qed.

Lemma pow2_pos e : (0 < pow2 e)%Q.
Proof. rewrite pow2_spec. by apply Qpower_0_lt. Qed.

Lemma pow2_add a b : (pow2 (a + b) == pow2 a * pow2 b)%Q.
Proof. rewrite !pow2_spec. by apply Qpower_plus. Qed.

Lemma pow2_le a b : (a ≤ b)%Z → (pow2 a <= pow2 b)%Q.
Proof. intros H. rewrite !pow2_spec. by apply Qpower_le_compat_l. Qed.

Lemma pow2_lt a b : (a < b)%Z → (pow2 a < pow2 b)%Q.
Proof. intros H. rewrite !pow2_spec. by apply Qpower_lt_compat_l. Qed.

Lemma pow2_Z e : (0 ≤ e)%Z → pow2 e = inject_Z (2 ^ e).
Proof. intros H. unfold pow2. by rewrite (proj2 (Z.leb_le 0 e)). Qed.

Lemma pow2_0 : pow2 0 = 1%Q.
Proof. done. Qed.

Lemma pow2_sub a b : (pow2 (a - b) == pow2 a / pow2 b)%Q.
Proof.
  pose proof (pow2_pos b). pose proof (pow2_add (a - b) b) as E.
  replace (a - b + b)%Z with a in E by lia. rewrite E. field. lra.
Qed.

Lemma Qabs_frac n d : (Qabs (n # d) * inject_Z (Zpos d) == inject_Z (Z.abs n))%Q.
Proof. unfold Qabs, Qeq. simpl. lia. Qed.

Lemma log2_bounds (n : Z) :
  (0 < n)%Z →
  (inject_Z (2 ^ Z.log2 n) <= inject_Z n
   ∧ inject_Z n < 2 * inject_Z (2 ^ Z.log2 n))%Q.
Proof.
  intros Hn. destruct (Z.log2_spec n Hn) as [H1 H2].
  rewrite Z.pow_succ_r in H2 by apply Z.log2_nonneg.
  split.
  - by rewrite <- Zle_Qle.
  - change 2%Q with (inject_Z 2). rewrite <- inject_Z_mult, <- Zlt_Qlt. done.
Qed.

Lemma ilog2_spec q :
  ¬ (q == 0)%Q → (pow2 (ilog2 q) <= Qabs q ∧ Qabs q < pow2 (ilog2 q + 1))%Q.
Proof.
  intros Hq. destruct q as [n d].
  assert (0 < Z.abs n)%Z as Hn.
  { destruct (decide (n = 0%Z)) as [->|]; [|lia]. destruct Hq. done. }
  unfold ilog2. cbn [Qnum Qden].
  set (a := Z.log2 (Z.abs n)). set (b := Z.log2 (Z.pos d)).
  destruct (log2_bounds (Z.abs n) Hn) as [Ha1 Ha2]. fold a in Ha1, Ha2.
  destruct (log2_bounds (Z.pos d) eq_refl) as [Hb1 Hb2]. fold b in Hb1, Hb2.
  assert (0 ≤ a)%Z as Ha0 by apply Z.log2_nonneg.
  assert (0 ≤ b)%Z as Hb0 by apply Z.log2_nonneg.
  pose proof (Qabs_frac n d) as Hf.
  pose proof (pow2_pos a) as HA. pose proof (pow2_pos b) as HB.
  rewrite <- (pow2_Z a) in Ha1, Ha2 by done.
  rewrite <- (pow2_Z b) in Hb1, Hb2 by done.
  assert (0 < inject_Z (Z.pos d))%Q as Hd by (by rewrite <- (Zlt_Qlt 0)).
  assert (0 <= Qabs (n # d))%Q as Habs by apply Qabs_nonneg.
  pose proof (pow2_sub a b) as Ek.
  assert (pow2 (a - b) * pow2 b == pow2 a)%Q as Ek' by (rewrite Ek; field; lra).
  destruct (Qle_bool (pow2 (a - b)) (Qabs (n # d))) eqn:E.
  - apply Qle_bool_iff in E. split; [done|].
    rewrite pow2_add. change (pow2 1) with 2%Q. nra.
  - assert (Qabs (n # d) < pow2 (a - b))%Q as E'.
    { apply Qnot_le_lt. intros H. apply Qle_bool_iff in H. congruence. }
    replace (a - b - 1 + 1)%Z with (a - b)%Z by lia. split; [|done].
    assert (pow2 (a - b - 1) * 2 == pow2 (a - b))%Q as E2.
    { replace (a - b)%Z with (a - b - 1 + 1)%Z at 2 by lia. by rewrite pow2_add. }
    nra.
Qed.

Lemma ilog2_unique q k :
  ¬ (q == 0)%Q → (pow2 k <= Qabs q)%Q → (Qabs q < pow2 (k + 1))%Q → ilog2 q = k.
Proof.
  intros Hq H1 H2. destruct (ilog2_spec q Hq) as [S1 S2].
  destruct (Z.lt_trichotomy (ilog2 q) k) as [H|[H|H]]; [|done|].
  - pose proof (pow2_le (ilog2 q + 1) k ltac:(lia)). lra.
  - pose proof (pow2_le (k + 1) (ilog2 q) ltac:(lia)). lra.
Qed.

Lemma ilog2_comp q q' : ¬ (q == 0)%Q → (q == q')%Q → ilog2 q = ilog2 q'.
Proof.
  intros Hq E. apply ilog2_unique; [done|rewrite E..]; apply ilog2_spec; by rewrite <- E.
Qed.

Lemma ilog2_mono q q' :
  ¬ (q == 0)%Q → ¬ (q' == 0)%Q → (Qabs q <= Qabs q')%Q → (ilog2 q ≤ ilog2 q')%Z.
Proof.
  intros Hq Hq' Hle. destruct (ilog2_spec q Hq) as [S1 _].
  destruct (ilog2_spec q' Hq') as [_ S2].
  destruct (Z.le_gt_cases (ilog2 q) (ilog2 q')) as [H|H]; [done|].
  pose proof (pow2_le (ilog2 q' + 1) (ilog2 q) ltac:(lia)). lra.
Qed.

Lemma nearestEven_cases y :
  (nearestEven y = Qfloor y ∧ (y - inject_Z (Qfloor y) <= 1 # 2)%Q)
  ∨ (nearestEven y = (Qfloor y + 1)%Z ∧ (1 # 2 <= y - inject_Z (Qfloor y))%Q).
Proof.
  unfold nearestEven.
  destruct (Qcompare_spec (y - inject_Z (Qfloor y)) (1 # 2)) as [E|E|E].
  - destruct (Z.even (Qfloor y)); [left|right]; (split; [done|lra]).
  - left. split; [done|lra].
  - right. split; [done|lra].
Qed.

Lemma nearestEven_error y : (Qabs (inject_Z (nearestEven y) - y) <= 1 # 2)%Q.
Proof.
  pose proof (Qfloor_le y). pose proof (Qlt_floor y) as Hl.
  rewrite inject_Z_plus in Hl. change (inject_Z 1) with 1%Q in Hl.
  destruct (nearestEven_cases y) as [[-> H1]|[-> H1]]; apply Qabs_Qle_condition.
  - split; lra.
  - rewrite inject_Z_plus. change (inject_Z 1) with 1%Q. split; lra.
Qed.

Lemma nearestEven_Z z : nearestEven (inject_Z z) = z.
Proof.
  unfold nearestEven. rewrite Qfloor_Z.
  destruct (Qcompare_spec (inject_Z z - inject_Z z) (1 # 2)) as [E|E|E];
    [exfalso; lra|done|exfalso; lra].
Qed.

Lemma nearestEven_comp y y' : (y == y')%Q → nearestEven y = nearestEven y'.
Proof.
  intros E. unfold nearestEven.
  assert (Qfloor y = Qfloor y') as <- by (by apply Qfloor_comp).
  assert (Qcompare (y - inject_Z (Qfloor y)) (1 # 2)
          = Qcompare (y' - inject_Z (Qfloor y)) (1 # 2)) as ->.
  { apply Qcompare_comp; [lra|done]. }
  done.
Qed.

Lemma nearestEven_mono y y' : (y <= y')%Q → (nearestEven y ≤ nearestEven y')%Z.
Proof.
  intros Hle. pose proof (Qfloor_resp_le _ _ Hle) as Hf.
  pose proof (Qfloor_le y). pose proof (Qlt_floor y) as Hl.
  pose proof (Qfloor_le y'). pose proof (Qlt_floor y') as Hl'.
  rewrite inject_Z_plus in Hl, Hl'. change (inject_Z 1) with 1%Q in Hl, Hl'.
  destruct (decide (Qfloor y = Qfloor y')) as [E|E].
  - unfold nearestEven. rewrite <- E.
    destruct (Qcompare_spec (y - inject_Z (Qfloor y)) (1 # 2)) as [E1|E1|E1];
      destruct (Qcompare_spec (y' - inject_Z (Qfloor y)) (1 # 2)) as [E2|E2|E2];
      try destruct (Z.even (Qfloor y)); try lia; exfalso; lra.
  - destruct (nearestEven_cases y) as [[-> _]|[-> _]];
      destruct (nearestEven_cases y') as [[-> _]|[-> _]]; lia.
Qed.

Lemma round_zero q : (q == 0)%Q → round q = 0%Q.
Proof. intros E. unfold round. by rewrite (proj2 (Qeq_bool_iff q 0) E). Qed.

Lemma round_eq q :
  ¬ (q == 0)%Q →
  (round q == inject_Z (nearestEven (q / pow2 (exponent q))) * pow2 (exponent q))%Q.
Proof.
  intros Hq. unfold round.
  destruct (Qeq_bool q 0) eqn:E; [by apply Qeq_bool_iff in E|]. apply Qred_correct.
Qed.

Lemma exponent_comp q q' : ¬ (q == 0)%Q → (q == q')%Q → exponent q = exponent q'.
Proof. intros Hq E. unfold exponent. by rewrite (ilog2_comp q q'). Qed.

Lemma round_comp q q' : (q == q')%Q → round q = round q'.
Proof.
  intros E. destruct (Qeq_dec q 0) as [Hq|Hq].
  - rewrite !round_zero; [done|by rewrite <- E|done].
  - assert (¬ (q' == 0)%Q) as Hq' by (by rewrite <- E).
    unfold round.
    destruct (Qeq_bool q 0) eqn:E1; [by apply Qeq_bool_iff in E1|].
    destruct (Qeq_bool q' 0) eqn:E2; [by apply Qeq_bool_iff in E2|].
    apply Qred_complete. rewrite <- (exponent_comp q q') by done.
    pose proof (pow2_pos (exponent q)).
    rewrite (nearestEven_comp (q / pow2 (exponent q)) (q' / pow2 (exponent q))); [done|].
    by apply Qdiv_comp.
Qed.

(** The rounding error is at most half a unit in the last place. *)
Lemma round_error q : (Qabs (round q - q) <= pow2 (exponent q) * (1 # 2))%Q.
Proof.
  pose proof (pow2_pos (exponent q)) as Hp.
  destruct (Qeq_dec q 0) as [Hq|Hq].
  - rewrite round_zero by done.
    assert (0 - q == 0)%Q as -> by lra. change (Qabs 0) with 0%Q. nra.
  - rewrite round_eq by done.
    pose proof (nearestEven_error (q / pow2 (exponent q))) as He.
    set (m := inject_Z (nearestEven (q / pow2 (exponent q)))) in *.
    assert (m * pow2 (exponent q) - q == (m - q / pow2 (exponent q)) * pow2 (exponent q))%Q
      as -> by (field; lra).
    rewrite Qabs_Qmult, (Qabs_pos (pow2 _)) by lra.
    pose proof (Qabs_nonneg (m - q / pow2 (exponent q))). nra.
Qed.

(** Above the subnormal range the error is relative: at most [2^-53] of
    the value. *)
Lemma round_relative_error q :
  (pow2 (-1022) <= Qabs q)%Q → (Qabs (round q - q) <= Qabs q * pow2 (-53))%Q.
Proof.
  intros Hn. pose proof (pow2_pos (-1022)).
  assert (¬ (q == 0)%Q) as Hq.
  { intros E. rewrite E in Hn. change (Qabs 0) with 0%Q in Hn. lra. }
  destruct (ilog2_spec q Hq) as [S1 S2].
  assert (-1022 ≤ ilog2 q)%Z as Hl.
  { destruct (Z.le_gt_cases (-1022) (ilog2 q)) as [?|Hlt]; [done|].
    pose proof (pow2_le (ilog2 q + 1) (-1022) ltac:(lia)). lra. }
  pose proof (round_error q) as He.
  assert (exponent q = ilog2 q - 52)%Z as Ee by (unfold exponent; lia).
  rewrite Ee in He.
  assert (pow2 (ilog2 q - 52) * (1 # 2) == pow2 (ilog2 q) * pow2 (-53))%Q as E.
  { replace (ilog2 q - 52)%Z with (ilog2 q + -53 + 1)%Z by lia.
    rewrite !pow2_add. change (pow2 1) with 2%Q. field. }
  rewrite E in He. pose proof (pow2_pos (-53)). nra.
Qed.

(** A number with at most 53 significant bits at an exponent of the
    format is not changed. *)
Lemma round_exact m k :
  (exponent (inject_Z m * pow2 k) ≤ k)%Z →
  (round (inject_Z m * pow2 k) == inject_Z m * pow2 k)%Q.
Proof.
  intros He.
  destruct (Qeq_dec (inject_Z m * pow2 k) 0) as [Hq|Hq]; [by rewrite round_zero, Hq|].
  rewrite round_eq by done. revert He.
  generalize (exponent (inject_Z m * pow2 k)) as e. intros e He.
  pose proof (pow2_pos e) as Hp.
  assert (inject_Z m * pow2 k / pow2 e == inject_Z (m * 2 ^ (k - e)))%Q as E.
  { rewrite inject_Z_mult, <- pow2_Z, pow2_sub by lia. field. lra. }
  rewrite (nearestEven_comp _ _ E), nearestEven_Z.
  rewrite inject_Z_mult, <- pow2_Z, pow2_sub by lia. field. lra.
Qed.

Lemma exponent_le q k :
  ¬ (q == 0)%Q → (Qabs q < pow2 (k + 53))%Q → (-1074 ≤ k)%Z → (exponent q ≤ k)%Z.
Proof.
  intros Hq Hlt Hk. destruct (ilog2_spec q Hq) as [S1 _].
  assert (ilog2 q < k + 53)%Z.
  { destruct (Z.lt_ge_cases (ilog2 q) (k + 53)) as [?|Hge]; [done|].
    pose proof (pow2_le (k + 53) (ilog2 q) ltac:(lia)). lra. }
  unfold exponent. lia.
Qed.

(** Whole numbers up to [2^53] are doubles. *)
Lemma round_integer n :
  (Z.abs n ≤ 2 ^ 53)%Z → (round (inject_Z n) == inject_Z n)%Q.
Proof.
  intros Hn. destruct (Qeq_dec (inject_Z n) 0) as [Hq|Hq]; [by rewrite round_zero, Hq|].
  destruct (decide (Z.abs n = 2 ^ 53)%Z) as [E|E].
  - assert (∃ s, (s = 1 ∨ s = -1)%Z ∧ (inject_Z n == inject_Z s * pow2 53)%Q)
      as (s & Hs & Ef).
    { destruct (Z.abs_spec n) as [[_ E']|[_ E']]; rewrite E' in E.
      - exists 1%Z. split; [by left|]. rewrite E. by vm_compute.
      - exists (-1)%Z. split; [by right|].
        assert (n = - 2 ^ 53)%Z as -> by lia. by vm_compute. }
    rewrite (round_comp _ _ Ef).
    transitivity (inject_Z s * pow2 53)%Q; [|by symmetry]. apply round_exact.
    apply exponent_le; [by rewrite <- Ef|rewrite <- Ef|lia].
    change (Qabs (inject_Z n)) with (inject_Z (Z.abs n)).
    rewrite E, <- pow2_Z by lia. apply pow2_lt. lia.
  - assert (inject_Z n == inject_Z n * pow2 0)%Q as Ef by (rewrite pow2_0; ring).
    rewrite (round_comp _ _ Ef).
    transitivity (inject_Z n * pow2 0)%Q; [|by symmetry]. apply round_exact.
    apply exponent_le; [by rewrite <- Ef|rewrite <- Ef|lia].
    change (Qabs (inject_Z n)) with (inject_Z (Z.abs n)).
    change (pow2 (0 + 53)) with (inject_Z (2 ^ 53)).
    rewrite <- Zlt_Qlt. lia.
Qed.

Lemma Qfloor_unique y z :
  (inject_Z z <= y)%Q → (y < inject_Z z + 1)%Q → Qfloor y = z.
Proof.
  intros H1 H2. pose proof (Qfloor_le y) as F1. pose proof (Qlt_floor y) as F2.
  rewrite inject_Z_plus in F2. change (inject_Z 1) with 1%Q in F2.
  assert (inject_Z z < inject_Z (Qfloor y) + 1)%Q as A by lra.
  assert (inject_Z (Qfloor y) < inject_Z z + 1)%Q as B by lra.
  change 1%Q with (inject_Z 1) in A, B. rewrite <- inject_Z_plus, <- Zlt_Qlt in A, B.
  lia.
Qed.

Lemma nearestEven_opp y : nearestEven (- y) = (- nearestEven y)%Z.
Proof.
  pose proof (Qfloor_le y) as F1. pose proof (Qlt_floor y) as F2.
  rewrite inject_Z_plus in F2. change (inject_Z 1) with 1%Q in F2.
  destruct (Qeq_dec y (inject_Z (Qfloor y))) as [E|E].
  - assert (- y == inject_Z (- Qfloor y))%Q as E' by (rewrite inject_Z_opp; lra).
    by rewrite (nearestEven_comp _ _ E), (nearestEven_comp _ _ E'), !nearestEven_Z.
  - assert (Qfloor (- y) = - Qfloor y - 1)%Z as Ef.
    { apply Qfloor_unique.
      - unfold Z.sub. rewrite inject_Z_plus, !inject_Z_opp. change (inject_Z 1) with 1%Q. lra.
      - unfold Z.sub. rewrite inject_Z_plus, !inject_Z_opp. change (inject_Z 1) with 1%Q.
        assert (¬ (y <= inject_Z (Qfloor y))%Q); [|lra]. intros H. apply E. lra. }
    unfold nearestEven. rewrite Ef.
    unfold Z.sub. rewrite inject_Z_plus, !inject_Z_opp. change (inject_Z 1) with 1%Q.
    fold (Z.sub (- Qfloor y) 1).
    assert (Z.even (- Qfloor y - 1) = negb (Z.even (Qfloor y))) as Ev.
    { rewrite Z.even_sub, Z.even_opp. by destruct (Z.even (Qfloor y)). }
    rewrite Ev.
    destruct (Qcompare_spec (y - inject_Z (Qfloor y)) (1 # 2)) as [E1|E1|E1];
      destruct (Qcompare_spec (- y - (- inject_Z (Qfloor y) + - (1))) (1 # 2)) as [E2|E2|E2];
      try (exfalso; lra); try destruct (Z.even (Qfloor y)); simpl; lia.
Qed.

Lemma exponent_opp q : ¬ (q == 0)%Q → exponent (- q) = exponent q.
Proof.
  intros Hq. unfold exponent. f_equal. f_equal.
  destruct (ilog2_spec q Hq) as [S1 S2].
  apply ilog2_unique; [lra|by rewrite Qabs_opp..].
Qed.

Lemma round_opp q : (round (- q) == - round q)%Q.
Proof.
  destruct (Qeq_dec q 0) as [Hq|Hq].
  - rewrite !round_zero; [done|done|lra].
  - assert (¬ (- q == 0)%Q) as Hq' by lra.
    rewrite (round_eq q Hq), (round_eq (- q) Hq'), exponent_opp by done.
    pose proof (pow2_pos (exponent q)) as Hp.
    assert (- q / pow2 (exponent q) == - (q / pow2 (exponent q)))%Q as E by (field; lra).
    rewrite (nearestEven_comp _ _ E), nearestEven_opp, inject_Z_opp. ring.
Qed.

Lemma round_nonneg q : (0 <= q)%Q → (0 <= round q)%Q.
Proof.
  intros Hq. destruct (Qeq_dec q 0) as [E|E]; [by rewrite round_zero|].
  rewrite round_eq by done. pose proof (pow2_pos (exponent q)) as Hp.
  assert (0 <= q / pow2 (exponent q))%Q as H.
  { apply Qle_shift_div_l; [done|]. lra. }
  apply nearestEven_mono in H. change (nearestEven 0) with (nearestEven (inject_Z 0)) in H.
  rewrite nearestEven_Z, Zle_Qle in H. change (inject_Z 0) with 0%Q in H. nra.
Qed.

Lemma round_mono_pos x y : (0 < x)%Q → (x <= y)%Q → (round x <= round y)%Q.
Proof.
  intros Hx Hxy.
  assert (¬ (x == 0)%Q) as Hx0 by lra. assert (¬ (y == 0)%Q) as Hy0 by lra.
  destruct (ilog2_spec x Hx0) as [X1 X2]. destruct (ilog2_spec y Hy0) as [Y1 Y2].
  rewrite Qabs_pos in X1, X2, Y1, Y2 by lra.
  assert (ilog2 x ≤ ilog2 y)%Z as Hl.
  { apply ilog2_mono; [done..|]. rewrite !Qabs_pos by lra. done. }
  rewrite (round_eq x Hx0), (round_eq y Hy0).
  pose proof (pow2_pos (exponent x)) as Hpx. pose proof (pow2_pos (exponent y)) as Hpy.
  destruct (decide (exponent x = exponent y)) as [E|E].
  - rewrite E.
    assert (x / pow2 (exponent y) <= y / pow2 (exponent y))%Q as H.
    { apply Qle_shift_div_l; [done|].
      assert (x / pow2 (exponent y) * pow2 (exponent y) == x)%Q as -> by (field; lra). done. }
    apply nearestEven_mono in H. rewrite Zle_Qle in H. nra.
  - assert (exponent x < exponent y)%Z as Hlt by (unfold exponent in *; lia).
    assert (exponent y = ilog2 y - 52)%Z as Ey by (unfold exponent in *; lia).
    assert (ilog2 x + 1 ≤ ilog2 y)%Z as Hl' by (unfold exponent in *; lia).
    set (P := pow2 (ilog2 y)).
    assert (x <= P)%Q as HxP.
    { pose proof (pow2_le (ilog2 x + 1) (ilog2 y) Hl'). unfold P. lra. }
    assert (P == inject_Z (2 ^ 52) * pow2 (exponent y))%Q as EPy.
    { unfold P. rewrite <- pow2_Z, <- pow2_add by lia. by replace (52 + exponent y)%Z with (ilog2 y) by lia. }
    assert (P == inject_Z (2 ^ (ilog2 y - exponent x)) * pow2 (exponent x))%Q as EPx.
    { unfold P. rewrite <- pow2_Z, <- pow2_add by lia.
      by replace (ilog2 y - exponent x + exponent x)%Z with (ilog2 y) by lia. }
    assert (inject_Z (2 ^ 52) <= y / pow2 (exponent y))%Q as Hy.
    { apply Qle_shift_div_l; [done|]. rewrite <- EPy. done. }
    assert (x / pow2 (exponent x) <= inject_Z (2 ^ (ilog2 y - exponent x)))%Q as Hx'.
    { apply Qle_shift_div_r; [done|]. rewrite <- EPx. done. }
    apply nearestEven_mono in Hy, Hx'. rewrite nearestEven_Z in Hy, Hx'.
    rewrite Zle_Qle in Hy, Hx'.
    apply (Qle_trans _ P).
    + rewrite EPx. nra.
    + rewrite EPy. nra.
Qed.

(** Rounding keeps the order. *)
Lemma round_mono x y : (x <= y)%Q → (round x <= round y)%Q.
Proof.
  intros Hxy. destruct (Qlt_le_dec 0 x) as [Hx|Hx]; [by apply round_mono_pos|].
  destruct (Qlt_le_dec y 0) as [Hy|Hy].
  - pose proof (round_mono_pos (- y) (- x) ltac:(lra) ltac:(lra)) as H.
    rewrite !round_opp in H. lra.
  - pose proof (round_nonneg y Hy) as H1.
    pose proof (round_nonneg (- x) ltac:(lra)) as H2.
    rewrite round_opp in H2. lra.
Qed.

(** The error of any rounding: at most [2^-53] of the value, or half the
    smallest subnormal number. *)
Lemma round_error_bound q :
  (Qabs (round q - q) <= Qabs q * pow2 (-53) + pow2 (-1075))%Q.
Proof.
  pose proof (round_error q) as He. pose proof (Qabs_nonneg q) as Hq.
  pose proof (pow2_pos (-53)). pose proof (pow2_pos (-1075)).
  destruct (Qeq_dec q 0) as [E|E].
  - rewrite round_zero by done.
    assert (Qabs (0 - q) == 0)%Q as ->; [|nra].
    assert (0 - q == 0)%Q as -> by lra. done.
  - destruct (ilog2_spec q E) as [S1 _].
    unfold exponent in He.
    destruct (Z.max_spec (ilog2 q - 52) (-1074)) as [[Hlt Em]|[Hle Em]];
      rewrite Em in He.
    + assert (pow2 (-1074) * (1 # 2) == pow2 (-1075))%Q as E'.
      { replace (-1074)%Z with (-1075 + 1)%Z by lia. rewrite pow2_add.
        change (pow2 1) with 2%Q. field. }
      rewrite E' in He. nra.
    + assert (pow2 (ilog2 q - 52) * (1 # 2) == pow2 (ilog2 q) * pow2 (-53))%Q as E'.
      { replace (ilog2 q - 52)%Z with (ilog2 q + -53 + 1)%Z by lia.
        rewrite !pow2_add. change (pow2 1) with 2%Q. field. }
      rewrite E' in He. nra.
Qed.

End DoubleFacts.

(** ** The exact-slot variant *)

Section ExactSlotFacts.
Import ExactSlot.

Example splitImage_2x2_ids :
  map id (splitImage 2 2) = ["piece-0"; "piece-1"; "piece-2"; "piece-3"].
Proof. reflexivity. Qed.

(** Every split piece is named after its own index. *)
Lemma splitImage_id rows cols p :
  p ∈ splitImage rows cols → id p = "piece-" +:+ pretty (correctIndex p).
Proof.
  unfold splitImage. rewrite list_elem_of_In, in_flat_map.
  intros (r & _ & Hp). apply in_map_iff in Hp as (c & <- & _). done.
Qed.

Lemma splitImage_id_nonempty rows cols p :
  p ∈ splitImage rows cols → id p ≠ "".
Proof. intros Hp. by rewrite (splitImage_id _ _ _ Hp). Qed.

Lemma findPiece_Some pieces x p :
  findPiece pieces x = Some p → p ∈ pieces ∧ id p = x.
Proof.
  unfold findPiece. intros H. apply find_some in H as [Hin Hb].
  apply bool_decide_eq_true in Hb. by rewrite list_elem_of_In.
Qed.

Lemma findPiece_complete pieces p :
  p ∈ pieces → ∃ q, findPiece pieces (id p) = Some q.
Proof.
  unfold findPiece. intros Hin.
  destruct (find _ pieces) as [q|] eqn:E; [by eexists|].
  apply list_elem_of_In in Hin.
  pose proof (find_none _ _ E _ Hin) as Hn. simpl in Hn.
  by apply bool_decide_eq_false in Hn.
Qed.

(** Looking a split piece up by its id gives a piece with the same index. *)
Lemma splitImage_find_index rows cols p :
  p ∈ splitImage rows cols →
  ∃ q, findPiece (splitImage rows cols) (id p) = Some q
       ∧ correctIndex q = correctIndex p.
Proof.
  intros Hp. destruct (findPiece_complete _ _ Hp) as [q Hq].
  exists q. split; [done|].
  apply findPiece_Some in Hq as [Hq Hid].
  rewrite (splitImage_id _ _ _ Hq), (splitImage_id _ _ _ Hp) in Hid.
  apply (inj (String.app "piece-")) in Hid. by apply (inj pretty) in Hid.
Qed.

Lemma emptyGrid_lookup n idx i : emptyGrid n !! idx = Some i → i = "".
Proof. unfold emptyGrid. intros H. by apply lookup_replicate in H as [-> _]. Qed.

Lemma partial_grid_entries (placed : list Piece) (g : list string) idx i :
  foldl (λ g piece, <[correctIndex piece := id piece]> g) g placed !! idx = Some i →
  g !! idx = Some i ∨ ∃ p, p ∈ placed ∧ correctIndex p = idx ∧ id p = i.
Proof.
  revert g. induction placed as [|p placed IH]; intros g H; simpl in *.
  - by left.
  - destruct (IH _ H) as [Hg | (q & Hq & ? & ?)].
    + destruct (decide (correctIndex p = idx)) as [<-|Hne].
      * destruct (decide (correctIndex p < length g)) as [Hlt|Hge].
        -- rewrite list_lookup_insert_eq in Hg by done.
           right. exists p. split; [left|]. naive_solver.
        -- rewrite list_insert_ge in Hg by lia. by left.
      * rewrite list_lookup_insert_ne in Hg by done. by left.
    + right. exists q. split; [by right|done].
Qed.

Lemma runSolvedCheck_grid st : gridItems (runSolvedCheck st) = gridItems st.
Proof. unfold runSolvedCheck. by destruct (solvedCheck st). Qed.
Lemma runSolvedCheck_pieces st : pieces (runSolvedCheck st) = pieces st.
Proof. unfold runSolvedCheck. by destruct (solvedCheck st). Qed.
Lemma runSolvedCheck_pool st : poolItems (runSolvedCheck st) = poolItems st.
Proof. unfold runSolvedCheck. by destruct (solvedCheck st). Qed.

Lemma gridCorrect_runSolvedCheck st : gridCorrect st → gridCorrect (runSolvedCheck st).
Proof.
  unfold gridCorrect. by rewrite runSolvedCheck_grid, runSolvedCheck_pieces.
Qed.

Lemma gridCorrect_initialize rows cols mode shuffled st0 :
  shuffled ≡ₚ splitImage rows cols →
  gridCorrect (initialize rows cols mode shuffled st0).
Proof.
  intros Hperm idx i Hi Hne. destruct mode; simpl in *.
  - apply partial_grid_entries in Hi as [Hi | (p & Hp & <- & <-)].
    + by apply emptyGrid_lookup in Hi.
    + apply splitImage_find_index. rewrite <- Hperm.
      by eapply subseteq_take.
  - by apply emptyGrid_lookup in Hi.
Qed.

Lemma gridCorrect_handleDragStart a st :
  gridCorrect st → gridCorrect (handleDragStart a st).
Proof. done. Qed.

Lemma gridCorrect_handleDragEnd a o st :
  gridCorrect st → gridCorrect (handleDragEnd a o st).1.
Proof.
  intros Hinv. unfold handleDragEnd.
  destruct o as [target|]; [|done].
  destruct (findPiece (pieces st) a) as [piece|] eqn:Hfind; [|done].
  destruct target as [t| |]; [| |done].
  - case_bool_decide as Hocc; [done|].
    case_bool_decide as Hidx; [done|].
    try apply dec_stable in Hocc. try apply dec_stable in Hidx.
    intros idx i Hi Hne. simpl in *.
    destruct (decide (t = idx)) as [<-|Hd].
    + rewrite list_lookup_insert_eq in Hi by (by eapply lookup_lt_Some).
      injection Hi as <-. eauto.
    + rewrite list_lookup_insert_ne in Hi by done. eauto.
  - destruct (indexOf a (gridItems st)) as [from|]; [|done].
    intros idx i Hi Hne. simpl in *.
    destruct (decide (from = idx)) as [<-|Hd].
    + destruct (decide (from < length (gridItems st))).
      * rewrite list_lookup_insert_eq in Hi by done. congruence.
      * rewrite list_insert_ge in Hi by lia. eauto.
    + rewrite list_lookup_insert_ne in Hi by done. eauto.
Qed.

Lemma reachable_gridCorrect rows cols st :
  reachable rows cols st → gridCorrect st.
Proof.
  induction 1 as [mode shuffled Hperm | e st _ IH].
  - by apply gridCorrect_runSolvedCheck, gridCorrect_initialize.
  - apply gridCorrect_runSolvedCheck. destruct e.
    + by apply gridCorrect_handleDragStart.
    + by apply gridCorrect_handleDragEnd.
Qed.

Lemma gridCorrect_slotCorrect st idx i :
  gridCorrect st → gridItems st !! idx = Some i → i ≠ "" →
  slotCorrect (pieces st) idx i = true.
Proof.
  intros Hinv Hi Hne. destruct (Hinv _ _ Hi Hne) as (p & Hp & Hidx).
  unfold slotCorrect. rewrite Hp. by apply bool_decide_eq_true.
Qed.

Lemma gridCorrect_allSlotsCorrect st :
  gridCorrect st → "" ∉ gridItems st →
  allSlotsCorrect (pieces st) (gridItems st) = true.
Proof.
  intros Hinv Hfull. unfold allSlotsCorrect. apply forallb_forall.
  intros [idx i] Hin. apply list_elem_of_In, elem_of_lookup_imap_1 in Hin
    as (j & y & [= -> ->] & Hy).
  apply gridCorrect_slotCorrect; [done..|].
  intros ->. apply Hfull. by eapply list_elem_of_lookup_2.
Qed.

(** C8.  A drop of a piece onto a slot that already holds a piece raises
    the occupied signal and leaves the pieces, the grid, the pool and the
    solved flag as they were (only the drag-session marker [activeId] is
    cleared, as at the end of every drag). *)
Theorem occupied_drop_rejected active piece targetIndex occupant st :
  findPiece (pieces st) active = Some piece →
  gridItems st !! targetIndex = Some occupant →
  occupant ≠ "" →
  handleDragEnd active (Some (OverSlot targetIndex)) st =
    ({| pieces := pieces st; gridItems := gridItems st;
        poolItems := poolItems st; activeId := None;
        isSolved := isSolved st |}, Some SlotOccupied).
Proof.
  intros Hfind Hocc Hne. unfold handleDragEnd. rewrite Hfind.
  rewrite bool_decide_eq_true_2; [done|]. congruence.
Qed.

(** C10.  At every reachable state: a drop onto an empty slot other than
    the piece's [correctIndex] raises the wrong-position signal and changes
    neither grid nor pool; every piece in the grid sits in the slot of its
    [correctIndex] (the per-slot test of the solved check succeeds on it);
    and once the guard of the solved check passes, the [every] test
    succeeds. *)
Theorem wrong_slot_rejected_grid_always_correct rows cols st :
  reachable rows cols st →
  (∀ active piece targetIndex,
     findPiece (pieces st) active = Some piece →
     gridItems st !! targetIndex = Some "" →
     correctIndex piece ≠ targetIndex →
     handleDragEnd active (Some (OverSlot targetIndex)) st =
       ({| pieces := pieces st; gridItems := gridItems st;
           poolItems := poolItems st; activeId := None;
           isSolved := isSolved st |}, Some WrongPosition))
  ∧ (∀ idx i, gridItems st !! idx = Some i → i ≠ "" →
       (∃ p, findPiece (pieces st) i = Some p ∧ correctIndex p = idx)
       ∧ slotCorrect (pieces st) idx i = true)
  ∧ (boardFull st = true → allSlotsCorrect (pieces st) (gridItems st) = true)
  ∧ solvedCheck st = boardFull st.
Proof.
  intros Hreach. pose proof (reachable_gridCorrect _ _ _ Hreach) as Hinv.
  assert (boardFull st = true → allSlotsCorrect (pieces st) (gridItems st) = true)
    as Hall.
  { unfold boardFull. intros [_ Hfull%negb_true_iff]%andb_true_iff.
    apply bool_decide_eq_false in Hfull. by apply gridCorrect_allSlotsCorrect. }
  split; [|split; [|split]].
  - intros active piece t Hfind Hempty Hidx. unfold handleDragEnd.
    rewrite Hfind. rewrite bool_decide_eq_false_2 by (intros H; by apply H).
    by rewrite bool_decide_eq_true_2.
  - intros idx i Hi Hne. split; [by apply Hinv|].
    by apply gridCorrect_slotCorrect.
  - done.
  - unfold solvedCheck. destruct (boardFull st) eqn:E; [|done].
    by rewrite Hall.
Qed.

Lemma occupied_drop_rejected_witness :
  handleDragEnd "piece-1" (Some (OverSlot 0)) Samples.slotBoard =
    ({| pieces := pieces Samples.slotBoard; gridItems := gridItems Samples.slotBoard;
        poolItems := poolItems Samples.slotBoard; activeId := None;
        isSolved := isSolved Samples.slotBoard |}, Some SlotOccupied).
Proof.
  apply (occupied_drop_rejected "piece-1" (mkPiece "piece-1" 1 0 1) 0 "piece-0"
           Samples.slotBoard); [reflexivity|reflexivity|discriminate].
Defined.

Lemma wrong_slot_rejected_witness :
  reachable 2 2 Samples.slotStart
  ∧ (handleDragEnd "piece-2" (Some (OverSlot 1)) Samples.slotStart).2
    = Some WrongPosition.
Proof.
  assert (reachable 2 2 Samples.slotStart) as Hreach.
  { apply reach_init. reflexivity. }
  split; [exact Hreach|].
  destruct (wrong_slot_rejected_grid_always_correct 2 2 Samples.slotStart Hreach)
    as [Hwrong _].
  rewrite (Hwrong "piece-2" (mkPiece "piece-2" 2 1 0) 1);
    [reflexivity|reflexivity|reflexivity|discriminate].
Defined.

(** The 2 x 2 scenario: placing piece 2 on slot 2 does not solve the puzzle,
    placing the other three on their slots does. *)
Example exact_slot_scenario :
  let s1 := step (DragEnd "piece-2" (Some (OverSlot 2))) Samples.slotStart in
  let s4 := step (DragEnd "piece-3" (Some (OverSlot 3)))
              (step (DragEnd "piece-1" (Some (OverSlot 1)))
                 (step (DragEnd "piece-0" (Some (OverSlot 0))) s1)) in
  gridItems s1 = [""; ""; "piece-2"; ""] ∧ isSolved s1 = false ∧ isSolved s4 = true.
Proof. by vm_compute. Qed.

End ExactSlotFacts.

(** ** Traversal of the connected-group links *)

Section TraversalFacts.
Import Engine.
Implicit Types (m : gmap string PlacedPiece.t) (skip queue visited : list string).

Lemma potential_mono l visited current :
  potential l (visited ++ [current]) ≤ potential l visited.
Proof.
  unfold potential. induction l as [|[k p] l IH]; simpl; [done|].
  repeat case_bool_decide; try lia.
  exfalso. set_solver.
Qed.

Lemma potential_visit l visited current p :
  NoDup l.*1 → current ∉ visited → (current, p) ∈ l →
  potential l (visited ++ [current]) + length (PlacedPiece.connectedGroup p)
  ≤ potential l visited.
Proof.
  unfold potential. induction l as [|[k q] l IH]; simpl.
  - intros _ _ H. by apply elem_of_nil in H.
  - intros [Hk Hnd]%NoDup_cons Hcur [Heq|Hin]%elem_of_cons.
    + injection Heq as <- <-.
      rewrite bool_decide_eq_true_2 by set_solver.
      rewrite bool_decide_eq_false_2 by done.
      pose proof (potential_mono l visited current) as Hm.
      unfold potential in Hm. lia.
    + specialize (IH Hnd Hcur Hin).
      repeat case_bool_decide; try lia. exfalso. set_solver.
Qed.

Lemma potential_all_le l :
  potential l [] = sum_list (map (λ kp, length (PlacedPiece.connectedGroup kp.2)) l).
Proof.
  unfold potential. induction l as [|[k p] l IH]; [done|].
  rewrite !map_cons. cbn [sum_list sum_list_with fst snd]. rewrite IH.
  by rewrite bool_decide_eq_false_2 by apply not_elem_of_nil.
Qed.

(** The loop ends within any fuel that covers the queue and the links not
    yet pushed. *)
Lemma traverse_terminates fuel m skip queue visited :
  length queue + potential (map_to_list m) visited ≤ fuel →
  is_Some (traverse fuel m skip queue visited).
Proof.
  revert queue visited.
  induction fuel as [|fuel IH]; intros queue visited Hfuel.
  - destruct queue; simpl in *; [done|lia].
  - destruct queue as [|current queue]; simpl in *; [done|].
    destruct (bool_decide (current ∈ visited) || bool_decide (current ∈ skip)) eqn:E.
    + apply IH. lia.
    + apply orb_false_iff in E as [Hv%bool_decide_eq_false _].
      apply IH. rewrite length_app.
      destruct (m !! current) as [p|] eqn:Hp.
      * pose proof (potential_visit (map_to_list m) visited current p
          (NoDup_fst_map_to_list m) Hv) as Hpot.
        rewrite elem_of_map_to_list in Hpot. specialize (Hpot Hp).
        pose proof (length_filter (λ i, i ∉ visited ++ [current])
                      (PlacedPiece.connectedGroup p)). lia.
      * pose proof (potential_mono (map_to_list m) visited current).
        simpl. lia.
Qed.

(** [getConnectedGroup] and its siblings always return: the fuel built into
    [traverseFrom] is never exhausted. *)
Lemma traverseFrom_returns m skip start :
  traverse (traverseFuel m) m skip [start] [] = Some (traverseFrom m skip start).
Proof.
  unfold traverseFrom.
  destruct (traverse_terminates (traverseFuel m) m skip [start] []) as [R HR].
  - unfold traverseFuel. rewrite potential_all_le. simpl. lia.
  - by rewrite HR.
Qed.

Lemma traverse_visited_prefix fuel m skip queue visited R :
  traverse fuel m skip queue visited = Some R → visited `prefix_of` R.
Proof.
  revert queue visited.
  induction fuel as [|fuel IH]; intros queue visited H;
    destruct queue as [|current queue]; simpl in H; simplify_eq; try done.
  destruct (_ || _); [by eapply IH|].
  apply IH in H. by eapply prefix_app_l.
Qed.

Lemma traverse_NoDup fuel m skip queue visited R :
  traverse fuel m skip queue visited = Some R → NoDup visited → NoDup R.
Proof.
  revert queue visited.
  induction fuel as [|fuel IH]; intros queue visited H Hnd;
    destruct queue as [|current queue]; simpl in H; simplify_eq; try done.
  destruct (_ || _) eqn:E; [by eapply IH|].
  apply orb_false_iff in E as [Hv%bool_decide_eq_false _].
  eapply IH; [done|]. apply NoDup_app. split_and!; [done| |apply NoDup_singleton].
  intros y Hy ->%list_elem_of_singleton. done.
Qed.

(** Every queued item ends up visited, unless it is skipped. *)
Lemma traverse_queue fuel m skip queue visited R :
  traverse fuel m skip queue visited = Some R →
  ∀ q, q ∈ queue → q ∈ R ∨ q ∈ skip.
Proof.
  revert queue visited.
  induction fuel as [|fuel IH]; intros queue visited H q Hq;
    destruct queue as [|current queue]; simpl in H; simplify_eq;
    try by apply elem_of_nil in Hq.
  destruct (_ || _) eqn:E.
  - apply elem_of_cons in Hq as [->|Hq]; [|by eapply IH].
    apply orb_true_iff in E as [Hv%bool_decide_eq_true|Hs%bool_decide_eq_true];
      [left|by right].
    apply traverse_visited_prefix in H. by eapply elem_of_prefix.
  - apply elem_of_cons in Hq as [->|Hq].
    + left. apply traverse_visited_prefix in H.
      eapply elem_of_prefix; [|done]. set_solver.
    + eapply IH; [done|]. set_solver.
Qed.

(** The result is closed under links, up to skipped items. *)
Lemma traverse_closed fuel m skip queue visited R :
  traverse fuel m skip queue visited = Some R →
  (∀ u v, u ∈ visited → linked m u v → v ∈ visited ∨ v ∈ queue ∨ v ∈ skip) →
  ∀ u v, u ∈ R → linked m u v → v ∈ R ∨ v ∈ skip.
Proof.
  revert queue visited.
  induction fuel as [|fuel IH]; intros queue visited H Hpre;
    destruct queue as [|current queue]; simpl in H; simplify_eq.
  - intros u v Hu Hl. destruct (Hpre u v Hu Hl) as [?|[?%elem_of_nil|?]]; tauto.
  - intros u v Hu Hl. destruct (Hpre u v Hu Hl) as [?|[?%elem_of_nil|?]]; tauto.
  - destruct (_ || _) eqn:E.
    + eapply IH; [done|]. intros u v Hu Hl.
      destruct (Hpre u v Hu Hl) as [?|[[->|?]%elem_of_cons|?]]; auto.
      apply orb_true_iff in E as [Hv%bool_decide_eq_true|Hs%bool_decide_eq_true]; auto.
    + eapply IH; [done|]. intros u v [Hu|Hu%list_elem_of_singleton]%elem_of_app Hl;
        [|subst u].
      * destruct (Hpre u v Hu Hl) as [?|[[->|?]%elem_of_cons|?]]; set_solver.
      * destruct Hl as (p & Hp & Hv). rewrite Hp.
        destruct (decide (v ∈ visited ++ [current])) as [?|Hn]; [by left|].
        right; left. apply elem_of_app. right.
        by apply list_elem_of_filter.
Qed.

(** Everything visited was already visited or is reached from the queue. *)
Lemma traverse_sound fuel m skip queue visited R :
  traverse fuel m skip queue visited = Some R →
  ∀ z, z ∈ R → z ∈ visited ∨ ∃ q, q ∈ queue ∧ rtc (linked m) q z.
Proof.
  revert queue visited.
  induction fuel as [|fuel IH]; intros queue visited H z Hz;
    destruct queue as [|current queue]; simpl in H; simplify_eq; auto.
  destruct (_ || _) eqn:E.
  - destruct (IH _ _ H z Hz) as [?|(q & Hq & Hr)]; [by left|].
    right. exists q. split; [by right|done].
  - destruct (IH _ _ H z Hz) as [[?|Hc%list_elem_of_singleton]%elem_of_app|(q & Hq & Hr)];
      [|subst z|].
    + by left.
    + right. exists current. split; [by left|done].
    + right. apply elem_of_app in Hq as [Hq|Hq].
      * exists q. split; [by right|done].
      * exists current. split; [by left|].
        destruct (m !! current) as [p|] eqn:Hp; [|by apply elem_of_nil in Hq].
        apply list_elem_of_filter in Hq as [_ Hq].
        eapply rtc_l; [|done]. by exists p.
Qed.

Lemma traverse_not_skipped fuel m skip queue visited R :
  traverse fuel m skip queue visited = Some R →
  ∀ z, z ∈ R → z ∈ visited ∨ z ∉ skip.
Proof.
  revert queue visited.
  induction fuel as [|fuel IH]; intros queue visited H z Hz;
    destruct queue as [|current queue]; simpl in H; simplify_eq; auto.
  destruct (_ || _) eqn:E; [by eapply IH|].
  apply orb_false_iff in E as [_ Hs%bool_decide_eq_false].
  destruct (IH _ _ H z Hz) as [[?|Hc%list_elem_of_singleton]%elem_of_app|?];
    [|subst z|]; auto.
Qed.

(** *** [getConnectedGroup] *)

Lemma getConnectedGroup_NoDup m i : NoDup (getConnectedGroup m i).
Proof.
  eapply traverse_NoDup; [apply traverseFrom_returns|apply NoDup_nil_2].
Qed.

Lemma getConnectedGroup_self m i : i ∈ getConnectedGroup m i.
Proof.
  destruct (traverse_queue _ _ _ _ _ _ (traverseFrom_returns m [] i) i) as [?|?];
    [by left|done|by apply elem_of_nil in H].
Qed.

Lemma getConnectedGroup_closed m i u v :
  u ∈ getConnectedGroup m i → linked m u v → v ∈ getConnectedGroup m i.
Proof.
  intros Hu Hl.
  destruct (traverse_closed _ _ _ _ _ _ (traverseFrom_returns m [] i)) with u v
    as [?|?%elem_of_nil]; try done.
  intros ? ? ?%elem_of_nil; done.
Qed.

(** The group of [i] is exactly what the links reach from [i]. *)
Lemma getConnectedGroup_spec m i z :
  z ∈ getConnectedGroup m i ↔ rtc (linked m) i z.
Proof.
  split.
  - intros Hz.
    destruct (traverse_sound _ _ _ _ _ _ (traverseFrom_returns m [] i) z Hz)
      as [?%elem_of_nil|(q & Hq%list_elem_of_singleton & Hr)]; [done|by subst q].
  - intros Hr. revert z Hr. apply rtc_ind_r.
    + apply getConnectedGroup_self.
    + intros y z _ Hl Hy. by eapply getConnectedGroup_closed.
Qed.

(** The first item of the group is the piece asked for (the "primary"
    piece of a drag). *)
Lemma getConnectedGroup_head m i : ∃ rest, getConnectedGroup m i = i :: rest.
Proof.
  pose proof (traverseFrom_returns m [] i) as H.
  unfold getConnectedGroup. destruct (traverseFuel m) as [|fuel]; [done|].
  simpl in H. apply traverse_visited_prefix in H as [rest ->]. by exists rest.
Qed.

End TraversalFacts.

(** ** Sets as lists, and the map updates of the handlers *)

Section UpdateFacts.
Import Engine.
Implicit Types (m prev : gmap string PlacedPiece.t) (l s : list string).

Lemma elem_of_Set_add s i j : j ∈ Set_add s i ↔ j ∈ s ∨ j = i.
Proof. unfold Set_add. case_bool_decide; set_solver. Qed.

Lemma Set_add_NoDup s i : NoDup s → NoDup (Set_add s i).
Proof.
  unfold Set_add. case_bool_decide; [done|]. intros Hs.
  apply NoDup_app. split_and!; [done| |apply NoDup_singleton].
  intros y Hy Hy'%list_elem_of_singleton. by subst.
Qed.

Lemma elem_of_foldl_Set_add l s j : j ∈ foldl Set_add s l ↔ j ∈ s ∨ j ∈ l.
Proof.
  revert s. induction l as [|i l IH]; intros s; simpl.
  - set_solver.
  - rewrite IH, elem_of_Set_add. set_solver.
Qed.

Lemma foldl_Set_add_NoDup l s : NoDup s → NoDup (foldl Set_add s l).
Proof.
  revert s. induction l as [|i l IH]; intros s Hs; simpl; [done|].
  by apply IH, Set_add_NoDup.
Qed.

Lemma elem_of_Set_from l j : j ∈ Set_from l ↔ j ∈ l.
Proof. unfold Set_from. rewrite elem_of_foldl_Set_add. set_solver. Qed.

Lemma Set_from_NoDup l : NoDup (Set_from l).
Proof. apply foldl_Set_add_NoDup, NoDup_nil_2. Qed.

Lemma elem_of_Set_without l i j : j ∈ Set_without l i ↔ j ∈ l ∧ j ≠ i.
Proof. unfold Set_without. rewrite list_elem_of_filter. tauto. Qed.

Lemma Set_without_NoDup l i : NoDup l → NoDup (Set_without l i).
Proof. apply NoDup_filter. Qed.

Lemma foldl_same {A B} (f g : A → B → A) (a : A) (bs : list B) :
  (∀ a b, f a b = g a b) → foldl f a bs = foldl g a bs.
Proof.
  intros Hfg. revert a. induction bs as [|b bs IH]; intros a; simpl; [done|].
  by rewrite Hfg, IH.
Qed.

(** A loop that sets, for each listed key, a value chosen by [h] (or
    leaves the key alone). *)
Lemma foldl_set_lookup (h : string → option PlacedPiece.t) l m k :
  foldl (λ newMap i, match h i with
                     | Some v => <[i := v]> newMap
                     | None => newMap
                     end) m l !! k
  = if bool_decide (k ∈ l)
    then match h k with Some v => Some v | None => m !! k end
    else m !! k.
Proof.
  revert m. induction l as [|i l IH]; intros m; simpl.
  - done.
  - rewrite IH. destruct (decide (k = i)) as [->|Hne].
    + rewrite (bool_decide_eq_true_2 (i ∈ i :: l)) by by left.
      destruct (h i) as [v|]; [|by case_bool_decide].
      rewrite lookup_insert_eq. by case_bool_decide.
    + assert (bool_decide (k ∈ i :: l) = bool_decide (k ∈ l)) as ->.
      { apply bool_decide_ext. set_solver. }
      destruct (h i) as [v|]; [|done].
      by rewrite lookup_insert_ne.
Qed.

(** A loop that rewrites, for each listed key, the value it finds under
    that key. *)
Lemma foldl_alter_lookup (f : string → PlacedPiece.t → PlacedPiece.t) l m k :
  NoDup l →
  foldl (λ newMap i, match newMap !! i with
                     | None => newMap
                     | Some old => <[i := f i old]> newMap
                     end) m l !! k
  = if bool_decide (k ∈ l) then f k <$> m !! k else m !! k.
Proof.
  revert m. induction l as [|i l IH]; intros m Hnd; simpl.
  - done.
  - apply NoDup_cons in Hnd as [Hi Hnd]. rewrite IH by done.
    destruct (decide (k = i)) as [->|Hne].
    + rewrite (bool_decide_eq_true_2 (i ∈ i :: l)) by by left.
      rewrite (bool_decide_eq_false_2 (i ∈ l)) by done.
      destruct (m !! i) as [old|] eqn:E; [by rewrite lookup_insert_eq|by rewrite E].
    + assert (bool_decide (k ∈ i :: l) = bool_decide (k ∈ l)) as ->.
      { apply bool_decide_ext. set_solver. }
      destruct (m !! i) as [old|]; [|done].
      by rewrite lookup_insert_ne.
Qed.

Lemma foldl_delete_lookup l m k :
  foldl (λ newMap i, delete i newMap) m l !! k
  = if bool_decide (k ∈ l) then None else m !! k.
Proof.
  revert m. induction l as [|i l IH]; intros m; simpl.
  - done.
  - rewrite IH. destruct (decide (k = i)) as [->|Hne].
    + rewrite (bool_decide_eq_true_2 (i ∈ i :: l)) by by left.
      rewrite lookup_delete_eq. by case_bool_decide.
    + assert (bool_decide (k ∈ i :: l) = bool_decide (k ∈ l)) as ->.
      { apply bool_decide_ext. set_solver. }
      by rewrite lookup_delete_ne.
Qed.

Lemma moveGroup_lookup prev connectedGroup deltaX deltaY k :
  DndTriangle.moveGroup prev connectedGroup deltaX deltaY !! k
  = if bool_decide (k ∈ connectedGroup)
    then movedBy deltaX deltaY <$> prev !! k
    else prev !! k.
Proof.
  unfold DndTriangle.moveGroup.
  rewrite (foldl_same _
             (λ newMap i, match movedBy deltaX deltaY <$> prev !! i with
                          | Some v => <[i := v]> newMap
                          | None => newMap
                          end)).
  - rewrite foldl_set_lookup. case_bool_decide; [|done]. by destruct (prev !! k).
  - intros newMap i. by destruct (prev !! i).
Qed.

End UpdateFacts.

Section SnapFacts.
Import Engine.
Implicit Types (m prev : gmap string PlacedPiece.t).

Lemma findPiece_Some_id pieces i p :
  findPiece pieces i = Some p → p ∈ pieces ∧ Piece.id p = i.
Proof.
  unfold findPiece. intros H. apply find_some in H as [Hin Hb].
  apply bool_decide_eq_true in Hb. by rewrite list_elem_of_In.
Qed.

Lemma findPiece_is_Some pieces i : is_Some (findPiece pieces i) ↔ i ∈ ids pieces.
Proof.
  split.
  - intros [p [Hin <-]%findPiece_Some_id]. unfold ids.
    by apply list_elem_of_fmap_2.
  - unfold ids. intros (p & -> & Hin)%list_elem_of_fmap.
    unfold findPiece. destruct (find _ pieces) as [q|] eqn:E; [done|].
    apply list_elem_of_In in Hin.
    pose proof (find_none _ _ E _ Hin) as Hn. simpl in Hn.
    by apply bool_decide_eq_false in Hn.
Qed.

(** With distinct ids, looking a piece up by its id finds that piece. *)
Lemma findPiece_NoDup pieces p :
  NoDup (ids pieces) → p ∈ pieces → findPiece pieces (Piece.id p) = Some p.
Proof.
  unfold ids, findPiece. induction pieces as [|q pieces IH]; simpl.
  - intros _ H. by apply elem_of_nil in H.
  - intros [Hq Hnd]%NoDup_cons [->|Hin]%elem_of_cons.
    + by rewrite bool_decide_eq_true_2.
    + rewrite bool_decide_eq_false_2; [by apply IH|].
      intros Heq. apply Hq. rewrite Heq. by apply list_elem_of_fmap_2.
Qed.

Lemma Qltb_lt a b : Qltb a b = true ↔ (a < b)%Q.
Proof.
  unfold Qltb. rewrite negb_true_iff.
  destruct (Qle_bool b a) eqn:E.
  - apply Qle_bool_iff in E. split; [done|]. intros H. exfalso. lra.
  - split; [|done]. intros _. apply Qnot_le_lt. intros H.
    apply Qle_bool_iff in H. congruence.
Qed.

Lemma Qltb_ge a b : Qltb a b = false ↔ (b <= a)%Q.
Proof.
  rewrite <- not_true_iff_false, Qltb_lt. split; [apply Qnot_lt_le|].
  intros H1 H2. lra.
Qed.

Lemma Sqrt_lt_num_spec d t :
  Sqrt_lt_num d t = true ↔ (0 < t ∧ radicand d < t * t)%Q.
Proof. unfold Sqrt_lt_num. by rewrite andb_true_iff, !Qltb_lt. Qed.

(** The encoding of [Math.sqrt] against the real square root: the two
    comparisons the code makes of a distance are the comparisons of the real
    numbers. *)
Lemma Qsquare_nonneg (a : Q) : (0 <= a * a)%Q.
Proof.
  destruct (Qlt_le_dec a 0) as [H|H].
  - assert (a * a == (- a) * (- a))%Q as -> by ring.
    apply Qmult_le_0_compat; lra.
  - by apply Qmult_le_0_compat.
Qed.

Lemma distance_radicand_nonneg p1 p2 : (0 <= radicand (distance p1 p2))%Q.
Proof.
  unfold distance. simpl.
  pose proof (Qsquare_nonneg (x p1 - x p2)). pose proof (Qsquare_nonneg (y p1 - y p2)).
  lra.
Qed.

Lemma Q2R_0 : Q2R 0 = 0%R.
Proof. unfold Q2R. simpl. Lra.lra. Qed.

Lemma Sqrt_lt_num_real d t :
  (0 <= radicand d)%Q →
  Sqrt_lt_num d t = true ↔ (sqrt (Q2R (radicand d)) < Q2R t)%R.
Proof.
  intros Hd. rewrite Sqrt_lt_num_spec.
  assert (0 <= Q2R (radicand d))%R as Hd'.
  { rewrite <- Q2R_0. by apply Qle_Rle. }
  split.
  - intros [Ht Hlt]. apply Qlt_Rlt in Ht, Hlt. rewrite Q2R_mult in Hlt.
    rewrite Q2R_0 in Ht.
    rewrite <- (sqrt_square (Q2R t)) by Lra.lra. apply sqrt_lt_1_alt. Lra.lra.
  - intros Hlt. pose proof (sqrt_pos (Q2R (radicand d))) as Hpos.
    assert (0 < Q2R t)%R as Ht by Lra.lra.
    split.
    + apply Rlt_Qlt. by rewrite Q2R_0.
    + apply Rlt_Qlt. rewrite Q2R_mult.
      rewrite <- (sqrt_sqrt (Q2R (radicand d))) at 1 by done.
      apply Rmult_le_0_lt_compat; Lra.lra.
Qed.

Lemma Sqrt_lt_real d1 d2 :
  (0 <= radicand d1)%Q → (0 <= radicand d2)%Q →
  Sqrt_lt d1 d2 = true ↔ (sqrt (Q2R (radicand d1)) < sqrt (Q2R (radicand d2)))%R.
Proof.
  intros H1 H2. unfold Sqrt_lt. rewrite Qltb_lt.
  assert (0 <= Q2R (radicand d1))%R as H1' by (rewrite <- Q2R_0; by apply Qle_Rle).
  assert (0 <= Q2R (radicand d2))%R as H2' by (rewrite <- Q2R_0; by apply Qle_Rle).
  split.
  - intros Hlt%Qlt_Rlt. apply sqrt_lt_1_alt. Lra.lra.
  - intros Hlt. apply Rlt_Qlt. by apply sqrt_lt_0_alt.
Qed.

(** *** Candidates of [checkAndSnapToNeighbors] *)

Lemma candidateFor_Some pieces m snapThreshold piece position nId c :
  candidateFor pieces m snapThreshold piece position nId = Some c ↔
  nId ≠ "" ∧
  ∃ neighborPlaced neighbor,
    m !! nId = Some neighborPlaced ∧ findPiece pieces nId = Some neighbor ∧
    Sqrt_lt_num (distance position (expectedPosition piece neighbor neighborPlaced))
                snapThreshold = true ∧
    c = {| neighborId := nId;
           snapPos := expectedPosition piece neighbor neighborPlaced;
           dist := distance position (expectedPosition piece neighbor neighborPlaced) |}.
Proof.
  unfold candidateFor. case_bool_decide as Hn.
  { split; [done|]. by intros [? _]. }
  destruct (m !! nId) as [np|]; [|split; [done|by intros (_ & ? & ? & ? & _)]].
  destruct (findPiece pieces nId) as [n|];
    [|split; [done|by intros (_ & ? & ? & _ & ? & _)]].
  destruct (Sqrt_lt_num _ _) eqn:E.
  - split.
    + intros [= <-]. split; [done|]. by exists np, n.
    + intros (_ & ? & ? & [= <-] & [= <-] & _ & ->). done.
  - split; [done|]. intros (_ & ? & ? & [= <-] & [= <-] & ? & _). congruence.
Qed.

Lemma elem_of_snapCandidates pieces m snapThreshold piece position c :
  c ∈ snapCandidates pieces m snapThreshold piece position ↔
  ∃ nId, nId ∈ neighborValues piece ∧
         candidateFor pieces m snapThreshold piece position nId = Some c.
Proof. unfold snapCandidates. by rewrite list_elem_of_omap. Qed.

Lemma insertByDist_perm c l : insertByDist c l ≡ₚ c :: l.
Proof.
  induction l as [|c' l IH]; simpl; [done|].
  destruct (Sqrt_lt _ _); [|done]. rewrite IH. apply Permutation_swap.
Qed.

Lemma sortByDist_perm l : sortByDist l ≡ₚ l.
Proof.
  unfold sortByDist. induction l as [|c l IH]; simpl; [done|].
  by rewrite insertByDist_perm, IH.
Qed.

Lemma insertByDist_head c l best rest :
  (∀ b r, l = b :: r → leastDist b l) →
  insertByDist c l = best :: rest → leastDist best (c :: l).
Proof.
  destruct l as [|c' l]; simpl.
  - intros _ [= <- <-] c0 ->%list_elem_of_singleton. lra.
  - intros Hl. specialize (Hl c' l eq_refl).
    destruct (Sqrt_lt (dist c') (dist c)) eqn:E.
    + intros [= <- <-] c0 [Hc0|Hc0]%elem_of_cons; [subst c0|by apply Hl].
      apply Qltb_lt in E. lra.
    + intros [= <- <-] c0 [Hc0|Hc0]%elem_of_cons; [subst c0; lra|].
      apply Qltb_ge in E. specialize (Hl _ Hc0). lra.
Qed.

Lemma sortByDist_head l best rest :
  sortByDist l = best :: rest → leastDist best l.
Proof.
  revert best rest. unfold sortByDist.
  induction l as [|c l IH]; intros best rest; simpl; [done|].
  intros H. eapply insertByDist_head in H.
  - intros c0 Hc0. apply H.
    apply elem_of_cons in Hc0 as [Hc0|Hc0]; [subst c0; by left|right].
    by rewrite (sortByDist_perm l).
  - intros b r Hbr c0 Hc0. eapply IH; [done|].
    by rewrite <- (sortByDist_perm l).
Qed.

Lemma elem_of_collectNeighbors m candidates k :
  k ∈ collectNeighbors m candidates ↔
  ∃ c, c ∈ candidates ∧ k ∈ getConnectedGroup m (neighborId c).
Proof.
  unfold collectNeighbors.
  assert (∀ acc, k ∈ foldl (λ allNeighbors candidate,
             foldl Set_add (Set_add allNeighbors (neighborId candidate))
                   (getConnectedGroup m (neighborId candidate))) acc candidates
           ↔ k ∈ acc ∨ ∃ c, c ∈ candidates ∧ k ∈ getConnectedGroup m (neighborId c))
    as Hgen.
  { induction candidates as [|c cs IH]; intros acc; simpl.
    - split; [by left|]. intros [?|(c & ?%elem_of_nil & _)]; done.
    - rewrite IH, elem_of_foldl_Set_add, elem_of_Set_add. split.
      + intros [[[?|Hk]|?]|(c' & ? & ?)]; eauto.
        * right. exists c. split; [by left|]. subst k. apply getConnectedGroup_self.
        * right. exists c. split; [by left|done].
        * right. exists c'. split; [by right|done].
      + intros [?|(c' & [Hc|?]%elem_of_cons & ?)]; eauto. subst c'. eauto. }
  rewrite Hgen. split; [|by right]. by intros [?%elem_of_nil|?].
Qed.

Lemma collectNeighbors_NoDup m candidates : NoDup (collectNeighbors m candidates).
Proof.
  unfold collectNeighbors.
  assert (∀ acc, NoDup acc → NoDup (foldl (λ allNeighbors candidate,
             foldl Set_add (Set_add allNeighbors (neighborId candidate))
                   (getConnectedGroup m (neighborId candidate))) acc candidates))
    as Hgen.
  { induction candidates as [|c cs IH]; intros acc Hacc; simpl; [done|].
    by apply IH, foldl_Set_add_NoDup, Set_add_NoDup. }
  apply Hgen, NoDup_nil_2.
Qed.

End SnapFacts.

(** ** Structure of the links in the dnd-kit page *)

Section LinkFacts.
Import Engine.
Implicit Types (m prev : gmap string PlacedPiece.t).

Lemma linksWellFormed_empty : linksWellFormed ∅.
Proof. intros i p H. by rewrite lookup_empty in H. Qed.

Lemma linked_placed m a b : linksWellFormed m → linked m a b → is_Some (m !! b).
Proof.
  intros Hwf (p & Hp & Hb). destruct (Hwf _ _ Hp) as [_ H].
  destruct (H _ Hb) as (q & -> & _). done.
Qed.

Lemma linked_sym m a b : linksWellFormed m → linked m a b → linked m b a.
Proof.
  intros Hwf (p & Hp & Hb). destruct (Hwf _ _ Hp) as [Ha H].
  destruct (H _ Hb) as (q & Hq & Hk). exists q. split; [done|].
  assert (a ∈ b :: PlacedPiece.connectedGroup q) as [->|?]%elem_of_cons; [|done..].
  apply Hk. by left.
Qed.

Lemma rtc_linked_placed m a b :
  linksWellFormed m → is_Some (m !! a) → rtc (linked m) a b → is_Some (m !! b).
Proof.
  intros Hwf Ha Hr. induction Hr as [|a c b Hl _ IH]; [done|].
  apply IH. by eapply linked_placed.
Qed.

Lemma rtc_linked_sym m a b :
  linksWellFormed m → rtc (linked m) a b → rtc (linked m) b a.
Proof.
  intros Hwf Hr. induction Hr as [|a c b Hl _ IH]; [done|].
  eapply rtc_r; [done|]. by apply linked_sym.
Qed.

(** In a well-formed map the group of a placed piece is the piece and its
    own list. *)
Lemma rtc_linked_clique m i p z :
  linksWellFormed m → m !! i = Some p →
  rtc (linked m) i z ↔ z = i ∨ z ∈ PlacedPiece.connectedGroup p.
Proof.
  intros Hwf Hp. split.
  - revert z. apply rtc_ind_r; [by left|].
    intros y z _ (q & Hq & Hz) [->|Hy].
    + right. congruence.
    + destruct (Hwf _ _ Hp) as [_ H]. destruct (H _ Hy) as (q' & Hq' & Hk).
      assert (q' = q) as -> by congruence.
      apply elem_of_cons. apply Hk. by right.
  - intros [->|Hz]; [done|]. apply rtc_once. by exists p.
Qed.

Lemma getConnectedGroup_clique m i p z :
  linksWellFormed m → m !! i = Some p →
  z ∈ getConnectedGroup m i ↔ z = i ∨ z ∈ PlacedPiece.connectedGroup p.
Proof. intros. rewrite getConnectedGroup_spec. by apply rtc_linked_clique. Qed.

Lemma getConnectedGroup_placed m i z :
  linksWellFormed m → is_Some (m !! i) → z ∈ getConnectedGroup m i → is_Some (m !! z).
Proof.
  intros Hwf Hi Hz%getConnectedGroup_spec. by eapply rtc_linked_placed.
Qed.

Lemma getConnectedGroup_unplaced m i : m !! i = None → getConnectedGroup m i = [i].
Proof.
  intros Hi. apply (inj Some). unfold getConnectedGroup.
  rewrite <- traverseFrom_returns.
  unfold traverseFuel. simpl. rewrite Hi. by destruct (sum_list _).
Qed.

(** Writing one common group to every member of a link-closed set keeps
    the links well formed. *)
Lemma linksWellFormed_merge m m' (all : list string) :
  linksWellFormed m →
  (∀ k, k ∈ all →
     ∃ q, m' !! k = Some q ∧ PlacedPiece.connectedGroup q = Set_without all k) →
  (∀ k, k ∉ all →
     PlacedPiece.connectedGroup <$> m' !! k = PlacedPiece.connectedGroup <$> m !! k) →
  (∀ j v, j ∈ all → linked m j v → v ∈ all) →
  linksWellFormed m'.
Proof.
  intros Hwf Hin Hout Hclosed i p Hp.
  destruct (decide (i ∈ all)) as [Hi|Hi].
  - destruct (Hin _ Hi) as (q & Hq & Hcg). assert (q = p) as -> by congruence.
    rewrite Hcg. split.
    + rewrite elem_of_Set_without. tauto.
    + intros j [Hj Hne]%elem_of_Set_without.
      destruct (Hin _ Hj) as (q' & Hq' & Hcg'). exists q'. split; [done|].
      intros k. rewrite Hcg', !elem_of_cons, !elem_of_Set_without.
      destruct (decide (k = i)), (decide (k = j)); subst; tauto.
  - pose proof (Hout _ Hi) as Hsame. rewrite Hp in Hsame. simpl in Hsame.
    destruct (m !! i) as [p0|] eqn:Hp0; [|done].
    injection Hsame as Hsame. destruct (Hwf _ _ Hp0) as [Hirr Hl].
    rewrite Hsame. split; [done|]. intros j Hj.
    destruct (Hl _ Hj) as (q & Hq & Hk).
    assert (j ∉ all) as Hjn.
    { intros Hj'. apply Hi. apply (Hclosed j i Hj').
      apply linked_sym; [done|]. by exists p0. }
    pose proof (Hout _ Hjn) as Hsame'. rewrite Hq in Hsame'.
    destruct (m' !! j) as [q'|]; [|done]. injection Hsame' as Hsame'.
    exists q'. split; [done|]. by rewrite Hsame'.
Qed.

(** Removing a whole group keeps the links well formed. *)
Lemma linksWellFormed_remove m m' (gone : list string) :
  linksWellFormed m →
  (∀ k, k ∈ gone → m' !! k = None) →
  (∀ k, k ∉ gone → m' !! k = m !! k) →
  (∀ j v, j ∈ gone → linked m j v → v ∈ gone) →
  linksWellFormed m'.
Proof.
  intros Hwf Hgone Hkeep Hclosed i p Hp.
  destruct (decide (i ∈ gone)) as [Hi|Hi]; [by rewrite Hgone in Hp|].
  rewrite Hkeep in Hp by done. destruct (Hwf _ _ Hp) as [Hirr Hl].
  split; [done|]. intros j Hj. destruct (Hl _ Hj) as (q & Hq & Hk).
  exists q. split; [|done]. rewrite Hkeep; [done|].
  intros Hj'. apply Hi. apply (Hclosed j i Hj').
  apply linked_sym; [done|]. by exists p.
Qed.

(** Adding a piece with no links keeps the links well formed. *)
Lemma linksWellFormed_insert_loose m i v :
  linksWellFormed m → m !! i = None → PlacedPiece.connectedGroup v = [] →
  linksWellFormed (<[i := v]> m).
Proof.
  intros Hwf Hi Hv k p Hp. destruct (decide (k = i)) as [->|Hne].
  - rewrite lookup_insert_eq in Hp. injection Hp as <-. rewrite Hv.
    split; [apply not_elem_of_nil|]. by intros j ?%elem_of_nil.
  - rewrite lookup_insert_ne in Hp by done. destruct (Hwf _ _ Hp) as [Hirr Hl].
    split; [done|]. intros j Hj. destruct (Hl _ Hj) as (q & Hq & Hk).
    exists q. split; [|done]. rewrite lookup_insert_ne; [done|]. congruence.
Qed.

End LinkFacts.

Section HandlerFacts.
Import Engine.
Implicit Types (m prev : gmap string PlacedPiece.t).

Lemma placeFromPool_snap_lookup prev pieceId position snap k :
  shouldSnap snap = true → neighbors snap ≠ [] →
  placeFromPool prev pieceId position snap !! k =
    let allConnected := Set_from (pieceId :: neighbors snap) in
    if bool_decide (k = pieceId)
    then Some {| PlacedPiece.id := pieceId;
                 PlacedPiece.position := snapPosition snap;
                 PlacedPiece.isLocked := true;
                 PlacedPiece.connectedGroup := Set_without allConnected pieceId |}
    else if bool_decide (k ∈ neighbors snap)
    then lockedInto allConnected k <$> prev !! k
    else prev !! k.
Proof.
  intros Hsnap Hne. unfold placeFromPool. rewrite Hsnap. simpl.
  rewrite bool_decide_eq_true_2 by (destruct (neighbors snap); simpl; [done|lia]).
  set (allConnected := Set_from (pieceId :: neighbors snap)).
  rewrite (foldl_same _
    (λ newMap i,
       match (if bool_decide (i = pieceId)
              then Some {| PlacedPiece.id := i;
                           PlacedPiece.position := snapPosition snap;
                           PlacedPiece.isLocked := true;
                           PlacedPiece.connectedGroup := Set_without allConnected i |}
              else lockedInto allConnected i <$> prev !! i) with
       | Some v => <[i := v]> newMap
       | None => newMap
       end)).
  2:{ intros newMap i. case_bool_decide; [done|]. by destruct (prev !! i). }
  rewrite foldl_set_lookup. subst allConnected. cbv zeta.
  destruct (decide (k = pieceId)) as [->|Hk].
  - rewrite !bool_decide_eq_true_2; [done..|]. apply elem_of_Set_from. by left.
  - rewrite (bool_decide_eq_false_2 (k = pieceId)) by done.
    assert (bool_decide (k ∈ Set_from (pieceId :: neighbors snap))
            = bool_decide (k ∈ neighbors snap)) as ->.
    { apply bool_decide_ext. rewrite elem_of_Set_from. set_solver. }
    case_bool_decide; [|done]. by destruct (prev !! k).
Qed.

Lemma placeFromPool_loose prev pieceId position snap :
  shouldSnap snap && bool_decide (0 < length (neighbors snap)) = false →
  placeFromPool prev pieceId position snap =
    <[pieceId := {| PlacedPiece.id := pieceId;
                    PlacedPiece.position :=
                      if shouldSnap snap then snapPosition snap else position;
                    PlacedPiece.isLocked := false;
                    PlacedPiece.connectedGroup := [] |}]> prev.
Proof. intros H. unfold placeFromPool. by rewrite H. Qed.

Lemma mergeGroups_lookup m connectedGroup snapOffset allConnected k :
  NoDup allConnected →
  DndTriangle.mergeGroups m connectedGroup snapOffset allConnected !! k
  = if bool_decide (k ∈ allConnected)
    then mergedRecord connectedGroup snapOffset allConnected k <$> m !! k
    else m !! k.
Proof.
  intros Hnd. unfold DndTriangle.mergeGroups.
  by rewrite (foldl_alter_lookup (mergedRecord connectedGroup snapOffset allConnected)).
Qed.

Lemma returnToPool_lookup m poolItems pieceId k :
  (returnToPool m poolItems pieceId).1 !! k
  = if bool_decide (k ∈ getConnectedGroup m pieceId) then None else m !! k.
Proof. unfold returnToPool. simpl. apply foldl_delete_lookup. Qed.

(** *** The snap scan of a group drop *)

End HandlerFacts.

Section ScanFacts.
Import Engine.
Context (pieces : list Piece.t) (newMap : gmap string PlacedPiece.t)
        (snapThreshold : Q) (connectedGroup : list string).

#[local] Arguments distance : simpl never.
Local Abbreviation hitAt := (hitAt pieces newMap snapThreshold connectedGroup).
Local Abbreviation scanNeighbor :=
  (DndTriangle.scanNeighbor pieces newMap snapThreshold connectedGroup).

Lemma scanSummary_iff (H H' : string → string → Point → Point → Prop) acc :
  (∀ g n pos e, H g n pos e ↔ H' g n pos e) →
  scanSummary H acc → scanSummary H' acc.
Proof.
  intros Hiff (Hnd & Hids & Hbest). split_and!; [done| |].
  - intros n. rewrite Hids. split; intros (g & pos & e & ?); exists g, pos, e; by apply Hiff.
  - destruct acc.1 as [bs|].
    + destruct Hbest as (Hb & Hd & Hmin). split_and!; [by apply Hiff|done|].
      intros g n pos e Hh. apply Hiff in Hh. by apply (Hmin g n).
    + intros g n pos e Hh. apply Hiff in Hh. by apply (Hbest g n pos e).
Qed.

Lemma hitAt_functional g n pos e pos' e' :
  hitAt g n pos e → hitAt g n pos' e' → pos = pos' ∧ e = e'.
Proof.
  intros (_ & _ & gp & gpl & npc & npl & ? & ? & ? & ? & -> & -> & _)
         (_ & _ & gp' & gpl' & npc' & npl' & ? & ? & ? & ? & -> & -> & _).
  by simplify_eq.
Qed.

(** One neighbour id of one group piece. *)
Lemma scanNeighbor_summary H g groupPiece groupPlaced acc nId :
  findPiece pieces g = Some groupPiece → newMap !! g = Some groupPlaced →
  scanSummary H acc →
  scanSummary (λ g' n' pos e, H g' n' pos e ∨ (g' = g ∧ n' = nId ∧ hitAt g nId pos e))
              (scanNeighbor g groupPiece groupPlaced acc nId).
Proof.
  intros Hgp Hgpl Hacc.
  assert ((∀ pos e, ¬ hitAt g nId pos e) →
          scanSummary (λ g' n' pos e, H g' n' pos e ∨ (g' = g ∧ n' = nId ∧ hitAt g nId pos e)) acc)
    as Hmiss.
  { intros Hno. eapply scanSummary_iff; [|exact Hacc].
    intros g' n' pos e. split; [by left|]. intros [?|(_ & _ & ?)]; [done|].
    by destruct (Hno pos e). }
  unfold DndTriangle.scanNeighbor.
  destruct (bool_decide (nId = "") || bool_decide (nId ∈ connectedGroup)) eqn:Eskip.
  { apply Hmiss. intros pos e (Hout & Hnamed & _).
    apply orb_true_iff in Eskip as [?%bool_decide_eq_true|?%bool_decide_eq_true]; done. }
  apply orb_false_iff in Eskip as [Hnamed%bool_decide_eq_false Hout%bool_decide_eq_false].
  destruct (newMap !! nId) as [npl|] eqn:Hnpl.
  2:{ apply Hmiss. intros pos e (_ & _ & ? & ? & ? & ? & _ & _ & ? & _). congruence. }
  destruct (findPiece pieces nId) as [npc|] eqn:Hnpc.
  2:{ apply Hmiss. intros pos e (_ & _ & ? & ? & ? & ? & _ & _ & _ & ? & _). congruence. }
  set (e0 := expectedPosition groupPiece npc npl).
  set (pos0 := PlacedPiece.position groupPlaced).
  destruct (Sqrt_lt_num (distance pos0 e0) snapThreshold) eqn:Enear.
  2:{ apply Hmiss. intros pos e (_ & _ & gp & gpl & npc' & npl' & ? & ? & ? & ? & -> & -> & Hnear).
      simplify_eq. subst pos0 e0. congruence. }
  assert (hitAt g nId pos0 e0) as Hhit.
  { split_and!; [done..|]. by exists groupPiece, groupPlaced, npc, npl. }
  destruct Hacc as (Hnd & Hids & Hbest). split_and!; cbn -[distance].
  - by apply Set_add_NoDup.
  - intros n. rewrite elem_of_Set_add, Hids. split.
    + intros [(g' & pos & e & ?)| ->]; [by exists g', pos, e; left|].
      exists g, pos0, e0. by right.
    + intros (g' & pos & e & [?|(-> & -> & ?)]); [left; by exists g', pos, e|by right].
  - destruct acc.1 as [bs|] eqn:Ebs.
    + destruct Hbest as (Hb & Hd & Hmin).
      destruct (Sqrt_lt (distance pos0 e0) (DndTriangle.dist bs)) eqn:Elt;
        cbn -[distance].
      * apply Qltb_lt in Elt. split_and!; [by right|done|].
        intros g' n' pos e [Hh|(-> & -> & Hh)].
        -- specialize (Hmin _ _ _ _ Hh). lra.
        -- destruct (hitAt_functional _ _ _ _ _ _ Hh Hhit) as [-> ->]. lra.
      * apply Qltb_ge in Elt. split_and!; [by left|done|].
        intros g' n' pos e [Hh|(-> & -> & Hh)]; [by apply (Hmin g' n')|].
        by destruct (hitAt_functional _ _ _ _ _ _ Hh Hhit) as [-> ->].
    + cbn -[distance]. split_and!; [by right|done|].
      intros g' n' pos e [Hh|(-> & -> & Hh)]; [by destruct (Hbest _ _ _ _ Hh)|].
      destruct (hitAt_functional _ _ _ _ _ _ Hh Hhit) as [-> ->]. lra.
Qed.

(** All neighbour ids of one group piece. *)
Lemma scanNeighbors_summary H g groupPiece groupPlaced ns acc :
  findPiece pieces g = Some groupPiece → newMap !! g = Some groupPlaced →
  scanSummary H acc →
  scanSummary (λ g' n' pos e, H g' n' pos e ∨ (g' = g ∧ n' ∈ ns ∧ hitAt g n' pos e))
              (foldl (scanNeighbor g groupPiece groupPlaced) acc ns).
Proof.
  intros Hgp Hgpl. revert H acc. induction ns as [|nId ns IH]; intros H acc Hacc; simpl.
  - eapply scanSummary_iff; [|exact Hacc]. intros g' n' pos e.
    split; [by left|]. by intros [?|(_ & ?%elem_of_nil & _)].
  - eapply scanSummary_iff; [|apply IH, scanNeighbor_summary, Hacc; done].
    intros g' n' pos e. simpl. rewrite elem_of_cons. split.
    + intros [[?|(-> & -> & ?)]|(-> & ? & ?)]; auto.
    + intros [?|(-> & [->|?] & ?)]; auto.
Qed.

(** The whole scan. *)
Lemma scanGroup_summary_gen gs H acc :
  scanSummary H acc →
  scanSummary
    (λ g n pos e, H g n pos e ∨
       (g ∈ gs ∧ (∃ groupPiece, findPiece pieces g = Some groupPiece
                                ∧ n ∈ neighborValues groupPiece)
        ∧ hitAt g n pos e))
    (foldl (λ acc groupId,
              match findPiece pieces groupId, newMap !! groupId with
              | Some groupPiece, Some groupPlaced =>
                  foldl (scanNeighbor groupId groupPiece groupPlaced)
                        acc (neighborValues groupPiece)
              | _, _ => acc
              end) acc gs).
Proof.
  revert H acc. induction gs as [|g gs IH]; intros H acc Hacc; simpl.
  - eapply scanSummary_iff; [|exact Hacc]. intros g' n' pos e.
    split; [by left|]. by intros [?|(?%elem_of_nil & _)].
  - destruct (findPiece pieces g) as [gp|] eqn:Hgp.
    2:{ eapply scanSummary_iff; [|apply IH, Hacc].
        intros g' n' pos e. simpl. rewrite elem_of_cons. split; [tauto|].
        intros [?|([->|?] & Hn & Hh)]; auto.
        destruct Hn as (? & ? & _). congruence. }
    destruct (newMap !! g) as [gpl|] eqn:Hgpl.
    2:{ eapply scanSummary_iff; [|apply IH, Hacc].
        intros g' n' pos e. simpl. rewrite elem_of_cons. split; [tauto|].
        intros [?|([->|?] & Hn & Hh)]; auto.
        destruct Hh as (_ & _ & ? & ? & ? & ? & _ & ? & _). congruence. }
    eapply scanSummary_iff; [|apply IH, scanNeighbors_summary, Hacc; done].
    intros g' n' pos e. simpl. rewrite elem_of_cons. split.
    + intros [[?|(-> & ? & ?)]|(? & ? & ?)]; eauto 10.
    + intros [?|([->|?] & Hn & Hh)]; auto.
      left; right. destruct Hn as (gp' & ? & ?). by simplify_eq.
Qed.

Lemma scanGroup_summary :
  scanSummary (groupHit pieces newMap snapThreshold connectedGroup)
    (DndTriangle.scanGroup pieces newMap snapThreshold connectedGroup).
Proof.
  unfold DndTriangle.scanGroup.
  eapply scanSummary_iff; [|apply (scanGroup_summary_gen connectedGroup (λ _ _ _ _, False))].
  - intros g n pos e. unfold groupHit. tauto.
  - split_and!; simpl; [apply NoDup_nil_2| |tauto].
    intros n. split; [by intros ?%elem_of_nil|]. by intros (? & ? & ? & ?).
Qed.

End ScanFacts.

Section GroupDropFacts.
Import Engine.
Implicit Types (m prev : gmap string PlacedPiece.t).

Lemma traverseFrom_sound m skip start z :
  z ∈ traverseFrom m skip start → rtc (linked m) start z.
Proof.
  intros Hz.
  destruct (traverse_sound _ _ _ _ _ _ (traverseFrom_returns m skip start) z Hz)
    as [?%elem_of_nil|(q & Hq%list_elem_of_singleton & Hr)]; [done|by subst q].
Qed.

Lemma traverseFrom_closed m skip start u v :
  u ∈ traverseFrom m skip start → linked m u v →
  v ∈ traverseFrom m skip start ∨ v ∈ skip.
Proof.
  intros Hu Hl.
  eapply (traverse_closed _ _ _ _ _ _ (traverseFrom_returns m skip start)); [|done..].
  by intros ? ? ?%elem_of_nil.
Qed.

Lemma traverseFrom_start m skip start :
  start ∉ skip → start ∈ traverseFrom m skip start.
Proof.
  intros Hs.
  destruct (traverse_queue _ _ _ _ _ _ (traverseFrom_returns m skip start) start);
    [by left|done..].
Qed.

Lemma traverseFrom_NoDup m skip start : NoDup (traverseFrom m skip start).
Proof.
  eapply traverse_NoDup; [apply traverseFrom_returns|apply NoDup_nil_2].
Qed.

Lemma traverseFrom_not_skipped m skip start z :
  z ∈ traverseFrom m skip start → z ∉ skip.
Proof.
  intros Hz.
  by destruct (traverse_not_skipped _ _ _ _ _ _ (traverseFrom_returns m skip start) z Hz)
    as [?%elem_of_nil|?].
Qed.

Lemma elem_of_expandNeighbors newMap connectedGroup allNeighborIds k :
  k ∈ DndTriangle.expandNeighbors newMap connectedGroup allNeighborIds ↔
  ∃ n, n ∈ allNeighborIds ∧ k ∈ traverseFrom newMap connectedGroup n.
Proof.
  unfold DndTriangle.expandNeighbors.
  assert (∀ acc, k ∈ foldl (λ expandedNeighbors nId,
                    foldl Set_add expandedNeighbors
                          (traverseFrom newMap connectedGroup nId)) acc allNeighborIds
                 ↔ k ∈ acc ∨ ∃ n, n ∈ allNeighborIds
                                  ∧ k ∈ traverseFrom newMap connectedGroup n) as Hgen.
  { induction allNeighborIds as [|n ns IH]; intros acc; simpl.
    - split; [by left|]. by intros [?|(? & ?%elem_of_nil & _)].
    - rewrite IH, elem_of_foldl_Set_add. split.
      + intros [[?|?]|(n' & ? & ?)]; eauto.
        * right. exists n. split; [by left|done].
        * right. exists n'. split; [by right|done].
      + intros [?|(n' & [Hn|?]%elem_of_cons & ?)]; eauto. subst n'. eauto. }
  rewrite Hgen. split; [|by right]. by intros [?%elem_of_nil|?].
Qed.

(** A move changes neither who is placed nor any link. *)
Lemma moveGroup_links prev connectedGroup deltaX deltaY k :
  PlacedPiece.connectedGroup
    <$> DndTriangle.moveGroup prev connectedGroup deltaX deltaY !! k
  = PlacedPiece.connectedGroup <$> prev !! k.
Proof.
  rewrite moveGroup_lookup. case_bool_decide; [|done]. by destruct (prev !! k).
Qed.

Lemma same_links_linked m m' a b :
  (∀ k, PlacedPiece.connectedGroup <$> m' !! k = PlacedPiece.connectedGroup <$> m !! k) →
  linked m a b → linked m' a b.
Proof.
  intros Hsame (p & Hp & Hb). specialize (Hsame a). rewrite Hp in Hsame.
  destruct (m' !! a) as [p'|] eqn:Hp'; [|done]. injection Hsame as Hsame.
  exists p'. split; [done|]. by rewrite Hsame.
Qed.

Lemma same_links_is_Some m m' k :
  (∀ k, PlacedPiece.connectedGroup <$> m' !! k = PlacedPiece.connectedGroup <$> m !! k) →
  is_Some (m' !! k) ↔ is_Some (m !! k).
Proof.
  intros Hsame. specialize (Hsame k).
  destruct (m' !! k), (m !! k); simpl in *; try done; split; intros [? ?]; done.
Qed.

Lemma linksWellFormed_same_links m m' :
  (∀ k, PlacedPiece.connectedGroup <$> m' !! k = PlacedPiece.connectedGroup <$> m !! k) →
  linksWellFormed m → linksWellFormed m'.
Proof.
  intros Hsame Hwf. apply (linksWellFormed_merge m m' []); [done| |done|].
  - by intros k ?%elem_of_nil.
  - by intros j v ?%elem_of_nil.
Qed.

Lemma same_links_rtc m m' a b :
  (∀ k, PlacedPiece.connectedGroup <$> m' !! k = PlacedPiece.connectedGroup <$> m !! k) →
  rtc (linked m) a b → rtc (linked m') a b.
Proof.
  intros Hsame Hr. induction Hr as [|a c b Hl _ IH]; [done|].
  eapply rtc_l; [|done]. by eapply same_links_linked.
Qed.

(** The two outcomes of a group drop. *)
Lemma dropPlaced_cases pieces snapThreshold prev pieceId deltaX deltaY :
  let connectedGroup := getConnectedGroup prev pieceId in
  let newMap := DndTriangle.moveGroup prev connectedGroup deltaX deltaY in
  let result := DndTriangle.dropPlaced pieces snapThreshold prev pieceId deltaX deltaY in
  (result = newMap ∧
   ∀ g n pos e, ¬ groupHit pieces newMap snapThreshold connectedGroup g n pos e)
  ∨ (∃ bs allNeighborIds,
       DndTriangle.scanGroup pieces newMap snapThreshold connectedGroup
         = (Some bs, allNeighborIds) ∧
       result = DndTriangle.mergeGroups newMap connectedGroup
                  {| x := x (DndTriangle.snapPos bs) - x (DndTriangle.groupPiecePos bs);
                     y := y (DndTriangle.snapPos bs) - y (DndTriangle.groupPiecePos bs) |}%Q
                  (Set_from (connectedGroup
                             ++ DndTriangle.expandNeighbors newMap connectedGroup
                                  allNeighborIds))).
Proof.
  intros connectedGroup newMap result. subst result. unfold DndTriangle.dropPlaced.
  fold connectedGroup. fold newMap.
  pose proof (scanGroup_summary pieces newMap snapThreshold connectedGroup) as Hsum.
  destruct (DndTriangle.scanGroup pieces newMap snapThreshold connectedGroup)
    as [[bs|] allNeighborIds] eqn:Escan.
  - destruct Hsum as (_ & Hids & Hb & _). simpl in *.
    assert (DndTriangle.neighborId bs ∈ allNeighborIds) as Hin.
    { apply Hids. eauto. }
    rewrite bool_decide_eq_true_2.
    + right. by exists bs, allNeighborIds.
    + destruct allNeighborIds; [by apply elem_of_nil in Hin|simpl; lia].
  - left. destruct Hsum as (_ & _ & Hnone). done.
Qed.

Lemma groupHit_placed pieces newMap snapThreshold connectedGroup g n pos e :
  groupHit pieces newMap snapThreshold connectedGroup g n pos e →
  g ∈ connectedGroup ∧ is_Some (newMap !! g) ∧ is_Some (newMap !! n)
  ∧ n ∉ connectedGroup.
Proof.
  intros (Hg & _ & Hout & _ & ? & ? & ? & ? & _ & -> & -> & _). done.
Qed.

(** A group drop never changes who is placed. *)
Lemma dropPlaced_is_Some pieces snapThreshold prev pieceId deltaX deltaY k :
  is_Some (DndTriangle.dropPlaced pieces snapThreshold prev pieceId deltaX deltaY !! k)
  ↔ is_Some (prev !! k).
Proof.
  assert (∀ G, is_Some (DndTriangle.moveGroup prev G deltaX deltaY !! k)
               ↔ is_Some (prev !! k)) as Hmove.
  { intros G. apply same_links_is_Some. intros. apply moveGroup_links. }
  destruct (dropPlaced_cases pieces snapThreshold prev pieceId deltaX deltaY)
    as [[-> _]|(bs & ns & _ & ->)]; [apply Hmove|].
  rewrite mergeGroups_lookup by apply Set_from_NoDup.
  case_bool_decide; [|apply Hmove]. rewrite <- Hmove.
  by rewrite fmap_is_Some.
Qed.

(** A group drop keeps the links well formed. *)
Lemma dropPlaced_linksWellFormed pieces snapThreshold prev pieceId deltaX deltaY :
  linksWellFormed prev →
  linksWellFormed
    (DndTriangle.dropPlaced pieces snapThreshold prev pieceId deltaX deltaY).
Proof.
  intros Hwf.
  set (G := getConnectedGroup prev pieceId).
  set (newMap := DndTriangle.moveGroup prev G deltaX deltaY).
  assert (∀ k, PlacedPiece.connectedGroup <$> newMap !! k
               = PlacedPiece.connectedGroup <$> prev !! k) as Hsame.
  { intros. apply moveGroup_links. }
  assert (linksWellFormed newMap) as Hwf' by by eapply linksWellFormed_same_links.
  destruct (dropPlaced_cases pieces snapThreshold prev pieceId deltaX deltaY)
    as [[-> _]|(bs & ns & Escan & ->)]; [done|].
  fold G. fold newMap. fold G in Escan. fold newMap in Escan.
  pose proof (scanGroup_summary pieces newMap snapThreshold G) as Hsum.
  rewrite Escan in Hsum. destruct Hsum as (_ & Hids & Hb & _). simpl in *.
  set (all := Set_from (G ++ DndTriangle.expandNeighbors newMap G ns)).
  assert (∀ k, k ∈ all ↔ k ∈ G ∨ ∃ n, n ∈ ns ∧ k ∈ traverseFrom newMap G n) as Hall.
  { intros k. unfold all. by rewrite elem_of_Set_from, elem_of_app, elem_of_expandNeighbors. }
  assert (is_Some (prev !! pieceId)) as Hpiece.
  { apply groupHit_placed in Hb as (Hg & Hgp & _).
    destruct (prev !! pieceId) eqn:E; [done|].
    unfold G in Hg. rewrite getConnectedGroup_unplaced in Hg by done.
    apply list_elem_of_singleton in Hg. rewrite Hg in Hgp.
    apply (same_links_is_Some prev newMap pieceId Hsame) in Hgp.
    rewrite E in Hgp. by destruct Hgp. }
  assert (∀ k, k ∈ all → is_Some (newMap !! k)) as Hplaced.
  { intros k [Hk|(n & Hn & Hk)]%Hall.
    - apply (same_links_is_Some prev newMap k Hsame).
      by eapply getConnectedGroup_placed.
    - apply Hids in Hn as (g & pos & e & Hh).
      apply groupHit_placed in Hh as (_ & _ & Hnp & _).
      eapply rtc_linked_placed; [done..|]. by eapply traverseFrom_sound. }
  apply (linksWellFormed_merge newMap _ all); [done| | |].
  - intros k Hk. rewrite mergeGroups_lookup by apply Set_from_NoDup.
    rewrite bool_decide_eq_true_2 by done.
    destruct (Hplaced _ Hk) as [old ->]. simpl. by eexists.
  - intros k Hk. rewrite mergeGroups_lookup by apply Set_from_NoDup.
    by rewrite bool_decide_eq_false_2.
  - intros j v [Hj|(n & Hn & Hj)]%Hall Hl; apply Hall.
    + left. eapply getConnectedGroup_closed; [done|].
      eapply same_links_linked; [|done]. intros. symmetry. apply Hsame.
    + destruct (traverseFrom_closed _ _ _ _ _ Hj Hl); eauto.
Qed.

End GroupDropFacts.

Section PoolDropFacts.
Import Engine.
Implicit Types (m prev : gmap string PlacedPiece.t).

(** The two outcomes of [checkAndSnapToNeighbors]. *)
Lemma checkAndSnapToNeighbors_cases pieces m snapThreshold pieceId position :
  let snap := checkAndSnapToNeighbors pieces m snapThreshold pieceId position in
  (shouldSnap snap = false ∧ snapPosition snap = position ∧ neighbors snap = [])
  ∨ (∃ piece best rest,
       findPiece pieces pieceId = Some piece ∧
       sortByDist (snapCandidates pieces m snapThreshold piece position) = best :: rest ∧
       shouldSnap snap = true ∧ snapPosition snap = snapPos best ∧
       neighbors snap = collectNeighbors m (best :: rest)).
Proof.
  unfold checkAndSnapToNeighbors.
  destruct (findPiece pieces pieceId) as [piece|]; [|by left].
  destruct (sortByDist _) as [|best rest] eqn:E; [by left|].
  right. by exists piece, best, rest.
Qed.

Lemma snap_neighbors pieces m snapThreshold pieceId position k :
  k ∈ neighbors (checkAndSnapToNeighbors pieces m snapThreshold pieceId position) ↔
  ∃ piece c, findPiece pieces pieceId = Some piece ∧
             c ∈ snapCandidates pieces m snapThreshold piece position ∧
             k ∈ getConnectedGroup m (neighborId c).
Proof.
  unfold checkAndSnapToNeighbors.
  destruct (findPiece pieces pieceId) as [piece|] eqn:Hp.
  2:{ simpl. split; [by intros ?%elem_of_nil|]. by intros (? & ? & ? & _). }
  destruct (sortByDist (snapCandidates pieces m snapThreshold piece position))
    as [|best rest] eqn:Hs; simpl.
  - split; [by intros ?%elem_of_nil|].
    intros (piece' & c & [= <-] & Hc & _).
    rewrite <- (sortByDist_perm (snapCandidates _ _ _ _ _)), Hs in Hc.
    by apply elem_of_nil in Hc.
  - rewrite elem_of_collectNeighbors, <- Hs. split.
    + intros (c & Hc & Hk). exists piece, c. split_and!; [done| |done].
      by rewrite <- (sortByDist_perm (snapCandidates _ _ _ _ _)).
    + intros (piece' & c & [= <-] & Hc & Hk).
      exists c. split; [|done]. by rewrite (sortByDist_perm (snapCandidates _ _ _ _ _)).
Qed.

Lemma snap_neighbors_nonempty pieces m snapThreshold pieceId position :
  shouldSnap (checkAndSnapToNeighbors pieces m snapThreshold pieceId position) = true →
  neighbors (checkAndSnapToNeighbors pieces m snapThreshold pieceId position) ≠ [].
Proof.
  destruct (checkAndSnapToNeighbors_cases pieces m snapThreshold pieceId position)
    as [(-> & _)|(piece & best & rest & Hp & Hs & _ & _ & ->)]; [done|].
  intros _ Hnil.
  assert (neighborId best ∈ collectNeighbors m (best :: rest)) as Hin.
  { apply elem_of_collectNeighbors. exists best. split; [by left|].
    apply getConnectedGroup_self. }
  rewrite Hnil in Hin. by apply elem_of_nil in Hin.
Qed.

Lemma snapCandidate_placed pieces m snapThreshold piece position c :
  c ∈ snapCandidates pieces m snapThreshold piece position →
  is_Some (m !! neighborId c).
Proof.
  intros (nId & _ & Hc)%elem_of_snapCandidates.
  apply candidateFor_Some in Hc as (_ & np & n & Hnp & _ & _ & ->). simpl. by rewrite Hnp.
Qed.

Lemma snap_neighbors_placed pieces m snapThreshold pieceId position k :
  linksWellFormed m →
  k ∈ neighbors (checkAndSnapToNeighbors pieces m snapThreshold pieceId position) →
  is_Some (m !! k).
Proof.
  intros Hwf (piece & c & _ & Hc & Hk)%snap_neighbors.
  eapply getConnectedGroup_placed; [done| |done].
  by eapply snapCandidate_placed.
Qed.

Lemma snap_neighbors_closed pieces m snapThreshold pieceId position j v :
  j ∈ neighbors (checkAndSnapToNeighbors pieces m snapThreshold pieceId position) →
  linked m j v →
  v ∈ neighbors (checkAndSnapToNeighbors pieces m snapThreshold pieceId position).
Proof.
  rewrite !snap_neighbors. intros (piece & c & Hp & Hc & Hj) Hl.
  exists piece, c. split_and!; [done..|]. by eapply getConnectedGroup_closed.
Qed.

(** A drop from the pool places the dropped piece and nobody else. *)
Lemma placeFromPool_is_Some pieces snapThreshold prev pieceId position k :
  is_Some (placeFromPool prev pieceId position
             (checkAndSnapToNeighbors pieces prev snapThreshold pieceId position) !! k)
  ↔ k = pieceId ∨ is_Some (prev !! k).
Proof.
  set (snap := checkAndSnapToNeighbors pieces prev snapThreshold pieceId position).
  destruct (shouldSnap snap) eqn:Hsnap.
  - rewrite placeFromPool_snap_lookup by (by try apply snap_neighbors_nonempty).
    simpl. case_bool_decide; [naive_solver|].
    case_bool_decide; rewrite ?fmap_is_Some; naive_solver.
  - rewrite placeFromPool_loose by (by rewrite Hsnap).
    rewrite lookup_insert. case_decide; naive_solver.
Qed.

Lemma placeFromPool_linksWellFormed pieces snapThreshold prev pieceId position :
  linksWellFormed prev → prev !! pieceId = None →
  linksWellFormed
    (placeFromPool prev pieceId position
       (checkAndSnapToNeighbors pieces prev snapThreshold pieceId position)).
Proof.
  intros Hwf Hfree.
  set (snap := checkAndSnapToNeighbors pieces prev snapThreshold pieceId position).
  destruct (shouldSnap snap) eqn:Hsnap.
  - pose proof (snap_neighbors_nonempty _ _ _ _ _ Hsnap) as Hne. fold snap in Hne.
    set (all := Set_from (pieceId :: neighbors snap)).
    assert (∀ k, k ∈ all ↔ k = pieceId ∨ k ∈ neighbors snap) as Hall.
    { intros k. unfold all. rewrite elem_of_Set_from. set_solver. }
    apply (linksWellFormed_merge prev _ all); [done| | |].
    + intros k Hk. rewrite placeFromPool_snap_lookup by done. simpl. fold all.
      case_bool_decide as Hk1; [subst k; by eexists|].
      apply Hall in Hk as [?|Hk]; [done|].
      rewrite bool_decide_eq_true_2 by done.
      destruct (snap_neighbors_placed _ _ _ _ _ _ Hwf Hk) as [old ->]. by eexists.
    + intros k Hk. rewrite placeFromPool_snap_lookup by done. simpl.
      rewrite !bool_decide_eq_false_2; [done|..]; intros ?; apply Hk, Hall; auto.
    + intros j v [->|Hj]%Hall Hl; apply Hall.
      * destruct Hl as (p & Hp & _). congruence.
      * right. by eapply snap_neighbors_closed.
  - rewrite placeFromPool_loose by (by rewrite Hsnap).
    by apply linksWellFormed_insert_loose.
Qed.

Lemma returnToPool_linksWellFormed m poolItems pieceId :
  linksWellFormed m → linksWellFormed (returnToPool m poolItems pieceId).1.
Proof.
  intros Hwf.
  apply (linksWellFormed_remove m _ (getConnectedGroup m pieceId)); [done|..].
  - intros k Hk. rewrite returnToPool_lookup. by rewrite bool_decide_eq_true_2.
  - intros k Hk. rewrite returnToPool_lookup. by rewrite bool_decide_eq_false_2.
  - intros j v Hj Hl. by eapply getConnectedGroup_closed.
Qed.

End PoolDropFacts.

(** ** Sessions of the dnd-kit page *)

Section DndSession.
Import Engine DndTriangle.
Context (snapThreshold : Q) (pieces0 : list Piece.t).
Local Abbreviation sessionInv := (sessionInv pieces0).

Lemma elem_of_held a st i :
  i ∈ held a st ↔ a = Some i ∧ dragSource st = Some pool.
Proof.
  unfold held. destruct a as [j|], (dragSource st) as [[]|];
    rewrite ?list_elem_of_singleton; try (split; [by intros ?%elem_of_nil|by intros [? ?]]).
  split; [by intros ->|]. by intros [[= ->] _].
Qed.

Lemma held_None st : held None st = [].
Proof. done. Qed.

Lemma sessionInv_initialize shuffled :
  shuffled ≡ₚ ids pieces0 → sessionInv None [] (initialize pieces0 shuffled).
Proof.
  intros Hperm. split; simpl; try done.
  - intros i Hi. by rewrite <- Hperm.
  - intros i [? H]. by rewrite lookup_empty in H.
  - intros i Hi. left. by rewrite Hperm.
  - by intros i [?%elem_of_nil|?%elem_of_nil].
  - split; [apply NoDup_nil_2|]. by intros i ?%elem_of_nil.
Qed.

Lemma sessionInv_runSolvedCheck a lost st :
  sessionInv a lost st → sessionInv a lost (runSolvedCheck st).
Proof.
  intros [? ? ? ? ? ? ? ?]. unfold runSolvedCheck.
  destruct (solvedCheck st); [|done]. by split.
Qed.

Lemma sessionInv_handleDragStart i lost st :
  i ∈ poolItems st ∨ is_Some (placedPieces st !! i) →
  sessionInv None lost st → sessionInv (Some i) lost (handleDragStart i st).
Proof.
  intros Hi [Hp Hpu Hpi Hpl Hcov Hout [Hnd Hhl] Hl]. unfold handleDragStart.
  case_bool_decide as Hpool; [|case_bool_decide as Hplaced].
  - split; simpl; try done.
    + intros j [_ Hj]%list_elem_of_filter. by apply Hpu.
    + intros j [_ Hj]%list_elem_of_filter. by apply Hpi.
    + intros j Hj. destruct (decide (j = i)) as [->|Hne].
      { right; right; left. by left. }
      destruct (Hcov j Hj) as [?|[?|[?%elem_of_nil|?]]]; [|by right; left|done|by do 3 right].
      left. by apply list_elem_of_filter.
    + intros j [->%list_elem_of_singleton|Hj].
      * split_and!; [|by apply Hpu|by apply Hpi]. rewrite list_elem_of_filter. tauto.
      * destruct (Hout j (or_intror Hj)) as (Hnp & ? & ?). split_and!; [|done..].
        rewrite list_elem_of_filter. tauto.
    + split; [done|]. intros j ->%list_elem_of_singleton Hj.
      by destruct (Hout i (or_intror Hj)) as (Hnp & _).
  - by split.
  - by destruct Hi.
Qed.

Lemma sessionInv_handleDragMove a d lost st :
  sessionInv a lost st → sessionInv a lost (handleDragMove d st).
Proof.
  intros Hinv. unfold handleDragMove.
  destruct (dragSource st) as [[|]|] eqn:E; [done| |done].
  destruct Hinv as [? ? ? ? Hcov Hout [Hnd Hhl] ?].
  assert (∀ st', dragSource st' = Some placed → held a st' = []) as Hheld.
  { intros st' E'. unfold held. rewrite E'. by destruct a. }
  rewrite Hheld in Hcov, Hout, Hhl by done.
  split; simpl; try done; rewrite ?Hheld by done; done.
Qed.

Lemma sessionInv_handleDragEnd i event lost st :
  active event = i → sessionInv (Some i) lost st →
  sessionInv None lost (handleDragEnd snapThreshold event st).
Proof.
  intros Hact [Hp Hpu Hpi Hpl Hcov Hout [Hnd Hhl] Hl]. unfold handleDragEnd.
  assert (∀ j, j ∈ lost → (j ∉ poolItems st) ∧ placedPieces st !! j = None
                          ∧ j ∈ ids pieces0) as Hlost.
  { intros j Hj. apply Hout. by right. }
  destruct (findPiece (pieces st) (active event)) as [piece|] eqn:Hfind.
  2:{ split; simpl; try done.
      - intros j Hj. destruct (Hcov j Hj) as [?|[?|[[[= <-] _]%elem_of_held|?]]];
          [by left|by right; left| |by do 3 right].
        exfalso. rewrite Hp, Hact in Hfind. apply findPiece_is_Some in Hj.
        rewrite Hfind in Hj. by destruct Hj.
      - intros j [?%elem_of_nil|Hj]; [done|]. by apply Hlost.
      - split; [done|]. by intros j ?%elem_of_nil. }
  destruct (dragSource st) as [[|]|] eqn:Hsrc.
  - assert (i ∈ held (Some i) st) as Hheld by (by apply elem_of_held).
    destruct (Hout i (or_introl Hheld)) as (Hnp & Hnpl & Hids).
    pose proof (Hhl i Hheld) as Hnl. rewrite Hact.
    assert (sessionInv None lost
              {| pieces := pieces st; placedPieces := placedPieces st;
                 poolItems := poolItems st ++ [i];
                 activeId := None; dragSource := None; dragDelta := None;
                 isSolved := isSolved st |}) as Hback.
    { split; simpl; try done.
      - intros j [?|Hj%list_elem_of_singleton]%elem_of_app; [by apply Hpu|by subst].
      - intros j [?|Hj%list_elem_of_singleton]%elem_of_app; [by apply Hpi|by subst].
      - intros j Hj. destruct (Hcov j Hj) as [?|[?|[[[= <-] _]%elem_of_held|?]]].
        + left. apply elem_of_app. by left.
        + by right; left.
        + left. apply elem_of_app. right. by apply list_elem_of_singleton.
        + by do 3 right.
      - intros j [?%elem_of_nil|Hj]; [done|].
        destruct (Hlost j Hj) as (? & ? & ?). split_and!; [|done..].
        intros [?| ->%list_elem_of_singleton]%elem_of_app; done.
      - split; [done|]. by intros j ?%elem_of_nil. }
    case_bool_decide; [|done].
    destruct (rect event) as [rectTopLeft|]; [|done].
    destruct (activatorEvent event) as [activator|]; [|done].
    split; simpl; try done.
    + intros j Hj. destruct (decide (j = i)) as [->|Hne]; [done|].
      pose proof (Hpu j Hj) as Hnone.
      destruct (placeFromPool _ _ _ _ !! j) eqn:E; [|done].
      assert (is_Some (placeFromPool (placedPieces st) i
                (dropPosition event piece activator rectTopLeft)
                (checkAndSnapToNeighbors (pieces st) (placedPieces st) snapThreshold
                   i (dropPosition event piece activator rectTopLeft)) !! j))
        as [?|[? Hs]]%placeFromPool_is_Some; [by rewrite E|done|congruence].
    + intros j [->|Hj]%placeFromPool_is_Some; [done|by apply Hpl].
    + intros j Hj. destruct (Hcov j Hj) as [?|[?|[[[= <-] _]%elem_of_held|?]]];
        [by left| | |by do 3 right].
      * right; left. apply placeFromPool_is_Some. by right.
      * right; left. apply placeFromPool_is_Some. by left.
    + intros j [?%elem_of_nil|Hj]; [done|].
      destruct (Hlost j Hj) as (? & Hf & ?). split_and!; [done| |done].
      destruct (placeFromPool _ _ _ _ !! j) eqn:E; [|done].
      assert (is_Some (placeFromPool (placedPieces st) i
                (dropPosition event piece activator rectTopLeft)
                (checkAndSnapToNeighbors (pieces st) (placedPieces st) snapThreshold
                   i (dropPosition event piece activator rectTopLeft)) !! j))
        as [->|[? Hs]]%placeFromPool_is_Some; [by rewrite E|done|congruence].
    + split; [done|]. by intros j ?%elem_of_nil.
    + by apply placeFromPool_linksWellFormed.
  - assert (held (Some i) st = []) as E0 by (unfold held; by rewrite Hsrc).
    rewrite E0 in Hcov. split; simpl; try done.
    + intros j Hj. pose proof (Hpu j Hj) as Hnone.
      destruct (dropPlaced _ _ _ _ _ _ !! j) eqn:E; [|done].
      assert (is_Some (placedPieces st !! j)) as [? ?]; [|congruence].
      eapply dropPlaced_is_Some. by rewrite E.
    + intros j Hj%dropPlaced_is_Some. by apply Hpl.
    + intros j Hj. destruct (Hcov j Hj) as [?|[?|[?%elem_of_nil|?]]];
        [by left| |done|by do 3 right].
      right; left. by apply dropPlaced_is_Some.
    + intros j [?%elem_of_nil|Hj]; [done|].
      destruct (Hlost j Hj) as (? & Hf & ?). split_and!; [done| |done].
      destruct (dropPlaced _ _ _ _ _ _ !! j) eqn:E; [|done].
      assert (is_Some (placedPieces st !! j)) as [? ?]; [|congruence].
      eapply dropPlaced_is_Some. by rewrite E.
    + split; [done|]. by intros j ?%elem_of_nil.
    + by apply dropPlaced_linksWellFormed.
  - assert (held (Some i) st = []) as E0 by (unfold held; by rewrite Hsrc).
    rewrite E0 in Hcov. split; simpl; try done.
    + intros j [?%elem_of_nil|Hj]; [done|]. by apply Hlost.
    + split; [done|]. by intros j ?%elem_of_nil.
Qed.

Lemma sessionInv_cancel i lost st :
  sessionInv (Some i) lost st →
  sessionInv None (match dragSource st with Some pool => i :: lost | _ => lost end) st.
Proof.
  intros [Hp Hpu Hpi Hpl Hcov Hout [Hnd Hhl] Hl].
  destruct (dragSource st) as [[|]|] eqn:Hsrc.
  - assert (i ∈ held (Some i) st) as Hheld by (by apply elem_of_held).
    split; try done.
    + intros j Hj. destruct (Hcov j Hj) as [?|[?|[[[= <-] _]%elem_of_held|?]]];
        [by left|by right; left|do 3 right; by left|do 3 right; by right].
    + intros j [?%elem_of_nil|[->|Hj]%elem_of_cons]; [done|by apply Hout; left|].
      by apply Hout; right.
    + split; [|by intros j ?%elem_of_nil]. apply NoDup_cons. split; [by apply Hhl|done].
  - assert (held (Some i) st = []) as E by (unfold held; by rewrite Hsrc).
    rewrite E in Hcov, Hout. split; try done.
    split; [done|]. by intros j ?%elem_of_nil.
  - assert (held (Some i) st = []) as E by (unfold held; by rewrite Hsrc).
    rewrite E in Hcov, Hout. split; try done.
    split; [done|]. by intros j ?%elem_of_nil.
Qed.

Lemma sessionInv_handleReturnToPool pieceId lost st :
  is_Some (placedPieces st !! pieceId) →
  sessionInv None lost st → sessionInv None lost (handleReturnToPool pieceId st).
Proof.
  intros Hplaced [Hp Hpu Hpi Hpl Hcov Hout [Hnd Hhl] Hl].
  unfold handleReturnToPool.
  pose proof (returnToPool_lookup (placedPieces st) (poolItems st) pieceId) as Hlook.
  pose proof (returnToPool_linksWellFormed (placedPieces st) (poolItems st) pieceId Hl)
    as Hl'.
  unfold returnToPool in *. simpl in *. split; simpl; try done.
  - intros j Hj. rewrite Hlook. case_bool_decide as Hg; [done|].
    apply elem_of_app in Hj as [?|?]; [by apply Hpu|done].
  - intros j [?|Hj]%elem_of_app; [by apply Hpi|].
    apply Hpl. by eapply getConnectedGroup_placed.
  - intros j Hj. rewrite Hlook in Hj. case_bool_decide; [by destruct Hj|by apply Hpl].
  - intros j Hj. destruct (decide (j ∈ getConnectedGroup (placedPieces st) pieceId)).
    + left. apply elem_of_app. by right.
    + destruct (Hcov j Hj) as [?|[?|[?%elem_of_nil|?]]]; [| |done|by do 3 right].
      * left. apply elem_of_app. by left.
      * right; left. rewrite Hlook. by rewrite bool_decide_eq_false_2.
  - intros j [?%elem_of_nil|Hj]; [done|].
    destruct (Hout j (or_intror Hj)) as (Hnp & Hf & ?). split_and!; [| |done].
    + intros [?|Hg]%elem_of_app; [done|].
      destruct (getConnectedGroup_placed _ _ _ Hl Hplaced Hg) as [? ?]. congruence.
    + rewrite Hlook. by case_bool_decide.
Qed.

Lemma session_sessionInv a lost st :
  session snapThreshold pieces0 a lost st → sessionInv a lost st.
Proof.
  induction 1 as [shuffled Hperm|i lost st _ IH Hi|i d lost st _ IH
                  |i event lost st _ IH Hact|i lost st _ IH|pieceId lost st _ IH Hplaced].
  - by apply sessionInv_initialize.
  - by apply sessionInv_runSolvedCheck, sessionInv_handleDragStart.
  - by apply sessionInv_runSolvedCheck, sessionInv_handleDragMove.
  - by apply sessionInv_runSolvedCheck, (sessionInv_handleDragEnd i).
  - by apply sessionInv_cancel.
  - by apply sessionInv_runSolvedCheck, sessionInv_handleReturnToPool.
Qed.

Lemma reachable_sessionInv st :
  reachable snapThreshold pieces0 st → ∃ a lost, sessionInv a lost st.
Proof. intros (a & lost & Hs). exists a, lost. by apply session_sessionInv. Qed.

End DndSession.

(** ** Pool and placed map (C5) *)

Section PoolPlaced.
Import Engine DndTriangle.

Lemma pickedUp_session :
  session 10 Samples.trianglePieces (Some "piece-0-0-0") [] Samples.pickedUp.
Proof.
  apply session_start; [by apply session_init|].
  left. apply (bool_decide_unpack _). vm_compute. exact I.
Qed.

Lemma afterCancelledDrag_session :
  session 10 Samples.trianglePieces None ["piece-0-0-0"] Samples.afterCancelledDrag.
Proof.
  pose proof (session_cancel _ _ _ _ _ pickedUp_session) as Hcancel.
  replace (match dragSource Samples.pickedUp with
           | Some pool => "piece-0-0-0" :: []
           | _ => []
           end) with ["piece-0-0-0"] in Hcancel by (vm_compute; reflexivity).
  unfold Samples.afterCancelledDrag, Samples.run. simpl.
  apply (session_end _ _ "piece-0-0-1"); [|reflexivity].
  apply session_start; [exact Hcancel|].
  left. apply (bool_decide_unpack _). vm_compute. exact I.
Qed.





End PoolPlaced.

(** ** Unsupported piece counts (C9) *)

Section PieceCounts.
Import Grid.

(** C9, as stated, fails: 7 pieces is not a supported count of either
    table, yet both functions return a grid (4 x 4, and the 1 x 2 grid of the
    closest count 8); nothing is thrown. *)
Lemma unsupported_count_counterexample :
  lookupMapping 7 = None
  ∧ find (λ g, bool_decide (epieces g = 7%Z)) gridMap = None
  ∧ run_getPieceDimensions 7 = Returns (mkDimensions 4 4)
  ∧ run_getGridForPieceCount 7 = Returns (mkDimensions 1 2)
  ∧ ¬ (∃ error alternatives,
         run_getPieceDimensions 7 = Throws error alternatives
         ∨ run_getGridForPieceCount 7 = Throws error alternatives).
Proof.
  split_and!; [reflexivity..|].
  intros (error & alternatives & [H|H]); vm_compute in H; discriminate.
Qed.

Lemma closestEntry_spec piecesCount first entries :
  let closest := closestEntry piecesCount first entries in
  closest ∈ first :: entries
  ∧ ∀ g, g ∈ first :: entries →
      (Z.abs (piecesCount - epieces closest) ≤ Z.abs (piecesCount - epieces g))%Z.
Proof.
  unfold closestEntry.
  assert (∀ acc : GridEntry * Z, ∀ seen : list GridEntry,
            acc.1 ∈ seen → acc.2 = Z.abs (piecesCount - epieces acc.1) →
            (∀ g, g ∈ seen → (acc.2 ≤ Z.abs (piecesCount - epieces g))%Z) →
            let r := foldl (λ '(closest, minDiff) g,
                       let diff := Z.abs (piecesCount - epieces g) in
                       if bool_decide (diff < minDiff)%Z then (g, diff)
                       else (closest, minDiff)) acc entries in
            r.1 ∈ seen ++ entries
            ∧ ∀ g, g ∈ seen ++ entries →
                (Z.abs (piecesCount - epieces r.1) ≤ Z.abs (piecesCount - epieces g))%Z)
    as Hgen.
  { induction entries as [|e entries IH]; intros [c d] seen Hin Hd Hmin; simpl in *.
    - rewrite app_nil_r. split; [done|]. intros g Hg. rewrite <- Hd. by apply Hmin.
    - case_bool_decide as Hlt.
      + destruct (IH (e, Z.abs (piecesCount - epieces e)) (seen ++ [e])) as [H1 H2].
        * simpl. set_solver.
        * done.
        * simpl. intros g [Hg|Hg%list_elem_of_singleton]%elem_of_app; [|by subst].
          specialize (Hmin g Hg). lia.
        * rewrite <- app_assoc in H1, H2. done.
      + destruct (IH (c, d) (seen ++ [e])) as [H1 H2].
        * simpl. set_solver.
        * done.
        * simpl. intros g [Hg|Hg%list_elem_of_singleton]%elem_of_app;
            [by apply Hmin|subst; lia].
        * rewrite <- app_assoc in H1, H2. done. }
  destruct (Hgen (first, Z.abs (piecesCount - epieces first)) [first]) as [H1 H2].
  - by left.
  - done.
  - simpl. by intros g ->%list_elem_of_singleton.
  - simpl in *. by split.
Qed.

(** C9, amended.  For a piece count without an entry, generation does not
    fail: [getPieceDimensions] returns the 4 x 4 grid, and
    [getGridForPieceCount] returns the grid of a table entry whose piece count
    is closest to the request. *)
Theorem unsupported_count_falls_back (pieceCount : Z) :
  (lookupMapping pieceCount = None →
   run_getPieceDimensions pieceCount = Returns (mkDimensions 4 4))
  ∧ (find (λ g, bool_decide (epieces g = pieceCount)) gridMap = None →
     ∃ closest, closest ∈ gridMap
       ∧ run_getGridForPieceCount pieceCount
         = Returns (mkDimensions (erows closest) (ecols closest))
       ∧ ∀ g, g ∈ gridMap →
           (Z.abs (pieceCount - epieces closest) ≤ Z.abs (pieceCount - epieces g))%Z).
Proof.
  split.
  - intros H. unfold run_getPieceDimensions, getPieceDimensions. by rewrite H.
  - intros H. unfold run_getGridForPieceCount, getGridForPieceCount. rewrite H.
    set (first := mkEntry 4 1 1).
    destruct (closestEntry_spec pieceCount first gridMap) as [Hin Hmin].
    exists (closestEntry pieceCount first gridMap). split_and!.
    + apply elem_of_cons in Hin as [->|?]; [by left|done].
    + done.
    + intros g Hg. apply Hmin. by right.
Qed.

Lemma unsupported_count_falls_back_witness :
  run_getPieceDimensions 7 = Returns (mkDimensions 4 4)
  ∧ ∃ closest, closest ∈ gridMap
      ∧ run_getGridForPieceCount 7
        = Returns (mkDimensions (erows closest) (ecols closest))
      ∧ ∀ g, g ∈ gridMap →
          (Z.abs (7 - epieces closest) ≤ Z.abs (7 - epieces g))%Z.
Proof.
  destruct (unsupported_count_falls_back 7) as [H1 H2].
  split; [apply H1; reflexivity|apply H2; reflexivity].
Defined.

End PieceCounts.

(** ** The snap scan in double precision *)

Section DoubleSnapFacts.
Import Engine.
Implicit Types (m prev : gmap string PlacedPiece.t).

Lemma moveGroup64_lookup prev connectedGroup deltaX deltaY k :
  DndTriangle64.moveGroup prev connectedGroup deltaX deltaY !! k
  = if bool_decide (k ∈ connectedGroup)
    then movedBy64 deltaX deltaY <$> prev !! k
    else prev !! k.
Proof.
  unfold DndTriangle64.moveGroup.
  rewrite (foldl_same _
             (λ newMap i, match movedBy64 deltaX deltaY <$> prev !! i with
                          | Some v => <[i := v]> newMap
                          | None => newMap
                          end)).
  - rewrite foldl_set_lookup. case_bool_decide; [|done]. by destruct (prev !! k).
  - intros newMap i. by destruct (prev !! i).
Qed.

Lemma mergeGroups64_lookup m connectedGroup snapOffset allConnected k :
  NoDup allConnected →
  DndTriangle64.mergeGroups m connectedGroup snapOffset allConnected !! k
  = if bool_decide (k ∈ allConnected)
    then mergedRecord64 connectedGroup snapOffset allConnected k <$> m !! k
    else m !! k.
Proof.
  intros Hnd. unfold DndTriangle64.mergeGroups.
  by rewrite (foldl_alter_lookup (mergedRecord64 connectedGroup snapOffset allConnected)).
Qed.

Lemma candidateFor64_Some pieces m snapThreshold piece position nId c :
  Engine64.candidateFor pieces m snapThreshold piece position nId = Some c ↔
  nId ≠ "" ∧
  ∃ neighborPlaced neighbor,
    m !! nId = Some neighborPlaced ∧ findPiece pieces nId = Some neighbor ∧
    Qltb (Engine64.distance position
            (Engine64.expectedPosition piece neighbor neighborPlaced))
         snapThreshold = true ∧
    c = {| Engine64.neighborId := nId;
           Engine64.snapPos := Engine64.expectedPosition piece neighbor neighborPlaced;
           Engine64.dist :=
             Engine64.distance position
               (Engine64.expectedPosition piece neighbor neighborPlaced) |}.
Proof.
  unfold Engine64.candidateFor. case_bool_decide as Hn.
  { split; [done|]. by intros [? _]. }
  destruct (m !! nId) as [np|]; [|split; [done|by intros (_ & ? & ? & ? & _)]].
  destruct (findPiece pieces nId) as [n|];
    [|split; [done|by intros (_ & ? & ? & _ & ? & _)]].
  destruct (Qltb _ _) eqn:E.
  - split.
    + intros [= <-]. split; [done|]. by exists np, n.
    + intros (_ & ? & ? & [= <-] & [= <-] & _ & ->). done.
  - split; [done|]. intros (_ & ? & ? & [= <-] & [= <-] & ? & _). congruence.
Qed.

Lemma elem_of_snapCandidates64 pieces m snapThreshold piece position c :
  c ∈ Engine64.snapCandidates pieces m snapThreshold piece position ↔
  ∃ nId, nId ∈ neighborValues piece ∧
         Engine64.candidateFor pieces m snapThreshold piece position nId = Some c.
Proof. unfold Engine64.snapCandidates. by rewrite list_elem_of_omap. Qed.

Lemma insertByDist64_perm c l : Engine64.insertByDist c l ≡ₚ c :: l.
Proof.
  induction l as [|c' l IH]; simpl; [done|].
  destruct (Qltb _ _); [|done]. rewrite IH. apply Permutation_swap.
Qed.

Lemma sortByDist64_perm l : Engine64.sortByDist l ≡ₚ l.
Proof.
  unfold Engine64.sortByDist. induction l as [|c l IH]; simpl; [done|].
  by rewrite insertByDist64_perm, IH.
Qed.

Lemma insertByDist64_head c l best rest :
  (∀ b r, l = b :: r → leastDist64 b l) →
  Engine64.insertByDist c l = best :: rest → leastDist64 best (c :: l).
Proof.
  destruct l as [|c' l]; simpl.
  - intros _ [= <- <-] c0 ->%list_elem_of_singleton. lra.
  - intros Hl. specialize (Hl c' l eq_refl).
    destruct (Qltb (Engine64.dist c') (Engine64.dist c)) eqn:E.
    + intros [= <- <-] c0 [Hc0|Hc0]%elem_of_cons; [subst c0|by apply Hl].
      apply Qltb_lt in E. lra.
    + intros [= <- <-] c0 [Hc0|Hc0]%elem_of_cons; [subst c0; lra|].
      apply Qltb_ge in E. specialize (Hl _ Hc0). lra.
Qed.

Lemma sortByDist64_head l best rest :
  Engine64.sortByDist l = best :: rest → leastDist64 best l.
Proof.
  revert best rest. unfold Engine64.sortByDist.
  induction l as [|c l IH]; intros best rest; simpl; [done|].
  intros H. eapply insertByDist64_head in H.
  - intros c0 Hc0. apply H.
    apply elem_of_cons in Hc0 as [Hc0|Hc0]; [subst c0; by left|right].
    by rewrite (sortByDist64_perm l).
  - intros b r Hbr c0 Hc0. eapply IH; [done|].
    by rewrite <- (sortByDist64_perm l).
Qed.

Lemma elem_of_collectNeighbors64 m candidates k :
  k ∈ Engine64.collectNeighbors m candidates ↔
  ∃ c, c ∈ candidates ∧ k ∈ getConnectedGroup m (Engine64.neighborId c).
Proof.
  unfold Engine64.collectNeighbors.
  assert (∀ acc, k ∈ foldl (λ allNeighbors candidate,
             foldl Set_add (Set_add allNeighbors (Engine64.neighborId candidate))
                   (getConnectedGroup m (Engine64.neighborId candidate))) acc candidates
           ↔ k ∈ acc ∨ ∃ c, c ∈ candidates
                            ∧ k ∈ getConnectedGroup m (Engine64.neighborId c))
    as Hgen.
  { induction candidates as [|c cs IH]; intros acc; simpl.
    - split; [by left|]. intros [?|(c & ?%elem_of_nil & _)]; done.
    - rewrite IH, elem_of_foldl_Set_add, elem_of_Set_add. split.
      + intros [[[?|Hk]|?]|(c' & ? & ?)]; eauto.
        * right. exists c. split; [by left|]. subst k. apply getConnectedGroup_self.
        * right. exists c. split; [by left|done].
        * right. exists c'. split; [by right|done].
      + intros [?|(c' & [Hc|?]%elem_of_cons & ?)]; eauto. subst c'. eauto. }
  rewrite Hgen. split; [|by right]. by intros [?%elem_of_nil|?].
Qed.

Lemma isCandidate64_iff pieces placedPieces snapThreshold piece position nId :
  isCandidate64 pieces placedPieces snapThreshold piece position nId ↔
  ∃ e, placedNeighbor64 pieces placedPieces piece nId e
       ∧ within64 snapThreshold position e.
Proof.
  unfold isCandidate64, placedNeighbor64, within64. split.
  - intros (c & (nId' & Hin & Hc)%elem_of_snapCandidates64 & Hid).
    apply candidateFor64_Some in Hc as (Hne & np & n & Hnp & Hn & Hnear & ->).
    simpl in Hid. subst nId'. eexists. split; [|done]. split_and!; [done..|].
    by exists np, n.
  - intros (e & (Hin & Hne & np & n & Hnp & Hn & ->) & Hnear).
    eexists. split; [|shelve]. apply elem_of_snapCandidates64. exists nId.
    split; [done|]. apply candidateFor64_Some. split; [done|]. by exists np, n.
    Unshelve. done.
Qed.

Lemma snapCandidate64_shape pieces placedPieces snapThreshold piece position c :
  c ∈ Engine64.snapCandidates pieces placedPieces snapThreshold piece position →
  placedNeighbor64 pieces placedPieces piece (Engine64.neighborId c) (Engine64.snapPos c)
  ∧ Engine64.dist c = Engine64.distance position (Engine64.snapPos c).
Proof.
  intros (nId & Hin & Hc)%elem_of_snapCandidates64.
  apply candidateFor64_Some in Hc as (Hne & np & n & Hnp & Hn & Hnear & ->). simpl.
  split; [|done]. split_and!; [done..|]. by exists np, n.
Qed.

End DoubleSnapFacts.

Section DoubleScanFacts.
Import Engine.
Context (pieces : list Piece.t) (newMap : gmap string PlacedPiece.t)
        (snapThreshold : Q) (connectedGroup : list string).

#[local] Arguments Engine64.distance : simpl never.
Local Abbreviation hitAt := (hitAt64 pieces newMap snapThreshold connectedGroup).
Local Abbreviation scanNeighbor :=
  (DndTriangle64.scanNeighbor pieces newMap snapThreshold connectedGroup).

Lemma scanSummary64_iff (H H' : string → string → Point → Point → Prop) acc :
  (∀ g n pos e, H g n pos e ↔ H' g n pos e) →
  scanSummary64 H acc → scanSummary64 H' acc.
Proof.
  intros Hiff (Hnd & Hids & Hbest). split_and!; [done| |].
  - intros n. rewrite Hids. split; intros (g & pos & e & ?); exists g, pos, e; by apply Hiff.
  - destruct acc.1 as [bs|].
    + destruct Hbest as (Hb & Hd & Hmin). split_and!; [by apply Hiff|done|].
      intros g n pos e Hh. apply Hiff in Hh. by apply (Hmin g n).
    + intros g n pos e Hh. apply Hiff in Hh. by apply (Hbest g n pos e).
Qed.

Lemma hitAt64_functional g n pos e pos' e' :
  hitAt g n pos e → hitAt g n pos' e' → pos = pos' ∧ e = e'.
Proof.
  intros (_ & _ & gp & gpl & npc & npl & ? & ? & ? & ? & -> & -> & _)
         (_ & _ & gp' & gpl' & npc' & npl' & ? & ? & ? & ? & -> & -> & _).
  by simplify_eq.
Qed.

(** One neighbour id of one group piece. *)
Lemma scanNeighbor64_summary H g groupPiece groupPlaced acc nId :
  findPiece pieces g = Some groupPiece → newMap !! g = Some groupPlaced →
  scanSummary64 H acc →
  scanSummary64 (λ g' n' pos e, H g' n' pos e ∨ (g' = g ∧ n' = nId ∧ hitAt g nId pos e))
                (scanNeighbor g groupPiece groupPlaced acc nId).
Proof.
  intros Hgp Hgpl Hacc.
  assert ((∀ pos e, ¬ hitAt g nId pos e) →
          scanSummary64 (λ g' n' pos e, H g' n' pos e ∨ (g' = g ∧ n' = nId ∧ hitAt g nId pos e)) acc)
    as Hmiss.
  { intros Hno. eapply scanSummary64_iff; [|exact Hacc].
    intros g' n' pos e. split; [by left|]. intros [?|(_ & _ & ?)]; [done|].
    by destruct (Hno pos e). }
  unfold DndTriangle64.scanNeighbor.
  destruct (bool_decide (nId = "") || bool_decide (nId ∈ connectedGroup)) eqn:Eskip.
  { apply Hmiss. intros pos e (Hout & Hnamed & _).
    apply orb_true_iff in Eskip as [?%bool_decide_eq_true|?%bool_decide_eq_true]; done. }
  apply orb_false_iff in Eskip as [Hnamed%bool_decide_eq_false Hout%bool_decide_eq_false].
  destruct (newMap !! nId) as [npl|] eqn:Hnpl.
  2:{ apply Hmiss. intros pos e (_ & _ & ? & ? & ? & ? & _ & _ & ? & _). congruence. }
  destruct (findPiece pieces nId) as [npc|] eqn:Hnpc.
  2:{ apply Hmiss. intros pos e (_ & _ & ? & ? & ? & ? & _ & _ & _ & ? & _). congruence. }
  set (e0 := Engine64.expectedPosition groupPiece npc npl).
  set (pos0 := PlacedPiece.position groupPlaced).
  destruct (Qltb (Engine64.distance pos0 e0) snapThreshold) eqn:Enear.
  2:{ apply Hmiss. intros pos e (_ & _ & gp & gpl & npc' & npl' & ? & ? & ? & ? & -> & -> & Hnear).
      simplify_eq. subst pos0 e0. congruence. }
  assert (hitAt g nId pos0 e0) as Hhit.
  { split_and!; [done..|]. by exists groupPiece, groupPlaced, npc, npl. }
  destruct Hacc as (Hnd & Hids & Hbest). split_and!; cbn -[Engine64.distance].
  - by apply Set_add_NoDup.
  - intros n. rewrite elem_of_Set_add, Hids. split.
    + intros [(g' & pos & e & ?)| ->]; [by exists g', pos, e; left|].
      exists g, pos0, e0. by right.
    + intros (g' & pos & e & [?|(-> & -> & ?)]); [left; by exists g', pos, e|by right].
  - destruct acc.1 as [bs|] eqn:Ebs.
    + destruct Hbest as (Hb & Hd & Hmin).
      destruct (Qltb (Engine64.distance pos0 e0) (DndTriangle64.dist bs)) eqn:Elt;
        cbn -[Engine64.distance].
      * apply Qltb_lt in Elt. split_and!; [by right|done|].
        intros g' n' pos e [Hh|(-> & -> & Hh)].
        -- specialize (Hmin _ _ _ _ Hh). lra.
        -- destruct (hitAt64_functional _ _ _ _ _ _ Hh Hhit) as [-> ->]. lra.
      * apply Qltb_ge in Elt. split_and!; [by left|done|].
        intros g' n' pos e [Hh|(-> & -> & Hh)]; [by apply (Hmin g' n')|].
        by destruct (hitAt64_functional _ _ _ _ _ _ Hh Hhit) as [-> ->].
    + cbn -[Engine64.distance]. split_and!; [by right|done|].
      intros g' n' pos e [Hh|(-> & -> & Hh)]; [by destruct (Hbest _ _ _ _ Hh)|].
      destruct (hitAt64_functional _ _ _ _ _ _ Hh Hhit) as [-> ->]. lra.
Qed.

(** All neighbour ids of one group piece. *)
Lemma scanNeighbors64_summary H g groupPiece groupPlaced ns acc :
  findPiece pieces g = Some groupPiece → newMap !! g = Some groupPlaced →
  scanSummary64 H acc →
  scanSummary64 (λ g' n' pos e, H g' n' pos e ∨ (g' = g ∧ n' ∈ ns ∧ hitAt g n' pos e))
                (foldl (scanNeighbor g groupPiece groupPlaced) acc ns).
Proof.
  intros Hgp Hgpl. revert H acc. induction ns as [|nId ns IH]; intros H acc Hacc; simpl.
  - eapply scanSummary64_iff; [|exact Hacc]. intros g' n' pos e.
    split; [by left|]. by intros [?|(_ & ?%elem_of_nil & _)].
  - eapply scanSummary64_iff; [|apply IH, scanNeighbor64_summary, Hacc; done].
    intros g' n' pos e. simpl. rewrite elem_of_cons. split.
    + intros [[?|(-> & -> & ?)]|(-> & ? & ?)]; auto.
    + intros [?|(-> & [->|?] & ?)]; auto.
Qed.

(** The whole scan. *)
Lemma scanGroup64_summary_gen gs H acc :
  scanSummary64 H acc →
  scanSummary64
    (λ g n pos e, H g n pos e ∨
       (g ∈ gs ∧ (∃ groupPiece, findPiece pieces g = Some groupPiece
                                ∧ n ∈ neighborValues groupPiece)
        ∧ hitAt g n pos e))
    (foldl (λ acc groupId,
              match findPiece pieces groupId, newMap !! groupId with
              | Some groupPiece, Some groupPlaced =>
                  foldl (scanNeighbor groupId groupPiece groupPlaced)
                        acc (neighborValues groupPiece)
              | _, _ => acc
              end) acc gs).
Proof.
  revert H acc. induction gs as [|g gs IH]; intros H acc Hacc; simpl.
  - eapply scanSummary64_iff; [|exact Hacc]. intros g' n' pos e.
    split; [by left|]. by intros [?|(?%elem_of_nil & _)].
  - destruct (findPiece pieces g) as [gp|] eqn:Hgp.
    2:{ eapply scanSummary64_iff; [|apply IH, Hacc].
        intros g' n' pos e. simpl. rewrite elem_of_cons. split; [tauto|].
        intros [?|([->|?] & Hn & Hh)]; auto.
        destruct Hn as (? & ? & _). congruence. }
    destruct (newMap !! g) as [gpl|] eqn:Hgpl.
    2:{ eapply scanSummary64_iff; [|apply IH, Hacc].
        intros g' n' pos e. simpl. rewrite elem_of_cons. split; [tauto|].
        intros [?|([->|?] & Hn & Hh)]; auto.
        destruct Hh as (_ & _ & ? & ? & ? & ? & _ & ? & _). congruence. }
    eapply scanSummary64_iff; [|apply IH, scanNeighbors64_summary, Hacc; done].
    intros g' n' pos e. simpl. rewrite elem_of_cons. split.
    + intros [[?|(-> & ? & ?)]|(? & ? & ?)]; eauto 10.
    + intros [?|([->|?] & Hn & Hh)]; auto.
      left; right. destruct Hn as (gp' & ? & ?). by simplify_eq.
Qed.

Lemma scanGroup64_summary :
  scanSummary64 (groupHit64 pieces newMap snapThreshold connectedGroup)
    (DndTriangle64.scanGroup pieces newMap snapThreshold connectedGroup).
Proof.
  unfold DndTriangle64.scanGroup.
  eapply scanSummary64_iff; [|apply (scanGroup64_summary_gen connectedGroup (λ _ _ _ _, False))].
  - intros g n pos e. unfold groupHit64. tauto.
  - split_and!; simpl; [apply NoDup_nil_2| |tauto].
    intros n. split; [by intros ?%elem_of_nil|]. by intros (? & ? & ? & ?).
Qed.

End DoubleScanFacts.

Section DoubleDropFacts.
Import Engine.
Implicit Types (m prev : gmap string PlacedPiece.t).

(** The two outcomes of a group drop. *)
Lemma dropPlaced64_cases pieces snapThreshold prev pieceId deltaX deltaY :
  let connectedGroup := getConnectedGroup prev pieceId in
  let newMap := DndTriangle64.moveGroup prev connectedGroup deltaX deltaY in
  let result := DndTriangle64.dropPlaced pieces snapThreshold prev pieceId deltaX deltaY in
  (result = newMap ∧
   ∀ g n pos e, ¬ groupHit64 pieces newMap snapThreshold connectedGroup g n pos e)
  ∨ (∃ bs allNeighborIds,
       DndTriangle64.scanGroup pieces newMap snapThreshold connectedGroup
         = (Some bs, allNeighborIds) ∧
       result = DndTriangle64.mergeGroups newMap connectedGroup
                  {| x := Double.sub (x (DndTriangle64.snapPos bs))
                                     (x (DndTriangle64.groupPiecePos bs));
                     y := Double.sub (y (DndTriangle64.snapPos bs))
                                     (y (DndTriangle64.groupPiecePos bs)) |}
                  (Set_from (connectedGroup
                             ++ DndTriangle.expandNeighbors newMap connectedGroup
                                  allNeighborIds))).
Proof.
  intros connectedGroup newMap result. subst result. unfold DndTriangle64.dropPlaced.
  fold connectedGroup. fold newMap.
  pose proof (scanGroup64_summary pieces newMap snapThreshold connectedGroup) as Hsum.
  destruct (DndTriangle64.scanGroup pieces newMap snapThreshold connectedGroup)
    as [[bs|] allNeighborIds] eqn:Escan.
  - destruct Hsum as (_ & Hids & Hb & _). simpl in *.
    assert (DndTriangle64.neighborId bs ∈ allNeighborIds) as Hin.
    { apply Hids. eauto. }
    rewrite bool_decide_eq_true_2.
    + right. by exists bs, allNeighborIds.
    + destruct allNeighborIds; [by apply elem_of_nil in Hin|simpl; lia].
  - left. destruct Hsum as (_ & _ & Hnone). done.
Qed.

End DoubleDropFacts.

(** ** Snap candidates and the snap target (C1) *)

Section SnapTarget.
Import Engine.

Lemma Qabs_le_iff (a b : Q) : (Qabs a <= b ↔ - b <= a ∧ a <= b)%Q.
Proof. apply Qabs_Qle_condition. Qed.

Lemma roundoff_bound q : (Qabs (Double.round q - q) <= roundoff q)%Q.
Proof. apply round_error_bound. Qed.

Lemma roundoff_nonneg q : (0 <= roundoff q)%Q.
Proof.
  unfold roundoff. pose proof (Qabs_nonneg q) as Hq.
  pose proof (pow2_pos (-53)) as H1. pose proof (pow2_pos (-1075)) as H2.
  assert (0 <= Qabs q * Double.pow2 (-53))%Q by (apply Qmult_le_0_compat; lra).
  lra.
Qed.

Lemma pow2_m53_le_1 : (Double.pow2 (-53) <= 1)%Q.
Proof. rewrite <- pow2_0. apply pow2_le. lia. Qed.

(** Adding the rounded difference [e - p] back to [p] gives [e] up to two
    roundings. *)
Lemma snap_error p e :
  (Qabs (Double.add p (Double.sub e p) - e) <= snapError e p)%Q.
Proof.
  unfold Double.add, Double.sub, snapError.
  set (s := Double.round (e - p)).
  pose proof (roundoff_bound (e - p)) as Hs. fold s in Hs.
  pose proof (roundoff_bound (p + s)) as Hn.
  unfold roundoff in Hs, Hn.
  set (u := Double.pow2 (-53)) in *. set (h := Double.pow2 (-1075)) in *.
  assert (0 < u)%Q as Hu by apply pow2_pos.
  assert (u <= 1)%Q as Hu1 by apply pow2_m53_le_1.
  assert (0 < h)%Q as Hh by apply pow2_pos.
  pose proof (Qabs_nonneg e) as He. pose proof (Qabs_nonneg p) as Hp.
  assert (Qabs (e - p) <= Qabs e + Qabs p)%Q as Hd.
  { assert (e - p == e + - p)%Q as -> by ring.
    eapply Qle_trans; [apply Qabs_triangle|]. rewrite Qabs_opp. lra. }
  set (E1 := ((Qabs e + Qabs p) * u + h)%Q).
  assert (Qabs (s - (e - p)) <= E1)%Q as Hs'.
  { eapply Qle_trans; [exact Hs|]. unfold E1.
    assert (Qabs (e - p) * u <= (Qabs e + Qabs p) * u)%Q
      by (apply Qmult_le_compat_r; lra).
    lra. }
  assert (0 <= E1)%Q as HE1.
  { unfold E1. assert (0 <= (Qabs e + Qabs p) * u)%Q
      by (apply Qmult_le_0_compat; lra). lra. }
  assert (Qabs (p + s) <= Qabs e + E1)%Q as Hps.
  { assert (p + s == e + (s - (e - p)))%Q as -> by ring.
    eapply Qle_trans; [apply Qabs_triangle|]. lra. }
  assert (Qabs (p + s) * u <= (Qabs e + E1) * u)%Q as Hpsu
    by (apply Qmult_le_compat_r; lra).
  assert (E1 * u <= E1)%Q as HE1u.
  { assert (E1 * u <= E1 * 1)%Q; [|lra].
    rewrite !(Qmult_comm E1). apply Qmult_le_compat_r; lra. }
  assert (Qabs (Double.round (p + s) - e)
          <= Qabs (Double.round (p + s) - (p + s)) + Qabs (s - (e - p)))%Q as Htri.
  { assert (Double.round (p + s) - e
            == (Double.round (p + s) - (p + s)) + (s - (e - p)))%Q as -> by ring.
    apply Qabs_triangle. }
  eapply Qle_trans; [exact Htri|].
  assert ((Qabs e + E1) * u == Qabs e * u + E1 * u)%Q as Hdist by ring.
  assert (0 <= Qabs p * u)%Q as Hpu by (apply Qmult_le_0_compat; lra).
  unfold E1 in *. lra.
Qed.

(** The pool drop: candidates, the least-distance choice, and where the
    piece ends. *)
Lemma pool_drop64_snaps_to_closest pieces prev snapThreshold pieceId piece position :
  findPiece pieces pieceId = Some piece →
  let candidates := Engine64.snapCandidates pieces prev snapThreshold piece position in
  let result := placeFromPool prev pieceId position
                  (Engine64.checkAndSnapToNeighbors pieces prev snapThreshold
                     pieceId position) in
  (∀ nId, isCandidate64 pieces prev snapThreshold piece position nId ↔
          ∃ e, placedNeighbor64 pieces prev piece nId e
               ∧ within64 snapThreshold position e)
  ∧ (candidates = [] →
     ∃ p, result !! pieceId = Some p ∧ PlacedPiece.position p = position
          ∧ PlacedPiece.isLocked p = false)
  ∧ (candidates ≠ [] →
     ∃ best p, best ∈ candidates ∧ leastDist64 best candidates
       ∧ placedNeighbor64 pieces prev piece (Engine64.neighborId best)
                          (Engine64.snapPos best)
       ∧ result !! pieceId = Some p
       ∧ PlacedPiece.position p = Engine64.snapPos best).
Proof.
  intros Hpiece candidates result. split_and!.
  - intros nId. apply isCandidate64_iff.
  - intros Hnil. subst result. unfold Engine64.checkAndSnapToNeighbors. rewrite Hpiece.
    fold candidates. rewrite Hnil. simpl. unfold placeFromPool. simpl.
    rewrite lookup_insert_eq. by eexists.
  - intros Hne. subst result.
    destruct (Engine64.sortByDist candidates) as [|best rest] eqn:Hs.
    { pose proof (sortByDist64_perm candidates) as Hperm. rewrite Hs in Hperm.
      apply Permutation_nil_l in Hperm. done. }
    assert (best ∈ candidates) as Hbest.
    { rewrite <- (sortByDist64_perm candidates), Hs. by left. }
    unfold Engine64.checkAndSnapToNeighbors. rewrite Hpiece. fold candidates.
    rewrite Hs.
    assert (Engine64.collectNeighbors prev (best :: rest) ≠ []) as Hnn.
    { intros Hnil.
      assert (Engine64.neighborId best ∈ Engine64.collectNeighbors prev (best :: rest))
        as Hin.
      { apply elem_of_collectNeighbors64. exists best. split; [by left|].
        apply getConnectedGroup_self. }
      rewrite Hnil in Hin. by apply elem_of_nil in Hin. }
    rewrite placeFromPool_snap_lookup by done. simpl.
    rewrite bool_decide_eq_true_2 by done.
    exists best. eexists. split_and!; [done| | |done|done].
    + by eapply sortByDist64_head.
    + by apply (snapCandidate64_shape pieces prev snapThreshold piece position).
Qed.

(** The group drop: candidates, the least-distance choice, and where the
    dragged pieces end. *)
Lemma group_drop64_snaps_to_closest pieces snapThreshold prev pieceId deltaX deltaY :
  let connectedGroup := getConnectedGroup prev pieceId in
  let newMap := DndTriangle64.moveGroup prev connectedGroup deltaX deltaY in
  let result := DndTriangle64.dropPlaced pieces snapThreshold prev pieceId deltaX deltaY in
  let hit := groupHit64 pieces newMap snapThreshold connectedGroup in
  (∀ n, n ∈ (DndTriangle64.scanGroup pieces newMap snapThreshold connectedGroup).2
        ↔ ∃ g pos e, hit g n pos e)
  ∧ ((∀ g n pos e, ¬ hit g n pos e) → result = newMap)
  ∧ (∀ g n pos e, hit g n pos e →
     ∃ g' n' pos' e',
       hit g' n' pos' e'
       ∧ (∀ g n pos e, hit g n pos e →
            (Engine64.distance pos' e' <= Engine64.distance pos e)%Q)
       ∧ (∀ i old, i ∈ connectedGroup → newMap !! i = Some old →
            ∃ new, result !! i = Some new
              ∧ PlacedPiece.position new
                = {| x := Double.add (x (PlacedPiece.position old))
                                     (Double.sub (x e') (x pos'));
                     y := Double.add (y (PlacedPiece.position old))
                                     (Double.sub (y e') (y pos')) |})
       ∧ (∃ new, result !! g' = Some new
            ∧ (Qabs (x (PlacedPiece.position new) - x e') <= snapError (x e') (x pos'))%Q
            ∧ (Qabs (y (PlacedPiece.position new) - y e') <= snapError (y e') (y pos'))%Q)).
Proof.
  intros connectedGroup newMap result hit.
  pose proof (scanGroup64_summary pieces newMap snapThreshold connectedGroup)
    as (_ & Hids & Hbest).
  split_and!; [done| |].
  - intros Hno.
    destruct (dropPlaced64_cases pieces snapThreshold prev pieceId deltaX deltaY)
      as [[Heq _]|(bs & ns & Escan & _)]; [exact Heq|].
    fold connectedGroup in Escan. fold newMap in Escan. rewrite Escan in Hbest.
    simpl in Hbest. destruct Hbest as (Hb & _). by destruct (Hno _ _ _ _ Hb).
  - intros g n pos e Hh.
    destruct (dropPlaced64_cases pieces snapThreshold prev pieceId deltaX deltaY)
      as [[_ Hno]|(bs & ns & Escan & Hres)]; [by destruct (Hno _ _ _ _ Hh)|].
    fold connectedGroup in Escan, Hres. fold newMap in Escan, Hres.
    rewrite Escan in Hbest. simpl in Hbest. destruct Hbest as (Hb & Hd & Hmin).
    exists (DndTriangle64.groupPieceId bs), (DndTriangle64.neighborId bs),
           (DndTriangle64.groupPiecePos bs), (DndTriangle64.snapPos bs).
    assert (∀ i old, i ∈ connectedGroup → newMap !! i = Some old →
              result !! i
              = Some (mergedRecord64 connectedGroup
                        {| x := Double.sub (x (DndTriangle64.snapPos bs))
                                           (x (DndTriangle64.groupPiecePos bs));
                           y := Double.sub (y (DndTriangle64.snapPos bs))
                                           (y (DndTriangle64.groupPiecePos bs)) |}
                        (Set_from (connectedGroup
                                   ++ DndTriangle.expandNeighbors newMap connectedGroup ns))
                        i old)) as Hlook.
    { intros i old Hi Hold. subst result. rewrite Hres.
      rewrite mergeGroups64_lookup by apply Set_from_NoDup.
      rewrite bool_decide_eq_true_2 by (apply elem_of_Set_from, elem_of_app; by left).
      by rewrite Hold. }
    split_and!; [done| | |].
    + intros g0 n0 pos0 e0 Hh0. rewrite <- Hd. by apply (Hmin g0 n0).
    + intros i old Hi Hold. rewrite (Hlook i old Hi Hold).
      eexists. split; [done|]. unfold mergedRecord64. cbn [PlacedPiece.position].
      by rewrite bool_decide_eq_true_2 by done.
    + destruct Hb as (Hg & _ & _ & _ & gp & gpl & npc & npl & _ & Hgpl & _ & _ & Hpos & _).
      rewrite (Hlook _ gpl Hg Hgpl). eexists. split; [done|].
      unfold mergedRecord64. cbn [PlacedPiece.position].
      rewrite bool_decide_eq_true_2 by done. cbn [x y]. rewrite <- Hpos.
      split; apply snap_error.
Qed.

(** C1, as stated, fails on the dnd-kit page in two ways.  In a group drag
    a placed neighbour that belongs to the dragged group is not a candidate:
    piece 0-1-0 is a placed neighbour of piece 0-0-0 and sits within the
    threshold of its expected position, and the scan of the pair finds
    nothing.  And a dragged piece that snaps does not always end exactly at
    the expected position: piece 0-1-0, released within the threshold of its
    place next to piece 0-0-0, is expected at
    [y = -62372295975657 / 2^43] (-7.090909090909122) and ends at
    [y = -7983653884884095 / 2^50] (-7.090909090909121), one unit of the last
    place above. *)
Lemma snap_target_counterexample :
  (let st := Samples.cornerJoinedDragged in
   let prev := DndTriangle.placedPieces st in
   let connectedGroup := getConnectedGroup prev "piece-0-0-0" in
   let newMap :=
     DndTriangle64.moveGroup prev connectedGroup
       (Double.div 37 Samples.photoScale) (Double.div 0 Samples.photoScale) in
   (∃ piece placed e,
      findPiece (DndTriangle.pieces st) "piece-0-0-0" = Some piece
      ∧ newMap !! "piece-0-0-0" = Some placed
      ∧ placedNeighbor64 (DndTriangle.pieces st) newMap piece "piece-0-1-0" e
      ∧ within64 10 (PlacedPiece.position placed) e)
   ∧ DndTriangle64.scanGroup (DndTriangle.pieces st) newMap 10 connectedGroup
     = (None, []))
  ∧ (let st := Samples.cornerLoose in
     let prev := DndTriangle.placedPieces st in
     let deltaX := Double.div 6 Samples.photoScale in
     let deltaY := Double.div 1 Samples.photoScale in
     let connectedGroup := getConnectedGroup prev "piece-0-1-0" in
     let newMap := DndTriangle64.moveGroup prev connectedGroup deltaX deltaY in
     ∃ pos' e' new,
       groupHit64 (DndTriangle.pieces st) newMap 10 connectedGroup
                  "piece-0-1-0" "piece-0-0-0" pos' e'
       ∧ DndTriangle.placedPieces
           (DndTriangle64.handleDragEnd 10 Samples.cornerNudge st) !! "piece-0-1-0"
         = Some new
       ∧ PlacedPiece.isLocked new = true
       ∧ x (PlacedPiece.position new) = x e'
       ∧ y e' = (-62372295975657 # 8796093022208)%Q
       ∧ y (PlacedPiece.position new) = (-7983653884884095 # 1125899906842624)%Q
       ∧ (y (PlacedPiece.position new) - y e' == 1 # 1125899906842624)%Q).
Proof.
  split.
  - split; [|by vm_compute].
    eexists _, _, _. split_and!.
    + by vm_compute.
    + by vm_compute.
    + split_and!; [apply (bool_decide_unpack _); vm_compute; exact I|done|].
      eexists _, _. split_and!; [by vm_compute|by vm_compute|reflexivity].
    + by vm_compute.
  - eexists _, _, _. split_and!.
    + unfold groupHit64, hitAt64. split_and!.
      * apply (bool_decide_unpack _). vm_compute. exact I.
      * eexists. split; [vm_compute; reflexivity|].
        apply (bool_decide_unpack _). vm_compute. exact I.
      * apply (bool_decide_unpack _). vm_compute. exact I.
      * done.
      * eexists _, _, _, _. split_and!;
          [vm_compute; reflexivity|vm_compute; reflexivity|vm_compute; reflexivity
          |vm_compute; reflexivity|reflexivity|reflexivity|by vm_compute].
    + vm_compute. reflexivity.
    + reflexivity.
    + vm_compute. reflexivity.
    + vm_compute. reflexivity.
    + vm_compute. reflexivity.
    + by vm_compute.
Qed.

(** C1, amended.  On the dnd-kit page, distances being the doubles the
    page computes: a placed neighbour of the piece is a snap candidate
    exactly when the computed distance between the piece's position and the
    expected position [neighbor.position + (piece.correctPosition -
    neighbor.correctPosition)] is strictly below [snapThreshold] and, in a
    group drag, the neighbour is not itself part of the dragged group.  When
    a candidate exists, one of least computed distance is selected: a piece
    dropped from the pool ends exactly at the expected position computed
    from it; in a group drag every placed piece of the dragged group has the
    same computed offset [expected - position] of the selected group piece
    added to its position, which takes the selected group piece to its
    expected position up to the rounding of that difference and that
    sum. *)
Theorem dnd_snap_to_closest_candidate pieces prev snapThreshold pieceId :
  (∀ piece position, findPiece pieces pieceId = Some piece →
     let candidates := Engine64.snapCandidates pieces prev snapThreshold piece position in
     let result := placeFromPool prev pieceId position
                     (Engine64.checkAndSnapToNeighbors pieces prev snapThreshold
                        pieceId position) in
     (∀ nId, isCandidate64 pieces prev snapThreshold piece position nId ↔
             ∃ e, placedNeighbor64 pieces prev piece nId e
                  ∧ within64 snapThreshold position e)
     ∧ (candidates = [] →
        ∃ p, result !! pieceId = Some p ∧ PlacedPiece.position p = position
             ∧ PlacedPiece.isLocked p = false)
     ∧ (candidates ≠ [] →
        ∃ best p, best ∈ candidates ∧ leastDist64 best candidates
          ∧ placedNeighbor64 pieces prev piece (Engine64.neighborId best)
                             (Engine64.snapPos best)
          ∧ result !! pieceId = Some p
          ∧ PlacedPiece.position p = Engine64.snapPos best))
  ∧ (∀ deltaX deltaY,
     let connectedGroup := getConnectedGroup prev pieceId in
     let newMap := DndTriangle64.moveGroup prev connectedGroup deltaX deltaY in
     let result := DndTriangle64.dropPlaced pieces snapThreshold prev pieceId deltaX deltaY in
     let hit := groupHit64 pieces newMap snapThreshold connectedGroup in
     (∀ g n pos e, hit g n pos e ↔
        g ∈ connectedGroup ∧ (n ∉ connectedGroup) ∧
        ∃ groupPiece groupPlaced,
          findPiece pieces g = Some groupPiece ∧ newMap !! g = Some groupPlaced
          ∧ pos = PlacedPiece.position groupPlaced
          ∧ placedNeighbor64 pieces newMap groupPiece n e
          ∧ within64 snapThreshold pos e)
     ∧ (∀ n, n ∈ (DndTriangle64.scanGroup pieces newMap snapThreshold connectedGroup).2
             ↔ ∃ g pos e, hit g n pos e)
     ∧ ((∀ g n pos e, ¬ hit g n pos e) → result = newMap)
     ∧ (∀ g n pos e, hit g n pos e →
        ∃ g' n' pos' e',
          hit g' n' pos' e'
          ∧ (∀ g n pos e, hit g n pos e →
               (Engine64.distance pos' e' <= Engine64.distance pos e)%Q)
          ∧ (∀ i old, i ∈ connectedGroup → newMap !! i = Some old →
               ∃ new, result !! i = Some new
                 ∧ PlacedPiece.position new
                   = {| x := Double.add (x (PlacedPiece.position old))
                                        (Double.sub (x e') (x pos'));
                        y := Double.add (y (PlacedPiece.position old))
                                        (Double.sub (y e') (y pos')) |})
          ∧ (∃ new, result !! g' = Some new
               ∧ (Qabs (x (PlacedPiece.position new) - x e')
                  <= snapError (x e') (x pos'))%Q
               ∧ (Qabs (y (PlacedPiece.position new) - y e')
                  <= snapError (y e') (y pos'))%Q))).
Proof.
  split.
  - intros piece position Hpiece. by apply pool_drop64_snaps_to_closest.
  - intros deltaX deltaY connectedGroup newMap result hit.
    destruct (group_drop64_snaps_to_closest pieces snapThreshold prev pieceId deltaX deltaY)
      as (H1 & H2 & H3).
    split_and!; [|done..].
    intros g n pos e. unfold hit, groupHit64, hitAt64, placedNeighbor64, within64. split.
    + intros (Hg & (gp & Hgp & Hn) & Hout & Hne & gp' & gpl & npc & npl
              & Hgp' & Hgpl & Hnpl & Hnpc & -> & -> & Hnear).
      assert (gp' = gp) as -> by congruence.
      split; [done|]. split; [done|]. exists gp, gpl.
      split; [done|]. split; [done|]. split; [done|]. split; [|done].
      split; [done|]. split; [done|]. by exists npl, npc.
    + intros (Hg & Hout & gp & gpl & Hgp & Hgpl & -> & (Hn & Hne & npl & npc & Hnpl & Hnpc & ->)
              & Hnear).
      split; [done|]. split; [by exists gp|]. split; [done|]. split; [done|].
      by exists gp, gpl, npc, npl.
Qed.

(** The amended C1 at work: piece 0-1-0 released from the pool with the
    pointer at (573, 236), next to piece 0-0-0; and the joined pair dragged
    by (227, 264) pixels, next to piece 0-1-1. *)
Lemma dnd_snap_to_closest_candidate_witness :
  (let prev := DndTriangle.placedPieces Samples.photoOneDropped in
   let candidates :=
     Engine64.snapCandidates Samples.photoPieces prev 10 Samples.photoSecondPiece
                             Samples.photoSecondDropPoint in
   let result :=
     placeFromPool prev "piece-0-1-0" Samples.photoSecondDropPoint
       (Engine64.checkAndSnapToNeighbors Samples.photoPieces prev 10 "piece-0-1-0"
                                         Samples.photoSecondDropPoint) in
   findPiece Samples.photoPieces "piece-0-1-0" = Some Samples.photoSecondPiece
   ∧ candidates ≠ []
   ∧ ∃ best p, best ∈ candidates ∧ leastDist64 best candidates
       ∧ placedNeighbor64 Samples.photoPieces prev Samples.photoSecondPiece
                          (Engine64.neighborId best) (Engine64.snapPos best)
       ∧ result !! "piece-0-1-0" = Some p
       ∧ PlacedPiece.position p = Engine64.snapPos best)
  ∧ (let prev := DndTriangle.placedPieces Samples.photoThree in
     let deltaX := Double.div 227 Samples.photoScale in
     let deltaY := Double.div 264 Samples.photoScale in
     let connectedGroup := getConnectedGroup prev "piece-0-0-0" in
     let newMap := DndTriangle64.moveGroup prev connectedGroup deltaX deltaY in
     let result :=
       DndTriangle64.dropPlaced Samples.photoPieces 10 prev "piece-0-0-0"
                                deltaX deltaY in
     let hit := groupHit64 Samples.photoPieces newMap 10 connectedGroup in
     ∃ g' n' pos' e',
       hit g' n' pos' e'
       ∧ (∀ i old, i ∈ connectedGroup → newMap !! i = Some old →
            ∃ new, result !! i = Some new
              ∧ PlacedPiece.position new
                = {| x := Double.add (x (PlacedPiece.position old))
                                     (Double.sub (x e') (x pos'));
                     y := Double.add (y (PlacedPiece.position old))
                                     (Double.sub (y e') (y pos')) |})
       ∧ ∃ new, result !! g' = Some new
           ∧ (Qabs (x (PlacedPiece.position new) - x e') <= snapError (x e') (x pos'))%Q).
Proof.
  split.
  - intros prev candidates result.
    assert (findPiece Samples.photoPieces "piece-0-1-0" = Some Samples.photoSecondPiece)
      as Hpiece by reflexivity.
    assert (candidates ≠ []) as Hne by (by vm_compute).
    split; [exact Hpiece|]. split; [exact Hne|].
    destruct (dnd_snap_to_closest_candidate Samples.photoPieces prev 10 "piece-0-1-0")
      as [Hpool _].
    destruct (Hpool Samples.photoSecondPiece Samples.photoSecondDropPoint Hpiece)
      as (_ & _ & Hsnap).
    exact (Hsnap Hne).
  - intros prev deltaX deltaY connectedGroup newMap result hit.
    destruct (dnd_snap_to_closest_candidate Samples.photoPieces prev 10 "piece-0-0-0")
      as [_ Hgroup].
    destruct (Hgroup deltaX deltaY) as (_ & Hids & _ & Hbest).
    destruct (proj1 (Hids "piece-0-1-1")) as (g & pos & e & Hhit).
    { apply (bool_decide_unpack _). by vm_compute. }
    destruct (Hbest g "piece-0-1-1" pos e Hhit)
      as (g' & n' & pos' & e' & Hhit' & _ & Hall & new & Hnew & Hx & _).
    exists g', n', pos', e'. split; [exact Hhit'|]. split; [exact Hall|].
    exists new. by split.
Defined.

End SnapTarget.

(** ** Translation of a dragged group (C3) *)

Section RigidGroups.
Import Engine.

Lemma moveDragged64_lookup prev pieceIds primaryPieceId newX newY offsetX offsetY k :
  MouseTriangle64.moveDragged prev pieceIds primaryPieceId newX newY offsetX offsetY !! k
  = if bool_decide (k ∈ pieceIds)
    then if bool_decide (k = primaryPieceId)
         then Some {| PlacedPiece.id := k;
                      PlacedPiece.position := {| x := newX; y := newY |};
                      PlacedPiece.isLocked := false;
                      PlacedPiece.connectedGroup := [] |}
         else shiftedBy64 offsetX offsetY <$> prev !! k
    else prev !! k.
Proof.
  unfold MouseTriangle64.moveDragged.
  rewrite (foldl_same _
    (λ newMap i,
       match (if bool_decide (i = primaryPieceId)
              then Some {| PlacedPiece.id := i;
                           PlacedPiece.position := {| x := newX; y := newY |};
                           PlacedPiece.isLocked := false;
                           PlacedPiece.connectedGroup := [] |}
              else shiftedBy64 offsetX offsetY <$> prev !! i) with
       | Some v => <[i := v]> newMap
       | None => newMap
       end)).
  2:{ intros newMap i. case_bool_decide; [done|]. by destruct (prev !! i). }
  rewrite foldl_set_lookup. case_bool_decide; [|done].
  case_bool_decide; [done|]. by destruct (prev !! k).
Qed.

(** Two numbers shifted by the same [d], each sum rounded: their
    difference changes by at most the two roundings. *)
Lemma shifted_pair_drift a b d :
  (Qabs ((Double.add a d - Double.add b d) - (a - b))
   <= roundoff (a + d) + roundoff (b + d))%Q.
Proof.
  unfold Double.add.
  pose proof (roundoff_bound (a + d)) as Ha. pose proof (roundoff_bound (b + d)) as Hb.
  assert (Double.round (a + d) - Double.round (b + d) - (a - b)
          == (Double.round (a + d) - (a + d)) + - (Double.round (b + d) - (b + d)))%Q
    as -> by ring.
  eapply Qle_trans; [apply Qabs_triangle|]. rewrite Qabs_opp. lra.
Qed.

(** A number that follows an anchor moved from [p] to [n]: the rounded
    difference [n - p] is added to it. *)
Lemma follower_drift a p n :
  (Qabs ((Double.add a (Double.sub n p) - n) - (a - p))
   <= roundoff (n - p) + roundoff (a + Double.sub n p))%Q.
Proof.
  unfold Double.add, Double.sub. set (s := Double.round (n - p)).
  pose proof (roundoff_bound (n - p)) as Hs. fold s in Hs.
  pose proof (roundoff_bound (a + s)) as Ha.
  assert (Double.round (a + s) - n - (a - p)
          == (Double.round (a + s) - (a + s)) + (s - (n - p)))%Q as -> by ring.
  eapply Qle_trans; [apply Qabs_triangle|]. lra.
Qed.

(** The move of the dnd-kit page: every placed member of the group has the
    delta added to its position. *)
Lemma dnd_move64_shifts_group prev pieceId deltaX deltaY i old :
  i ∈ getConnectedGroup prev pieceId → prev !! i = Some old →
  ∃ new,
    DndTriangle64.moveGroup prev (getConnectedGroup prev pieceId) deltaX deltaY !! i
      = Some new
    ∧ PlacedPiece.position new
      = {| x := Double.add (x (PlacedPiece.position old)) deltaX;
           y := Double.add (y (PlacedPiece.position old)) deltaY |}.
Proof.
  intros Hi Hold. rewrite moveGroup64_lookup, bool_decide_eq_true_2, Hold by done.
  by eexists.
Qed.

Lemma dnd_move64_drift prev pieceId deltaX deltaY i j pi pj :
  i ∈ getConnectedGroup prev pieceId → j ∈ getConnectedGroup prev pieceId →
  prev !! i = Some pi → prev !! j = Some pj →
  ∃ pi' pj',
    DndTriangle64.moveGroup prev (getConnectedGroup prev pieceId) deltaX deltaY !! i
      = Some pi'
    ∧ DndTriangle64.moveGroup prev (getConnectedGroup prev pieceId) deltaX deltaY !! j
      = Some pj'
    ∧ (Qabs (x (relativeOffset pi' pj') - x (relativeOffset pi pj))
       <= roundoff (x (PlacedPiece.position pi) + deltaX)
          + roundoff (x (PlacedPiece.position pj) + deltaX))%Q
    ∧ (Qabs (y (relativeOffset pi' pj') - y (relativeOffset pi pj))
       <= roundoff (y (PlacedPiece.position pi) + deltaY)
          + roundoff (y (PlacedPiece.position pj) + deltaY))%Q.
Proof.
  intros Hi Hj Hpi Hpj.
  rewrite !moveGroup64_lookup, !bool_decide_eq_true_2, Hpi, Hpj by done.
  eexists _, _. split; [done|]. split; [done|].
  unfold relativeOffset, Point_sub, movedBy64. cbn [PlacedPiece.position x y].
  split; apply shifted_pair_drift.
Qed.

(** Pressing on a placed piece of the mouse-driven component takes its
    whole connected group in hand. *)
Lemma mouse_down64_takes_group e pieceId st r placed :
  MouseTriangle.rect e = Some r →
  MouseTriangle.placedPieces st !! pieceId = Some placed →
  ∃ ds,
    MouseTriangle.dragState (MouseTriangle64.handlePlacedPieceMouseDown e pieceId st)
      = Some ds
    ∧ MouseTriangle.pieceIds ds
      = getConnectedGroup (MouseTriangle.placedPieces st) pieceId
    ∧ MouseTriangle.placedPieces (MouseTriangle64.handlePlacedPieceMouseDown e pieceId st)
      = MouseTriangle.placedPieces st.
Proof.
  intros Hrect Hplaced. unfold MouseTriangle64.handlePlacedPieceMouseDown.
  rewrite Hrect, Hplaced. by eexists.
Qed.

(** One mouse move of the mouse-driven component. *)
Lemma mouse_move64_shifts_group e st ds primary rest r oldPrimary :
  MouseTriangle.dragState st = Some ds →
  MouseTriangle.pieceIds ds = primary :: rest →
  MouseTriangle.rect e = Some r →
  MouseTriangle.placedPieces st !! primary = Some oldPrimary →
  let newX := Double.sub (Double.sub (x (MouseTriangle.client e)) (x r))
                         (x (MouseTriangle.offset ds)) in
  let newY := Double.sub (Double.sub (y (MouseTriangle.client e)) (y r))
                         (y (MouseTriangle.offset ds)) in
  let offsetX := Double.sub newX (x (PlacedPiece.position oldPrimary)) in
  let offsetY := Double.sub newY (y (PlacedPiece.position oldPrimary)) in
  let placed' := MouseTriangle.placedPieces (MouseTriangle64.handleMouseMove e st) in
  (∃ new, placed' !! primary = Some new
          ∧ PlacedPiece.position new = {| x := newX; y := newY |})
  ∧ ∀ i old, i ∈ MouseTriangle.pieceIds ds → i ≠ primary →
      MouseTriangle.placedPieces st !! i = Some old →
      ∃ new,
        placed' !! i = Some new
        ∧ PlacedPiece.position new
          = {| x := Double.add (x (PlacedPiece.position old)) offsetX;
               y := Double.add (y (PlacedPiece.position old)) offsetY |}
        ∧ (Qabs ((x (PlacedPiece.position new) - newX)
                 - (x (PlacedPiece.position old) - x (PlacedPiece.position oldPrimary)))
           <= roundoff (newX - x (PlacedPiece.position oldPrimary))
              + roundoff (x (PlacedPiece.position old) + offsetX))%Q
        ∧ (Qabs ((y (PlacedPiece.position new) - newY)
                 - (y (PlacedPiece.position old) - y (PlacedPiece.position oldPrimary)))
           <= roundoff (newY - y (PlacedPiece.position oldPrimary))
              + roundoff (y (PlacedPiece.position old) + offsetY))%Q.
Proof.
  intros Hds Hids Hrect Hprim newX newY offsetX offsetY placed'.
  subst placed'. unfold MouseTriangle64.handleMouseMove. rewrite Hds, Hrect, Hids.
  cbn [MouseTriangle.placedPieces].
  unfold MouseTriangle64.dragTarget. rewrite Hprim.
  fold newX newY. fold offsetX offsetY. split.
  - rewrite moveDragged64_lookup.
    rewrite bool_decide_eq_true_2 by by left.
    rewrite bool_decide_eq_true_2 by done. by eexists.
  - intros i old Hi Hne Hold.
    rewrite moveDragged64_lookup.
    rewrite bool_decide_eq_true_2 by done.
    rewrite bool_decide_eq_false_2 by done. rewrite Hold.
    eexists. split; [done|]. split; [done|].
    unfold shiftedBy64. cbn [PlacedPiece.position x y].
    split; apply follower_drift.
Qed.

(** C3, as stated, fails: the relative offset of two group members changes
    with a move.  On the dnd-kit page the joined pair of pieces 0-0-0 and
    0-1-0, 866.6666666666666 apart, is dragged 37 pixels to the right and
    ends 866.6666666666667 apart; in the mouse-driven component the joined
    pair, grabbed by piece 0-0-0 and moved to (600, 300), ends one unit of
    the last place closer. *)
Lemma group_offset_counterexample :
  (∃ a b a' b',
     DndTriangle.placedPieces Samples.cornerJoinedDragged !! "piece-0-0-0" = Some a
     ∧ DndTriangle.placedPieces Samples.cornerJoinedDragged !! "piece-0-1-0" = Some b
     ∧ DndTriangle.placedPieces Samples.cornerPairMoved !! "piece-0-0-0" = Some a'
     ∧ DndTriangle.placedPieces Samples.cornerPairMoved !! "piece-0-1-0" = Some b'
     ∧ (x (relativeOffset b a) == 7623280619246933 # 8796093022208)%Q
     ∧ (x (relativeOffset b' a') == 30493122476987735 # 35184372088832)%Q
     ∧ (x (relativeOffset b' a') - x (relativeOffset b a) == 3 # 35184372088832)%Q)
  ∧ (let st := Samples.photoMouseGrabbed in
     let st' := MouseTriangle64.handleMouseMove (Samples.photoMouseAt 600 300) st in
     ∃ a b a' b',
       MouseTriangle.placedPieces st !! "piece-0-0-0" = Some a
       ∧ MouseTriangle.placedPieces st !! "piece-0-1-0" = Some b
       ∧ MouseTriangle.placedPieces st' !! "piece-0-0-0" = Some a'
       ∧ MouseTriangle.placedPieces st' !! "piece-0-1-0" = Some b'
       ∧ (x (relativeOffset b' a') - x (relativeOffset b a) == - 1 # 8796093022208)%Q).
Proof.
  split.
  - eexists _, _, _, _. split_and!; [vm_compute; reflexivity..| | |]; by vm_compute.
  - eexists _, _, _, _. split_and!; [vm_compute; reflexivity..|]; by vm_compute.
Qed.

(** C3, amended.  A drag-move adds the same computed delta to the position
    of every placed member of the dragged group, each sum being rounded on
    its own: in the move of the dnd-kit page the delta is [(deltaX,
    deltaY)]; in a mouse move of the mouse-driven component, where the
    pieces in hand are the connected group of the piece pressed, the first
    piece in hand goes to the pointer position less the grab offset and the
    rounded difference between that and its old position is added to the
    others.  The relative offset of two members changes by no more than
    the rounding of the two sums (of the difference and the sum, against the
    first piece in hand). *)
Theorem group_moves_by_rounded_delta :
  (∀ prev pieceId deltaX deltaY i old,
     i ∈ getConnectedGroup prev pieceId → prev !! i = Some old →
     ∃ new,
       DndTriangle64.moveGroup prev (getConnectedGroup prev pieceId) deltaX deltaY !! i
         = Some new
       ∧ PlacedPiece.position new
         = {| x := Double.add (x (PlacedPiece.position old)) deltaX;
              y := Double.add (y (PlacedPiece.position old)) deltaY |})
  ∧ (∀ prev pieceId deltaX deltaY i j pi pj,
     i ∈ getConnectedGroup prev pieceId → j ∈ getConnectedGroup prev pieceId →
     prev !! i = Some pi → prev !! j = Some pj →
     ∃ pi' pj',
       DndTriangle64.moveGroup prev (getConnectedGroup prev pieceId) deltaX deltaY !! i
         = Some pi'
       ∧ DndTriangle64.moveGroup prev (getConnectedGroup prev pieceId) deltaX deltaY !! j
         = Some pj'
       ∧ (Qabs (x (relativeOffset pi' pj') - x (relativeOffset pi pj))
          <= roundoff (x (PlacedPiece.position pi) + deltaX)
             + roundoff (x (PlacedPiece.position pj) + deltaX))%Q
       ∧ (Qabs (y (relativeOffset pi' pj') - y (relativeOffset pi pj))
          <= roundoff (y (PlacedPiece.position pi) + deltaY)
             + roundoff (y (PlacedPiece.position pj) + deltaY))%Q)
  ∧ (∀ e pieceId st r placed,
     MouseTriangle.rect e = Some r →
     MouseTriangle.placedPieces st !! pieceId = Some placed →
     ∃ ds,
       MouseTriangle.dragState (MouseTriangle64.handlePlacedPieceMouseDown e pieceId st)
         = Some ds
       ∧ MouseTriangle.pieceIds ds
         = getConnectedGroup (MouseTriangle.placedPieces st) pieceId
       ∧ MouseTriangle.placedPieces
           (MouseTriangle64.handlePlacedPieceMouseDown e pieceId st)
         = MouseTriangle.placedPieces st)
  ∧ (∀ e st ds primary rest r oldPrimary,
     MouseTriangle.dragState st = Some ds →
     MouseTriangle.pieceIds ds = primary :: rest →
     MouseTriangle.rect e = Some r →
     MouseTriangle.placedPieces st !! primary = Some oldPrimary →
     let newX := Double.sub (Double.sub (x (MouseTriangle.client e)) (x r))
                            (x (MouseTriangle.offset ds)) in
     let newY := Double.sub (Double.sub (y (MouseTriangle.client e)) (y r))
                            (y (MouseTriangle.offset ds)) in
     let offsetX := Double.sub newX (x (PlacedPiece.position oldPrimary)) in
     let offsetY := Double.sub newY (y (PlacedPiece.position oldPrimary)) in
     let placed' := MouseTriangle.placedPieces (MouseTriangle64.handleMouseMove e st) in
     (∃ new, placed' !! primary = Some new
             ∧ PlacedPiece.position new = {| x := newX; y := newY |})
     ∧ ∀ i old, i ∈ MouseTriangle.pieceIds ds → i ≠ primary →
         MouseTriangle.placedPieces st !! i = Some old →
         ∃ new,
           placed' !! i = Some new
           ∧ PlacedPiece.position new
             = {| x := Double.add (x (PlacedPiece.position old)) offsetX;
                  y := Double.add (y (PlacedPiece.position old)) offsetY |}
           ∧ (Qabs ((x (PlacedPiece.position new) - newX)
                    - (x (PlacedPiece.position old)
                       - x (PlacedPiece.position oldPrimary)))
              <= roundoff (newX - x (PlacedPiece.position oldPrimary))
                 + roundoff (x (PlacedPiece.position old) + offsetX))%Q
           ∧ (Qabs ((y (PlacedPiece.position new) - newY)
                    - (y (PlacedPiece.position old)
                       - y (PlacedPiece.position oldPrimary)))
              <= roundoff (newY - y (PlacedPiece.position oldPrimary))
                 + roundoff (y (PlacedPiece.position old) + offsetY))%Q).
Proof.
  split_and!.
  - apply dnd_move64_shifts_group.
  - apply dnd_move64_drift.
  - apply mouse_down64_takes_group.
  - apply mouse_move64_shifts_group.
Qed.

Lemma photoMouseGrabbed_drag :
  ∃ ds oldPrimary old,
    MouseTriangle.dragState Samples.photoMouseGrabbed = Some ds
    ∧ MouseTriangle.pieceIds ds = ["piece-0-0-0"; "piece-0-1-0"]
    ∧ MouseTriangle.offset ds = {| x := 7; y := 11 |}
    ∧ MouseTriangle.placedPieces Samples.photoMouseGrabbed !! "piece-0-0-0"
      = Some oldPrimary
    ∧ PlacedPiece.position oldPrimary = {| x := 83; y := 129 |}
    ∧ MouseTriangle.placedPieces Samples.photoMouseGrabbed !! "piece-0-1-0" = Some old
    ∧ PlacedPiece.position old = {| x := 8353356340090197 # 8796093022208; y := 129 |}.
Proof.
  eexists _, _, _. split_and!; vm_compute; reflexivity.
Qed.

Lemma cornerJoinedDragged_pair :
  ∃ a b,
    DndTriangle.placedPieces Samples.cornerJoinedDragged !! "piece-0-0-0" = Some a
    ∧ DndTriangle.placedPieces Samples.cornerJoinedDragged !! "piece-0-1-0" = Some b.
Proof. eexists _, _. split; vm_compute; reflexivity. Qed.

(** The amended C3 at work: the joined pair of the dnd-kit page dragged 37
    pixels to the right, and the joined pair of the mouse-driven component
    grabbed by piece 0-0-0 and moved to (600, 300): piece 0-0-0 goes to
    (293, 189) and piece 0-1-0 has (210, 60) added to its position. *)
Lemma group_moves_by_rounded_delta_witness :
  (let prev := DndTriangle.placedPieces Samples.cornerJoinedDragged in
   let deltaX := Double.div 37 Samples.photoScale in
   ∃ a b a' b',
     prev !! "piece-0-0-0" = Some a ∧ prev !! "piece-0-1-0" = Some b
     ∧ DndTriangle64.moveGroup prev (getConnectedGroup prev "piece-0-0-0") deltaX 0
         !! "piece-0-0-0" = Some a'
     ∧ DndTriangle64.moveGroup prev (getConnectedGroup prev "piece-0-0-0") deltaX 0
         !! "piece-0-1-0" = Some b'
     ∧ (Qabs (x (relativeOffset b' a') - x (relativeOffset b a))
        <= roundoff (x (PlacedPiece.position b) + deltaX)
           + roundoff (x (PlacedPiece.position a) + deltaX))%Q)
  ∧ (let st := Samples.photoMouseGrabbed in
     let placed' :=
       MouseTriangle.placedPieces
         (MouseTriangle64.handleMouseMove (Samples.photoMouseAt 600 300) st) in
     ∃ old new,
       MouseTriangle.placedPieces st !! "piece-0-1-0" = Some old
       ∧ placed' !! "piece-0-1-0" = Some new
       ∧ PlacedPiece.position new
         = {| x := Double.add (x (PlacedPiece.position old)) 210;
              y := Double.add (y (PlacedPiece.position old)) 60 |}).
Proof.
  destruct group_moves_by_rounded_delta as (_ & Hdrift & _ & Hmouse).
  split.
  - intros prev deltaX. destruct cornerJoinedDragged_pair as (a & b & Ha & Hb).
    destruct (Hdrift prev "piece-0-0-0" deltaX 0%Q "piece-0-1-0" "piece-0-0-0" b a)
      as (b' & a' & Hb' & Ha' & Hx & _).
    { apply (bool_decide_unpack _). vm_compute. exact I. }
    { apply (bool_decide_unpack _). vm_compute. exact I. }
    { exact Hb. }
    { exact Ha. }
    exists a, b, a', b'. split_and!; [exact Ha|exact Hb|exact Ha'|exact Hb'|exact Hx].
  - intros st placed'.
    destruct photoMouseGrabbed_drag
      as (ds & oldPrimary & old & Hds & Hids & Hoff & Hprim & Hpos & Hold & Hopos).
    destruct (Hmouse (Samples.photoMouseAt 600 300) st ds "piece-0-0-0" ["piece-0-1-0"]
                {| x := 300; y := 100 |} oldPrimary Hds Hids eq_refl Hprim)
      as (_ & Hothers).
    destruct (Hothers "piece-0-1-0" old) as (new & Hnew & Hnpos & _).
    { rewrite Hids. apply (bool_decide_unpack _). vm_compute. exact I. }
    { done. }
    { exact Hold. }
    exists old, new. split; [exact Hold|]. split; [exact Hnew|].
    rewrite Hnpos. rewrite Hoff, Hpos. cbn [x y Samples.photoMouseAt MouseTriangle.client].
    f_equal; f_equal; vm_compute; reflexivity.
Defined.

End RigidGroups.

(** ** Merging groups on a snap (C2) *)

Section Merging.
Import Engine.

Lemma traverseFrom_complete m skip start k :
  start ∉ skip → rtc (linked m) start k →
  k ∈ traverseFrom m skip start ∨ ∃ s, s ∈ skip ∧ rtc (linked m) s k.
Proof.
  intros Hstart Hr. revert k Hr. apply rtc_ind_r.
  - left. by apply traverseFrom_start.
  - intros y z _ Hl [Hy|(s & Hs & Hr)].
    + destruct (traverseFrom_closed _ _ _ _ _ Hy Hl) as [?|Hz]; [by left|].
      right. by exists z.
    + right. exists s. split; [done|]. by eapply rtc_r.
Qed.

Lemma mergedInto_intro result all :
  (∀ a, a ∈ all →
     ∃ p, result !! a = Some p ∧ PlacedPiece.isLocked p = true
          ∧ PlacedPiece.connectedGroup p = Set_without all a) →
  mergedInto result all.
Proof.
  intros H. split; [done|]. intros a b Ha Hb.
  destruct (decide (b = a)) as [->|Hne]; [apply getConnectedGroup_self|].
  eapply getConnectedGroup_closed; [apply getConnectedGroup_self|].
  destruct (H a Ha) as (p & Hp & _ & Hcg). exists p. split; [done|].
  rewrite Hcg. by apply elem_of_Set_without.
Qed.

(** A snapping drop from the pool of the dnd-kit page (and of the random
    page). *)
Lemma pool_drop_merges pieces snapThreshold prev pieceId position :
  linksWellFormed prev → prev !! pieceId = None →
  let snap := checkAndSnapToNeighbors pieces prev snapThreshold pieceId position in
  let all := Set_from (pieceId :: neighbors snap) in
  shouldSnap snap = true →
  pieceId ∈ all
  ∧ (∀ piece c k, findPiece pieces pieceId = Some piece →
       c ∈ snapCandidates pieces prev snapThreshold piece position →
       k ∈ getConnectedGroup prev (neighborId c) → k ∈ all)
  ∧ mergedInto (placeFromPool prev pieceId position snap) all.
Proof.
  intros Hwf Hfree snap all Hsnap.
  pose proof (snap_neighbors_nonempty _ _ _ _ _ Hsnap) as Hne. fold snap in Hne.
  assert (∀ k, k ∈ all ↔ k = pieceId ∨ k ∈ neighbors snap) as Hall.
  { intros k. unfold all. rewrite elem_of_Set_from. set_solver. }
  split_and!.
  - apply Hall. by left.
  - intros piece c k Hp Hc Hk. apply Hall. right. apply snap_neighbors. eauto.
  - apply mergedInto_intro. intros a Ha.
    rewrite placeFromPool_snap_lookup by done. simpl. fold all.
    case_bool_decide as Ha1; [subst a; by eexists|].
    apply Hall in Ha as [?|Ha]; [done|].
    rewrite bool_decide_eq_true_2 by done.
    destruct (snap_neighbors_placed _ _ _ _ _ _ Hwf Ha) as [old ->]. by eexists.
Qed.

(** A snapping group drop of the dnd-kit page. *)
Lemma group_drop_merges pieces snapThreshold prev pieceId deltaX deltaY bs ns :
  linksWellFormed prev →
  let connectedGroup := getConnectedGroup prev pieceId in
  let newMap := DndTriangle.moveGroup prev connectedGroup deltaX deltaY in
  let all := Set_from (connectedGroup
                       ++ DndTriangle.expandNeighbors newMap connectedGroup ns) in
  DndTriangle.scanGroup pieces newMap snapThreshold connectedGroup = (Some bs, ns) →
  (∀ i, i ∈ connectedGroup → i ∈ all)
  ∧ (∀ n k, n ∈ ns → k ∈ getConnectedGroup prev n → k ∈ all)
  ∧ mergedInto (DndTriangle.dropPlaced pieces snapThreshold prev pieceId deltaX deltaY)
               all.
Proof.
  intros Hwf G newMap all Escan.
  assert (∀ k, PlacedPiece.connectedGroup <$> newMap !! k
               = PlacedPiece.connectedGroup <$> prev !! k) as Hsame.
  { intros. apply moveGroup_links. }
  assert (linksWellFormed newMap) as Hwf' by by eapply linksWellFormed_same_links.
  pose proof (scanGroup_summary pieces newMap snapThreshold G) as Hsum.
  rewrite Escan in Hsum. destruct Hsum as (_ & Hids & Hb & _). simpl in *.
  assert (∀ k, k ∈ all ↔ k ∈ G ∨ ∃ n, n ∈ ns ∧ k ∈ traverseFrom newMap G n) as Hall.
  { intros k. unfold all. by rewrite elem_of_Set_from, elem_of_app, elem_of_expandNeighbors. }
  assert (is_Some (prev !! pieceId)) as Hpiece.
  { apply groupHit_placed in Hb as (Hg & Hgp & _).
    destruct (prev !! pieceId) eqn:E; [done|].
    unfold G in Hg. rewrite getConnectedGroup_unplaced in Hg by done.
    apply list_elem_of_singleton in Hg. rewrite Hg in Hgp.
    apply (same_links_is_Some prev newMap pieceId Hsame) in Hgp.
    rewrite E in Hgp. by destruct Hgp. }
  split_and!.
  - intros i Hi. apply Hall. by left.
  - intros n k Hn Hk. apply Hall.
    apply Hids in Hn as Hh. destruct Hh as (g & pos & e & Hh).
    apply groupHit_placed in Hh as (_ & _ & _ & Hout).
    apply getConnectedGroup_spec in Hk.
    apply (same_links_rtc prev newMap) in Hk; [|done].
    destruct (traverseFrom_complete newMap G n k Hout Hk) as [?|(s & Hs & Hr)]; [eauto|].
    left. unfold G. apply getConnectedGroup_spec. etrans.
    + apply getConnectedGroup_spec, Hs.
    + eapply same_links_rtc; [|done]. intros. symmetry. apply Hsame.
  - apply mergedInto_intro. intros a Ha.
    destruct (dropPlaced_cases pieces snapThreshold prev pieceId deltaX deltaY)
      as [[_ Hno]|(bs' & ns' & Escan' & ->)]; [by destruct (Hno _ _ _ _ Hb)|].
    fold G in Escan'. fold newMap in Escan'.
    assert (ns' = ns) as -> by congruence. fold G. fold newMap. fold all.
    rewrite mergeGroups_lookup by apply Set_from_NoDup.
    rewrite bool_decide_eq_true_2 by done.
    assert (is_Some (newMap !! a)) as [old ->].
    { apply Hall in Ha as [Hk|(n & Hn & Hk)].
      - apply (same_links_is_Some prev newMap a Hsame).
        by eapply getConnectedGroup_placed.
      - apply Hids in Hn as (g & pos & e & Hh).
        apply groupHit_placed in Hh as (_ & _ & Hnp & _).
        eapply rtc_linked_placed; [done..|]. by eapply traverseFrom_sound. }
    simpl. by eexists.
Qed.

(** In the dnd-kit page, after a successful snap merge every member of the
    dragged group, every snap-candidate neighbour and every piece of those
    neighbours' earlier groups is locked, lists all the others, and reaches
    each of them by traversal. *)
Theorem dnd_merge_links_and_locks pieces snapThreshold prev pieceId :
  linksWellFormed prev →
  (∀ position,
     prev !! pieceId = None →
     let snap := checkAndSnapToNeighbors pieces prev snapThreshold pieceId position in
     let all := Set_from (pieceId :: neighbors snap) in
     shouldSnap snap = true →
     pieceId ∈ all
     ∧ (∀ piece c k, findPiece pieces pieceId = Some piece →
          c ∈ snapCandidates pieces prev snapThreshold piece position →
          k ∈ getConnectedGroup prev (neighborId c) → k ∈ all)
     ∧ mergedInto (placeFromPool prev pieceId position snap) all)
  ∧ (∀ deltaX deltaY bs ns,
     let connectedGroup := getConnectedGroup prev pieceId in
     let newMap := DndTriangle.moveGroup prev connectedGroup deltaX deltaY in
     let all := Set_from (connectedGroup
                          ++ DndTriangle.expandNeighbors newMap connectedGroup ns) in
     DndTriangle.scanGroup pieces newMap snapThreshold connectedGroup = (Some bs, ns) →
     (∀ i, i ∈ connectedGroup → i ∈ all)
     ∧ (∀ n k, n ∈ ns → k ∈ getConnectedGroup prev n → k ∈ all)
     ∧ mergedInto
         (DndTriangle.dropPlaced pieces snapThreshold prev pieceId deltaX deltaY) all).
Proof.
  intros Hwf. split.
  - intros position Hfree. by apply pool_drop_merges.
  - intros deltaX deltaY bs ns. by apply group_drop_merges.
Qed.

(** C2 fails in the release of the mouse-driven component (the same text is
    the ['placed'] branch of [onUp] in the random page): piece 0-0-1 snaps to
    the placed neighbour 0-0-0, the two get linked, the dragged piece is
    locked, and the neighbour it snapped to keeps [isLocked = false]. *)
Theorem mouse_release_leaves_neighbor_unlocked :
  let before := Samples.mouseBeforeRelease in
  let after := MouseTriangle.handleMouseUp 20 before in
  let snap := checkAndSnapToNeighbors (MouseTriangle.pieces before)
                (MouseTriangle.placedPieces before) 20 "piece-0-0-1"
                Samples.secondDropPoint in
  MouseTriangle.dragState before
    = Some {| MouseTriangle.pieceIds := ["piece-0-0-1"];
              MouseTriangle.offset := {| x := 0; y := 0 |} |}
  ∧ PlacedPiece.position <$> MouseTriangle.placedPieces before !! "piece-0-0-1"
    = Some Samples.secondDropPoint
  ∧ shouldSnap snap = true ∧ neighbors snap = ["piece-0-0-0"]
  ∧ PlacedPiece.connectedGroup <$> MouseTriangle.placedPieces after !! "piece-0-0-1"
    = Some ["piece-0-0-0"]
  ∧ PlacedPiece.connectedGroup <$> MouseTriangle.placedPieces after !! "piece-0-0-0"
    = Some ["piece-0-0-1"]
  ∧ PlacedPiece.isLocked <$> MouseTriangle.placedPieces after !! "piece-0-0-1"
    = Some true
  ∧ PlacedPiece.isLocked <$> MouseTriangle.placedPieces after !! "piece-0-0-0"
    = Some false.
Proof. by vm_compute. Qed.

End Merging.

(** ** The solved check (C4) *)

Section SolvedCheck.
Import Engine.

Lemma placed_all_of_size (m : gmap string PlacedPiece.t) (l : list string) :
  NoDup l → (∀ i, is_Some (m !! i) → i ∈ l) → size m = length l →
  ∀ i, i ∈ l → is_Some (m !! i).
Proof.
  intros Hnd Hsub Hsize i Hi.
  assert (dom m = list_to_set (C := gset string) l) as Hdom.
  { apply set_subseteq_size_eq.
    - intros k Hk%elem_of_dom. apply elem_of_list_to_set. by apply Hsub.
    - rewrite size_dom, size_list_to_set by done. lia. }
  apply elem_of_dom. rewrite Hdom. by apply elem_of_list_to_set.
Qed.

Lemma size_of_placed_all (m : gmap string PlacedPiece.t) (l : list string) :
  NoDup l → (∀ i, is_Some (m !! i) → i ∈ l) → (∀ i, i ∈ l → is_Some (m !! i)) →
  size m = length l.
Proof.
  intros Hnd Hsub Hall.
  assert (dom m = list_to_set (C := gset string) l) as Hdom.
  { apply set_eq. intros k. rewrite elem_of_dom, elem_of_list_to_set. split; auto. }
  by rewrite <- size_dom, Hdom, size_list_to_set.
Qed.

Lemma same_members_length (l k : list string) :
  NoDup l → NoDup k → (∀ i, i ∈ l ↔ i ∈ k) → length l = length k.
Proof.
  intros Hl Hk Hiff. apply Permutation_length. apply NoDup_Permutation; done.
Qed.

Lemma members_of_length (l k : list string) :
  NoDup l → (∀ i, i ∈ l → i ∈ k) → length l = length k → ∀ i, i ∈ k → i ∈ l.
Proof.
  intros Hl Hsub Hlen i Hi.
  assert (l ≡ₚ k) as Hperm.
  { apply submseteq_length_Permutation; [by apply NoDup_submseteq|lia]. }
  by rewrite Hperm.
Qed.

(** In the dnd-kit page the solved check is the connectivity rule. *)
Theorem dnd_solved_iff_single_group snapThreshold pieces0 st :
  NoDup (ids pieces0) → pieces0 ≠ [] →
  DndTriangle.reachable snapThreshold pieces0 st →
  DndTriangle.solvedCheck st = true
  ↔ singleGroup pieces0 (DndTriangle.placedPieces st) (DndTriangle.poolItems st).
Proof.
  intros Hnd Hne (a0 & lost & [Hp Hpu Hpi Hpl Hcov Hout Hlost Hl])%reachable_sessionInv.
  unfold DndTriangle.solvedCheck, singleGroup. rewrite Hp.
  destruct pieces0 as [|first rest] eqn:Hpieces; [done|]. rewrite <- Hpieces in *.
  assert (Piece.id first ∈ ids pieces0) as Hfirst.
  { rewrite Hpieces. by left. }
  fold (getConnectedGroup (DndTriangle.placedPieces st) (Piece.id first)).
  assert (length (ids pieces0) = length pieces0) as Hlen by apply length_map.
  rewrite !andb_true_iff, !bool_decide_eq_true. split.
  - intros [[Hsize Hpool] Hgroup].
    assert (∀ i, i ∈ ids pieces0 → is_Some (DndTriangle.placedPieces st !! i)) as Hall.
    { apply placed_all_of_size; [done..|lia]. }
    assert (∀ b, b ∈ ids pieces0 →
                 b ∈ getConnectedGroup (DndTriangle.placedPieces st) (Piece.id first))
      as Hreach.
    { apply members_of_length; [apply getConnectedGroup_NoDup| |lia].
      intros i Hi. apply Hpl. eapply getConnectedGroup_placed; [done| |done]. by apply Hall. }
    split_and!; [by apply length_zero_iff_nil|done|].
    intros a b Ha Hb. etrans.
    + apply rtc_linked_sym; [done|]. apply getConnectedGroup_spec. by apply Hreach.
    + apply getConnectedGroup_spec. by apply Hreach.
  - intros (Hpool & Hall & Hreach). split_and!.
    + rewrite <- Hlen. by apply size_of_placed_all.
    + by rewrite Hpool.
    + rewrite <- Hlen. apply same_members_length; [apply getConnectedGroup_NoDup|done|].
      intros i. split.
      * intros Hi. apply Hpl. eapply getConnectedGroup_placed; [done| |done]. by apply Hall.
      * intros Hi. apply getConnectedGroup_spec. by apply Hreach.
Qed.

(** C4 fails in the random page (and in the mouse-driven component, whose
    check is the same): with pieces 0 and 1 joined in one place and pieces 2
    and 3 joined 50 units off, every piece is locked and the pool is empty,
    so the puzzle is reported solved, although the links form two groups and
    piece 2 is not reached from piece 0. *)
Theorem random_page_solved_with_two_groups :
  let st := Samples.randomTwoClusters in
  RandomPage.poolItems st = []
  ∧ RandomPage.solvedCheck st = true
  ∧ RandomPage.isSolved st = true
  ∧ getConnectedGroup (RandomPage.placedPieces st) "piece-0-0-0"
    = ["piece-0-0-0"; "piece-0-0-1"]
  ∧ ¬ rtc (linked (RandomPage.placedPieces st)) "piece-0-0-0" "piece-0-0-2"
  ∧ ¬ singleGroup Samples.randomPieces (RandomPage.placedPieces st)
        (RandomPage.poolItems st).
Proof.
  assert (¬ rtc (linked (RandomPage.placedPieces Samples.randomTwoClusters))
              "piece-0-0-0" "piece-0-0-2") as Hno.
  { rewrite <- getConnectedGroup_spec. apply (bool_decide_unpack _). by vm_compute. }
  split_and!; [by vm_compute..|exact Hno|].
  intros (_ & _ & Hreach). apply Hno.
  apply Hreach; apply (bool_decide_unpack _); by vm_compute.
Qed.

(** The lock count of the mouse-driven component errs in the other
    direction as well: with both pieces of a two-piece puzzle placed and
    joined into one group, the piece that was snapped to is left unlocked,
    and the puzzle is not reported solved. *)
Lemma mouse_component_single_group_not_solved :
  let st := Samples.mousePairJoined in
  MouseTriangle.poolItems st = []
  ∧ map Piece.id (MouseTriangle.pieces st) = ["piece-0-0-0"; "piece-0-0-1"]
  ∧ getConnectedGroup (MouseTriangle.placedPieces st) "piece-0-0-0"
    = ["piece-0-0-0"; "piece-0-0-1"]
  ∧ getConnectedGroup (MouseTriangle.placedPieces st) "piece-0-0-1"
    = ["piece-0-0-1"; "piece-0-0-0"]
  ∧ MouseTriangle.lockedCount (MouseTriangle.placedPieces st) = 1
  ∧ MouseTriangle.solvedCheck st = false
  ∧ MouseTriangle.isSolved st = false.
Proof. vm_compute. by split_and!. Qed.

End SolvedCheck.

(** ** Adjacency: edge keys (C6) *)

Section Adjacency.
Import Engine.

Lemma EdgeKey_eqb_spec a b :
  EdgeKey_eqb a b = true
  ↔ (kx0 a == kx0 b ∧ ky0 a == ky0 b ∧ kx1 a == kx1 b ∧ ky1 a == ky1 b)%Q.
Proof.
  unfold EdgeKey_eqb. rewrite !andb_true_iff, !Qeq_bool_iff. tauto.
Qed.

Lemma EdgeKey_eqb_refl a : EdgeKey_eqb a a = true.
Proof. apply EdgeKey_eqb_spec. by split_and!. Qed.

Lemma EdgeKey_eqb_cong a b c :
  EdgeKey_eqb a b = true → EdgeKey_eqb a c = EdgeKey_eqb b c.
Proof.
  intros (H1 & H2 & H3 & H4)%EdgeKey_eqb_spec.
  destruct (EdgeKey_eqb a c) eqn:Ea, (EdgeKey_eqb b c) eqn:Eb; try done.
  - apply EdgeKey_eqb_spec in Ea as (A1 & A2 & A3 & A4).
    apply not_true_iff_false in Eb. destruct Eb. apply EdgeKey_eqb_spec.
    split_and!; lra.
  - apply EdgeKey_eqb_spec in Eb as (A1 & A2 & A3 & A4).
    apply not_true_iff_false in Ea. destruct Ea. apply EdgeKey_eqb_spec.
    split_and!; lra.
Qed.

Lemma EdgeKey_eqb_sym a b : EdgeKey_eqb a b = EdgeKey_eqb b a.
Proof.
  destruct (EdgeKey_eqb a b) eqn:E.
  - by rewrite <- (EdgeKey_eqb_cong a b a E), EdgeKey_eqb_refl.
  - destruct (EdgeKey_eqb b a) eqn:E'; [|done].
    by rewrite <- (EdgeKey_eqb_cong b a b E'), EdgeKey_eqb_refl in E.
Qed.

Lemma Object_get_cong o key key' :
  EdgeKey_eqb key key' = true → Object_get o key = Object_get o key'.
Proof.
  intros E. induction o as [|[k v] o IH]; [done|]. simpl.
  rewrite (EdgeKey_eqb_sym k key), (EdgeKey_eqb_sym k key'), (EdgeKey_eqb_cong _ _ k E).
  by rewrite IH.
Qed.

Lemma Object_get_set_eq o key value key' :
  EdgeKey_eqb key key' = true →
  Object_get (TriangleGrid.Object_set o key value) key' = Some value.
Proof.
  intros E. induction o as [|[k v] o IH]; simpl.
  - by rewrite E.
  - destruct (EdgeKey_eqb k key) eqn:Ek; simpl.
    + by rewrite (EdgeKey_eqb_cong _ _ _ Ek), E.
    + rewrite (EdgeKey_eqb_sym k key'), <- (EdgeKey_eqb_cong _ _ k E).
      by rewrite (EdgeKey_eqb_sym key k), Ek.
Qed.

Lemma Object_get_set_ne o key value key' :
  EdgeKey_eqb key key' = false →
  Object_get (TriangleGrid.Object_set o key value) key' = Object_get o key'.
Proof.
  intros E. induction o as [|[k v] o IH]; simpl.
  - by rewrite E.
  - destruct (EdgeKey_eqb k key) eqn:Ek; simpl.
    + by rewrite (EdgeKey_eqb_cong _ _ _ Ek), E.
    + by rewrite IH.
Qed.

Lemma Object_get_elem_of o key v :
  Object_get o key = Some v →
  ∃ k, (k, v) ∈ o ∧ EdgeKey_eqb k key = true.
Proof.
  induction o as [|[k w] o IH]; [done|]. simpl.
  destruct (EdgeKey_eqb k key) eqn:E.
  - intros [= ->]. exists k. split; [by left|done].
  - intros (k' & Hin & Hk')%IH. exists k'. split; [by right|done].
Qed.

(** The check [mirrored] decides one direction of the symmetry for every
    pair, hence the symmetry. *)
Lemma mirrored_symmetricUnderKey pieces :
  mirrored pieces = true → symmetricUnderKey pieces.
Proof.
  intros Hm.
  assert (∀ a b key, listsUnder pieces a b key → listsUnder pieces b a key) as Hdir.
  { intros a b key (A & HA & Hget).
    destruct (findPiece_Some_id _ _ _ HA) as [HAin HAid].
    unfold mirrored in Hm. rewrite forallb_forall in Hm.
    specialize (Hm A (proj1 (list_elem_of_In _ _) HAin)). rewrite forallb_forall in Hm.
    destruct (Object_get_elem_of _ _ _ Hget) as (k & Hk & Ek).
    specialize (Hm (k, b) (proj1 (list_elem_of_In _ _) Hk)). simpl in Hm.
    rewrite (Object_get_cong _ _ _ Ek), Hget in Hm.
    destruct (findPiece pieces b) as [B|] eqn:HB; [|done].
    apply bool_decide_eq_true in Hm. exists B. split; [done|].
    by rewrite <- (Object_get_cong _ _ _ Ek), Hm, HAid. }
  intros a b key. split; apply Hdir.
Qed.

Lemma listsUnder_iff pieces a b key :
  listsUnder pieces a b key
  ↔ (findPiece pieces a ≫= λ A, Object_get (Piece.neighbors A) key) = Some b.
Proof.
  unfold listsUnder. split.
  - intros (A & -> & Hget). done.
  - destruct (findPiece pieces a) as [A|]; [|done]. simpl. intros Hget. by exists A.
Qed.

(** C6 fails in the two-triangle grid (the dnd-kit page and the mouse-driven
    component share the text of [setupNeighbors]): each piece builds the key
    from its own vertices in its own vertex order.  In the 2 x 2 grid over a
    200 x 200 image, piece 0-0-1 lists piece 1-0-0 under the key
    [100,100-0,100], while piece 1-0-0 has nothing under that key and lists
    piece 0-0-1 under [0,100-100,100]. *)
Theorem triangle_edge_keys_differ :
  let key := {| kx0 := 100; ky0 := 100; kx1 := 0; ky1 := 100 |} in
  let key' := {| kx0 := 0; ky0 := 100; kx1 := 100; ky1 := 100 |} in
  Samples.trianglePieces = TriangleGrid.createTrianglePuzzle 200 200 2 2
  ∧ listsUnder Samples.trianglePieces "piece-0-0-1" "piece-1-0-0" key
  ∧ ¬ listsUnder Samples.trianglePieces "piece-1-0-0" "piece-0-0-1" key
  ∧ listsUnder Samples.trianglePieces "piece-1-0-0" "piece-0-0-1" key'
  ∧ ¬ symmetricUnderKey Samples.trianglePieces.
Proof.
  intros key key'.
  assert (listsUnder Samples.trianglePieces "piece-0-0-1" "piece-1-0-0" key) as H1.
  { apply listsUnder_iff. vm_compute. reflexivity. }
  assert (¬ listsUnder Samples.trianglePieces "piece-1-0-0" "piece-0-0-1" key) as H2.
  { rewrite listsUnder_iff. vm_compute. discriminate. }
  split; [vm_compute; reflexivity|]. split; [exact H1|]. split; [exact H2|].
  split; [apply listsUnder_iff; vm_compute; reflexivity|].
  intros Hsym. apply H2. by apply Hsym.
Qed.

(** With a drift in the coordinates the two keys differ in their numbers as
    well: the key is not rounded. *)
Example drifted_edge_keys_differ :
  map (λ p, (Piece.id p, Piece.neighbors p))
      (TriangleGrid.setupNeighbors [Samples.driftA; Samples.driftB])
  = [ ("piece-0-0-0",
       [({| kx0 := 0; ky0 := 0; kx1 := 10; ky1 := 10 |}, "piece-0-0-1")]);
      ("piece-0-0-1",
       [({| kx0 := 1 # 20; ky0 := 0; kx1 := 201 # 20; ky1 := 201 # 20 |},
         "piece-0-0-0")]) ].
Proof. vm_compute. reflexivity. Qed.

(** The four-triangle grid sorts the shared points, rounds them and writes
    both entries under the one key: there the relation is symmetric under a
    common key, here for a single cell and for a grid of 2 x 3 cells. *)
Lemma random_grid_keys_symmetric :
  symmetricUnderKey Samples.randomPieces
  ∧ symmetricUnderKey (RandomGrid.createTrianglePuzzle 400 300 2 3 800).
Proof. split; apply mirrored_symmetricUnderKey; vm_compute; reflexivity. Qed.

(** Leaving the keys aside, the two-triangle grid lists neighbours
    mutually. *)
Example triangle_grid_adjacency :
  adjacency Samples.trianglePieces
  = [ ("piece-0-0-0", ["piece-0-0-1"; "piece-0-1-0"]);
      ("piece-0-0-1", ["piece-0-0-0"; "piece-1-0-0"]);
      ("piece-0-1-0", ["piece-0-0-0"; "piece-0-1-1"]);
      ("piece-0-1-1", ["piece-0-1-0"; "piece-1-1-0"]);
      ("piece-1-0-0", ["piece-0-0-1"; "piece-1-0-1"]);
      ("piece-1-0-1", ["piece-1-0-0"; "piece-1-1-1"]);
      ("piece-1-1-0", ["piece-0-1-1"; "piece-1-1-1"]);
      ("piece-1-1-1", ["piece-1-0-1"; "piece-1-1-0"]) ].
Proof. vm_compute. reflexivity. Qed.

Lemma elem_of_sharedPoints piece otherPiece p :
  p ∈ TriangleGrid.sharedPoints piece otherPiece
  ↔ p ∈ Piece.polygon piece
    ∧ ∃ q, q ∈ Piece.polygon otherPiece ∧ TriangleGrid.coincide p q = true.
Proof.
  unfold TriangleGrid.sharedPoints.
  rewrite list_elem_of_In, filter_In, <- list_elem_of_In, existsb_exists.
  by setoid_rewrite <- list_elem_of_In.
Qed.

Lemma linkTo_cases piece o otherPiece :
  TriangleGrid.linkTo piece o otherPiece = o
  ∨ ∃ p0 p1, Piece.id piece ≠ Piece.id otherPiece
      ∧ TriangleGrid.sharedPoints piece otherPiece = [p0; p1]
      ∧ TriangleGrid.linkTo piece o otherPiece
        = TriangleGrid.Object_set o (keyOf p0 p1) (Piece.id otherPiece).
Proof.
  unfold TriangleGrid.linkTo. case_bool_decide; [by left|].
  destruct (TriangleGrid.sharedPoints piece otherPiece) as [|p0 [|p1 [|? ?]]] eqn:E;
    [by left..| |by left].
  right. by exists p0, p1.
Qed.

End Adjacency.

(** ** Grid lines in double precision *)

Section GridLines.
Import Engine.

Lemma Qred_inject_Z n : Qred (inject_Z n) = inject_Z n.
Proof.
  unfold Qred, inject_Z.
  pose proof (Z.ggcd_gcd n 1) as Hg. pose proof (Z.ggcd_correct_divisors n 1) as Hd.
  destruct (Z.ggcd n 1) as [g [a b]]. simpl in *.
  rewrite Z.gcd_1_r in Hg. subst g. destruct Hd as [Ha Hb].
  assert (a = n) as -> by lia. assert (b = 1%Z) as -> by lia. done.
Qed.

Lemma round_canonical q : Qred (Double.round q) = Double.round q.
Proof.
  unfold Double.round. destruct (Qeq_bool q 0); [done|].
  apply Qred_complete, Qred_correct.
Qed.

(** Whole numbers up to [2^53] are doubles, in lowest terms. *)
Lemma round_integer_eq n :
  (Z.abs n ≤ 2 ^ 53)%Z → Double.round (inject_Z n) = inject_Z n.
Proof.
  intros Hn. rewrite <- round_canonical. rewrite <- (Qred_inject_Z n) at 2.
  apply Qred_complete, round_integer, Hn.
Qed.

Lemma Qofnat_S n : (TriangleGrid.Qofnat n + 1 == TriangleGrid.Qofnat (S n))%Q.
Proof.
  unfold TriangleGrid.Qofnat. rewrite Nat2Z.inj_succ, <- Z.add_1_r, inject_Z_plus. done.
Qed.

(** [col + 1] is the next whole number. *)
Lemma add_Qofnat_1 n :
  (n < 2 ^ 52)%nat → Double.add (TriangleGrid.Qofnat n) 1 = TriangleGrid.Qofnat (S n).
Proof.
  intros Hn. unfold Double.add. rewrite (round_comp _ _ (Qofnat_S n)).
  apply round_integer_eq.
  apply Nat2Z.inj_lt in Hn. rewrite Nat2Z.inj_pow in Hn. simpl Z.of_nat in Hn at 2 3.
  lia.
Qed.

Lemma Qofnat_nonneg n : (0 <= TriangleGrid.Qofnat n)%Q.
Proof.
  unfold TriangleGrid.Qofnat. change 0%Q with (inject_Z 0). rewrite <- Zle_Qle. lia.
Qed.

Lemma Qofnat_le m n : m ≤ n → (TriangleGrid.Qofnat m <= TriangleGrid.Qofnat n)%Q.
Proof. intros H. unfold TriangleGrid.Qofnat. rewrite <- Zle_Qle. lia. Qed.

Lemma Qofnat_lt_S m n :
  m < n → (TriangleGrid.Qofnat m + 1 <= TriangleGrid.Qofnat n)%Q.
Proof. intros H. rewrite Qofnat_S. apply Qofnat_le. lia. Qed.

Lemma small_units :
  (Double.pow2 (-53) <= 1 # 1000 ∧ Double.pow2 (-1075) <= 1 # 1000)%Q.
Proof. split; by vm_compute. Qed.

(** The grid lines [i * cell], for a cell of a seventh of a pixel or more
    and up to six cells, are further apart than the tolerance. *)
Lemma grid_lines_apart cell i j :
  (1 # 7 <= cell)%Q → i < j → j ≤ 6 →
  (11 # 100 <= Double.mul (TriangleGrid.Qofnat j) cell
               - Double.mul (TriangleGrid.Qofnat i) cell)%Q.
Proof.
  intros Hc Hij Hj. unfold Double.mul.
  pose proof (Qofnat_nonneg i) as Hi0. pose proof (Qofnat_lt_S i j Hij) as Hab.
  pose proof (Qofnat_le j 6 Hj) as Hb6.
  change (TriangleGrid.Qofnat 6) with 6%Q in Hb6.
  set (a := TriangleGrid.Qofnat i) in *. set (b := TriangleGrid.Qofnat j) in *.
  destruct small_units as [Hu Hh].
  pose proof (pow2_pos (-53)) as Hu0. pose proof (pow2_pos (-1075)) as Hh0.
  pose proof (roundoff_bound (a * cell)) as Ha. pose proof (roundoff_bound (b * cell)) as Hb.
  unfold roundoff in Ha, Hb.
  set (u := Double.pow2 (-53)) in *. set (h := Double.pow2 (-1075)) in *.
  assert (0 <= a * cell)%Q as HA0 by (apply Qmult_le_0_compat; lra).
  assert (0 <= b * cell)%Q as HB0 by (apply Qmult_le_0_compat; lra).
  rewrite (Qabs_pos (a * cell)) in Ha by done.
  rewrite (Qabs_pos (b * cell)) in Hb by done.
  apply Qabs_le_iff in Ha, Hb.
  assert (b * cell <= 6 * cell)%Q as HB6 by (apply Qmult_le_compat_r; lra).
  assert ((a + 1) * cell <= b * cell)%Q as HAB by (apply Qmult_le_compat_r; lra).
  assert ((a + 1) * cell == a * cell + cell)%Q as E by ring. rewrite E in HAB.
  assert (a * cell * u <= a * cell * (1 # 1000))%Q as HAu.
  { rewrite !(Qmult_comm (a * cell)). by apply Qmult_le_compat_r. }
  assert (b * cell * u <= b * cell * (1 # 1000))%Q as HBu.
  { rewrite !(Qmult_comm (b * cell)). by apply Qmult_le_compat_r. }
  lra.
Qed.

(** Two doubles that are more than the tolerance apart do not coincide, in
    either order. *)
Lemma apart_not_near X Y :
  (11 # 100 <= X - Y)%Q →
  Qltb (Qabs (Double.sub X Y)) TriangleGrid64.tolerance = false
  ∧ Qltb (Qabs (Double.sub Y X)) TriangleGrid64.tolerance = false
  ∧ Qeq_bool X Y = false ∧ Qeq_bool Y X = false.
Proof.
  intros H.
  assert (TriangleGrid64.tolerance <= Double.round (X - Y))%Q as Hr.
  { apply (Qle_trans _ (Double.round (11 # 100))); [by vm_compute|by apply round_mono]. }
  assert (0 < TriangleGrid64.tolerance)%Q as Ht by (by vm_compute).
  split_and!.
  - apply Qltb_ge. unfold Double.sub. rewrite Qabs_pos by lra. done.
  - apply Qltb_ge. unfold Double.sub.
    assert (Y - X == - (X - Y))%Q as E by ring.
    rewrite (round_comp _ _ E), round_opp, Qabs_opp, Qabs_pos by lra. done.
  - apply not_true_iff_false. intros E%Qeq_bool_iff. lra.
  - apply not_true_iff_false. intros E%Qeq_bool_iff. lra.
Qed.

Lemma same_near X :
  Qltb (Qabs (Double.sub X X)) TriangleGrid64.tolerance = true.
Proof.
  unfold Double.sub. assert (X - X == 0)%Q as E by ring.
  rewrite (round_zero _ E). by vm_compute.
Qed.

(** The tests [setupNeighbors] makes on two grid lines tell whether they
    are the same line. *)
Lemma grid_line_tests cell i j :
  (1 # 7 <= cell)%Q → i ≤ 6 → j ≤ 6 →
  let X n := Double.mul (TriangleGrid.Qofnat n) cell in
  Qltb (Qabs (Double.sub (X i) (X j))) TriangleGrid64.tolerance = bool_decide (i = j)
  ∧ Qeq_bool (X i) (X j) = bool_decide (i = j).
Proof.
  intros Hc Hi Hj X. destruct (lt_eq_lt_dec i j) as [[Hlt| ->]|Hlt].
  - rewrite bool_decide_eq_false_2 by lia.
    destruct (apart_not_near (X j) (X i)) as (_ & H1 & _ & H2); [|done].
    by apply grid_lines_apart.
  - rewrite bool_decide_eq_true_2 by done. split; [apply same_near|].
    by apply Qeq_bool_iff.
  - rewrite bool_decide_eq_false_2 by lia.
    destruct (apart_not_near (X i) (X j)) as (H1 & _ & H2 & _); [|done].
    by apply grid_lines_apart.
Qed.

(** A side of a whole number of pixels cut in up to six cells gives cells
    of a seventh of a pixel or more. *)
Lemma cell_at_least (side : Z) (n : nat) :
  (1 ≤ side)%Z → 1 ≤ n → n ≤ 6 →
  (1 # 7 <= Double.div (inject_Z side) (TriangleGrid.Qofnat n))%Q.
Proof.
  intros Hs H1 H6. unfold Double.div.
  apply (Qle_trans _ (Double.round (1 # 6))); [by vm_compute|].
  apply round_mono.
  pose proof (Qofnat_le 1 n H1) as Hn1. pose proof (Qofnat_le n 6 H6) as Hn6.
  change (TriangleGrid.Qofnat 1) with 1%Q in Hn1.
  change (TriangleGrid.Qofnat 6) with 6%Q in Hn6.
  assert (1 <= inject_Z side)%Q as Hs'.
  { change 1%Q with (inject_Z 1). by rewrite <- Zle_Qle. }
  apply Qle_shift_div_l; lra.
Qed.

End GridLines.

Section Transfer.
Import Engine.
Context (X Y : Q → Q) (Sx Sy : list Q).
Context (HX : keepsTests X Sx) (HY : keepsTests Y Sy).

Local Abbreviation f := (mapPoint X Y).
Local Abbreviation onLines := (onLines Sx Sy).

Lemma filter_map_agree {A B} (P : B → bool) (P0 : A → bool) (g : A → B) l :
  (∀ u, u ∈ l → P (g u) = P0 u) →
  List.filter P (map g l) = map g (List.filter P0 l).
Proof.
  induction l as [|u l IH]; intros H; simpl; [done|].
  rewrite (H u) by by left. rewrite IH by (intros v Hv; apply H; by right).
  by destruct (P0 u).
Qed.

Lemma existsb_map_agree {A B} (P : B → bool) (P0 : A → bool) (g : A → B) l :
  (∀ u, u ∈ l → P (g u) = P0 u) →
  existsb P (map g l) = existsb P0 l.
Proof.
  induction l as [|u l IH]; intros H; simpl; [done|].
  rewrite (H u) by by left. by rewrite IH by (intros v Hv; apply H; by right).
Qed.

Lemma coincide_mapPoint u v :
  onLines u → onLines v →
  TriangleGrid64.coincide (f u) (f v) = TriangleGrid64.coincide u v.
Proof using HX HY.
  intros [Hux Huy] [Hvx Hvy]. unfold TriangleGrid64.coincide. simpl.
  destruct (HX _ _ Hux Hvx) as [-> _]. by destruct (HY _ _ Huy Hvy) as [-> _].
Qed.

Lemma samePoint_mapPoint u v :
  onLines u → onLines v → samePoint (f u) (f v) = samePoint u v.
Proof using HX HY.
  intros [Hux Huy] [Hvx Hvy]. unfold samePoint. simpl.
  destruct (HX _ _ Hux Hvx) as [_ ->]. by destruct (HY _ _ Huy Hvy) as [_ ->].
Qed.

Lemma EdgeKey_eqb_mapPoint a b c d :
  onLines a → onLines b → onLines c → onLines d →
  EdgeKey_eqb (keyOf (f a) (f b)) (keyOf (f c) (f d))
  = EdgeKey_eqb (keyOf a b) (keyOf c d).
Proof using HX HY.
  intros [Hax Hay] [Hbx Hby] [Hcx Hcy] [Hdx Hdy]. unfold EdgeKey_eqb, keyOf. simpl.
  destruct (HX _ _ Hax Hcx) as [_ ->]. destruct (HY _ _ Hay Hcy) as [_ ->].
  destruct (HX _ _ Hbx Hdx) as [_ ->]. by destruct (HY _ _ Hby Hdy) as [_ ->].
Qed.

Lemma sharedPoints_drawnFrom p p0 q q0 :
  drawnFrom X Y p p0 → drawnFrom X Y q q0 →
  pieceOnLines Sx Sy p0 → pieceOnLines Sx Sy q0 →
  TriangleGrid64.sharedPoints p q = map f (TriangleGrid64.sharedPoints p0 q0).
Proof using HX HY.
  intros [_ Hp] [_ Hq] Hp0 Hq0. unfold TriangleGrid64.sharedPoints. rewrite Hp, Hq.
  unfold pieceOnLines in *. rewrite Forall_forall in Hp0, Hq0.
  apply filter_map_agree. intros u Hu. apply existsb_map_agree. intros v Hv.
  apply coincide_mapPoint; auto.
Qed.

Lemma commonVertices_drawnFrom p p0 q q0 :
  drawnFrom X Y p p0 → drawnFrom X Y q q0 →
  pieceOnLines Sx Sy p0 → pieceOnLines Sx Sy q0 →
  commonVertices p q = map f (commonVertices p0 q0).
Proof using HX HY.
  intros [_ Hp] [_ Hq] Hp0 Hq0. unfold commonVertices. rewrite Hp, Hq.
  unfold pieceOnLines in *. rewrite Forall_forall in Hp0, Hq0.
  apply filter_map_agree. intros u Hu. apply existsb_map_agree. intros v Hv.
  apply samePoint_mapPoint; auto.
Qed.

Lemma sharedPoints_onLines p q v :
  pieceOnLines Sx Sy p → v ∈ TriangleGrid64.sharedPoints p q → onLines v.
Proof.
  intros Hp Hv. unfold TriangleGrid64.sharedPoints in Hv.
  apply list_elem_of_In, filter_In in Hv as [Hv _]. apply list_elem_of_In in Hv.
  unfold pieceOnLines in Hp. rewrite Forall_forall in Hp. auto.
Qed.

Lemma Object_set_sameLinks l l0 a b value :
  onLines a → onLines b → sameLinks X Y Sx Sy l l0 →
  sameLinks X Y Sx Sy
    (TriangleGrid.Object_set l (keyOf (f a) (f b)) value)
    (TriangleGrid.Object_set l0 (keyOf a b) value).
Proof using HX HY.
  intros Ha Hb Hl. induction Hl as [|[k v] [k0 v0] l l0 (Hv & c & d & Hc & Hd & Hk0 & Hk) Hl IH];
    simpl in *.
  - constructor; [|constructor]. split; [done|]. by exists a, b.
  - subst k k0 v0. rewrite EdgeKey_eqb_mapPoint by done.
    destruct (EdgeKey_eqb (keyOf c d) (keyOf a b)).
    + constructor; [|done]. split; [done|]. by exists c, d.
    + constructor; [|done]. split; [done|]. by exists c, d.
Qed.

Lemma linkTo_sameLinks p p0 q q0 l l0 :
  drawnFrom X Y p p0 → drawnFrom X Y q q0 →
  pieceOnLines Sx Sy p0 → pieceOnLines Sx Sy q0 →
  sameLinks X Y Sx Sy l l0 →
  sameLinks X Y Sx Sy (TriangleGrid64.linkTo p l q) (TriangleGrid64.linkTo p0 l0 q0).
Proof using HX HY.
  intros Hp Hq Hp0 Hq0 Hl. unfold TriangleGrid64.linkTo.
  destruct Hp as [Hidp Hpp], Hq as [Hidq Hqq]. rewrite Hidp, Hidq.
  case_bool_decide; [done|].
  rewrite (sharedPoints_drawnFrom p p0 q q0) by done.
  pose proof (sharedPoints_onLines p0 q0) as Hon.
  destruct (TriangleGrid64.sharedPoints p0 q0) as [|a [|b [|c s]]]; simpl; try done.
  apply (Object_set_sameLinks l l0 a b); [apply Hon|apply Hon|done]; try done.
  - by left.
  - right. by left.
Qed.

Lemma foldl_linkTo_sameLinks p p0 qs qs0 l l0 :
  drawnFrom X Y p p0 → pieceOnLines Sx Sy p0 →
  Forall2 (drawnFrom X Y) qs qs0 → Forall (pieceOnLines Sx Sy) qs0 →
  sameLinks X Y Sx Sy l l0 →
  sameLinks X Y Sx Sy (foldl (TriangleGrid64.linkTo p) l qs)
                      (foldl (TriangleGrid64.linkTo p0) l0 qs0).
Proof using HX HY.
  intros Hp Hp0 Hqs. revert l l0.
  induction Hqs as [|q q0 qs qs0 Hq Hqs IH]; intros l l0 Hon Hl; simpl; [done|].
  apply Forall_cons in Hon as [Hq0 Hon].
  apply IH; [done|]. by apply linkTo_sameLinks.
Qed.

Lemma sameLinks_values l l0 :
  sameLinks X Y Sx Sy l l0 → map snd l = map snd l0.
Proof.
  induction 1 as [|kv kv0 l l0 [Hv _] _ IH]; simpl; [done|]. by rewrite Hv, IH.
Qed.

(** The neighbours [setupNeighbors] records do not depend on where the
    grid lines are drawn, as long as the tests on coordinates come out the
    same. *)
Lemma setupNeighbors_drawnFrom ps ps0 :
  Forall2 (λ p p0, drawnFrom X Y p p0
                   ∧ sameLinks X Y Sx Sy (Piece.neighbors p) (Piece.neighbors p0))
          ps ps0 →
  Forall (pieceOnLines Sx Sy) ps0 →
  Forall2 (λ p p0, drawnFrom X Y p p0 ∧ neighborValues p = neighborValues p0)
          (TriangleGrid64.setupNeighbors ps) (TriangleGrid64.setupNeighbors ps0).
Proof using HX HY.
  intros Hps Hon. unfold TriangleGrid64.setupNeighbors.
  assert (Forall2 (drawnFrom X Y) ps ps0) as Hd.
  { eapply Forall2_impl; [exact Hps|]. by intros p p0 [? _]. }
  apply Forall2_fmap.
  assert (∀ qs qs0,
            Forall2 (λ p p0, drawnFrom X Y p p0
                     ∧ sameLinks X Y Sx Sy (Piece.neighbors p) (Piece.neighbors p0))
                    qs qs0 →
            Forall (pieceOnLines Sx Sy) qs0 →
            Forall2 (λ p p0,
                       drawnFrom X Y
                         (TriangleGrid.withNeighbors p
                            (foldl (TriangleGrid64.linkTo p) (Piece.neighbors p) ps))
                         (TriangleGrid.withNeighbors p0
                            (foldl (TriangleGrid64.linkTo p0) (Piece.neighbors p0) ps0))
                       ∧ neighborValues
                           (TriangleGrid.withNeighbors p
                              (foldl (TriangleGrid64.linkTo p) (Piece.neighbors p) ps))
                         = neighborValues
                             (TriangleGrid.withNeighbors p0
                                (foldl (TriangleGrid64.linkTo p0) (Piece.neighbors p0) ps0)))
                    qs qs0) as Hgen.
  { intros qs qs0 Hqs. induction Hqs as [|p p0 qs qs0 [Hp Hl] Hqs IH]; intros Hon'.
    - constructor.
    - apply Forall_cons in Hon' as [Hp0 Hon']. constructor; [|by apply IH].
      split; [exact Hp|]. unfold neighborValues. simpl.
      apply sameLinks_values. by apply foldl_linkTo_sameLinks. }
  by apply Hgen.
Qed.

End Transfer.

Section GridTransfer.
Import Engine.

Lemma Qofnat_small n : n ≤ 6 → (Z.abs (Z.of_nat n) ≤ 2 ^ 53)%Z.
Proof. intros H. assert (2 ^ 53 = 9007199254740992)%Z as -> by done. lia. Qed.

Lemma small_lt n : n ≤ 6 → n < 2 ^ 52.
Proof.
  intros H. apply Nat.le_lt_trans with 6; [done|].
  apply Nat2Z.inj_lt. rewrite Nat2Z.inj_pow. by vm_compute.
Qed.

(** A whole number times [1] is that number. *)
Lemma mul_Qofnat_1 n :
  n ≤ 6 → Double.mul (TriangleGrid.Qofnat n) 1 = TriangleGrid.Qofnat n.
Proof.
  intros Hn. unfold Double.mul.
  assert (TriangleGrid.Qofnat n * 1 == TriangleGrid.Qofnat n)%Q as E by ring.
  rewrite (round_comp _ _ E). by apply round_integer_eq, Qofnat_small.
Qed.

Lemma elem_of_unitLines a : a ∈ unitLines ↔ ∃ i, i ≤ 6 ∧ a = TriangleGrid.Qofnat i.
Proof.
  unfold unitLines. rewrite list_elem_of_fmap. split.
  - intros (i & -> & Hi). apply elem_of_seq in Hi. exists i. split; [lia|done].
  - intros (i & Hi & ->). exists i. split; [done|]. apply elem_of_seq. lia.
Qed.

(** For cells of a seventh of a pixel or more, the grid lines [i * cell]
    pass the tests of [setupNeighbors] as the lines [i] of the unit grid
    do. *)
Lemma keepsTests_grid cell :
  (1 # 7 <= cell)%Q → keepsTests (λ a, Double.mul a cell) unitLines.
Proof.
  intros Hc a b (i & Hi & ->)%elem_of_unitLines (j & Hj & ->)%elem_of_unitLines.
  destruct (grid_line_tests cell i j Hc Hi Hj) as [-> ->].
  assert (1 # 7 <= 1)%Q as H1 by (by vm_compute).
  destruct (grid_line_tests 1 i j H1 Hi Hj) as [E1 E2].
  cbv zeta in E1, E2. rewrite !mul_Qofnat_1 in E1, E2 by done. by rewrite E1, E2.
Qed.

Lemma Forall2_flat_map {A B C D} (R : C → D → Prop) (P : A → B → Prop)
    (g : A → list C) (g0 : B → list D) l l0 :
  Forall2 P l l0 → (∀ a b, P a b → Forall2 R (g a) (g0 b)) →
  Forall2 R (flat_map g l) (flat_map g0 l0).
Proof.
  intros Hl Hg. induction Hl as [|a b l l0 Hab _ IH]; simpl; [constructor|].
  apply Forall2_app; [by apply Hg|done].
Qed.

Lemma Forall2_same {A} (P : A → A → Prop) (Q : A → Prop) l :
  Forall Q l → (∀ a, Q a → P a a) → Forall2 P l l.
Proof. intros Hl HP. induction Hl; constructor; auto. Qed.

Lemma cellCorners_unit cellWidth cellHeight row col :
  row < 6 → col < 6 →
  TriangleGrid64.cellCorners cellWidth cellHeight row col
  = let f := mapPoint (λ a, Double.mul a cellWidth) (λ b, Double.mul b cellHeight) in
    let '(topLeft, topRight, bottomLeft, bottomRight) :=
      TriangleGrid64.cellCorners 1 1 row col in
    (f topLeft, f topRight, f bottomLeft, f bottomRight).
Proof.
  intros Hr Hc. unfold TriangleGrid64.cellCorners. cbv zeta.
  rewrite !add_Qofnat_1 by (apply small_lt; lia).
  rewrite !mul_Qofnat_1 by lia. reflexivity.
Qed.

Lemma cellCorners_unit_onLines row col :
  row < 6 → col < 6 →
  let '(topLeft, topRight, bottomLeft, bottomRight) :=
    TriangleGrid64.cellCorners 1 1 row col in
  Forall (onLines unitLines unitLines) [topLeft; topRight; bottomLeft; bottomRight].
Proof.
  intros Hr Hc. unfold TriangleGrid64.cellCorners. cbv zeta.
  rewrite !add_Qofnat_1 by (apply small_lt; lia).
  rewrite !mul_Qofnat_1 by lia.
  assert (∀ n, n ≤ 6 → TriangleGrid.Qofnat n ∈ unitLines) as Hin.
  { intros n Hn. apply elem_of_unitLines. by exists n. }
  repeat (apply Forall_cons_2; [split; simpl; apply Hin; lia|]).
  apply Forall_nil_2.
Qed.

Lemma cellPieces_drawnFrom cellWidth cellHeight row col :
  row < 6 → col < 6 →
  let X a := Double.mul a cellWidth in
  let Y b := Double.mul b cellHeight in
  Forall2 (λ p p0, (drawnFrom X Y p p0
                    ∧ sameLinks X Y unitLines unitLines
                        (Piece.neighbors p) (Piece.neighbors p0))
                   ∧ pieceOnLines unitLines unitLines p0)
          (TriangleGrid64.cellPieces cellWidth cellHeight row col)
          (TriangleGrid64.cellPieces 1 1 row col).
Proof.
  intros Hr Hc X Y. unfold TriangleGrid64.cellPieces.
  rewrite (cellCorners_unit cellWidth cellHeight row col) by done.
  pose proof (cellCorners_unit_onLines row col Hr Hc) as Hon.
  destruct (TriangleGrid64.cellCorners 1 1 row col) as [[[tl tr] bl] br]. cbv zeta.
  apply Forall_cons in Hon as [Htl Hon]. apply Forall_cons in Hon as [Htr Hon].
  apply Forall_cons in Hon as [Hbl Hon]. apply Forall_cons in Hon as [Hbr _].
  assert (∀ a b c tri,
            onLines unitLines unitLines a → onLines unitLines unitLines b →
            onLines unitLines unitLines c →
            (drawnFrom X Y
               (TriangleGrid64.createTrianglePiece
                  [mapPoint X Y a; mapPoint X Y b; mapPoint X Y c] row col tri)
               (TriangleGrid64.createTrianglePiece [a; b; c] row col tri)
             ∧ sameLinks X Y unitLines unitLines [] [])
            ∧ pieceOnLines unitLines unitLines
                (TriangleGrid64.createTrianglePiece [a; b; c] row col tri)) as Hpiece.
  { intros a b c tri Ha Hb Hc'. split; [split; [by split|constructor]|].
    unfold pieceOnLines. simpl.
    repeat (apply Forall_cons_2; [done|]). apply Forall_nil_2. }
  case_bool_decide; (constructor; [|constructor; [|constructor]]); by apply Hpiece.
Qed.

Lemma cells_drawnFrom cellWidth cellHeight rows cols :
  rows ≤ 6 → cols ≤ 6 →
  let X a := Double.mul a cellWidth in
  let Y b := Double.mul b cellHeight in
  Forall2 (λ p p0, (drawnFrom X Y p p0
                    ∧ sameLinks X Y unitLines unitLines
                        (Piece.neighbors p) (Piece.neighbors p0))
                   ∧ pieceOnLines unitLines unitLines p0)
          (TriangleGrid64.cells cellWidth cellHeight rows cols)
          (TriangleGrid64.cells 1 1 rows cols).
Proof.
  intros Hr Hc X Y. unfold TriangleGrid64.cells.
  apply (Forall2_flat_map _ (λ a b, a = b ∧ a < rows)).
  { apply (Forall2_same _ (λ a, a < rows)); [|done].
    apply Forall_forall. intros a Ha%elem_of_seq. lia. }
  intros row ? [<- Hrow].
  apply (Forall2_flat_map _ (λ a b, a = b ∧ a < cols)).
  { apply (Forall2_same _ (λ a, a < cols)); [|done].
    apply Forall_forall. intros a Ha%elem_of_seq. lia. }
  intros col ? [<- Hcol]. apply cellPieces_drawnFrom; lia.
Qed.

(** The neighbours recorded for an image of whole sides are those recorded
    for the unit grid, the image of [cols] by [rows] pixels. *)
Lemma createTrianglePuzzle_unit (imgWidth imgHeight : Z) rows cols :
  (1 ≤ imgWidth)%Z → (1 ≤ imgHeight)%Z → 1 ≤ rows → rows ≤ 6 → 1 ≤ cols → cols ≤ 6 →
  ∃ X Y,
    keepsTests X unitLines ∧ keepsTests Y unitLines
    ∧ Forall (pieceOnLines unitLines unitLines) (TriangleGrid64.cells 1 1 rows cols)
    ∧ Forall2 (λ p p0, drawnFrom X Y p p0 ∧ neighborValues p = neighborValues p0)
        (TriangleGrid64.createTrianglePuzzle (inject_Z imgWidth) (inject_Z imgHeight)
           rows cols)
        (TriangleGrid64.setupNeighbors (TriangleGrid64.cells 1 1 rows cols)).
Proof.
  intros Hw Hh Hr1 Hr6 Hc1 Hc6.
  set (cellWidth := Double.div (inject_Z imgWidth) (TriangleGrid.Qofnat cols)).
  set (cellHeight := Double.div (inject_Z imgHeight) (TriangleGrid.Qofnat rows)).
  exists (λ a, Double.mul a cellWidth), (λ b, Double.mul b cellHeight).
  assert (keepsTests (λ a, Double.mul a cellWidth) unitLines) as HX
    by by apply keepsTests_grid, cell_at_least.
  assert (keepsTests (λ b, Double.mul b cellHeight) unitLines) as HY
    by by apply keepsTests_grid, cell_at_least.
  pose proof (cells_drawnFrom cellWidth cellHeight rows cols Hr6 Hc6) as Hcells.
  cbv zeta in Hcells.
  assert (Forall (pieceOnLines unitLines unitLines) (TriangleGrid64.cells 1 1 rows cols))
    as Hon.
  { apply Forall_forall. intros p0 Hp0.
    apply list_elem_of_lookup in Hp0 as [k Hk].
    destruct (Forall2_lookup_r _ _ _ _ _ Hcells Hk) as (p & _ & _ & Hp). done. }
  split; [done|]. split; [done|]. split; [done|].
  unfold TriangleGrid64.createTrianglePuzzle. fold cellWidth cellHeight.
  apply (setupNeighbors_drawnFrom _ _ unitLines unitLines HX HY); [|done].
  eapply Forall2_impl; [exact Hcells|]. by intros p p0 [? _].
Qed.

End GridTransfer.

(** ** The tolerance of the neighbour resolution (C7) *)

Section NeighbourTolerance.
Import Engine.

Lemma getPieceDimensions_supported pieceCount :
  Grid.getPieceDimensions pieceCount ∈ triangleGrids.
Proof.
  unfold Grid.getPieceDimensions, Grid.lookupMapping.
  destruct (find _ Grid.mapping) as [kv|] eqn:E; simpl.
  - right. apply find_some in E as [Hin _]. apply list_elem_of_In in Hin.
    by apply list_elem_of_fmap_2.
  - by left.
Qed.

Lemma triangleGrids_small :
  Forall (λ d, 1 ≤ Grid.rows d ∧ Grid.rows d ≤ 6 ∧ 1 ≤ Grid.cols d ∧ Grid.cols d ≤ 6)
         triangleGrids.
Proof. apply (bool_decide_unpack _). vm_compute. exact I. Qed.

(** On the unit grid of every supported size, every piece lists every
    piece it shares an edge with. *)
Lemma unit_grids_listed :
  Forall (λ d, edgeNeighboursListed
                 (TriangleGrid64.setupNeighbors
                    (TriangleGrid64.cells 1 1 (Grid.rows d) (Grid.cols d))) = true)
         triangleGrids.
Proof. apply (bool_decide_unpack _). vm_compute. exact I. Qed.

Lemma edgeNeighboursListed_spec pieces p q :
  edgeNeighboursListed pieces = true → p ∈ pieces → q ∈ pieces →
  Piece.id p ≠ Piece.id q → shareEdge p q → Piece.id q ∈ neighborValues p.
Proof.
  unfold edgeNeighboursListed. intros H Hp Hq Hne Hshare.
  rewrite forallb_forall in H. specialize (H p (proj1 (list_elem_of_In _ _) Hp)).
  rewrite forallb_forall in H. specialize (H q (proj1 (list_elem_of_In _ _) Hq)).
  rewrite bool_decide_eq_false_2 in H by done.
  unfold shareEdge in Hshare. rewrite Hshare in H. simpl in H.
  by apply bool_decide_eq_true in H.
Qed.

Lemma setupNeighbors64_polygon ps p :
  p ∈ TriangleGrid64.setupNeighbors ps →
  ∃ p', p' ∈ ps ∧ Piece.polygon p = Piece.polygon p'.
Proof.
  unfold TriangleGrid64.setupNeighbors. intros (p' & -> & Hp')%list_elem_of_fmap.
  by exists p'.
Qed.

(** C7, as stated, fails.  The tolerance is the literal 1.0 on the random
    page, whatever the size of the pieces, and it drops a valid neighbour
    relation: for an image of 6 by 4 pixels cut into the default 16 pieces,
    pieces 0-1-0 and 0-1-1 have an edge in common (from (6, 0) to the
    interior point of their cell), no side of the image is scaled, and
    piece 0-1-0 does not list piece 0-1-1: the interior point lies within
    1.0 of the corner (3, 0) in both coordinates, so the pair gets the key
    of the edge from that corner to the interior point, which the pairs of
    piece 0-1-0 with pieces 0-1-2 and 0-1-3 get too and overwrite.  For the
    image of 600 by 400 pixels the two pieces list each other. *)
Lemma absolute_tolerance_counterexample :
  (let pieces := RandomGrid64.createTrianglePuzzle 6 4 2 2 800 in
   Grid.getGridForPieceCount 16 = Grid.mkDimensions 2 2
   ∧ RandomGrid64.imageScale 6 4 800 = 1%Q
   ∧ ∃ p q,
       p ∈ pieces ∧ q ∈ pieces
       ∧ Piece.id p = "piece-0-1-0" ∧ Piece.id q = "piece-0-1-1"
       ∧ commonVertices p q
         = [ {| x := 6; y := 0 |};
             {| x := 8782019273372467 # 2251799813685248;
                y := 3152519739159347 # 4503599627370496 |} ]
       ∧ shareEdge p q
       ∧ neighborValues p = ["piece-0-1-3"]
       ∧ Piece.id q ∉ neighborValues p)
  ∧ (let pieces := RandomGrid64.createTrianglePuzzle 600 400 2 2 800 in
     ∃ p q,
       p ∈ pieces ∧ q ∈ pieces
       ∧ Piece.id p = "piece-0-1-0" ∧ Piece.id q = "piece-0-1-1"
       ∧ shareEdge p q
       ∧ Piece.id q ∈ neighborValues p ∧ Piece.id p ∈ neighborValues q).
Proof.
  split.
  - split; [reflexivity|]. split; [reflexivity|].
    eexists _, _. split_and!.
    1,2: apply list_elem_of_lookup.
    + exists 4. vm_compute. reflexivity.
    + exists 5. vm_compute. reflexivity.
    + reflexivity.
    + reflexivity.
    + vm_compute. reflexivity.
    + vm_compute. reflexivity.
    + vm_compute. reflexivity.
    + apply (bool_decide_unpack _). vm_compute. exact I.
  - eexists _, _. split_and!.
    1,2: apply list_elem_of_lookup.
    + exists 4. vm_compute. reflexivity.
    + exists 5. vm_compute. reflexivity.
    + reflexivity.
    + reflexivity.
    + vm_compute. reflexivity.
    + apply (bool_decide_unpack _). vm_compute. exact I.
    + apply (bool_decide_unpack _). vm_compute. exact I.
Qed.

(** C7, amended.  The tolerance is an absolute constant.  On the
    two-triangle page, whose tolerance is 0.1, no valid neighbour relation
    is dropped: for every image whose sides are whole numbers of pixels and
    every grid [getPieceDimensions] gives, a piece lists as a neighbour
    every other piece it has an edge in common with, the coordinates being
    the doubles the page computes. *)
Theorem triangle_page_lists_every_edge_neighbour (pieceCount imgWidth imgHeight : Z) :
  (1 ≤ imgWidth)%Z → (1 ≤ imgHeight)%Z →
  let d := Grid.getPieceDimensions pieceCount in
  let pieces :=
    TriangleGrid64.createTrianglePuzzle (inject_Z imgWidth) (inject_Z imgHeight)
      (Grid.rows d) (Grid.cols d) in
  ∀ p q, p ∈ pieces → q ∈ pieces → Piece.id p ≠ Piece.id q → shareEdge p q →
    Piece.id q ∈ neighborValues p.
Proof.
  intros Hw Hh d pieces.
  pose proof (getPieceDimensions_supported pieceCount) as Hd. fold d in Hd.
  pose proof triangleGrids_small as Hsmall. rewrite Forall_forall in Hsmall.
  destruct (Hsmall d Hd) as (Hr1 & Hr6 & Hc1 & Hc6).
  pose proof unit_grids_listed as Hunit. rewrite Forall_forall in Hunit.
  specialize (Hunit d Hd).
  destruct (createTrianglePuzzle_unit imgWidth imgHeight (Grid.rows d) (Grid.cols d)
              Hw Hh Hr1 Hr6 Hc1 Hc6) as (X & Y & HX & HY & Hon & Hrel).
  fold pieces in Hrel.
  set (pieces0 := TriangleGrid64.setupNeighbors
                    (TriangleGrid64.cells 1 1 (Grid.rows d) (Grid.cols d))) in *.
  assert (∀ p0, p0 ∈ pieces0 → pieceOnLines unitLines unitLines p0) as Hon0.
  { intros p0 (p' & Hp' & Hpoly)%setupNeighbors64_polygon.
    unfold pieceOnLines. rewrite Hpoly. rewrite Forall_forall in Hon. by apply Hon. }
  intros p q Hp Hq Hne Hshare.
  apply list_elem_of_lookup in Hp as [i Hi]. apply list_elem_of_lookup in Hq as [j Hj].
  destruct (Forall2_lookup_l _ _ _ _ _ Hrel Hi) as (p0 & Hi0 & Hdp & Hnp).
  destruct (Forall2_lookup_l _ _ _ _ _ Hrel Hj) as (q0 & Hj0 & Hdq & Hnq).
  assert (p0 ∈ pieces0) as Hp0 by (apply list_elem_of_lookup; by exists i).
  assert (q0 ∈ pieces0) as Hq0 by (apply list_elem_of_lookup; by exists j).
  unfold shareEdge in Hshare.
  rewrite (commonVertices_drawnFrom X Y unitLines unitLines HX HY p p0 q q0)
    in Hshare by auto.
  rewrite length_map in Hshare.
  rewrite Hnp. destruct Hdp as [Hidp _], Hdq as [Hidq _]. rewrite Hidq.
  apply (edgeNeighboursListed_spec pieces0 p0 q0 Hunit Hp0 Hq0); [congruence|done].
Qed.

Lemma triangle_page_lists_every_edge_neighbour_witness :
  ∃ p q, Samples.photoPieces !! 0 = Some p ∧ Samples.photoPieces !! 1 = Some q ∧
    Piece.id p ≠ Piece.id q ∧ shareEdge p q ∧ Piece.id q ∈ neighborValues p.
Proof.
  destruct (Samples.photoPieces !! 0) as [p|] eqn:Hp; [|vm_compute in Hp; discriminate].
  destruct (Samples.photoPieces !! 1) as [q|] eqn:Hq; [|vm_compute in Hq; discriminate].
  assert (Piece.id p ≠ Piece.id q) as Hne.
  { vm_compute in Hp, Hq. injection Hp as <-. injection Hq as <-. discriminate. }
  assert (shareEdge p q) as Hshare.
  { vm_compute in Hp, Hq. injection Hp as <-. injection Hq as <-. vm_compute. lia. }
  exists p, q. split_and!; [done..|].
  apply (triangle_page_lists_every_edge_neighbour 12 2600 2600); [lia|lia|..|done|done].
  - apply list_elem_of_lookup. exists 0. exact Hp.
  - apply list_elem_of_lookup. exists 1. exact Hq.
Defined.

End NeighbourTolerance.

(* ===================================================================== *)
(** * Part IV: further properties of the code                             *)
(* ===================================================================== *)

(** ** The traversal and the drops of the engine *)

Section EngineExtras.
Import Engine.

(** X1.  [getConnectedGroup(pieceId)] always returns (its loop ends within
    the bound on iterations); the result starts with [pieceId], holds no id
    twice, and holds exactly the ids that can be reached from [pieceId] by
    following [connectedGroup] links of placed pieces; for an id that is not
    placed it is the one-element array [[pieceId]]. *)
Theorem connected_group_is_reachable_set (m : gmap string PlacedPiece.t) (i : string) :
  traverse (traverseFuel m) m [] [i] [] = Some (getConnectedGroup m i)
  ∧ (∃ rest, getConnectedGroup m i = i :: rest)
  ∧ NoDup (getConnectedGroup m i)
  ∧ (∀ z, z ∈ getConnectedGroup m i ↔ rtc (linked m) i z)
  ∧ (m !! i = None → getConnectedGroup m i = [i]).
Proof.
  split; [apply traverseFrom_returns|]. split; [apply getConnectedGroup_head|].
  split; [apply getConnectedGroup_NoDup|]. split; [apply getConnectedGroup_spec|].
  apply getConnectedGroup_unplaced.
Qed.

Lemma connected_group_is_reachable_set_witness :
  DndTriangle.placedPieces Samples.twoJoined !! "piece-1-1-1" = None
  ∧ getConnectedGroup (DndTriangle.placedPieces Samples.twoJoined) "piece-1-1-1"
    = ["piece-1-1-1"].
Proof.
  assert (DndTriangle.placedPieces Samples.twoJoined !! "piece-1-1-1" = None) as Hfree
    by (vm_compute; reflexivity).
  split; [exact Hfree|].
  destruct (connected_group_is_reachable_set
              (DndTriangle.placedPieces Samples.twoJoined) "piece-1-1-1")
    as (_ & _ & _ & _ & Hunplaced).
  exact (Hunplaced Hfree).
Defined.






(** X3.  A drop moves nobody but the dragged pieces: a placed piece outside
    the connected group of the dragged piece keeps its position through a
    drop from the pool and through a group drop (also when it is merged into
    the group), and is left untouched by a return of the group to the
    pool. *)
Theorem drop_leaves_other_pieces_in_place
    (pieces : list Piece.t) (prev : gmap string PlacedPiece.t)
    (snapThreshold : Q) (pieceId k : string) :
  k ∉ getConnectedGroup prev pieceId →
  (∀ position,
     PlacedPiece.position
       <$> placeFromPool prev pieceId position
             (checkAndSnapToNeighbors pieces prev snapThreshold pieceId position) !! k
     = PlacedPiece.position <$> prev !! k)
  ∧ (∀ deltaX deltaY,
       PlacedPiece.position
         <$> DndTriangle.dropPlaced pieces snapThreshold prev pieceId deltaX deltaY !! k
       = PlacedPiece.position <$> prev !! k)
  ∧ (∀ poolItems, (returnToPool prev poolItems pieceId).1 !! k = prev !! k).
Proof.
  intros Hout.
  assert (k ≠ pieceId) as Hne.
  { intros ->. apply Hout, getConnectedGroup_self. }
  split; [|split].
  - intros position.
    destruct (shouldSnap (checkAndSnapToNeighbors pieces prev snapThreshold pieceId position))
      eqn:Hs.
    + rewrite placeFromPool_snap_lookup by (by try apply snap_neighbors_nonempty).
      simpl. rewrite bool_decide_eq_false_2 by done.
      case_bool_decide; [|done]. by destruct (prev !! k).
    + rewrite placeFromPool_loose by (by rewrite Hs). by rewrite lookup_insert_ne.
  - intros deltaX deltaY.
    destruct (dropPlaced_cases pieces snapThreshold prev pieceId deltaX deltaY)
      as [[-> _]|(bs & ns & _ & ->)].
    + by rewrite moveGroup_lookup, bool_decide_eq_false_2.
    + rewrite mergeGroups_lookup by apply Set_from_NoDup.
      rewrite moveGroup_lookup.
      rewrite (bool_decide_eq_false_2 (k ∈ getConnectedGroup prev pieceId)) by done.
      case_bool_decide; [|done]. destruct (prev !! k); [|done]. simpl.
      by rewrite bool_decide_eq_false_2.
  - intros poolItems. by rewrite returnToPool_lookup, bool_decide_eq_false_2.
Qed.

Lemma drop_leaves_other_pieces_in_place_witness :
  PlacedPiece.position
    <$> DndTriangle.dropPlaced Samples.trianglePieces 10
          (DndTriangle.placedPieces Samples.threePlaced) "piece-0-0-0" 297 96
          !! "piece-1-0-0"
  = PlacedPiece.position
      <$> DndTriangle.placedPieces Samples.threePlaced !! "piece-1-0-0".
Proof.
  apply (drop_leaves_other_pieces_in_place Samples.trianglePieces
           (DndTriangle.placedPieces Samples.threePlaced) 10 "piece-0-0-0" "piece-1-0-0").
  apply (bool_decide_unpack _). vm_compute. exact I.
Defined.

End EngineExtras.

(** ** Sessions of the dnd-kit page *)

Section DndSessionExtras.
Import Engine DndTriangle.

Lemma runSolvedCheck_poolItems st : poolItems (runSolvedCheck st) = poolItems st.
Proof. unfold runSolvedCheck. by destruct (solvedCheck st). Qed.

Lemma runSolvedCheck_placedPieces st :
  placedPieces (runSolvedCheck st) = placedPieces st.
Proof. unfold runSolvedCheck. by destruct (solvedCheck st). Qed.

Lemma runSolvedCheck_hand st :
  dragSource (runSolvedCheck st) = dragSource st
  ∧ activeId (runSolvedCheck st) = activeId st.
Proof. unfold runSolvedCheck. by destruct (solvedCheck st). Qed.

Lemma session_pool_NoDup snapThreshold pieces0 a lost st :
  NoDup (ids pieces0) → session snapThreshold pieces0 a lost st → NoDup (poolItems st).
Proof.
  intros Hnd.
  induction 1 as [shuffled Hperm|i lost st Hs IH Hi|i d lost st Hs IH
                  |i event lost st Hs IH Hact|i lost st Hs IH|pieceId lost st Hs IH Hplaced].
  - simpl. by rewrite Hperm.
  - unfold step. rewrite runSolvedCheck_poolItems. simpl.
    unfold handleDragStart. repeat case_bool_decide; simpl; [by apply NoDup_filter|done..].
  - unfold step. rewrite runSolvedCheck_poolItems. simpl.
    unfold handleDragMove. by destruct (dragSource st) as [[]|].
  - pose proof (session_sessionInv _ _ _ _ _ Hs) as [Hp Hpu Hpi Hpl Hcov Hout Hlost Hl].
    unfold step. rewrite runSolvedCheck_poolItems. simpl.
    unfold handleDragEnd. destruct (findPiece _ _); [|done].
    destruct (dragSource st) as [[]|] eqn:Hsrc; simpl; [|done..].
    assert (NoDup (poolItems st ++ [active event])) as Hback.
    { apply NoDup_app. split; [done|]. split; [|apply NoDup_singleton].
      intros x Hx ->%list_elem_of_singleton.
      assert (active event ∈ held (Some i) st) as Hheld.
      { unfold held. rewrite Hsrc, Hact. by left. }
      by destruct (Hout _ (or_introl Hheld)) as (Hnp & _). }
    case_bool_decide; [|done].
    by destruct (rect event), (activatorEvent event).
  - done.
  - pose proof (session_sessionInv _ _ _ _ _ Hs) as [Hp Hpu Hpi Hpl Hcov Hout Hlost Hl].
    unfold step. rewrite runSolvedCheck_poolItems. simpl.
    unfold handleReturnToPool, returnToPool. simpl.
    apply NoDup_app. split; [done|]. split; [|apply getConnectedGroup_NoDup].
    intros x Hx Hg. apply Hpu in Hx.
    destruct (getConnectedGroup_placed _ _ _ Hl Hplaced Hg) as [? ?]. congruence.
Qed.

(** X4.  In every observable state of a session of the dnd-kit page over
    pieces with distinct ids, the pool holds no id twice, and the pool, the
    keys of the placed map, the piece in hand and the pieces lost to a
    cancelled drag together are a rearrangement of the piece ids: the four
    counts add up to the number of pieces. *)
Theorem pool_board_hand_and_lost_account_for_every_piece
    snapThreshold pieces0 a lost st :
  NoDup (ids pieces0) → session snapThreshold pieces0 a lost st →
  NoDup (poolItems st)
  ∧ poolItems st ++ elements (dom (placedPieces st)) ++ held a st ++ lost
    ≡ₚ ids pieces0
  ∧ length (poolItems st) + size (placedPieces st) + length (held a st) + length lost
    = length pieces0.
Proof.
  intros Hnd Hs. pose proof (session_pool_NoDup _ _ _ _ _ Hnd Hs) as Hpool.
  pose proof (session_sessionInv _ _ _ _ _ Hs) as [Hp Hpu Hpi Hpl Hcov Hout [Hndl Hhl] Hl].
  assert (NoDup (held a st)) as Hndh.
  { unfold held. destruct a, (dragSource st) as [[]|];
      try apply NoDup_nil_2. apply NoDup_singleton. }
  assert (poolItems st ++ elements (dom (placedPieces st)) ++ held a st ++ lost
          ≡ₚ ids pieces0) as Hperm.
  { apply NoDup_Permutation; [|done|].
    - apply NoDup_app. split; [done|]. split.
      + intros x Hx [Hd%elem_of_elements%elem_of_dom|Hh%elem_of_app]%elem_of_app.
        * apply Hpu in Hx. rewrite Hx in Hd. by destruct Hd.
        * by destruct (Hout x Hh) as (Hnp & _).
      + apply NoDup_app. split; [apply NoDup_elements|]. split.
        * intros x Hd%elem_of_elements%elem_of_dom Hh%elem_of_app.
          destruct (Hout x Hh) as (_ & Hfree & _). rewrite Hfree in Hd. by destruct Hd.
        * apply NoDup_app. split; [done|]. split; [|done]. intros x Hx. by apply Hhl.
    - intros x. rewrite !elem_of_app, elem_of_elements, elem_of_dom. split.
      + intros [?|[?|Hh]]; [by apply Hpi|by apply Hpl|].
        by destruct (Hout x Hh) as (_ & _ & ?).
      + intros Hx. destruct (Hcov x Hx) as [?|[?|[?|?]]]; auto. }
  split; [done|]. split; [done|].
  apply Permutation_length in Hperm. rewrite !length_app in Hperm.
  unfold ids in Hperm. rewrite length_map in Hperm.
  rewrite <- size_dom. unfold size, set_size. simpl. lia.
Qed.

Lemma pool_board_hand_and_lost_witness :
  NoDup (ids Samples.trianglePieces)
  ∧ session 10 Samples.trianglePieces None ["piece-0-0-0"] Samples.afterCancelledDrag
  ∧ length (poolItems Samples.afterCancelledDrag)
    + size (placedPieces Samples.afterCancelledDrag)
    + length (held None Samples.afterCancelledDrag) + length ["piece-0-0-0"]
    = length Samples.trianglePieces.
Proof.
  assert (NoDup (ids Samples.trianglePieces)) as Hnd.
  { apply (bool_decide_unpack _). vm_compute. exact I. }
  split; [exact Hnd|]. split; [exact afterCancelledDrag_session|].
  apply (pool_board_hand_and_lost_account_for_every_piece 10 Samples.trianglePieces
           None ["piece-0-0-0"] Samples.afterCancelledDrag Hnd afterCancelledDrag_session).
Defined.

(** X5.  In every observable state of a session of the dnd-kit page the
    connected groups are equivalence classes of placed pieces: the group
    computed from a placed piece is that piece together with the ids its
    [connectedGroup] lists, it never lists itself, every member is placed,
    and computing the group from any member gives the same members. *)
Theorem groups_are_equivalence_classes snapThreshold pieces0 st a b pa :
  reachable snapThreshold pieces0 st →
  placedPieces st !! a = Some pa →
  b ∈ getConnectedGroup (placedPieces st) a →
  (∀ k, k ∈ getConnectedGroup (placedPieces st) a
        ↔ k = a ∨ k ∈ PlacedPiece.connectedGroup pa)
  ∧ (a ∉ PlacedPiece.connectedGroup pa)
  ∧ is_Some (placedPieces st !! b)
  ∧ (∀ k, k ∈ getConnectedGroup (placedPieces st) b
          ↔ k ∈ getConnectedGroup (placedPieces st) a).
Proof.
  intros (a0 & lost & [Hp Hpu Hpi Hpl Hcov Hout Hlost Hl])%reachable_sessionInv Ha Hb.
  split; [intros k; by apply getConnectedGroup_clique|].
  split; [by destruct (Hl _ _ Ha)|].
  split; [by eapply getConnectedGroup_placed|].
  intros k. rewrite !getConnectedGroup_spec. apply getConnectedGroup_spec in Hb.
  split; intros Hk.
  - by etrans.
  - etrans; [|done]. by apply rtc_linked_sym.
Qed.

Lemma twoJoined_reachable : reachable 10 Samples.trianglePieces Samples.twoJoined.
Proof.
  exists None, []. unfold Samples.twoJoined, Samples.run. simpl.
  unfold Samples.canvasDrop.
  apply (session_end _ _ "piece-0-0-1"); [|reflexivity].
  apply session_start; [|left; apply (bool_decide_unpack _); vm_compute; exact I].
  apply (session_end _ _ "piece-0-0-0"); [|reflexivity].
  apply session_start; [|left; apply (bool_decide_unpack _); vm_compute; exact I].
  by apply session_init.
Qed.

Lemma twoJoined_first :
  ∃ pa, placedPieces Samples.twoJoined !! "piece-0-0-0" = Some pa.
Proof. eexists. vm_compute. reflexivity. Qed.

Lemma groups_are_equivalence_classes_witness :
  "piece-0-0-0" ∈ getConnectedGroup (placedPieces Samples.twoJoined) "piece-0-0-1"
  ∧ is_Some (placedPieces Samples.twoJoined !! "piece-0-0-1").
Proof.
  destruct twoJoined_first as [pa Ha].
  destruct (groups_are_equivalence_classes 10 Samples.trianglePieces Samples.twoJoined
              "piece-0-0-0" "piece-0-0-1" pa twoJoined_reachable Ha)
    as (_ & _ & Hplaced & Hsame).
  { apply (bool_decide_unpack _). vm_compute. exact I. }
  split; [|exact Hplaced].
  apply Hsame. apply (bool_decide_unpack _). vm_compute. exact I.
Defined.

Lemma handle_isSolved snapThreshold e st : isSolved (handle snapThreshold e st) = isSolved st.
Proof.
  destruct e as [i|d|event|pieceId]; simpl.
  - unfold handleDragStart. by repeat case_bool_decide.
  - unfold handleDragMove. by destruct (dragSource st) as [[]|].
  - unfold handleDragEnd. destruct (findPiece _ _); [|done].
    destruct (dragSource st) as [[]|]; [|done..].
    case_bool_decide; [|done]. by destruct (rect event), (activatorEvent event).
  - done.
Qed.

Lemma runSolvedCheck_solvedCheck st : solvedCheck (runSolvedCheck st) = solvedCheck st.
Proof. unfold runSolvedCheck. by destruct (solvedCheck st) eqn:E. Qed.

(** X6.  The solved flag of the dnd-kit page follows the solved test and
    never goes back: in every observable state in which the test of the
    solved check holds the puzzle is shown as solved, and once it is shown as
    solved it stays so after every further event, a return of pieces to the
    pool included. *)
Theorem solved_is_shown_and_stays snapThreshold pieces0 st :
  reachable snapThreshold pieces0 st →
  (solvedCheck st = true → isSolved st = true)
  ∧ (isSolved st = true → ∀ e, isSolved (step snapThreshold e st) = true).
Proof.
  intros (a & lost & Hr). split.
  - assert (∀ e st', solvedCheck (step snapThreshold e st') = true →
                     isSolved (step snapThreshold e st') = true) as Hstep.
    { intros e st'. unfold step. rewrite runSolvedCheck_solvedCheck.
      unfold runSolvedCheck. intros Hs. by rewrite Hs. }
    induction Hr as [shuffled Hperm| | | | |]; [|by apply Hstep..|done|by apply Hstep].
    unfold solvedCheck, initialize. simpl. destruct pieces0; [done|].
    simpl. by rewrite map_size_empty.
  - intros Hs e. unfold step, runSolvedCheck.
    destruct (solvedCheck _); [done|]. by rewrite handle_isSolved.
Qed.

Lemma dndPairSolved_reachable : reachable 10 Samples.pairPieces Samples.dndPairSolved.
Proof.
  exists None, []. unfold Samples.dndPairSolved. simpl.
  unfold Samples.canvasDrop.
  apply (session_end _ _ "piece-0-0-1"); [|reflexivity].
  apply session_start; [|left; apply (bool_decide_unpack _); vm_compute; exact I].
  apply (session_end _ _ "piece-0-0-0"); [|reflexivity].
  apply session_start; [|left; apply (bool_decide_unpack _); vm_compute; exact I].
  by apply session_init.
Qed.

Lemma solved_is_shown_and_stays_witness :
  solvedCheck Samples.dndPairSolved = true
  ∧ isSolved Samples.dndPairSolved = true
  ∧ isSolved (step 10 (ReturnToPool "piece-0-0-0") Samples.dndPairSolved) = true.
Proof.
  assert (solvedCheck Samples.dndPairSolved = true) as Hcheck
    by (vm_compute; reflexivity).
  destruct (solved_is_shown_and_stays 10 Samples.pairPieces Samples.dndPairSolved
              dndPairSolved_reachable) as [Hshown Hstays].
  split; [exact Hcheck|]. split; [exact (Hshown Hcheck)|].
  exact (Hstays (Hshown Hcheck) (ReturnToPool "piece-0-0-0")).
Defined.

(** X7.  A piece picked up from the pool of the dnd-kit page and released
    anywhere but on the mounted canvas goes back to the pool: the placed map
    is unchanged, the pool holds the same ids with the piece moved to its
    end, and no drag is left in progress. *)
Theorem pool_drag_released_off_canvas snapThreshold event st piece :
  active event ∈ poolItems st →
  findPiece (pieces st) (active event) = Some piece →
  over event ≠ Some "puzzle-canvas" ∨ rect event = None ∨ activatorEvent event = None →
  let st' := handleDragEnd snapThreshold event (handleDragStart (active event) st) in
  placedPieces st' = placedPieces st
  ∧ poolItems st'
    = filter (λ pid, pid ≠ active event) (poolItems st) ++ [active event]
  ∧ (NoDup (poolItems st) → poolItems st' ≡ₚ poolItems st)
  ∧ activeId st' = None ∧ dragSource st' = None.
Proof.
  intros Hin Hfind Hoff st'.
  assert (st' = {| pieces := pieces st; placedPieces := placedPieces st;
                   poolItems := filter (λ pid, pid ≠ active event) (poolItems st)
                                ++ [active event];
                   activeId := None; dragSource := None; dragDelta := None;
                   isSolved := isSolved st |}) as ->.
  { unfold st', handleDragStart. rewrite bool_decide_eq_true_2 by done.
    unfold handleDragEnd. simpl. rewrite Hfind.
    case_bool_decide as Hover; [|done].
    destruct Hoff as [?|[-> | Hact]]; [done|done|].
    rewrite Hact. by destruct (rect event). }
  simpl. split_and!; try done.
  intros Hnd. apply NoDup_Permutation; [|done|].
  - apply NoDup_app. split; [by apply NoDup_filter|]. split; [|apply NoDup_singleton].
    intros x [Hx _]%list_elem_of_filter Hx'%list_elem_of_singleton. done.
  - intros x. rewrite elem_of_app, list_elem_of_filter, list_elem_of_singleton.
    destruct (decide (x = active event)) as [->|]; naive_solver.
Qed.

Lemma pool_drag_released_off_canvas_witness :
  let st := initialize Samples.trianglePieces Samples.triangleIds in
  let event := {| active := "piece-0-0-1"; over := None;
                  delta := {| x := 40; y := 0 |};
                  activatorEvent := Some {| x := 5; y := 5 |};
                  rect := Some {| x := 0; y := 0 |}; sc := 1 |} in
  let st' := handleDragEnd 10 event (handleDragStart "piece-0-0-1" st) in
  placedPieces st' = placedPieces st ∧ poolItems st' ≡ₚ poolItems st.
Proof.
  intros st event st'.
  destruct (findPiece (pieces st) (active event)) as [piece|] eqn:Hfind;
    [|by vm_compute in Hfind].
  destruct (pool_drag_released_off_canvas 10 event st piece)
    as (Hplaced & _ & Hperm & _).
  - apply (bool_decide_unpack _). vm_compute. exact I.
  - exact Hfind.
  - left. discriminate.
  - split; [exact Hplaced|]. apply Hperm.
    apply (bool_decide_unpack _). vm_compute. exact I.
Defined.

(** X8.  A double-click on a placed piece of the dnd-kit page, in an
    observable state with no drag in progress, returns its whole connected
    group: the ids of the group, all of them placed and none of them in the
    pool before, are appended to the pool and leave the placed map; every
    other placed piece is left as it was, and none of them lists a returned
    piece afterwards. *)
Theorem return_to_pool_takes_the_whole_group snapThreshold pieces0 st pieceId :
  reachable snapThreshold pieces0 st →
  activeId st = None →
  is_Some (placedPieces st !! pieceId) →
  let G := getConnectedGroup (placedPieces st) pieceId in
  let st' := handleReturnToPool pieceId st in
  poolItems st' = poolItems st ++ G
  ∧ (∀ k, k ∈ G →
       is_Some (placedPieces st !! k) ∧ (k ∉ poolItems st)
       ∧ placedPieces st' !! k = None)
  ∧ (∀ k, k ∉ G → placedPieces st' !! k = placedPieces st !! k)
  ∧ (∀ k p j, placedPieces st' !! k = Some p →
       j ∈ PlacedPiece.connectedGroup p → j ∉ G).
Proof.
  intros (a & lost & [Hp Hpu Hpi Hpl Hcov Hout Hlost Hl])%reachable_sessionInv
         Hidle Hplaced G st'.
  assert (∀ k, placedPieces st' !! k
               = if bool_decide (k ∈ G) then None else placedPieces st !! k) as Hlook.
  { intros k. unfold st', handleReturnToPool.
    pose proof (returnToPool_lookup (placedPieces st) (poolItems st) pieceId k) as H.
    by destruct (returnToPool _ _ _). }
  split; [done|]. split; [|split].
  - intros k Hk.
    assert (is_Some (placedPieces st !! k)) as Hk' by by eapply getConnectedGroup_placed.
    split; [done|]. split.
    + intros Hin%Hpu. rewrite Hin in Hk'. by destruct Hk'.
    + by rewrite Hlook, bool_decide_eq_true_2.
  - intros k Hk. by rewrite Hlook, bool_decide_eq_false_2.
  - intros k p j Hkp Hj Hjg. rewrite Hlook in Hkp.
    case_bool_decide as Hk; [done|]. apply Hk.
    unfold G. apply (getConnectedGroup_closed _ _ j k); [done|].
    apply linked_sym; [done|]. by exists p.
Qed.

Lemma return_to_pool_witness :
  let st := Samples.twoJoined in
  let st' := handleReturnToPool "piece-0-0-1" st in
  poolItems st' = poolItems st ++ ["piece-0-0-1"; "piece-0-0-0"]
  ∧ placedPieces st' !! "piece-0-0-0" = None.
Proof.
  intros st st'.
  destruct (return_to_pool_takes_the_whole_group 10 Samples.trianglePieces st
              "piece-0-0-1" twoJoined_reachable) as (Hpool & Hgone & _).
  - vm_compute. reflexivity.
  - apply (bool_decide_unpack _). vm_compute. exact I.
  - split; [exact Hpool|]. apply Hgone.
    apply (bool_decide_unpack _). vm_compute. exact I.
Defined.

End DndSessionExtras.

(** ** Piece ids, bounding boxes and the two-triangle grid *)

Section GridExtras.
Import Engine.


Lemma string_app_cons (x : Ascii.ascii) (a b : string) :
  String x a +:+ b = String x (a +:+ b).
Proof. done. Qed.

Lemma string_app_assoc (a b c : string) : (a +:+ b) +:+ c = a +:+ (b +:+ c).
Proof. induction a as [|x a IH]; [done|]. rewrite !string_app_cons. by f_equal. Qed.







Lemma Qmin_cases (a b : Q) : (Qmin a b = a ∧ (a <= b)%Q) ∨ (Qmin a b = b ∧ (b < a)%Q).
Proof.
  unfold Qmin, GenericMinMax.gmin. destruct (a ?= b)%Q eqn:E.
  - left. split; [done|]. apply Qeq_alt in E. lra.
  - left. split; [done|]. apply Qlt_alt in E. lra.
  - right. split; [done|]. by apply Qgt_alt in E.
Qed.

Lemma Qmax_cases (a b : Q) : (Qmax a b = a ∧ (b <= a)%Q) ∨ (Qmax a b = b ∧ (a < b)%Q).
Proof.
  unfold Qmax, GenericMinMax.gmax. destruct (a ?= b)%Q eqn:E.
  - left. split; [done|]. apply Qeq_alt in E. lra.
  - right. split; [done|]. by apply Qlt_alt in E.
  - left. split; [done|]. apply Qgt_alt in E. lra.
Qed.

Lemma foldl_Qmin_spec (l : list Q) (a : Q) :
  foldl Qmin a l ∈ a :: l ∧ ∀ v, v ∈ a :: l → (foldl Qmin a l <= v)%Q.
Proof.
  revert a. induction l as [|b l IH]; intros a; simpl.
  - split; [by left|]. intros v ->%list_elem_of_singleton. lra.
  - destruct (IH (Qmin a b)) as [Hin Hle]. split.
    + apply elem_of_cons in Hin as [->|Hin]; [|by do 2 right].
      destruct (Qmin_cases a b) as [[-> _]|[-> _]]; [by left|right; by left].
    + intros v Hv.
      assert (Qmin a b <= a ∧ Qmin a b <= b)%Q as [Ha Hb].
      { destruct (Qmin_cases a b) as [[-> ?]|[-> ?]]; lra. }
      pose proof (Hle (Qmin a b) ltac:(by left)) as Hm.
      apply elem_of_cons in Hv as [->|[->|Hv]%elem_of_cons]; [lra|lra|].
      apply Hle. by right.
Qed.

Lemma foldl_Qmax_spec (l : list Q) (a : Q) :
  foldl Qmax a l ∈ a :: l ∧ ∀ v, v ∈ a :: l → (v <= foldl Qmax a l)%Q.
Proof.
  revert a. induction l as [|b l IH]; intros a; simpl.
  - split; [by left|]. intros v ->%list_elem_of_singleton. lra.
  - destruct (IH (Qmax a b)) as [Hin Hle]. split.
    + apply elem_of_cons in Hin as [->|Hin]; [|by do 2 right].
      destruct (Qmax_cases a b) as [[-> _]|[-> _]]; [by left|right; by left].
    + intros v Hv.
      assert (a <= Qmax a b ∧ b <= Qmax a b)%Q as [Ha Hb].
      { destruct (Qmax_cases a b) as [[-> ?]|[-> ?]]; lra. }
      pose proof (Hle (Qmax a b) ltac:(by left)) as Hm.
      apply elem_of_cons in Hv as [->|[->|Hv]%elem_of_cons]; [lra|lra|].
      apply Hle. by right.
Qed.

Lemma minOf_spec (l : list Q) :
  l ≠ [] → TriangleGrid.minOf l ∈ l ∧ ∀ v, v ∈ l → (TriangleGrid.minOf l <= v)%Q.
Proof. destruct l as [|a l]; [done|]. intros _. apply foldl_Qmin_spec. Qed.

Lemma maxOf_spec (l : list Q) :
  l ≠ [] → TriangleGrid.maxOf l ∈ l ∧ ∀ v, v ∈ l → (v <= TriangleGrid.maxOf l)%Q.
Proof. destruct l as [|a l]; [done|]. intros _. apply foldl_Qmax_spec. Qed.

Lemma polygon_bounds_le (polygon : list Point) (p : Point) :
  p ∈ polygon →
  let b := TriangleGrid.getPolygonBounds polygon in
  (TriangleGrid.minX b <= x p <= TriangleGrid.maxX b)%Q
  ∧ (TriangleGrid.minY b <= y p <= TriangleGrid.maxY b)%Q.
Proof.
  intros Hp b.
  assert (map x polygon ≠ []) as Hx by (destruct polygon; [by apply elem_of_nil in Hp|done]).
  assert (map y polygon ≠ []) as Hy by (destruct polygon; [by apply elem_of_nil in Hp|done]).
  destruct (minOf_spec _ Hx) as [_ Hlex], (maxOf_spec _ Hx) as [_ Hgex].
  destruct (minOf_spec _ Hy) as [_ Hley], (maxOf_spec _ Hy) as [_ Hgey].
  simpl.
  pose proof (Hlex (x p) ltac:(by apply list_elem_of_fmap_2)).
  pose proof (Hgex (x p) ltac:(by apply list_elem_of_fmap_2)).
  pose proof (Hley (y p) ltac:(by apply list_elem_of_fmap_2)).
  pose proof (Hgey (y p) ltac:(by apply list_elem_of_fmap_2)).
  done.
Qed.

Lemma polygon_bounds_attained (polygon : list Point) :
  polygon ≠ [] →
  let b := TriangleGrid.getPolygonBounds polygon in
  (∃ p, p ∈ polygon ∧ x p = TriangleGrid.minX b)
  ∧ (∃ p, p ∈ polygon ∧ x p = TriangleGrid.maxX b)
  ∧ (∃ p, p ∈ polygon ∧ y p = TriangleGrid.minY b)
  ∧ (∃ p, p ∈ polygon ∧ y p = TriangleGrid.maxY b).
Proof.
  intros Hne b.
  assert (map x polygon ≠ []) as Hx by (by destruct polygon).
  assert (map y polygon ≠ []) as Hy by (by destruct polygon).
  destruct (minOf_spec _ Hx) as [Hminx _], (maxOf_spec _ Hx) as [Hmaxx _].
  destruct (minOf_spec _ Hy) as [Hminy _], (maxOf_spec _ Hy) as [Hmaxy _].
  apply list_elem_of_fmap in Hminx as (p1 & E1 & H1), Hmaxx as (p2 & E2 & H2).
  apply list_elem_of_fmap in Hminy as (p3 & E3 & H3), Hmaxy as (p4 & E4 & H4).
  split; [by exists p1|]. split; [by exists p2|]. split; [by exists p3|by exists p4].
Qed.

(** X9.  [getPolygonBounds] of a polygon with at least one vertex encloses
    it: every vertex lies between [minX] and [maxX] and between [minY] and
    [maxY], each of the four bounds is the coordinate of some vertex, and
    [width] and [height] are not negative. *)
Theorem polygon_bounds_enclose_polygon (polygon : list Point) :
  polygon ≠ [] →
  let b := TriangleGrid.getPolygonBounds polygon in
  (∀ p, p ∈ polygon →
     (TriangleGrid.minX b <= x p <= TriangleGrid.maxX b)%Q
     ∧ (TriangleGrid.minY b <= y p <= TriangleGrid.maxY b)%Q)
  ∧ (∃ p, p ∈ polygon ∧ x p = TriangleGrid.minX b)
  ∧ (∃ p, p ∈ polygon ∧ x p = TriangleGrid.maxX b)
  ∧ (∃ p, p ∈ polygon ∧ y p = TriangleGrid.minY b)
  ∧ (∃ p, p ∈ polygon ∧ y p = TriangleGrid.maxY b)
  ∧ (0 <= TriangleGrid.width b)%Q ∧ (0 <= TriangleGrid.height b)%Q.
Proof.
  intros Hne b.
  destruct (polygon_bounds_attained polygon Hne) as (Hx0 & Hx1 & Hy0 & Hy1).
  fold b in Hx0, Hx1, Hy0, Hy1.
  split; [intros p Hp; by apply polygon_bounds_le|].
  split; [done|]. split; [done|]. split; [done|]. split; [done|].
  destruct Hx0 as (p & Hp & _).
  pose proof (polygon_bounds_le polygon p Hp) as Hle. cbv zeta in Hle.
  change (TriangleGrid.getPolygonBounds polygon) with b in Hle.
  destruct Hle as [[? ?] [? ?]].
  assert (TriangleGrid.width b = TriangleGrid.maxX b - TriangleGrid.minX b)%Q as -> by done.
  assert (TriangleGrid.height b = TriangleGrid.maxY b - TriangleGrid.minY b)%Q as -> by done.
  split; lra.
Qed.

Lemma polygon_bounds_enclose_polygon_witness :
  (0 <= TriangleGrid.width (TriangleGrid.getPolygonBounds (Piece.polygon Samples.driftA)))%Q
  ∧ (0 <= TriangleGrid.height
             (TriangleGrid.getPolygonBounds (Piece.polygon Samples.driftA)))%Q.
Proof.
  assert (Piece.polygon Samples.driftA ≠ []) as Hne by (vm_compute; discriminate).
  destruct (polygon_bounds_enclose_polygon (Piece.polygon Samples.driftA) Hne)
    as (_ & _ & _ & _ & _ & Hw & Hh).
  split; [exact Hw|exact Hh].
Defined.



Lemma length_flat_map_const {A B} (f : A → list B) (l : list A) (k : nat) :
  (∀ a, length (f a) = k) → length (flat_map f l) = k * length l.
Proof.
  intros Hf. induction l as [|a l IH]; simpl; [lia|].
  rewrite length_app, Hf, IH. lia.
Qed.



Lemma cellPieces_shape cw ch row col p :
  p ∈ TriangleGrid.cellPieces cw ch row col →
  Piece.row p = row ∧ Piece.col p = col ∧ Piece.triangleIndex p < 2
  ∧ Piece.id p = TriangleGrid.pieceId row col (Piece.triangleIndex p)
  ∧ length (Piece.polygon p) = 3 ∧ Piece.neighbors p = [].
Proof.
  unfold TriangleGrid.cellPieces. case_bool_decide;
    intros [->|[->|[]%elem_of_nil]%elem_of_cons]%elem_of_cons; simpl; split_and!; done || lia.
Qed.








Lemma createTrianglePuzzle_cells width height rows cols :
  TriangleGrid.createTrianglePuzzle width height rows cols
  = TriangleGrid.setupNeighbors
      (cells (width / TriangleGrid.Qofnat cols) (height / TriangleGrid.Qofnat rows)
             rows cols).
Proof. done. Qed.

Lemma length_cells cw ch rows cols : length (cells cw ch rows cols) = 2 * rows * cols.
Proof.
  unfold cells.
  rewrite (length_flat_map_const _ _ (2 * cols)), length_seq; [lia|].
  intros row. rewrite (length_flat_map_const _ _ 2), length_seq; [lia|].
  intros col. unfold TriangleGrid.cellPieces. by case_bool_decide.
Qed.



(** *** What [setupNeighbors] records *)

Lemma elem_of_Object_set o key value k v :
  (k, v) ∈ TriangleGrid.Object_set o key value →
  (k, v) ∈ o ∨ (v = value ∧ EdgeKey_eqb k key = true).
Proof.
  induction o as [|[k0 v0] o IH]; simpl.
  - intros [= -> ->]%list_elem_of_singleton. right. split; [done|apply EdgeKey_eqb_refl].
  - destruct (EdgeKey_eqb k0 key) eqn:E.
    + intros [[= -> ->]|Hin]%elem_of_cons; [by right|left; by right].
    + intros [[= -> ->]|Hin]%elem_of_cons; [left; by left|].
      destruct (IH Hin) as [?|?]; [left; by right|by right].
Qed.

Lemma foldl_linkTo_entries piece pieces o k v :
  (k, v) ∈ foldl (TriangleGrid.linkTo piece) o pieces →
  (k, v) ∈ o
  ∨ ∃ other p0 p1, other ∈ pieces ∧ Piece.id other = v
      ∧ Piece.id piece ≠ Piece.id other
      ∧ TriangleGrid.sharedPoints piece other = [p0; p1]
      ∧ EdgeKey_eqb k (keyOf p0 p1) = true.
Proof.
  revert o. induction pieces as [|a pieces IH]; intros o; simpl; [by left|].
  intros [Hin|(other & p0 & p1 & Hother & ?)]%IH.
  - destruct (linkTo_cases piece o a) as [E|(p0 & p1 & Hid & Hshared & E)];
      rewrite E in Hin; [by left|].
    apply elem_of_Object_set in Hin as [?|[-> Hk]]; [by left|].
    right. exists a, p0, p1. split; [by left|done].
  - right. exists other, p0, p1. split; [by right|done].
Qed.

(** X11.  What [setupNeighbors] of the two-triangle grid records is sound.
    On pieces that start without neighbours, every entry of a piece's
    [neighbors] names another piece of the list, never the piece itself,
    with which the piece shares exactly two vertices (each within the
    tolerance of a vertex of the other), and the key of the entry is the key
    formed of these two vertices. *)
Theorem recorded_neighbors_share_two_vertices
    (pieces : list Piece.t) (piece' : Piece.t) (key : EdgeKey) (value : string) :
  (∀ p, p ∈ pieces → Piece.neighbors p = []) →
  piece' ∈ TriangleGrid.setupNeighbors pieces →
  (key, value) ∈ Piece.neighbors piece' →
  value ≠ Piece.id piece'
  ∧ ∃ piece other p0 p1,
      piece ∈ pieces ∧ Piece.id piece = Piece.id piece'
      ∧ Piece.polygon piece = Piece.polygon piece'
      ∧ other ∈ pieces ∧ Piece.id other = value
      ∧ TriangleGrid.sharedPoints piece other = [p0; p1]
      ∧ p0 ∈ Piece.polygon piece ∧ p1 ∈ Piece.polygon piece
      ∧ (∃ q0, q0 ∈ Piece.polygon other ∧ TriangleGrid.coincide p0 q0 = true)
      ∧ (∃ q1, q1 ∈ Piece.polygon other ∧ TriangleGrid.coincide p1 q1 = true)
      ∧ EdgeKey_eqb key (keyOf p0 p1) = true.
Proof.
  intros Hfresh (piece & -> & Hpiece)%list_elem_of_fmap Hentry. simpl in *.
  rewrite (Hfresh _ Hpiece) in Hentry.
  apply foldl_linkTo_entries in Hentry
    as [[]%elem_of_nil|(other & p0 & p1 & Hother & Hv & Hid & Hshared & Hk)].
  split; [congruence|].
  assert (p0 ∈ TriangleGrid.sharedPoints piece other) as H0
    by (rewrite Hshared; by left).
  assert (p1 ∈ TriangleGrid.sharedPoints piece other) as H1
    by (rewrite Hshared; right; by left).
  apply elem_of_sharedPoints in H0 as [? ?], H1 as [? ?].
  exists piece, other, p0, p1. by split_and!.
Qed.

Lemma recorded_neighbors_witness :
  ∃ piece' key value,
    piece' ∈ TriangleGrid.setupNeighbors (TriangleGrid.cellPieces 100 100 0 0)
    ∧ (key, value) ∈ Piece.neighbors piece'
    ∧ value ≠ Piece.id piece'.
Proof.
  set (pieces := TriangleGrid.cellPieces 100 100 0 0).
  assert (∀ p, p ∈ pieces → Piece.neighbors p = []) as Hfresh.
  { intros p Hp. by destruct (cellPieces_shape _ _ _ _ _ Hp) as (_ & _ & _ & _ & _ & ?). }
  destruct (TriangleGrid.setupNeighbors pieces !! 0) as [piece'|] eqn:E0;
    [|vm_compute in E0; discriminate].
  assert (piece' ∈ TriangleGrid.setupNeighbors pieces) as Hin
    by (by eapply list_elem_of_lookup_2).
  vm_compute in E0. injection E0 as <-.
  match type of Hin with ?p ∈ _ => set (piece' := p) in * end.
  destruct (Piece.neighbors piece' !! 0) as [[key value]|] eqn:E1;
    [|vm_compute in E1; discriminate].
  assert ((key, value) ∈ Piece.neighbors piece') as Hentry
    by (by eapply list_elem_of_lookup_2).
  destruct (recorded_neighbors_share_two_vertices pieces piece' key value
              Hfresh Hin Hentry) as [Hne _].
  exists piece', key, value. split; [exact Hin|]. split; [exact Hentry|exact Hne].
Defined.

End GridExtras.

(** ** The four-triangle grid and the piece counts *)

Section RandomGridExtras.
Import Engine RandomPuzzle Grid.

Lemma random_cellPieces_length cw ch row col :
  length (RandomGrid.cellPieces cw ch row col) = 4.
Proof.
  unfold RandomGrid.cellPieces, RandomGrid.generateTrianglePattern.
  by destruct ((row * 7 + col * 13) mod 6) as [|[|[|[|[|[|?]]]]]].
Qed.

Lemma length_allPieces cw ch rows cols :
  length (RandomPuzzle.allPieces cw ch rows cols) = 4 * rows * cols.
Proof.
  unfold RandomPuzzle.allPieces.
  rewrite (length_flat_map_const _ _ (4 * cols)), length_seq; [lia|].
  intros row. rewrite (length_flat_map_const _ _ 4), length_seq; [lia|].
  intros col. apply random_cellPieces_length.
Qed.

(** [setupNeighbors] of the random page touches nothing but [neighbors]. *)
Lemma setNeighbor_map {A} (f : Piece.t → A) pieces i key value :
  (∀ p n, f (TriangleGrid.withNeighbors p n) = f p) →
  map f (RandomGrid.setNeighbor pieces i key value) = map f pieces.
Proof.
  intros Hf. unfold RandomGrid.setNeighbor.
  destruct (pieces !! i) as [piece|] eqn:E; [|done].
  change (map f ?l) with (f <$> l).
  rewrite list_fmap_insert, Hf. apply list_insert_id.
  by rewrite list_lookup_fmap, E.
Qed.

Lemma linkPair_map {A} (f : Piece.t → A) tolerance pieces ij :
  (∀ p n, f (TriangleGrid.withNeighbors p n) = f p) →
  map f (RandomGrid.linkPair tolerance pieces ij) = map f pieces.
Proof.
  intros Hf. unfold RandomGrid.linkPair. destruct ij as [i j].
  case_bool_decide; [done|].
  destruct (pieces !! i) as [piece|]; [|done].
  destruct (pieces !! j) as [otherPiece|]; [|done].
  destruct (RandomGrid.edgeKeyOf tolerance piece otherPiece); [|done].
  by rewrite !setNeighbor_map.
Qed.

Lemma random_setupNeighbors_map {A} (f : Piece.t → A) pieces tolerance :
  (∀ p n, f (TriangleGrid.withNeighbors p n) = f p) →
  map f (RandomGrid.setupNeighbors pieces tolerance) = map f pieces.
Proof.
  intros Hf. unfold RandomGrid.setupNeighbors.
  generalize (flat_map (λ i, map (λ j, (i, j)) (seq 0 (length pieces)))
                       (seq 0 (length pieces))).
  intros pairs. revert pieces.
  induction pairs as [|ij pairs IH]; intros pieces; simpl; [done|].
  by rewrite IH, linkPair_map.
Qed.










Lemma createTrianglePuzzle_resolved imgWidth imgHeight rows cols maxImageSize r :
  createTrianglePuzzle imgWidth imgHeight rows cols maxImageSize = inr r →
  pieces r = RandomGrid.createTrianglePuzzle imgWidth imgHeight rows cols maxImageSize.
Proof.
  unfold createTrianglePuzzle. case_bool_decide; [done|]. by intros [= <-].
Qed.






Lemma triangle_puzzle_length width height rows cols :
  length (TriangleGrid.createTrianglePuzzle width height rows cols) = 2 * rows * cols.
Proof.
  rewrite createTrianglePuzzle_cells. unfold TriangleGrid.setupNeighbors.
  by rewrite length_map, length_cells.
Qed.

Lemma random_puzzle_length imgWidth imgHeight rows cols maxImageSize :
  length (RandomGrid.createTrianglePuzzle imgWidth imgHeight rows cols maxImageSize)
  = 4 * rows * cols.
Proof.
  unfold RandomGrid.createTrianglePuzzle.
  rewrite <- (length_map Piece.id), random_setupNeighbors_map by done.
  rewrite length_map. apply length_allPieces.
Qed.

Lemma gridMap_counts :
  Forall (λ g, epieces g = Z.of_nat (4 * erows g * ecols g)) gridMap.
Proof. apply (bool_decide_unpack _). vm_compute. exact I. Qed.

(** X14.  The piece counts of the two pages.  The two-triangle puzzle made
    for the grid of [getPieceDimensions(pieceCount)] has exactly
    [pieceCount] pieces when the count is in the table, and 32 otherwise.
    The four-triangle puzzle made for the grid of
    [getGridForPieceCount(piecesCount)] has the piece count of a table entry
    that is closest to the request, and exactly the requested count when the
    table has it. *)
Theorem piece_count_is_the_count_of_the_table
    (pieceCount : Z) (width height maxImageSize : Q) :
  (let d := getPieceDimensions pieceCount in
   Z.of_nat (length (TriangleGrid.createTrianglePuzzle width height (rows d) (cols d)))
   = if bool_decide (pieceCount ∈ [8; 12; 18; 24; 32; 40; 50; 72]%Z)
     then pieceCount else 32%Z)
  ∧ (let d := getGridForPieceCount pieceCount in
     ∃ g, g ∈ gridMap
       ∧ Z.of_nat (length (RandomGrid.createTrianglePuzzle width height (rows d) (cols d)
                             maxImageSize))
         = epieces g
       ∧ (pieceCount ∈ map epieces gridMap → epieces g = pieceCount)
       ∧ ∀ g', g' ∈ gridMap →
           (Z.abs (pieceCount - epieces g) ≤ Z.abs (pieceCount - epieces g'))%Z).
Proof.
  split.
  - cbn zeta. rewrite triangle_puzzle_length.
    destruct (decide (pieceCount ∈ [8; 12; 18; 24; 32; 40; 50; 72]%Z)) as [Hin|Hnin].
    + rewrite bool_decide_eq_true_2 by done.
      repeat (apply elem_of_cons in Hin as [->|Hin]; [vm_compute; reflexivity|]).
      by apply elem_of_nil in Hin.
    + rewrite bool_decide_eq_false_2 by done.
      assert (lookupMapping pieceCount = None) as Hnone.
      { unfold lookupMapping, mapping. simpl.
        rewrite !bool_decide_eq_false_2; [done|..];
          intros <-; apply Hnin; apply (bool_decide_unpack _); vm_compute; exact I. }
      unfold getPieceDimensions. rewrite Hnone. reflexivity.
  - cbn zeta. rewrite random_puzzle_length.
    unfold getGridForPieceCount.
    destruct (find _ gridMap) as [exact|] eqn:Hfind.
    + apply find_some in Hfind as [Hin Heq%bool_decide_eq_true].
      apply list_elem_of_In in Hin. exists exact. simpl.
      split; [done|]. split.
      * pose proof gridMap_counts as Hc. rewrite Forall_forall in Hc.
        symmetry. apply (Hc exact Hin).
      * split; [done|]. intros g' _. rewrite Heq. lia.
    + set (first := mkEntry 4 1 1).
      destruct (closestEntry_spec pieceCount first gridMap) as [Hin Hmin].
      assert (closestEntry pieceCount first gridMap ∈ gridMap) as Hin'.
      { apply elem_of_cons in Hin as [->|?]; [by left|done]. }
      exists (closestEntry pieceCount first gridMap). change gridMap with (first :: tail gridMap) at 1.
      cbn [rows cols]. split; [done|]. split.
      * pose proof gridMap_counts as Hc. rewrite Forall_forall in Hc.
        symmetry. apply (Hc _ Hin').
      * split.
        -- intros (g & Heq & Hg)%list_elem_of_fmap. exfalso.
           apply list_elem_of_In in Hg.
           apply (find_none _ _ Hfind) in Hg. by apply bool_decide_eq_false in Hg.
        -- intros g' Hg'. apply Hmin. by right.
Qed.

End RandomGridExtras.

(** ** Sessions of the exact-slot variant *)

Section ExactSlotExtras.
Import ExactSlot.

Lemma map_add_seq (j n : nat) : map (λ c, j + c) (seq 0 n) = seq j n.
Proof.
  change (map (λ c, j + c) (seq 0 n)) with (Nat.add j <$> seq 0 n).
  rewrite fmap_add_seq. f_equal. lia.
Qed.

Lemma splitImage_indices rows cols :
  map correctIndex (splitImage rows cols) = seq 0 (rows * cols).
Proof.
  unfold splitImage. induction rows as [|rows IH].
  - done.
  - rewrite seq_S, flat_map_app, map_app, IH. simpl. rewrite app_nil_r, map_map. simpl.
    replace (cols + rows * cols) with (rows * cols + cols) by lia.
    rewrite seq_app. f_equal. apply map_add_seq.
Qed.

Lemma splitImage_ids rows cols :
  map id (splitImage rows cols)
  = map (λ n, "piece-" +:+ pretty n) (seq 0 (rows * cols)).
Proof.
  rewrite <- splitImage_indices, map_map. apply map_ext_in.
  intros p Hp%list_elem_of_In. by apply splitImage_id in Hp.
Qed.

Lemma splitImage_length rows cols : length (splitImage rows cols) = rows * cols.
Proof. by rewrite <- (length_map correctIndex), splitImage_indices, length_seq. Qed.

Lemma splitImage_ids_NoDup rows cols : NoDup (map id (splitImage rows cols)).
Proof.
  rewrite splitImage_ids. apply (NoDup_fmap_2 _), NoDup_seq.
Qed.

Lemma splitImage_index_lt rows cols p :
  p ∈ splitImage rows cols → correctIndex p < rows * cols.
Proof.
  intros Hp. assert (correctIndex p ∈ map correctIndex (splitImage rows cols)) as Hin
    by (by apply list_elem_of_fmap_2).
  rewrite splitImage_indices in Hin. apply elem_of_seq in Hin. lia.
Qed.

Lemma splitImage_id_inj rows cols p q :
  p ∈ splitImage rows cols → q ∈ splitImage rows cols →
  id p = id q → correctIndex p = correctIndex q.
Proof.
  intros Hp Hq. rewrite (splitImage_id _ _ _ Hp), (splitImage_id _ _ _ Hq).
  intros H. apply (inj (String.app "piece-")) in H. by apply (inj pretty) in H.
Qed.

Lemma splitImage_index_inj rows cols p q :
  p ∈ splitImage rows cols → q ∈ splitImage rows cols →
  correctIndex p = correctIndex q → id p = id q.
Proof.
  intros Hp Hq. rewrite (splitImage_id _ _ _ Hp), (splitImage_id _ _ _ Hq). by intros ->.
Qed.

(** *** Grids whose pieces sit in their own slots *)

Lemma NoDup_filter_lookup (l : list string) :
  (∀ i j z, z ≠ "" → l !! i = Some z → l !! j = Some z → i = j) →
  NoDup (filter (λ i, i ≠ "") l).
Proof.
  induction l as [|a l IH]; intros Hl; [apply NoDup_nil_2|].
  assert (NoDup (filter (λ i, i ≠ "") l)) as Hnd.
  { apply IH. intros i j z Hz Hi Hj.
    assert (S i = S j) by (by apply (Hl (S i) (S j) z)). lia. }
  rewrite filter_cons. case_decide as Ha; [|done].
  apply NoDup_cons. split; [|done].
  intros [_ Hin]%list_elem_of_filter. apply list_elem_of_lookup in Hin as [j Hj].
  by specialize (Hl 0 (S j) a Ha eq_refl Hj).
Qed.

Lemma gridCorrect_NoDup st : gridCorrect st → NoDup (onBoard st).
Proof.
  intros Hinv. apply NoDup_filter_lookup. intros i j z Hz Hi Hj.
  destruct (Hinv _ _ Hi Hz) as (p & Hp & <-), (Hinv _ _ Hj Hz) as (q & Hq & <-).
  congruence.
Qed.

Lemma filter_insert_empty (l : list string) (t : nat) (a : string) :
  l !! t = Some "" → a ≠ "" →
  filter (λ i, i ≠ "") (<[t := a]> l) ≡ₚ a :: filter (λ i, i ≠ "") l.
Proof.
  intros Ht Ha. rewrite insert_take_drop by (by eapply lookup_lt_Some).
  rewrite <- (take_drop_middle l t "" Ht) at 3.
  rewrite !filter_app, !filter_cons.
  rewrite decide_True by done. rewrite decide_False by (intros H; by apply H).
  by rewrite Permutation_middle.
Qed.

Lemma filter_insert_clear (l : list string) (t : nat) (a : string) :
  l !! t = Some a → a ≠ "" →
  a :: filter (λ i, i ≠ "") (<[t := ""]> l) ≡ₚ filter (λ i, i ≠ "") l.
Proof.
  intros Ht Ha. rewrite insert_take_drop by (by eapply lookup_lt_Some).
  rewrite <- (take_drop_middle l t a Ht) at 3.
  rewrite !filter_app, !filter_cons.
  rewrite (decide_False (P := "" ≠ "")) by (intros H; by apply H).
  rewrite (decide_True (P := a ≠ "")) by done.
  by rewrite Permutation_middle.
Qed.

Lemma filter_ne_remove (l : list string) (a : string) :
  NoDup l → a ∈ l → a :: filter (λ i, i ≠ a) l ≡ₚ l.
Proof.
  induction l as [|b l IH]; intros Hnd Hin; [by apply elem_of_nil in Hin|].
  apply NoDup_cons in Hnd as [Hb Hnd]. rewrite filter_cons.
  apply elem_of_cons in Hin as [->|Hin].
  - rewrite decide_False by (intros H; by apply H). f_equiv.
    clear IH Hnd. induction l as [|c l IH]; [done|].
    rewrite filter_cons. rewrite decide_True by (intros ->; apply Hb; by left).
    f_equiv. apply IH. intros ?. apply Hb. by right.
  - rewrite decide_True by (intros ->; done).
    rewrite Permutation_swap. f_equiv. by apply IH.
Qed.

Lemma indexOf_Some (x : string) (l : list string) (k : nat) :
  indexOf x l = Some k → l !! k = Some x.
Proof.
  unfold indexOf. destruct (list_find _ l) as [[k' y]|] eqn:E; [|done].
  intros [= <-]. by apply list_find_Some in E as (? & -> & _).
Qed.

Lemma indexOf_None (x : string) (l : list string) :
  indexOf x l = None → x ∉ l.
Proof.
  unfold indexOf. destruct (list_find _ l) as [[k' y]|] eqn:E; [done|].
  intros _ Hin. apply list_find_None in E. rewrite Forall_forall in E.
  by apply (E x).
Qed.

(** *** The conservation invariant *)

Lemma conserved_runSolvedCheck rows cols st :
  conserved rows cols st → conserved rows cols (runSolvedCheck st).
Proof.
  unfold conserved, onBoard.
  by rewrite runSolvedCheck_grid, runSolvedCheck_pieces, runSolvedCheck_pool.
Qed.

Lemma foldl_insert_length (placed : list Piece) (g : list string) :
  length (foldl (λ g piece, <[correctIndex piece := id piece]> g) g placed) = length g.
Proof.
  revert g. induction placed as [|p placed IH]; intros g; simpl; [done|].
  by rewrite IH, length_insert.
Qed.

Lemma foldl_insert_other (placed : list Piece) (g : list string) (idx : nat) :
  idx ∉ map correctIndex placed →
  foldl (λ g piece, <[correctIndex piece := id piece]> g) g placed !! idx = g !! idx.
Proof.
  revert g. induction placed as [|p placed IH]; intros g Hidx; simpl; [done|].
  rewrite IH by (intros ?; apply Hidx; by right).
  apply list_lookup_insert_ne. intros <-. apply Hidx. by left.
Qed.

Lemma foldl_insert_placed (placed : list Piece) (g : list string) (p : Piece) :
  NoDup (map correctIndex placed) → p ∈ placed → correctIndex p < length g →
  foldl (λ g piece, <[correctIndex piece := id piece]> g) g placed !! correctIndex p
  = Some (id p).
Proof.
  revert g. induction placed as [|q placed IH]; intros g Hnd Hp Hlt; simpl.
  - by apply elem_of_nil in Hp.
  - simpl in Hnd. apply NoDup_cons in Hnd as [Hq Hnd].
    apply elem_of_cons in Hp as [->|Hp].
    + rewrite foldl_insert_other by done. by apply list_lookup_insert_eq.
    + apply IH; [done..|]. by rewrite length_insert.
Qed.

Lemma sublist_NoDup_map {A B} (f : A → B) (l k : list A) :
  l `sublist_of` k → NoDup (map f k) → NoDup (map f l).
Proof.
  intros Hs Hk. apply (sublist_NoDup (f <$> l) (f <$> k)); [exact Hk|by apply fmap_sublist].
Qed.

Lemma conserved_initialize rows cols mode shuffled st0 :
  shuffled ≡ₚ splitImage rows cols →
  conserved rows cols (initialize rows cols mode shuffled st0).
Proof.
  intros Hperm.
  assert (NoDup (map id shuffled)) as Hnd.
  { change (map id shuffled) with (id <$> shuffled). rewrite Hperm.
    apply splitImage_ids_NoDup. }
  assert (map id shuffled ≡ₚ map id (splitImage rows cols)) as Hids.
  { change (map id shuffled) with (id <$> shuffled). by rewrite Hperm. }
  destruct mode; unfold conserved, onBoard; simpl.
  - split; [done|]. split; [unfold emptyGrid; by rewrite foldl_insert_length, length_replicate|].
    set (k := rows * cols * 2 / 5 + 2).
    set (placed := take k shuffled).
    set (grid := foldl (λ g piece, <[correctIndex piece := id piece]> g)
                       (emptyGrid (rows * cols)) placed).
    assert (gridCorrect (initialize rows cols partial shuffled st0)) as Hcorrect
      by (by apply gridCorrect_initialize).
    apply gridCorrect_NoDup in Hcorrect. unfold onBoard in Hcorrect. simpl in Hcorrect.
    fold k placed grid in Hcorrect.
    assert (NoDup (map correctIndex placed)) as Hndidx.
    { apply (sublist_NoDup_map _ _ shuffled); [apply sublist_take|].
      change (map correctIndex shuffled) with (correctIndex <$> shuffled).
      rewrite Hperm. rewrite splitImage_indices. apply NoDup_seq. }
    assert (∀ p, p ∈ placed → p ∈ splitImage rows cols) as Hsub.
    { intros p Hp. rewrite <- Hperm. by eapply subseteq_take. }
    rewrite <- Hids. apply NoDup_Permutation.
    + apply NoDup_app. split; [done|]. split; [|by apply NoDup_filter].
      intros i [Hne Hin]%list_elem_of_filter [Hnot _]%list_elem_of_filter.
      apply Hnot. apply list_elem_of_lookup in Hin as [idx Hidx].
      apply partial_grid_entries in Hidx as [Hidx|(p & Hp & _ & <-)].
      * by apply emptyGrid_lookup in Hidx.
      * apply Exists_exists. by exists p.
    + done.
    + intros i. rewrite elem_of_app, !list_elem_of_filter. split.
      * intros [[Hne Hin]|[_ Hin]]; [|done].
        apply list_elem_of_lookup in Hin as [idx Hidx].
        apply partial_grid_entries in Hidx as [Hidx|(p & Hp & _ & <-)].
        -- by apply emptyGrid_lookup in Hidx.
        -- apply list_elem_of_fmap_2. by eapply subseteq_take.
      * intros Hin.
        destruct (decide (Exists (λ p, id p = i) placed)) as [Hex|Hnex]; [|by right].
        left. apply Exists_exists in Hex as (p & Hp & <-).
        split; [by apply (splitImage_id_nonempty rows cols), Hsub|].
        apply (list_elem_of_lookup_2 _ (correctIndex p)).
        apply foldl_insert_placed; [done..|].
        unfold emptyGrid. rewrite length_replicate. by apply splitImage_index_lt, Hsub.
  - split; [done|]. split; [unfold emptyGrid; by rewrite length_replicate|].
    assert (filter (λ i, i ≠ "") (emptyGrid (rows * cols)) = []) as ->; [|done].
    unfold emptyGrid. induction (rows * cols) as [|n IH]; [done|]. simpl.
    rewrite filter_cons, decide_False by (intros H; by apply H). done.
Qed.

Lemma conserved_pool_NoDup rows cols st :
  conserved rows cols st → NoDup (onBoard st ++ poolItems st).
Proof. intros (_ & _ & ->). apply splitImage_ids_NoDup. Qed.

Lemma conserved_handleDragEnd rows cols a o st :
  gridCorrect st → conserved rows cols st →
  conserved rows cols (handleDragEnd a o st).1.
Proof.
  intros Hcorrect Hcons. pose proof Hcons as (Hpieces & Hlen & Hperm).
  pose proof (conserved_pool_NoDup _ _ _ Hcons) as Hnd.
  apply NoDup_app in Hnd as (Hndb & Hdisj & Hndp).
  unfold handleDragEnd.
  destruct o as [target|]; [|done].
  destruct (findPiece (pieces st) a) as [piece|] eqn:Hfind; [|done].
  pose proof Hfind as [Hpin Hpid]%findPiece_Some. rewrite Hpieces in Hpin.
  assert (a ≠ "") as Ha by (rewrite <- Hpid; by eapply splitImage_id_nonempty).
  destruct target as [t| |]; [| |done].
  - case_bool_decide as Hocc; [done|].
    case_bool_decide as Hidx; [done|].
    try apply dec_stable in Hocc. try apply dec_stable in Hidx. subst t.
    unfold conserved, onBoard in *. simpl.
    split; [done|]. split; [by rewrite length_insert|].
    assert (a ∉ filter (λ i, i ≠ "") (gridItems st)) as Hnot.
    { intros [_ Hin]%list_elem_of_filter. apply list_elem_of_lookup in Hin as [idx Hi].
      destruct (Hcorrect _ _ Hi Ha) as (q & Hq & <-).
      assert (q = piece) as -> by congruence. congruence. }
    assert (a ∈ poolItems st) as Hpool.
    { assert (a ∈ map id (splitImage rows cols)) as Hin
        by (rewrite <- Hpid; by apply list_elem_of_fmap_2).
      rewrite <- Hperm in Hin. by apply elem_of_app in Hin as [?|?]. }
    rewrite filter_insert_empty by done.
    rewrite <- Hperm. simpl. rewrite Permutation_middle.
    by rewrite filter_ne_remove.
  - destruct (indexOf a (gridItems st)) as [from|] eqn:Hfrom; [|done].
    apply indexOf_Some in Hfrom.
    unfold conserved, onBoard in *. simpl.
    split; [done|]. split; [by rewrite length_insert|].
    rewrite <- Hperm, <- (filter_insert_clear (gridItems st) from a) by done.
    simpl. rewrite app_assoc, <- Permutation_cons_append. done.
Qed.

Lemma reachable_conserved rows cols st :
  reachable rows cols st → conserved rows cols st.
Proof.
  induction 1 as [mode shuffled Hperm | e st Hreach IH].
  - by apply conserved_runSolvedCheck, conserved_initialize.
  - apply conserved_runSolvedCheck. destruct e; [done|].
    apply conserved_handleDragEnd; [by eapply reachable_gridCorrect|done].
Qed.

Lemma length_filter_split (l : list string) :
  length (filter (λ i, i = "") l) + length (filter (λ i, i ≠ "") l) = length l.
Proof.
  induction l as [|a l IH]; [done|]. rewrite !filter_cons.
  destruct (decide (a = "")) as [->|Hne].
  - rewrite decide_False by (intros H; by apply H). simpl. lia.
  - rewrite decide_True by done. simpl. lia.
Qed.

(** X15.  In every observable state of a session of the exact-slot variant
    the pieces are those of [splitImage], the grid has [rows * cols] slots,
    and every piece id is either in a slot of the grid or in the pool, and
    there exactly once; so the number of empty slots is the number of pieces
    in the pool. *)
Theorem every_piece_on_the_board_or_in_the_pool rows cols st :
  reachable rows cols st →
  pieces st = splitImage rows cols
  ∧ length (gridItems st) = rows * cols
  ∧ onBoard st ++ poolItems st ≡ₚ map id (splitImage rows cols)
  ∧ NoDup (onBoard st ++ poolItems st)
  ∧ length (emptySlots st) = length (poolItems st).
Proof.
  intros Hreach%reachable_conserved.
  pose proof (conserved_pool_NoDup _ _ _ Hreach) as Hnd.
  destruct Hreach as (Hpieces & Hlen & Hperm).
  split_and!; [done..|].
  pose proof (length_filter_split (gridItems st)) as Hsplit.
  apply Permutation_length in Hperm.
  rewrite length_app, length_map, splitImage_length in Hperm.
  unfold emptySlots, onBoard in *. lia.
Qed.

Lemma every_piece_on_the_board_or_in_the_pool_witness :
  reachable 2 2 Samples.slotStart
  ∧ length (emptySlots Samples.slotStart) = length (poolItems Samples.slotStart).
Proof.
  assert (reachable 2 2 Samples.slotStart) as Hreach by (apply reach_init; reflexivity).
  split; [exact Hreach|].
  destruct (every_piece_on_the_board_or_in_the_pool 2 2 Samples.slotStart Hreach)
    as (_ & _ & _ & _ & Hcount).
  exact Hcount.
Defined.

Lemma filter_all_length (l : list string) :
  length (filter (λ i, i ≠ "") l) = length l ↔ "" ∉ l.
Proof.
  pose proof (length_filter_split l) as Hsplit. split.
  - intros Hlen Hin.
    assert ("" ∈ filter (λ i, i = "") l) as Hf by (by apply list_elem_of_filter).
    destruct (filter (λ i, i = "") l); [by apply elem_of_nil in Hf|]. simpl in *. lia.
  - intros Hnot. destruct (filter (λ i, i = "") l) as [|z ?] eqn:E; [simpl in *; lia|].
    exfalso. assert (z ∈ filter (λ i, i = "") l) as [-> ?]%list_elem_of_filter
      by (rewrite E; by left). done.
Qed.

Lemma solvedCheck_runSolvedCheck st : solvedCheck (runSolvedCheck st) = solvedCheck st.
Proof.
  unfold solvedCheck, boardFull.
  by rewrite runSolvedCheck_grid, runSolvedCheck_pieces, runSolvedCheck_pool.
Qed.

Lemma runSolvedCheck_isSolved st :
  isSolved (runSolvedCheck st) = isSolved st || solvedCheck st.
Proof.
  unfold runSolvedCheck. destruct (solvedCheck st); simpl; [by rewrite orb_true_r|].
  by rewrite orb_false_r.
Qed.

Lemma reachable_solvedCheck rows cols st :
  reachable rows cols st → solvedCheck st = true → isSolved st = true.
Proof.
  intros Hreach. destruct Hreach as [mode shuffled _|e st _]; unfold step;
    rewrite solvedCheck_runSolvedCheck, runSolvedCheck_isSolved; intros ->;
    apply orb_true_r.
Qed.

Lemma step_isSolved e st : isSolved st = true → isSolved (step e st) = true.
Proof.
  intros Hs. unfold step. rewrite runSolvedCheck_isSolved.
  apply orb_true_iff. left. destruct e as [a|a o]; [done|].
  unfold handleDragEnd. repeat case_match; done.
Qed.

Lemma pool_empty_solvedCheck rows cols st :
  reachable rows cols st → (poolItems st = [] ↔ solvedCheck st = true).
Proof.
  intros Hreach.
  pose proof (reachable_gridCorrect _ _ _ Hreach) as Hcorrect.
  destruct (reachable_conserved _ _ _ Hreach) as (Hpieces & Hlen & Hperm).
  split.
  - intros Hpool. unfold solvedCheck, boardFull. rewrite Hpool in *.
    rewrite app_nil_r in Hperm. apply Permutation_length in Hperm.
    rewrite length_map, splitImage_length, <- Hlen in Hperm.
    apply filter_all_length in Hperm.
    rewrite bool_decide_eq_true_2 by done.
    rewrite bool_decide_eq_false_2 by done. simpl.
    by apply gridCorrect_allSlotsCorrect.
  - unfold solvedCheck, boardFull.
    intros [[Hpool%bool_decide_eq_true _]%andb_true_iff _]%andb_true_iff.
    by destruct (poolItems st).
Qed.

(** X16.  In every observable state of a session of the exact-slot variant
    the pool is empty exactly when no slot of the grid is empty, and exactly
    when the test of the solved check succeeds; with an empty pool the puzzle
    is shown as solved, and once shown as solved it stays so after every
    further event. *)
Theorem empty_pool_is_solved rows cols st :
  reachable rows cols st →
  (poolItems st = [] ↔ "" ∉ gridItems st)
  ∧ (poolItems st = [] ↔ solvedCheck st = true)
  ∧ (poolItems st = [] → isSolved st = true)
  ∧ (isSolved st = true → ∀ e, isSolved (step e st) = true).
Proof.
  intros Hreach. split; [|split; [|split]].
  - destruct (reachable_conserved _ _ _ Hreach) as (Hpieces & Hlen & Hperm).
    apply Permutation_length in Hperm.
    rewrite length_app, length_map, splitImage_length, <- Hlen in Hperm.
    rewrite <- filter_all_length. unfold onBoard in Hperm. split.
    + intros Hp. rewrite Hp in Hperm. simpl in Hperm. lia.
    + intros Hl. destruct (poolItems st); [done|]. simpl in Hperm. lia.
  - by eapply pool_empty_solvedCheck.
  - intros Hp. eapply reachable_solvedCheck; [done|]. by eapply pool_empty_solvedCheck.
  - intros Hs e. by apply step_isSolved.
Qed.

Lemma empty_pool_is_solved_witness :
  reachable 2 2 Samples.slotStart
  ∧ (poolItems Samples.slotStart = [] ↔ solvedCheck Samples.slotStart = true).
Proof.
  assert (reachable 2 2 Samples.slotStart) as Hreach by (apply reach_init; reflexivity).
  split; [exact Hreach|].
  destruct (empty_pool_is_solved 2 2 Samples.slotStart Hreach) as (_ & Hiff & _).
  exact Hiff.
Defined.

(** *** The initial board *)

Lemma filter_none {A} (P : A → Prop) `{!∀ x, Decision (P x)} (l : list A) :
  (∀ x, x ∈ l → ¬ P x) → filter P l = [].
Proof.
  induction l as [|a l IH]; intros Hl; [done|].
  rewrite filter_cons, decide_False by (apply Hl; by left).
  apply IH. intros x Hx. apply Hl. by right.
Qed.

Lemma filter_all {A} (P : A → Prop) `{!∀ x, Decision (P x)} (l : list A) :
  (∀ x, x ∈ l → P x) → filter P l = l.
Proof.
  induction l as [|a l IH]; intros Hl; [done|].
  rewrite filter_cons, decide_True by (apply Hl; by left).
  f_equal. apply IH. intros x Hx. apply Hl. by right.
Qed.

Lemma filter_not_placed (placed rest : list Piece) :
  NoDup (map id (placed ++ rest)) →
  filter (λ i, ¬ Exists (λ p, id p = i) placed) (map id (placed ++ rest)) = map id rest.
Proof.
  intros Hnd. rewrite map_app in Hnd |- *. apply NoDup_app in Hnd as (_ & Hdisj & _).
  rewrite filter_app, filter_none, filter_all; [done| |].
  - intros i (p & -> & Hp)%list_elem_of_fmap (q & Hq & Heq)%Exists_exists.
    apply (Hdisj (id q)); [by apply list_elem_of_fmap_2|].
    rewrite Heq. by apply list_elem_of_fmap_2.
  - intros i (p & -> & Hp)%list_elem_of_fmap Hnot. apply Hnot, Exists_exists. by exists p.
Qed.

Lemma initial_pool_partial rows cols shuffled st0 :
  NoDup (map id shuffled) →
  poolItems (initialize rows cols partial shuffled st0)
  = map id (drop (rows * cols * 2 / 5 + 2) shuffled).
Proof.
  intros Hnd. simpl. set (k := rows * cols * 2 / 5 + 2).
  pose proof (filter_not_placed (take k shuffled) (drop k shuffled)) as H.
  rewrite take_drop in H. by apply H.
Qed.

Lemma initial_isSolved rows cols mode shuffled :
  let st0 := initialize rows cols mode shuffled (initialState rows cols) in
  isSolved (runSolvedCheck st0) = solvedCheck st0.
Proof. intros st0. rewrite runSolvedCheck_isSolved. by destruct mode. Qed.

(** X17.  The board after initialisation from any shuffle of the split
    pieces.  In mode ['partial'] the grid holds
    [Math.floor(totalSlots * 0.4) + 2] pieces, or all of them when there are
    fewer, and the pool the others; in mode ['empty'] the grid is empty and
    the pool holds every piece.  The puzzle starts solved exactly when
    nothing is left for the pool: in mode ['partial'] on boards of at most 3
    slots, in mode ['empty'] on the board without slots. *)
Theorem initial_board rows cols mode shuffled :
  shuffled ≡ₚ splitImage rows cols →
  let st := runSolvedCheck (initialize rows cols mode shuffled (initialState rows cols)) in
  let placedCount :=
    match mode with
    | partial => Nat.min (rows * cols) (rows * cols * 2 / 5 + 2)
    | empty => 0
    end in
  length (onBoard st) = placedCount
  ∧ length (poolItems st) = rows * cols - placedCount
  ∧ (isSolved st = true ↔ placedCount = rows * cols)
  ∧ (placedCount = rows * cols ↔
     match mode with partial => rows * cols ≤ 3 | empty => rows * cols = 0 end).
Proof.
  intros Hperm st placedCount.
  assert (reachable rows cols st) as Hreach by (by apply reach_init).
  destruct (reachable_conserved _ _ _ Hreach) as (Hpieces & Hlen & Hcons).
  apply Permutation_length in Hcons.
  rewrite length_app, length_map, splitImage_length in Hcons.
  assert (length shuffled = rows * cols) as Hshuf
    by (by rewrite Hperm, splitImage_length).
  assert (length (poolItems st) = rows * cols - placedCount) as Hpool.
  { subst st placedCount. rewrite runSolvedCheck_pool. destruct mode.
    - rewrite initial_pool_partial.
      + rewrite length_map, length_drop. lia.
      + change (map id shuffled) with (id <$> shuffled). rewrite Hperm.
        apply splitImage_ids_NoDup.
    - simpl. rewrite length_map. lia. }
  assert (placedCount ≤ rows * cols) as Hle by (subst placedCount; destruct mode; lia).
  split; [lia|]. split; [done|]. split.
  - assert (isSolved st = solvedCheck st) as ->.
    { unfold st. by rewrite initial_isSolved, solvedCheck_runSolvedCheck. }
    rewrite <- (pool_empty_solvedCheck rows cols) by done. split.
    + intros Hp. rewrite Hp in Hpool. simpl in Hpool. lia.
    + intros Hp. destruct (poolItems st); [done|]. simpl in Hpool. lia.
  - subst placedCount. destruct mode; [|lia].
    pose proof (Nat.div_mod_eq (rows * cols * 2) 5).
    pose proof (Nat.mod_upper_bound (rows * cols * 2) 5). lia.
Qed.

Lemma initial_board_witness :
  splitImage 2 2 ≡ₚ splitImage 2 2
  ∧ length (onBoard (runSolvedCheck (initialize 2 2 partial (splitImage 2 2)
                                       (initialState 2 2)))) = 3.
Proof.
  assert (splitImage 2 2 ≡ₚ splitImage 2 2) as Hperm by reflexivity.
  split; [exact Hperm|].
  destruct (initial_board 2 2 partial (splitImage 2 2) Hperm) as (Hboard & _).
  exact Hboard.
Defined.

(** *** A piece of the pool fits its own slot *)

(** X18.  In every observable state of a session of the exact-slot variant
    a piece of the pool can be placed: it is a known piece, its own slot is
    empty, a drop on that slot is accepted and moves the piece from the pool
    to the slot, while a drop on any other slot raises a signal.  Dragging
    the piece back onto the pool afterwards restores the grid and puts the
    piece at the end of the pool. *)
Theorem pool_piece_fits_its_slot rows cols st a :
  reachable rows cols st → a ∈ poolItems st →
  ∃ piece,
    findPiece (pieces st) a = Some piece
    ∧ gridItems st !! correctIndex piece = Some ""
    ∧ (∀ targetIndex, targetIndex ≠ correctIndex piece →
         (handleDragEnd a (Some (OverSlot targetIndex)) st).2 ≠ None)
    ∧ let st1 := step (DragEnd a (Some (OverSlot (correctIndex piece)))) st in
      let st2 := step (DragEnd a (Some OverPool)) st1 in
      (handleDragEnd a (Some (OverSlot (correctIndex piece))) st).2 = None
      ∧ gridItems st1 = <[correctIndex piece := a]> (gridItems st)
      ∧ poolItems st1 = filter (λ i, i ≠ a) (poolItems st)
      ∧ (a ∉ poolItems st1)
      ∧ gridItems st2 = gridItems st
      ∧ poolItems st2 = filter (λ i, i ≠ a) (poolItems st) ++ [a].
Proof.
  intros Hreach Hpool.
  pose proof (reachable_gridCorrect _ _ _ Hreach) as Hcorrect.
  pose proof (reachable_conserved _ _ _ Hreach) as Hcons.
  pose proof (conserved_pool_NoDup _ _ _ Hcons) as Hnd.
  destruct Hcons as (Hpieces & Hlen & Hperm).
  apply NoDup_app in Hnd as (Hndb & Hdisj & Hndp).
  assert (a ∈ map id (splitImage rows cols)) as Hin
    by (rewrite <- Hperm; apply elem_of_app; by right).
  apply list_elem_of_fmap in Hin as (p & -> & Hp).
  destruct (findPiece_complete _ _ Hp) as [piece Hfind]. rewrite <- Hpieces in Hfind.
  pose proof Hfind as [Hpin Hpid]%findPiece_Some. rewrite Hpieces in Hpin.
  assert (id p ≠ "") as Hne by (by eapply splitImage_id_nonempty).
  assert (correctIndex piece < length (gridItems st)) as Hlt
    by (rewrite Hlen; by apply splitImage_index_lt).
  assert (gridItems st !! correctIndex piece = Some "") as Hslot.
  { destruct (lookup_lt_is_Some_2 _ _ Hlt) as [z Hz].
    destruct (decide (z = "")) as [->|Hz']; [done|]. exfalso.
    destruct (Hcorrect _ _ Hz Hz') as (q & Hq & Hqi).
    pose proof Hq as [Hqin Hqid]%findPiece_Some. rewrite Hpieces in Hqin.
    assert (z = id p) as ->.
    { rewrite <- Hqid, <- Hpid. by apply (splitImage_index_inj rows cols). }
    apply (Hdisj (id p)); [|done].
    apply list_elem_of_filter. split; [done|]. by eapply list_elem_of_lookup_2. }
  exists piece. split; [done|]. split; [done|]. split.
  { intros t Ht. unfold handleDragEnd. rewrite Hfind.
    case_bool_decide; [done|]. by rewrite bool_decide_eq_true_2. }
  assert (handleDragEnd (id p) (Some (OverSlot (correctIndex piece))) st
          = ({| pieces := pieces st;
                gridItems := <[correctIndex piece := id p]> (gridItems st);
                poolItems := filter (λ i, i ≠ id p) (poolItems st);
                activeId := None; isSolved := isSolved st |}, None)) as Hdrop.
  { unfold handleDragEnd. rewrite Hfind.
    rewrite bool_decide_eq_false_2 by (intros H; by apply H).
    by rewrite bool_decide_eq_false_2 by (intros H; by apply H). }
  assert (step (DragEnd (id p) (Some (OverSlot (correctIndex piece)))) st
          = runSolvedCheck
              {| pieces := pieces st;
                 gridItems := <[correctIndex piece := id p]> (gridItems st);
                 poolItems := filter (λ i, i ≠ id p) (poolItems st);
                 activeId := None; isSolved := isSolved st |}) as Hst1
    by (unfold step; by rewrite Hdrop).
  cbn zeta. rewrite Hdrop, Hst1. cbn [fst snd].
  set (st1 := runSolvedCheck _).
  assert (gridItems st1 = <[correctIndex piece := id p]> (gridItems st)) as Hg1
    by (subst st1; by rewrite runSolvedCheck_grid).
  assert (poolItems st1 = filter (λ i, i ≠ id p) (poolItems st)) as Hp1
    by (subst st1; by rewrite runSolvedCheck_pool).
  assert (pieces st1 = pieces st) as Hpc1
    by (subst st1; by rewrite runSolvedCheck_pieces).
  split; [done|]. split; [done|]. split; [done|]. split.
  { rewrite Hp1. intros [H _]%list_elem_of_filter. by apply H. }
  assert (indexOf (id p) (gridItems st1) = Some (correctIndex piece)) as Hidx.
  { destruct (indexOf (id p) (gridItems st1)) as [k|] eqn:E.
    - f_equal. apply indexOf_Some in E. rewrite Hg1 in E.
      destruct (decide (k = correctIndex piece)) as [->|Hk]; [done|].
      rewrite list_lookup_insert_ne in E by done. exfalso.
      apply (Hdisj (id p)); [|done].
      apply list_elem_of_filter. split; [done|]. by eapply list_elem_of_lookup_2.
    - apply indexOf_None in E. exfalso. apply E. rewrite Hg1.
      apply (list_elem_of_lookup_2 _ (correctIndex piece)).
      by apply list_lookup_insert_eq. }
  unfold step, handleDragEnd. rewrite Hpc1, Hfind, Hidx. cbn [fst].
  rewrite runSolvedCheck_grid, runSolvedCheck_pool. cbn [gridItems poolItems].
  rewrite Hg1, Hp1. split; [|done].
  rewrite list_insert_insert_eq. by apply list_insert_id.
Qed.

Lemma pool_piece_fits_its_slot_witness :
  reachable 2 2 Samples.slotStart
  ∧ ∃ piece, findPiece (pieces Samples.slotStart) "piece-2" = Some piece
      ∧ gridItems Samples.slotStart !! correctIndex piece = Some "".
Proof.
  assert (reachable 2 2 Samples.slotStart) as Hreach by (apply reach_init; reflexivity).
  split; [exact Hreach|].
  assert ("piece-2" ∈ poolItems Samples.slotStart) as Hpool
    by (apply (bool_decide_unpack _); vm_compute; exact I).
  destruct (pool_piece_fits_its_slot 2 2 Samples.slotStart "piece-2" Hreach Hpool)
    as (piece & Hfind & Hslot & _).
  exists piece. split; [exact Hfind|exact Hslot].
Defined.

End ExactSlotExtras.

(** ** Outlines of the interlocking pieces *)

Section JigsawExtras.
Import Engine Jigsaw.

Lemma lookup_map {A B} (f : A → B) (l : list A) (i : nat) :
  map f l !! i = f <$> l !! i.
Proof. apply list_lookup_fmap. Qed.

Lemma horizontal_entry rows cols row col :
  row ≤ rows → col < cols →
  entry (horizontal (generateTabPattern rows cols)) row col
  = Some (if bool_decide (row = 0 ∨ row = rows) then false
          else bool_decide ((row + col) mod 2 = 0)).
Proof.
  intros Hr Hc. unfold entry, generateTabPattern. cbn [horizontal].
  rewrite lookup_map, lookup_seq_lt by lia. cbn [fmap option_fmap option_map].
  by rewrite lookup_map, lookup_seq_lt by lia.
Qed.

Lemma vertical_entry rows cols row col :
  row < rows → col ≤ cols →
  entry (vertical (generateTabPattern rows cols)) row col
  = Some (if bool_decide (col = 0 ∨ col = cols) then false
          else bool_decide ((row + col + 1) mod 2 = 0)).
Proof.
  intros Hr Hc. unfold entry, generateTabPattern. cbn [vertical].
  rewrite lookup_map, lookup_seq_lt by lia. cbn [fmap option_fmap option_map].
  by rewrite lookup_map, lookup_seq_lt by lia.
Qed.

Lemma top_flags rows cols row col :
  row < rows → col < cols →
  let m := horizontal (generateTabPattern rows cols) in
  let even := bool_decide ((row + col) mod 2 = 0) in
  andEntry (bool_decide (0 < row)) m row col = Some (bool_decide (0 < row) && even)
  ∧ andNotEntry (bool_decide (0 < row)) m row col
    = Some (bool_decide (0 < row) && negb even).
Proof.
  intros Hr Hc m even. unfold andEntry, andNotEntry. subst m.
  rewrite horizontal_entry by lia. case_bool_decide as Hg; [|done].
  by rewrite bool_decide_eq_false_2 by lia.
Qed.

Lemma bottom_flags rows cols row col :
  row < rows → col < cols →
  let m := horizontal (generateTabPattern rows cols) in
  let even := bool_decide ((row + 1 + col) mod 2 = 0) in
  andEntry (bool_decide (row + 1 < rows)) m (row + 1) col
  = Some (bool_decide (row + 1 < rows) && even)
  ∧ andNotEntry (bool_decide (row + 1 < rows)) m (row + 1) col
    = Some (bool_decide (row + 1 < rows) && negb even).
Proof.
  intros Hr Hc m even. unfold andEntry, andNotEntry. subst m.
  rewrite horizontal_entry by lia. case_bool_decide as Hg; [|done].
  by rewrite bool_decide_eq_false_2 by lia.
Qed.

Lemma left_flags rows cols row col :
  row < rows → col < cols →
  let m := vertical (generateTabPattern rows cols) in
  let even := bool_decide ((row + col + 1) mod 2 = 0) in
  andEntry (bool_decide (0 < col)) m row col = Some (bool_decide (0 < col) && even)
  ∧ andNotEntry (bool_decide (0 < col)) m row col
    = Some (bool_decide (0 < col) && negb even).
Proof.
  intros Hr Hc m even. unfold andEntry, andNotEntry. subst m.
  rewrite vertical_entry by lia. case_bool_decide as Hg; [|done].
  by rewrite bool_decide_eq_false_2 by lia.
Qed.

Lemma right_flags rows cols row col :
  row < rows → col < cols →
  let m := vertical (generateTabPattern rows cols) in
  let even := bool_decide ((row + (col + 1) + 1) mod 2 = 0) in
  andEntry (bool_decide (col + 1 < cols)) m row (col + 1)
  = Some (bool_decide (col + 1 < cols) && even)
  ∧ andNotEntry (bool_decide (col + 1 < cols)) m row (col + 1)
    = Some (bool_decide (col + 1 < cols) && negb even).
Proof.
  intros Hr Hc m even. unfold andEntry, andNotEntry. subst m.
  rewrite vertical_entry by lia. case_bool_decide as Hg; [|done].
  by rewrite bool_decide_eq_false_2 by lia.
Qed.

Ltac outline_flags Hr Hc :=
  unfold outline;
  rewrite ?(proj1 (top_flags _ _ _ _ Hr Hc)), ?(proj2 (top_flags _ _ _ _ Hr Hc)),
    ?(proj1 (bottom_flags _ _ _ _ Hr Hc)), ?(proj2 (bottom_flags _ _ _ _ Hr Hc)),
    ?(proj1 (left_flags _ _ _ _ Hr Hc)), ?(proj2 (left_flags _ _ _ _ Hr Hc)),
    ?(proj1 (right_flags _ _ _ _ Hr Hc)), ?(proj2 (right_flags _ _ _ _ Hr Hc));
  cbn [mbind option_bind].

Lemma outline_is_Some width height rows cols row col :
  row < rows → col < cols →
  is_Some (outline width height row col rows cols (generateTabPattern rows cols)).
Proof. intros Hr Hc. outline_flags Hr Hc. by eexists. Qed.

(** X19.  The outlines of [generatePuzzlePath] over the pattern of
    [generateTabPattern] interlock.  For a piece of the grid the path is
    [M 0,0], the top, right, bottom and left blocks, and [Z].  When there is
    a piece below, the bottom block has a tab or a slot and draws, in the
    opposite direction, exactly the curves of the top block of the piece
    below moved down by [height]; when there is a piece to the right, the
    right block does so with the left block of that piece moved right by
    [width].  On the border of the grid a block is one straight line. *)
Theorem adjacent_outlines_interlock (width height : Q) (rows cols row col : nat) :
  row < rows → col < cols →
  let tabPattern := generateTabPattern rows cols in
  ∃ o, outline width height row col rows cols tabPattern = Some o
    ∧ generatePuzzlePath width height row col rows cols tabPattern
      = Some ([M (pt 0 0)] ++ top o ++ right o ++ bottom o ++ left o ++ [Z])
    ∧ (row + 1 < rows →
       ∃ below, outline width height (row + 1) col rows cols tabPattern = Some below
         ∧ length (bottom o) = 4
         ∧ Forall2 Segment_eq
             (reversed (segments (pt 0 0) (pt width height) (bottom o)))
             (map (shiftSegment (pt 0 height))
                  (segments (pt 0 0) (pt 0 0) (top below))))
    ∧ (col + 1 < cols →
       ∃ beside, outline width height row (col + 1) rows cols tabPattern = Some beside
         ∧ length (right o) = 4
         ∧ Forall2 Segment_eq
             (segments (pt 0 0) (pt width 0) (right o))
             (map (shiftSegment (pt width 0))
                  (reversed (segments (pt 0 0) (pt 0 height) (left beside)))))
    ∧ (row = 0 → top o = [L (pt width 0)])
    ∧ (col + 1 = cols → right o = [L (pt width height)])
    ∧ (row + 1 = rows → bottom o = [L (pt 0 height)])
    ∧ (col = 0 → left o = [L (pt 0 0)]).
Proof.
  intros Hr Hc tabPattern. subst tabPattern.
  destruct (outline_is_Some width height rows cols row col Hr Hc) as [o Ho].
  exists o. split; [done|]. split; [unfold generatePuzzlePath; by rewrite Ho|].
  revert Ho. outline_flags Hr Hc. intros [= <-]. cbn [top right bottom left].
  set (t := Qmin width height).
  split; [|split; [|split_and!]].
  - intros Hr'.
    destruct (outline_is_Some width height rows cols (row + 1) col Hr' Hc) as [below Hb].
    exists below. split; [done|].
    revert Hb. outline_flags Hr' Hc. intros [= <-]. cbn [top]. fold t.
    rewrite (bool_decide_eq_true_2 (row + 1 < rows)),
      (bool_decide_eq_true_2 (0 < row + 1)) by lia. cbn [andb].
    match goal with |- context [bool_decide ?P] => destruct (bool_decide P) end;
      cbn [negb];
      (split; [done|]);
      repeat (apply Forall2_cons; split; [unfold Segment_eq, Point_eq; simpl; split_and!; ring|]);
      apply Forall2_nil_2.
  - intros Hc'.
    destruct (outline_is_Some width height rows cols row (col + 1) Hr Hc') as [beside Hb].
    exists beside. split; [done|].
    revert Hb. outline_flags Hr Hc'. intros [= <-]. cbn [left]. fold t.
    rewrite (bool_decide_eq_true_2 (col + 1 < cols)),
      (bool_decide_eq_true_2 (0 < col + 1)) by lia. cbn [andb].
    match goal with |- context [bool_decide ?P] => destruct (bool_decide P) end;
      cbn [negb];
      (split; [done|]);
      repeat (apply Forall2_cons; split; [unfold Segment_eq, Point_eq; simpl; split_and!; ring|]);
      apply Forall2_nil_2.
  - intros ->. by rewrite bool_decide_eq_false_2 by lia.
  - intros Hcol. by rewrite (bool_decide_eq_false_2 (col + 1 < cols)) by lia.
  - intros Hrow. by rewrite (bool_decide_eq_false_2 (row + 1 < rows)) by lia.
  - intros ->. by rewrite (bool_decide_eq_false_2 (0 < 0)) by lia.
Qed.

Lemma adjacent_outlines_interlock_witness :
  ∃ o, outline 100 100 0 0 2 2 (generateTabPattern 2 2) = Some o
    ∧ top o = [L (pt 100 0)] ∧ length (bottom o) = 4.
Proof.
  assert (0 < 2) as H02 by lia. assert (0 + 1 < 2) as H12 by lia.
  destruct (adjacent_outlines_interlock 100 100 2 2 0 0 H02 H02)
    as (o & Ho & _ & Hbelow & _ & Htop & _).
  destruct (Hbelow H12) as (_ & _ & Hlen & _).
  exists o. split; [exact Ho|]. split; [exact (Htop eq_refl)|exact Hlen].
Defined.

Lemma Qmin_nonneg a b : (0 <= a)%Q → (0 <= b)%Q → (0 <= Qmin a b <= a ∧ Qmin a b <= b)%Q.
Proof. intros Ha Hb. destruct (Qmin_cases a b) as [[-> ?]|[-> ?]]; lra. Qed.

End JigsawExtras.

(** ** The countdown and the shuffle *)

Section ClockExtras.
Import Clock.

Lemma second_stopped st : stopped st = true → second st = st.
Proof. unfold second. by intros ->. Qed.

Lemma iter_second_stopped n st : stopped st = true → Nat.iter n second st = st.
Proof.
  intros Hs. induction n as [|n IH]; [done|]. simpl. rewrite IH. by apply second_stopped.
Qed.

Lemma elapsed_S n : (elapsed (S n) == elapsed n + 1)%Q.
Proof.
  unfold elapsed. rewrite Nat2Z.inj_succ, <- Z.add_1_r, inject_Z_plus. reflexivity.
Qed.

Lemma countdown_running (timeLimit : Q) (st : State) (n : nat) :
  stopped st = false → timeRemaining st = timeLimit →
  let st' := Nat.iter n second st in
  isPaused st' = false ∧ loading st' = false ∧ isSolved st' = false
  ∧ ((elapsed n < timeLimit)%Q →
     (timeRemaining st' == timeLimit - elapsed n)%Q ∧ isGameOver st' = false)
  ∧ (0 < n → (timeLimit <= elapsed n)%Q →
     (timeRemaining st' == 0)%Q ∧ isGameOver st' = true).
Proof.
  intros Hrun Htime.
  assert (isPaused st = false ∧ loading st = false ∧ isSolved st = false
          ∧ isGameOver st = false) as (Hp & Hl & Hs & Hg).
  { unfold stopped in Hrun. by destruct (loading st), (isSolved st), (isGameOver st),
      (isPaused st). }
  induction n as [|n IH]; cbn zeta.
  - simpl. split_and!; [done..| |lia].
    intros _. rewrite Htime. unfold elapsed. simpl. split; [ring|done].
  - cbn zeta in IH. destruct IH as (IHp & IHl & IHs & IHlt & IHge).
    simpl. set (prev := Nat.iter n second st) in *.
    pose proof (elapsed_S n) as HS.
    destruct (Qlt_le_dec (elapsed n) timeLimit) as [Hlt|Hge].
    + destruct (IHlt Hlt) as [Ht Hg'].
      assert (stopped prev = false) as Hrun' by (unfold stopped; by rewrite IHp, IHl, IHs, Hg').
      unfold second. rewrite Hrun'. unfold tick.
      destruct (Qle_bool (timeRemaining prev) 1) eqn:E; simpl.
      * apply Qle_bool_iff in E. split_and!; [done..| |].
        -- intros Hlt'. exfalso. rewrite HS in Hlt'. rewrite Ht in E. lra.
        -- done.
      * assert (¬ (timeRemaining prev <= 1)%Q) as E'
          by (intros H; apply Qle_bool_iff in H; congruence).
        split_and!; [done..| |].
        -- intros _. split; [|done]. rewrite Ht, HS. ring.
        -- intros _ Hge. exfalso. apply E'. rewrite Ht. rewrite HS in Hge. lra.
    + destruct n as [|n].
      * (* the first second, with a limit that is not positive *)
        unfold second. subst prev. simpl. rewrite Hrun. unfold tick.
        change (elapsed 0) with 0%Q in Hge, HS.
        assert (Qle_bool (timeRemaining st) 1 = true) as ->
          by (apply Qle_bool_iff; rewrite Htime; lra).
        simpl. split_and!; [done..| |done].
        intros Hlt. exfalso. rewrite HS in Hlt. lra.
      * destruct (IHge ltac:(lia) Hge) as [Ht Hg'].
        assert (stopped prev = true) as Hstop
          by (unfold stopped; rewrite Hg'; by rewrite !orb_true_r).
        rewrite second_stopped by done.
        split_and!; [done..| |done].
        intros Hlt. exfalso. rewrite HS in Hlt. lra.
Qed.

(** X21.  The countdown.  While the puzzle is neither loading, solved, over
    nor paused, and nothing else changes, the time shown after [n] seconds is
    [timeLimit - n] as long as [n] is below [timeLimit]; from the first
    second at which [n] reaches [timeLimit] on, the time is 0, the game is
    over and further seconds change nothing.  After the first second the
    time is never negative. *)
Theorem countdown_ends_the_game (timeLimit : Q) (st : State) (n : nat) :
  stopped st = false → timeRemaining st = timeLimit →
  let st' := Nat.iter n second st in
  ((elapsed n < timeLimit)%Q →
   (timeRemaining st' == timeLimit - elapsed n)%Q ∧ isGameOver st' = false)
  ∧ (0 < n → (timeLimit <= elapsed n)%Q →
     (timeRemaining st' == 0)%Q ∧ isGameOver st' = true
     ∧ ∀ m, Nat.iter m second st' = st')
  ∧ (0 < n → (0 <= timeRemaining st')%Q)
  ∧ isPaused st' = false ∧ loading st' = false ∧ isSolved st' = false.
Proof.
  intros Hrun Htime st'.
  destruct (countdown_running timeLimit st n Hrun Htime) as (Hp & Hl & Hs & Hlt & Hge).
  fold st' in Hp, Hl, Hs, Hlt, Hge.
  split; [done|]. split; [|split; [|done]].
  - intros Hn Hle. destruct (Hge Hn Hle) as [Ht Hg]. split; [done|]. split; [done|].
    intros m. apply iter_second_stopped. unfold stopped. rewrite Hg.
    by rewrite !orb_true_r.
  - intros Hn. destruct (Qlt_le_dec (elapsed n) timeLimit) as [H|H].
    + destruct (Hlt H) as [-> _]. lra.
    + destruct (Hge Hn H) as [-> _]. lra.
Qed.

Lemma countdown_ends_the_game_witness :
  (timeRemaining (Nat.iter 3 second (mkState 3 false false false false)) == 0)%Q
  ∧ isGameOver (Nat.iter 3 second (mkState 3 false false false false)) = true.
Proof.
  assert (0 < 3) as Hn by lia.
  assert (3 <= elapsed 3)%Q as Hle by (vm_compute; discriminate).
  destruct (countdown_ends_the_game 3 (mkState 3 false false false false) 3
              eq_refl eq_refl) as (_ & Hover & _).
  destruct (Hover Hn Hle) as (Ht & Hg & _).
  split; [exact Ht|exact Hg].
Defined.

(** *** [formatTime] *)

Lemma two_digits (secs : Z) :
  (0 ≤ secs < 60)%Z →
  padStart 2 (Ascii.ascii_of_nat 48) (pretty secs)
  = String (digit (secs `div` 10)) (String (digit (secs `mod` 10)) "").
Proof.
  intros Hs.
  assert (Forall (λ n, padStart 2 (Ascii.ascii_of_nat 48) (pretty (Z.of_nat n))
                       = String (digit (Z.of_nat n `div` 10))
                                (String (digit (Z.of_nat n `mod` 10)) ""))
                 (seq 0 60)) as Hall.
  { apply (bool_decide_unpack _). vm_compute. exact I. }
  rewrite Forall_forall in Hall.
  specialize (Hall (Z.to_nat secs)). rewrite Z2Nat.id in Hall by lia.
  apply Hall, elem_of_seq. lia.
Qed.

Lemma string_app_length (a b : string) :
  String.length (a +:+ b) = String.length a + String.length b.
Proof. induction a as [|x a IH]; [done|]. rewrite string_app_cons. simpl. by rewrite IH. Qed.

Lemma string_app_nil_l (b : string) : "" +:+ b = b.
Proof. done. Qed.

Lemma string_app_inj_length (a1 a2 b1 b2 : string) :
  String.length b1 = String.length b2 →
  a1 +:+ b1 = a2 +:+ b2 → a1 = a2 ∧ b1 = b2.
Proof.
  revert a2. induction a1 as [|x a1 IH]; intros [|y a2] Hlen;
    rewrite ?string_app_cons, ?string_app_nil_l.
  - done.
  - intros ->. simpl in Hlen. rewrite string_app_length in Hlen. lia.
  - intros <-. simpl in Hlen. rewrite string_app_length in Hlen. lia.
  - intros [= -> H]. destruct (IH a2 Hlen H) as [-> ->]. done.
Qed.

(** X22.  [formatTime] of a whole number of seconds that is not negative
    is the minutes, a colon and the seconds below sixty written with exactly
    two digits; sixty times the minutes plus the seconds is the time, and two
    different times are never shown alike. *)
Theorem formatTime_minutes_and_seconds (seconds : Z) :
  (0 ≤ seconds)%Z →
  let mins := (seconds `div` 60)%Z in
  let secs := (seconds `mod` 60)%Z in
  formatTime seconds
  = pretty mins +:+ ":"
    +:+ String (digit (secs `div` 10)) (String (digit (secs `mod` 10)) "")
  ∧ (seconds = 60 * mins + secs)%Z ∧ (0 ≤ secs < 60)%Z
  ∧ ∀ other, (0 ≤ other)%Z → formatTime other = formatTime seconds → other = seconds.
Proof.
  intros Hs mins secs.
  assert (∀ t, (0 ≤ t)%Z →
            formatTime t
            = pretty (t `div` 60)%Z +:+ ":"
              +:+ String (digit ((t `mod` 60) `div` 10))
                         (String (digit ((t `mod` 60) `mod` 10)) "")) as Hfmt.
  { intros t Ht. unfold formatTime. rewrite Z.rem_mod_nonneg by lia.
    rewrite two_digits; [done|]. apply Z.mod_pos_bound. lia. }
  split; [by apply Hfmt|].
  split; [subst mins secs; apply Z.div_mod; lia|].
  split; [subst secs; apply Z.mod_pos_bound; lia|].
  intros other Ho. rewrite (Hfmt other Ho), (Hfmt seconds Hs).
  rewrite <- !string_app_assoc.
  intros [Hm Hd]%string_app_inj_length; [|done].
  apply string_app_inj_length in Hm as [Hm _]; [|done].
  apply (inj pretty) in Hm.
  injection Hd as H1 H0.
  assert (∀ t, (0 ≤ t)%Z → (0 ≤ (t `mod` 60) `div` 10 < 10)%Z
                             ∧ (0 ≤ (t `mod` 60) `mod` 10 < 10)%Z) as Hr.
  { intros t Ht. pose proof (Z.mod_pos_bound t 60 ltac:(lia)).
    split; [|apply Z.mod_pos_bound; lia].
    split; [apply Z.div_pos; lia|apply Z.div_lt_upper_bound; lia]. }
  destruct (Hr other Ho) as [? ?], (Hr seconds Hs) as [? ?].
  unfold digit in H1, H0.
  apply pretty_N_char_inj in H1; [|lia..]. apply pretty_N_char_inj in H0; [|lia..].
  rewrite (Z.div_mod other 60), (Z.div_mod seconds 60) by lia.
  rewrite (Z.div_mod (other `mod` 60) 10), (Z.div_mod (seconds `mod` 60) 10) by lia.
  lia.
Qed.

Lemma formatTime_witness :
  formatTime 125 = "2:05".
Proof.
  assert (0 ≤ 125)%Z as H by lia.
  destruct (formatTime_minutes_and_seconds 125 H) as (Hfmt & _).
  rewrite Hfmt. reflexivity.
Defined.

End ClockExtras.

Section ShuffleFacts.
Import Shuffle.
Context {A : Type}.
Implicit Types (a l target : list A).

Lemma drawn_le random k i :
  (0 <= random k < 1)%Q → drawn random k i ≤ i.
Proof.
  intros [H0 H1]. unfold drawn.
  set (n := inject_Z (Z.of_nat (i + 1))).
  assert (0 < n)%Q as Hn.
  { subst n. change 0%Q with (inject_Z 0). rewrite <- Zlt_Qlt. lia. }
  assert (random k * n < n)%Q as Hlt by nra.
  assert (Qfloor (random k * n) < Z.of_nat (i + 1))%Z as Hf.
  { rewrite Zlt_Qlt. eapply Qle_lt_trans; [apply Qfloor_le|]. done. }
  lia.
Qed.

Lemma swap_length a i j : length (swap a i j) = length a.
Proof.
  unfold swap. destruct (a !! i), (a !! j); [|done..]. by rewrite !length_insert.
Qed.

Lemma swap_lookup a i j k :
  i < length a → j < length a →
  swap a i j !! k
  = a !! (if decide (k = i) then j else if decide (k = j) then i else k).
Proof.
  intros Hi Hj. unfold swap.
  destruct (lookup_lt_is_Some_2 a i Hi) as [ai Hai].
  destruct (lookup_lt_is_Some_2 a j Hj) as [aj Haj].
  rewrite Hai, Haj.
  destruct (decide (k = j)) as [->|Hkj].
  - rewrite list_lookup_insert_eq by (by rewrite length_insert).
    case_decide; subst; congruence.
  - rewrite list_lookup_insert_ne by done.
    destruct (decide (k = i)) as [->|Hki].
    + by rewrite list_lookup_insert_eq.
    + by rewrite list_lookup_insert_ne.
Qed.

Lemma swap_perm a i j : swap a i j ≡ₚ a.
Proof.
  destruct (decide (i < length a ∧ j < length a)) as [[Hi Hj]|Hout].
  - apply Permutation_inj. split; [apply swap_length|].
    exists (λ k, if decide (k = i) then j else if decide (k = j) then i else k).
    split.
    + intros x y. repeat case_decide; lia.
    + intros k. by apply swap_lookup.
  - unfold swap. destruct (a !! i) as [ai|] eqn:Ei; [|done].
    destruct (a !! j) as [aj|] eqn:Ej; [|done].
    apply lookup_lt_Some in Ei, Ej. lia.
Qed.

Lemma shuffleFrom_perm random calls i l : shuffleFrom random calls i l ≡ₚ l.
Proof.
  revert calls l. induction i as [|i IH]; intros calls l; simpl; [done|].
  rewrite IH. apply swap_perm.
Qed.

Lemma shuffleFrom_ext random random' calls i l :
  (∀ k, calls ≤ k → random k = random' k) →
  shuffleFrom random calls i l = shuffleFrom random' calls i l.
Proof.
  revert calls l. induction i as [|i IH]; intros calls l Hext; simpl; [done|].
  rewrite (Hext calls) by lia. apply IH. intros k Hk. apply Hext. lia.
Qed.

Lemma take_swap a n i j :
  i < n → j < n → take n (swap a i j) = swap (take n a) i j.
Proof.
  intros Hi Hj. unfold swap.
  rewrite !lookup_take_lt by done.
  destruct (a !! i), (a !! j); [|done..].
  by rewrite !take_insert_lt.
Qed.

Lemma Permutation_snoc_inv l1 l2 (x : A) :
  l1 ++ [x] ≡ₚ l2 ++ [x] → l1 ≡ₚ l2.
Proof. apply Permutation_app_inv_r. Qed.

Lemma drawFor_range j i : j ≤ i → (0 <= drawFor j i < 1)%Q.
Proof.
  intros Hj. unfold drawFor.
  assert (0 < inject_Z (Z.of_nat (i + 1)))%Q as Hn.
  { change 0%Q with (inject_Z 0). rewrite <- Zlt_Qlt. lia. }
  split.
  - apply Qle_shift_div_l; [done|]. rewrite Qmult_0_l.
    change 0%Q with (inject_Z 0). rewrite <- Zle_Qle. lia.
  - apply Qlt_shift_div_r; [done|]. rewrite Qmult_1_l. rewrite <- Zlt_Qlt. lia.
Qed.

Lemma drawFor_floor j i :
  Z.to_nat (Qfloor (drawFor j i * inject_Z (Z.of_nat (i + 1)))) = j.
Proof.
  unfold drawFor.
  assert (inject_Z (Z.of_nat j) / inject_Z (Z.of_nat (i + 1))
          * inject_Z (Z.of_nat (i + 1)) == inject_Z (Z.of_nat j))%Q as ->.
  { field. intros H.
    assert (0 < inject_Z (Z.of_nat (i + 1)))%Q as Hn.
    { change 0%Q with (inject_Z 0). rewrite <- Zlt_Qlt. lia. }
    rewrite H in Hn. by apply Qlt_irrefl in Hn. }
  rewrite Qfloor_Z. lia.
Qed.

Lemma shuffleFrom_reaches i :
  ∀ calls l target,
    length l = length target → i < length l →
    (∀ k, i < k → l !! k = target !! k) →
    take (S i) l ≡ₚ take (S i) target →
    ∃ random, (∀ k, 0 <= random k < 1)%Q ∧ shuffleFrom random calls i l = target.
Proof.
  induction i as [|i IH]; intros calls l target Hlen Hi Hrest Hperm.
  - exists (λ _, 0%Q). split; [intros _; lra|]. simpl.
    apply list_eq. intros [|k]; [|apply Hrest; lia].
    destruct l as [|x l], target as [|y target]; simpl in *; try lia.
    apply Permutation_singleton_l in Hperm. by injection Hperm as ->.
  - destruct (lookup_lt_is_Some_2 target (S i)) as [t Ht]; [lia|].
    assert (t ∈ take (S (S i)) l) as Hin.
    { rewrite Hperm. apply (list_elem_of_lookup_2 _ (S i)).
      by rewrite lookup_take_lt by lia. }
    apply list_elem_of_lookup in Hin as [j Hj].
    assert (j < S (S i)) as Hjlt.
    { apply lookup_lt_Some in Hj. rewrite length_take in Hj. lia. }
    rewrite lookup_take_lt in Hj by done.
    set (l' := swap l (S i) j).
    assert (length l' = length l) as Hlen' by apply swap_length.
    assert (l' !! S i = Some t) as Hlast.
    { subst l'. rewrite swap_lookup by lia. by rewrite decide_True. }
    destruct (IH (S calls) l' target) as (random' & Hrange & Hrun).
    + lia.
    + lia.
    + intros k Hk. destruct (decide (k = S i)) as [->|Hne]; [congruence|].
      subst l'. rewrite swap_lookup by lia.
      rewrite decide_False, decide_False by lia. apply Hrest. lia.
    + assert (take (S (S i)) l' ≡ₚ take (S (S i)) target) as Hperm'.
      { subst l'. rewrite take_swap by lia. by rewrite swap_perm. }
      rewrite (take_S_r l' (S i) t), (take_S_r target (S i) t) in Hperm' by done.
      by apply Permutation_snoc_inv in Hperm'.
    + exists (λ k, if decide (k = calls) then drawFor j (S i) else random' k).
      split.
      * intros k. case_decide; [apply drawFor_range; lia|apply Hrange].
      * cbn [shuffleFrom]. cbv beta. rewrite decide_True by done.
        rewrite drawFor_floor. fold l'.
        rewrite <- Hrun. apply shuffleFrom_ext. intros k Hk.
        by rewrite decide_False by lia.
Qed.

Lemma shuffle_reaches l target :
  target ≡ₚ l →
  ∃ random, (∀ k, 0 <= random k < 1)%Q ∧ shuffle random l = target.
Proof.
  intros Hperm. unfold shuffle.
  destruct l as [|x l].
  - apply Permutation_nil_r in Hperm as ->. exists (λ _, 0%Q). split; [intros _; lra|done].
  - pose proof (Permutation_length Hperm) as Hlen.
    apply shuffleFrom_reaches.
    + done.
    + simpl. lia.
    + intros k Hk. simpl in Hk.
      rewrite !lookup_ge_None_2; [done|simpl in *; lia..].
    + rewrite !take_ge by (simpl in *; lia). done.
Qed.

End ShuffleFacts.

Section ShuffleSessions.
Import Engine Shuffle.

(** X23.  The shuffle of the initialisation.  With every value of
    [Math.random()] in [[0, 1)], every index drawn lies within the part of
    the array still to be fixed, and the pool is a rearrangement of the
    piece ids (without repetition if the ids have none), so the state it
    gives is an initial state of a session.  Every rearrangement of the ids
    is the outcome of the shuffle for some values of [Math.random()]. *)
Theorem shuffle_rearranges_the_pool
    (random : nat → Q) (pieces : list Piece.t) (snapThreshold : Q) :
  (∀ k, 0 <= random k < 1)%Q →
  let shuffled := shuffle random (map Piece.id pieces) in
  shuffled ≡ₚ map Piece.id pieces
  ∧ (∀ k i, drawn random k i ≤ i)
  ∧ (NoDup (map Piece.id pieces) → NoDup shuffled)
  ∧ DndTriangle.reachable snapThreshold pieces (DndTriangle.initialize pieces shuffled)
  ∧ ∀ target, target ≡ₚ map Piece.id pieces →
      ∃ random', (∀ k, 0 <= random' k < 1)%Q
        ∧ shuffle random' (map Piece.id pieces) = target.
Proof.
  intros Hrange shuffled.
  assert (shuffled ≡ₚ map Piece.id pieces) as Hperm by apply shuffleFrom_perm.
  split; [done|]. split; [intros k i; by apply drawn_le|].
  split; [intros Hnd; by rewrite Hperm|].
  split; [exists None, []; by apply DndTriangle.session_init|].
  intros target Ht. by apply shuffle_reaches.
Qed.

Lemma shuffle_rearranges_the_pool_witness :
  shuffle (λ _, 0%Q) (map Piece.id Samples.pairPieces) ≡ₚ map Piece.id Samples.pairPieces.
Proof.
  assert (∀ k : nat, 0 <= (λ _ : nat, 0%Q) k < 1)%Q as Hrange
    by (intros k; split; [apply Qle_refl|reflexivity]).
  destruct (shuffle_rearranges_the_pool (λ _, 0%Q) Samples.pairPieces 10 Hrange)
    as (Hperm & _).
  exact Hperm.
Defined.

End ShuffleSessions.

(** ** What is drawn where *)

Section DisplayExtras.
Import Engine Display.




End DisplayExtras.

(** ** The canvas of a triangle piece, and pool pieces of the mouse-driven
    component *)

Section TriangleCanvasExtras.
Import Engine TriangleCanvas.




End TriangleCanvasExtras.

Section MousePoolDrag.
Import Engine MouseTriangle.



End MousePoolDrag.
